(** * CommonInventory: registry state, redirects, serializer and defaults
      propagation

    A shallow embedding of the registry subsystem of the CommonInventory
    plugin (Source/CommonInventory/Private/InventoryRegistry) together with
    the properties its specification states about it. *)

From Stdlib Require Import ZArith Lia Bool.
From Stdlib Require OrderedTypeEx Strings.Byte.
From stdpp Require Import base option list strings gmap relations sorting.

Local Open Scope string_scope.
Local Open Scope list_scope.
Local Open Scope Z_scope.

(* ===================================================================== *)
(** * Part I: definitions                                                 *)
(* ===================================================================== *)

(** ** Names and identifiers *)

(** [FName] is the engine's interned name.  A name is represented by its
    canonical spelling; [NAME_None] is the distinguished empty name. *)
Abbreviation FName := string.

Definition NAME_None : FName := "None".

Definition IsNone (n : FName) : bool := bool_decide (n = NAME_None).

(** ** Logging

    [COMMON_INVENTORY_LOG] appends a line to the log.  A line keeps its
    verbosity and the format string. *)
Inductive ELogVerbosity := Error | Warning | Log.

Record FLogLine := LogLine { Verbosity : ELogVerbosity; Format : string }.

#[global] Instance ELogVerbosity_eq_dec : EqDecision ELogVerbosity.
Proof. solve_decision. Defined.

Definition is_error (l : FLogLine) : bool :=
  bool_decide (Verbosity l = Error).

Definition logs_error (log : list FLogLine) : Prop :=
  ∃ l, l ∈ log ∧ Verbosity l = Error.

(** ** Containers: TMap and TSet with insertion order

    The redirect code iterates over its [TMap]s and [TSet]s, so they are
    kept as lists in insertion order.  [Emplace] on an existing key replaces
    the value in place. *)
Module TMap.
Abbreviation t K V := (list (K * V)).

Section ops.
Context {K V : Type} `{EqDecision K}.

Fixpoint Find (m : t K V) (k : K) : option V :=
      match m with
      | [] => None
      | (k', v) :: m' => if decide (k' = k) then Some v else Find m' k
      end.

Definition Contains (m : t K V) (k : K) : bool :=
      match Find m k with Some _ => true | None => false end.

Fixpoint Emplace (m : t K V) (k : K) (v : V) : t K V :=
      match m with
      | [] => [(k, v)]
      | (k', v') :: m' =>
          if decide (k' = k) then (k, v) :: m' else (k', v') :: Emplace m' k v
      end.

Definition Keys (m : t K V) : list K := m.*1.
End ops.
End TMap.

Module TSet.
Abbreviation t K := (list K).

Section ops.
Context {K : Type} `{EqDecision K}.

Definition Contains (s : t K) (k : K) : bool := bool_decide (k ∈ s).

Definition Emplace (s : t K) (k : K) : t K :=
      if Contains s k then s else s ++ [k].

Definition Append (s : t K) (ks : list K) : t K :=
      foldl Emplace s ks.
End ops.
End TSet.

(** ** Redirectors (CommonInventorySettings.h) *)

Record FCommonInventoryRedirector := Redirector {
  OldValue : FName;
  NewValue : FName
}.

#[global] Instance FCommonInventoryRedirector_eq_dec :
  EqDecision FCommonInventoryRedirector.
Proof. solve_decision. Defined.

Definition Redirector_IsValid (r : FCommonInventoryRedirector) : bool :=
  negb (IsNone (OldValue r)) && negb (IsNone (NewValue r))
  && negb (bool_decide (OldValue r = NewValue r)).

Definition SwapValues (r : FCommonInventoryRedirector) :
  FCommonInventoryRedirector :=
  {| OldValue := NewValue r; NewValue := OldValue r |}.

(** ** Redirect resolution (CommonInventoryRegistryTypes.cpp) *)

(** [GenerateRedirectionMap]: invalid and ambiguous redirectors are logged
    and skipped; the others are inserted in list order. *)
Fixpoint GenerateRedirectionMap_from (m : TMap.t FName FName)
    (InRedirects : list FCommonInventoryRedirector)
    : TMap.t FName FName * list FLogLine :=
  match InRedirects with
  | [] => (m, [])
  | r :: rs =>
      if negb (Redirector_IsValid r) then
        let '(m', log) := GenerateRedirectionMap_from m rs in
        (m', LogLine Warning "Found invalid redirector: %s -> %s." :: log)
      else if TMap.Contains m (OldValue r) then
        let '(m', log) := GenerateRedirectionMap_from m rs in
        (m', LogLine Warning "Found ambiguous redirector: %s -> %s." :: log)
      else
        GenerateRedirectionMap_from (TMap.Emplace m (OldValue r) (NewValue r)) rs
  end.

Definition GenerateRedirectionMap
    (InRedirects : list FCommonInventoryRedirector) : TMap.t FName FName :=
  (GenerateRedirectionMap_from [] InRedirects).1.

(** [ResolveValue]: the [while] loop walks the chain from [OutValue].  The
    loop is bounded by [fuel]; [ResolveValue] below supplies enough of it
    (see [ResolveValue_loop_fuel]).  The result is [OutValue]. *)
Fixpoint ResolveValue_loop (fuel : nat) (UnresolvedRedirects : TMap.t FName FName)
    (InValue : FName) (StopValue : option FName)
    (VisitedKeys : TSet.t FName) (OutValue : FName) : option FName :=
  match fuel with
  | O => None
  | S fuel' =>
      match TMap.Find UnresolvedRedirects OutValue with
      | None => Some OutValue
      | Some NextValue =>
          if bool_decide (StopValue = Some NextValue) then Some NextValue
          else if TSet.Contains VisitedKeys NextValue then Some InValue
          else ResolveValue_loop fuel' UnresolvedRedirects InValue StopValue
                 (TSet.Emplace VisitedKeys OutValue) NextValue
      end
  end.

(** Returns [(InValue != OutValue, OutValue)]. *)
Definition ResolveValue (UnresolvedRedirects : TMap.t FName FName)
    (InValue : FName) (StopValue : option FName) : option (bool * FName) :=
  match ResolveValue_loop (length UnresolvedRedirects + 2) UnresolvedRedirects
          InValue StopValue [InValue] InValue with
  | Some OutValue => Some (negb (bool_decide (InValue = OutValue)), OutValue)
  | None => None
  end.

(** [ResolveRedirectionMap]: the inner [while] loop of one entry.  Returns
    the visited keys and the final [NewValue] ([NAME_None] on a cycle). *)
Fixpoint ResolveRedirectionMap_walk (fuel : nat)
    (UnresolvedRedirects OutResolvedRedirects : TMap.t FName FName)
    (InvalidKeys VisitedKeys : TSet.t FName) (NewValue : FName)
    : option (TSet.t FName * FName) :=
  match fuel with
  | O => None
  | S fuel' =>
      match TMap.Find UnresolvedRedirects NewValue with
      | None => Some (VisitedKeys, NewValue)
      | Some NextValue =>
          let VisitedKeys' := TSet.Emplace VisitedKeys NewValue in
          match TMap.Find OutResolvedRedirects NextValue with
          | Some ResolvedValue => Some (VisitedKeys', ResolvedValue)
          | None =>
              if TSet.Contains VisitedKeys' NextValue
                 || TSet.Contains InvalidKeys NextValue
              then Some (VisitedKeys', NAME_None)
              else ResolveRedirectionMap_walk fuel' UnresolvedRedirects
                     OutResolvedRedirects InvalidKeys VisitedKeys' NextValue
          end
      end
  end.

(** One iteration of the [for] loop over the unresolved map. *)
Definition ResolveRedirectionMap_entry (fuel : nat)
    (UnresolvedRedirects : TMap.t FName FName)
    (st : TMap.t FName FName * TSet.t FName) (entry : FName * FName)
    : option (TMap.t FName FName * TSet.t FName) :=
  let '(OutResolvedRedirects, InvalidKeys) := st in
  let '(OldValue, NewValue) := entry in
  match TMap.Find OutResolvedRedirects NewValue with
  | Some ResolvedValue =>
      Some (TMap.Emplace OutResolvedRedirects OldValue ResolvedValue, InvalidKeys)
  | None =>
      if TSet.Contains InvalidKeys NewValue then
        Some (OutResolvedRedirects, TSet.Emplace InvalidKeys OldValue)
      else
        match ResolveRedirectionMap_walk fuel UnresolvedRedirects
                OutResolvedRedirects InvalidKeys (TSet.Emplace [] OldValue) NewValue with
        | None => None
        | Some (VisitedKeys, NewValue') =>
            if negb (IsNone NewValue') then
              Some (foldl (λ m Key, TMap.Emplace m Key NewValue')
                      OutResolvedRedirects VisitedKeys, InvalidKeys)
            else
              Some (OutResolvedRedirects, TSet.Append InvalidKeys VisitedKeys)
        end
  end.

Fixpoint ResolveRedirectionMap_loop (fuel : nat)
    (UnresolvedRedirects : TMap.t FName FName)
    (st : TMap.t FName FName * TSet.t FName) (entries : list (FName * FName))
    : option (TMap.t FName FName * TSet.t FName) :=
  match entries with
  | [] => Some st
  | e :: es =>
      match ResolveRedirectionMap_entry fuel UnresolvedRedirects st e with
      | None => None
      | Some st' => ResolveRedirectionMap_loop fuel UnresolvedRedirects st' es
      end
  end.

(** Returns the resolved map, the invalid keys and the log. *)
Definition ResolveRedirectionMap (UnresolvedRedirects : TMap.t FName FName)
    : option (TMap.t FName FName * TSet.t FName * list FLogLine) :=
  match ResolveRedirectionMap_loop (S (length UnresolvedRedirects))
          UnresolvedRedirects ([], []) UnresolvedRedirects with
  | None => None
  | Some (OutResolvedRedirects, InvalidKeys) =>
      Some (OutResolvedRedirects, InvalidKeys,
            if bool_decide (InvalidKeys = []) then []
            else [LogLine Error
                    "Failed to fully resolve redirection map due to circular dependencies between %s."])
  end.

(** ** Identifiers and the redirect singleton *)

Record FPrimaryAssetId := MkPrimaryAssetId {
  PrimaryAssetType : FName;
  PrimaryAssetName : FName
}.

#[global] Instance FPrimaryAssetId_eq_dec : EqDecision FPrimaryAssetId.
Proof. solve_decision. Defined.

Record FCommonInventoryRedirects := Redirects_ {
  TypeRedirectionMap : TMap.t FName FName;
  NameRedirectionMap : TMap.t FName FName
}.

(** [LoadRedirectsFromConfig]: both lists of the settings are resolved
    independently. *)
Definition LoadRedirectsFromConfig
    (PrimaryAssetTypeRedirects PrimaryAssetNameRedirects : list FCommonInventoryRedirector)
    : option FCommonInventoryRedirects :=
  match ResolveRedirectionMap (GenerateRedirectionMap PrimaryAssetTypeRedirects),
        ResolveRedirectionMap (GenerateRedirectionMap PrimaryAssetNameRedirects) with
  | Some (TypeRedirects, _, _), Some (NameRedirects, _, _) =>
      Some {| TypeRedirectionMap := TypeRedirects;
              NameRedirectionMap := NameRedirects |}
  | _, _ => None
  end.

Definition IsStale (R : FCommonInventoryRedirects) (Id : FPrimaryAssetId) : bool :=
  TMap.Contains (NameRedirectionMap R) (PrimaryAssetName Id)
  || TMap.Contains (TypeRedirectionMap R) (PrimaryAssetType Id).

(** [TryRedirect(FPrimaryAssetType&)]: returns the flag and the updated value. *)
Definition TryRedirectType (R : FCommonInventoryRedirects)
    (InPrimaryAssetType : FName) : bool * FName :=
  match TMap.Find (TypeRedirectionMap R) InPrimaryAssetType with
  | Some NewValue => (true, NewValue)
  | None => (false, InPrimaryAssetType)
  end.

(** [TryRedirect(FPrimaryAssetId&)]: the name and the type are looked up
    once each, independently. *)
Definition TryRedirect (R : FCommonInventoryRedirects)
    (InPrimaryAssetId : FPrimaryAssetId) : bool * FPrimaryAssetId :=
  let '(bIsDirty1, Name) :=
    match TMap.Find (NameRedirectionMap R) (PrimaryAssetName InPrimaryAssetId) with
    | Some NewValue => (true, NewValue)
    | None => (false, PrimaryAssetName InPrimaryAssetId)
    end in
  let '(bIsDirty2, Type_) :=
    match TMap.Find (TypeRedirectionMap R) (PrimaryAssetType InPrimaryAssetId) with
    | Some NewValue => (true, NewValue)
    | None => (false, PrimaryAssetType InPrimaryAssetId)
    end in
  (bIsDirty1 || bIsDirty2,
   {| PrimaryAssetType := Type_; PrimaryAssetName := Name |}).

(** ** Editing the raw redirect list *)

(** [TArray::Find]: index of the first element equal to [x]. *)
Fixpoint TArray_Find {A} `{EqDecision A} (l : list A) (x : A) : option nat :=
  match l with
  | [] => None
  | y :: l' => if decide (y = x) then Some O else S <$> TArray_Find l' x
  end.

(** The inverting [for] loop of [AppendRedirects]; the map is the one built
    before the loop, the list is updated in place.  [InRedirects.Find]
    returning [INDEX_NONE] makes the indexing fail. *)
Fixpoint AppendRedirects_invert (fuel : nat)
    (UnresolvedRedirects : TMap.t FName FName)
    (InRedirects : list FCommonInventoryRedirector) (Current : FName)
    : option (list FCommonInventoryRedirector) :=
  match fuel with
  | O => None
  | S fuel' =>
      match TMap.Find UnresolvedRedirects Current with
      | None => Some InRedirects
      | Some Next =>
          match TArray_Find InRedirects (Redirector Current Next) with
          | None => None
          | Some i =>
              AppendRedirects_invert fuel' UnresolvedRedirects
                (alter SwapValues i InRedirects) Next
          end
      end
  end.

(** [AppendRedirects] returns its flag, the updated list and the log. *)
Definition AppendRedirects (InRedirects : list FCommonInventoryRedirector)
    (OldValue NewValue : FName) (bInvertCircularDependency : bool)
    : option (bool * list FCommonInventoryRedirector * list FLogLine) :=
  if bool_decide (OldValue = NewValue) then
    Some (false, InRedirects,
          [LogLine Warning "Failed to insert self-redirector '%s' -> '%s'."])
  else
    let UnresolvedRedirects := GenerateRedirectionMap InRedirects in
    if TMap.Contains UnresolvedRedirects OldValue then
      Some (false, InRedirects,
            [LogLine Warning "Failed to insert ambiguous redirector '%s' -> '%s'."])
    else if negb (TMap.Contains UnresolvedRedirects NewValue) then
      Some (true, InRedirects ++ [Redirector OldValue NewValue], [])
    else if bInvertCircularDependency then
      match ResolveValue UnresolvedRedirects NewValue None with
      | None => None
      | Some (false, _) =>
          Some (false, InRedirects,
                [LogLine Warning "Failed to insert redirector '%s' -> '%s'. Concatenation of redirects into circular dependency is not allowed."])
      | Some (true, NewValueResolved) =>
          if negb (bool_decide (NewValueResolved = OldValue)) then
            Some (false, InRedirects,
                  [LogLine Warning "Failed to insert redirector '%s' -> '%s'. Concatenation of redirects is not allowed."])
          else
            match AppendRedirects_invert (S (length UnresolvedRedirects))
                    UnresolvedRedirects InRedirects NewValue with
            | None => None
            | Some InRedirects' => Some (true, InRedirects', [])
            end
      end
    else
      Some (false, InRedirects,
            [LogLine Error "Failed to insert redirector '%s' -> '%s'. Concatenation of redirects is not allowed."])
  .

(** ** Chains of the unresolved map, for stating what resolution computes *)

(** One link of the raw map. *)
Definition redirect_step (U : TMap.t FName FName) (a b : FName) : Prop :=
  TMap.Find U a = Some b.

(** The chain from [k] ends at [v]: [v] is reached and is not redirected. *)
Definition chain_end (U : TMap.t FName FName) (k v : FName) : Prop :=
  rtc (redirect_step U) k v ∧ TMap.Find U v = None.

(** The chain from [k] runs into a cycle. *)
Definition chain_cyclic (U : TMap.t FName FName) (k : FName) : Prop :=
  ∃ c, rtc (redirect_step U) k c ∧ tc (redirect_step U) c c.

(** ** Notions for stating AppendRedirects *)

(** [k] is the old value of a valid redirector of the list, that is, a
    source of the raw map built from it. *)
Definition is_source (L : list FCommonInventoryRedirector) (k : FName) : Prop :=
  ∃ r, r ∈ L ∧ Redirector_IsValid r = true ∧ OldValue r = k.

(** The redirector [r] is a link of the chain that starts at [start]. *)
Definition chain_link (U : TMap.t FName FName) (start : FName)
    (r : FCommonInventoryRedirector) : Prop :=
  rtc (redirect_step U) start (OldValue r) ∧
  TMap.Find U (OldValue r) = Some (NewValue r).

(** [L'] is [L] with each link of the chain from [start] swapped, at the
    first position where the link occurs, and nothing else changed. *)
Definition chain_inverted (L : list FCommonInventoryRedirector) (start : FName)
    (L' : list FCommonInventoryRedirector) : Prop :=
  length L' = length L ∧
  ∀ i r, L !! i = Some r →
    (chain_link (GenerateRedirectionMap L) start r ∧ TArray_Find L r = Some i →
       L' !! i = Some (SwapValues r)) ∧
    (¬ (chain_link (GenerateRedirectionMap L) start r ∧ TArray_Find L r = Some i) →
       L' !! i = Some r).

(** The entry [r] at position [i] of [L] has been swapped once the keys [P]
    of the chain have been walked by the inverting loop. *)
Definition swapped (L : list FCommonInventoryRedirector) (P : list FName)
    (i : nat) (r : FCommonInventoryRedirector) : Prop :=
  OldValue r ∈ P ∧
  TMap.Find (GenerateRedirectionMap L) (OldValue r) = Some (NewValue r) ∧
  TArray_Find L r = Some i.

(** What the loop of [GenerateRedirectionMap] keeps true of its map. *)
Record raw_map_ok (U : list (FName * FName)) : Prop := {
  raw_NoDup : NoDup (TMap.Keys U);
  raw_valid : ∀ k v, (k, v) ∈ U → k ≠ NAME_None ∧ v ≠ NAME_None ∧ k ≠ v
}.

(** The loop invariant on the resolved map and the dirty list. *)
Record resolve_inv (U R : list (FName * FName)) (I : list FName) : Prop := {
  inv_resolved : ∀ k v, TMap.Find R k = Some v →
                        chain_end U k v ∧ v ≠ NAME_None ∧ is_Some (TMap.Find U k);
  inv_invalid : ∀ k, k ∈ I → chain_cyclic U k
}.

(* ===================================================================== *)
(** ** Registry records (CommonInventoryRegistryTypes.h)                  *)
(* ===================================================================== *)

#[global] Instance FPrimaryAssetId_countable : Countable FPrimaryAssetId.
Proof.
  refine (inj_countable' (λ i, (PrimaryAssetType i, PrimaryAssetName i))
            (λ p, MkPrimaryAssetId p.1 p.2) _).
  by intros [].
Defined.

(** [UScriptStruct*]: the identity of a reflected struct type, by its path
    name.  The memory of a struct instance is the list of the values of its
    properties, in property order. *)
Abbreviation UScriptStruct := string.

(** An item of [FInstancedStructContainer], and what a view reads: the
    script struct and the memory; [None] when the script struct is null. *)
Abbreviation FInstancedStruct := (option (string * list Z)).

(** [FConstStructView] is a non-owning pointer pair.  A view either is
    null, or points at a struct outside of the registry state ([ViewOf]), or
    points at an item of the state's own [CustomDataContainer] ([ViewSlot]):
    such a view reads whatever the item holds at the time it is read. *)
Inductive FConstStructView :=
| ViewNull
| ViewOf (ScriptStruct : UScriptStruct) (Memory : list Z)
| ViewSlot (Item : nat).

#[global] Instance FConstStructView_eq_dec : EqDecision FConstStructView.
Proof. solve_decision. Defined.

Definition INDEX_NONE : Z := -1.

Definition INVALID_REPLICATION_INDEX : Z := 0.

Definition IsValidIndex {A} (l : list A) (Index : Z) : bool :=
  (0 <=? Index) && (Index <? Z.of_nat (length l)).

(** Reading through a view, given the container it may point into. *)
Definition ReadView (Container : list FInstancedStruct) (v : FConstStructView)
    : FInstancedStruct :=
  match v with
  | ViewNull => None
  | ViewOf s m => Some (s, m)
  | ViewSlot i => mjoin (Container !! i)
  end.

Definition View_IsValid (Container : list FInstancedStruct)
    (v : FConstStructView) : bool :=
  match ReadView Container v with Some _ => true | None => false end.

Definition View_GetScriptStruct (Container : list FInstancedStruct)
    (v : FConstStructView) : option UScriptStruct :=
  fst <$> ReadView Container v.

Record FCommonItemSharedData := MkSharedData {
  PrimaryAssetId : FPrimaryAssetId;
  GameplayTags : list FName;
  MaxStackSize : Z
}.

#[global] Instance FCommonItemSharedData_eq_dec : EqDecision FCommonItemSharedData.
Proof. solve_decision. Defined.

Record FCommonInventoryRegistryRecord := MkRecord {
  DefaultPayload : FConstStructView;
  CustomData : FConstStructView;
  SharedData : FCommonItemSharedData;
  AssetPath : string;
  DefaultPayloadIndex : Z;
  CustomDataIndex : Z;
  RepIndex : Z;
  RecordChecksum : Z
}.

#[global] Instance FCommonInventoryRegistryRecord_eq_dec :
  EqDecision FCommonInventoryRegistryRecord.
Proof. solve_decision. Defined.

Definition GetPrimaryAssetId (r : FCommonInventoryRegistryRecord) : FPrimaryAssetId :=
  PrimaryAssetId (SharedData r).

Definition GetPrimaryAssetType (r : FCommonInventoryRegistryRecord) : FName :=
  PrimaryAssetType (GetPrimaryAssetId r).

Definition GetPrimaryAssetName (r : FCommonInventoryRegistryRecord) : FName :=
  PrimaryAssetName (GetPrimaryAssetId r).

Definition InvalidateChecksum (r : FCommonInventoryRegistryRecord)
    : FCommonInventoryRegistryRecord :=
  MkRecord (DefaultPayload r) (CustomData r) (SharedData r) (AssetPath r)
    (DefaultPayloadIndex r) (CustomDataIndex r) (RepIndex r) 0.

(** The two payload slots of a record; the lambdas of the source take the
    view and the index of one of them by reference. *)
Inductive EPayloadField := FieldDefaultPayload | FieldCustomData.

#[global] Instance EPayloadField_eq_dec : EqDecision EPayloadField.
Proof. solve_decision. Defined.

Definition GetView (f : EPayloadField) (r : FCommonInventoryRegistryRecord)
    : FConstStructView :=
  match f with
  | FieldDefaultPayload => DefaultPayload r
  | FieldCustomData => CustomData r
  end.

Definition GetIndex (f : EPayloadField) (r : FCommonInventoryRegistryRecord) : Z :=
  match f with
  | FieldDefaultPayload => DefaultPayloadIndex r
  | FieldCustomData => CustomDataIndex r
  end.

Definition SetView (f : EPayloadField) (v : FConstStructView)
    (r : FCommonInventoryRegistryRecord) : FCommonInventoryRegistryRecord :=
  match f with
  | FieldDefaultPayload =>
      MkRecord v (CustomData r) (SharedData r) (AssetPath r)
        (DefaultPayloadIndex r) (CustomDataIndex r) (RepIndex r) (RecordChecksum r)
  | FieldCustomData =>
      MkRecord (DefaultPayload r) v (SharedData r) (AssetPath r)
        (DefaultPayloadIndex r) (CustomDataIndex r) (RepIndex r) (RecordChecksum r)
  end.

Definition SetIndex (f : EPayloadField) (i : Z)
    (r : FCommonInventoryRegistryRecord) : FCommonInventoryRegistryRecord :=
  match f with
  | FieldDefaultPayload =>
      MkRecord (DefaultPayload r) (CustomData r) (SharedData r) (AssetPath r)
        i (CustomDataIndex r) (RepIndex r) (RecordChecksum r)
  | FieldCustomData =>
      MkRecord (DefaultPayload r) (CustomData r) (SharedData r) (AssetPath r)
        (DefaultPayloadIndex r) i (RepIndex r) (RecordChecksum r)
  end.

Definition SetRepIndex (i : Z) (r : FCommonInventoryRegistryRecord)
    : FCommonInventoryRegistryRecord :=
  MkRecord (DefaultPayload r) (CustomData r) (SharedData r) (AssetPath r)
    (DefaultPayloadIndex r) (CustomDataIndex r) i (RecordChecksum r).

Definition SetSharedData (d : FCommonItemSharedData) (p : string)
    (r : FCommonInventoryRegistryRecord) : FCommonInventoryRegistryRecord :=
  MkRecord (DefaultPayload r) (CustomData r) d p
    (DefaultPayloadIndex r) (CustomDataIndex r) (RepIndex r) (RecordChecksum r).

(** [FName::LexicalLess]. *)
Definition LexicalLess (a b : FName) : bool :=
  match String.compare a b with Lt => true | _ => false end.

(** [operator<] on records: type first, then name. *)
Definition Record_lt (Lhs Rhs : FCommonInventoryRegistryRecord) : bool :=
  if negb (bool_decide (GetPrimaryAssetType Lhs = GetPrimaryAssetType Rhs))
  then LexicalLess (GetPrimaryAssetType Lhs) (GetPrimaryAssetType Rhs)
  else LexicalLess (GetPrimaryAssetName Lhs) (GetPrimaryAssetName Rhs).

(** What [Identical] of [HasIdenticalData] compares, on what the two views
    read. *)
Definition Identical (Lhs Rhs : FInstancedStruct) : bool :=
  if bool_decide (fst <$> Lhs = fst <$> Rhs) then
    match Lhs with
    | None => true
    | Some (_, m) => bool_decide (Some m = snd <$> Rhs)
    end
  else false.

(** [HasIdenticalData]; each record reads its views through the container
    of the state it belongs to. *)
Definition HasIdenticalData
    (Container : list FInstancedStruct) (This : FCommonInventoryRegistryRecord)
    (OtherContainer : list FInstancedStruct) (Other : FCommonInventoryRegistryRecord)
    : bool :=
  if bool_decide (SharedData This = SharedData Other)
     && bool_decide (AssetPath This = AssetPath Other)
  then Identical (ReadView Container (DefaultPayload This))
                 (ReadView OtherContainer (DefaultPayload Other))
       && Identical (ReadView Container (CustomData This))
                    (ReadView OtherContainer (CustomData Other))
  else false.

Definition HasIdenticalDataFast
    (This Other : FCommonInventoryRegistryRecord) : bool :=
  bool_decide (RecordChecksum This = RecordChecksum Other).

(* ===================================================================== *)
(** ** Registry state                                                     *)
(* ===================================================================== *)

Record FArchetypeGroup := MkArchetypeGroup {
  GroupType : FName;
  Begin : Z;
  Offset : Z;
  GroupChecksum : Z
}.

#[global] Instance FArchetypeGroup_eq_dec : EqDecision FArchetypeGroup.
Proof. solve_decision. Defined.

Record FCommonInventoryRegistryState := MkState {
  DataContainer : list FCommonInventoryRegistryRecord;
  CustomDataContainer : list FInstancedStruct;
  Archetypes : list FArchetypeGroup;
  DataMap : gmap FPrimaryAssetId nat;
  ReplicationMap : gmap Z nat;
  RepIndexEncodingBitsNum : Z;
  Checksum : Z
}.

(** The default-constructed state. *)
Definition EmptyState : FCommonInventoryRegistryState :=
  MkState [] [] [] ∅ ∅ 0 0.

Definition SetDataContainer (d : list FCommonInventoryRegistryRecord)
    (s : FCommonInventoryRegistryState) : FCommonInventoryRegistryState :=
  MkState d (CustomDataContainer s) (Archetypes s) (DataMap s)
    (ReplicationMap s) (RepIndexEncodingBitsNum s) (Checksum s).

Definition SetCustomDataContainer (c : list FInstancedStruct)
    (s : FCommonInventoryRegistryState) : FCommonInventoryRegistryState :=
  MkState (DataContainer s) c (Archetypes s) (DataMap s)
    (ReplicationMap s) (RepIndexEncodingBitsNum s) (Checksum s).

Definition SetArchetypes (a : list FArchetypeGroup)
    (s : FCommonInventoryRegistryState) : FCommonInventoryRegistryState :=
  MkState (DataContainer s) (CustomDataContainer s) a (DataMap s)
    (ReplicationMap s) (RepIndexEncodingBitsNum s) (Checksum s).

Definition SetChecksum (c : Z)
    (s : FCommonInventoryRegistryState) : FCommonInventoryRegistryState :=
  MkState (DataContainer s) (CustomDataContainer s) (Archetypes s) (DataMap s)
    (ReplicationMap s) (RepIndexEncodingBitsNum s) c.

Definition HasRecords (s : FCommonInventoryRegistryState) : bool :=
  negb (bool_decide (DataContainer s = [])).

Definition ContainsRecord (s : FCommonInventoryRegistryState)
    (Id : FPrimaryAssetId) : bool :=
  bool_decide (is_Some (DataMap s !! Id)).

(** [Algo::FindBy(Archetypes, Type, &FArchetypeGroup::PrimaryAssetType)]:
    position and value of the first group of that type. *)
Fixpoint FindBy_GroupType (l : list FArchetypeGroup) (t : FName)
    : option (nat * FArchetypeGroup) :=
  match l with
  | [] => None
  | g :: l' =>
      if decide (GroupType g = t) then Some (O, g)
      else prod_map S id <$> FindBy_GroupType l' t
  end.

Definition FindArchetypeGroup (s : FCommonInventoryRegistryState) (t : FName)
    : option (nat * FArchetypeGroup) :=
  FindBy_GroupType (Archetypes s) t.

Definition ContainsArchetype (s : FCommonInventoryRegistryState) (t : FName) : bool :=
  match FindArchetypeGroup s t with Some _ => true | None => false end.

(** [GetRecordPtr]: [nullptr] is [None]. *)
Definition GetRecordPtr (s : FCommonInventoryRegistryState) (Id : FPrimaryAssetId)
    : option FCommonInventoryRegistryRecord :=
  match DataMap s !! Id with
  | Some Idx => DataContainer s !! Idx
  | None => None
  end.

Definition GetRecordFromReplication (s : FCommonInventoryRegistryState)
    (Rep : Z) : option FCommonInventoryRegistryRecord :=
  match ReplicationMap s !! Rep with
  | Some Idx => DataContainer s !! Idx
  | None => None
  end.

Definition GetRecordsNum (s : FCommonInventoryRegistryState) : nat :=
  length (DataContainer s).

Definition SetGroupChecksum (c : Z) (g : FArchetypeGroup) : FArchetypeGroup :=
  MkArchetypeGroup (GroupType g) (Begin g) (Offset g) c.

(** [FindArchetypeGroup(Type)->Checksum = 0]; dereferencing a null group
    fails. *)
Definition InvalidateArchetypeChecksum (t : FName)
    (s : FCommonInventoryRegistryState) : option FCommonInventoryRegistryState :=
  match FindArchetypeGroup s t with
  | Some (i, _) => Some (SetArchetypes (alter (SetGroupChecksum 0) i (Archetypes s)) s)
  | None => None
  end.

(** [Algo::IsSorted]: no element is less than its predecessor. *)
Fixpoint IsSorted (l : list FCommonInventoryRegistryRecord) : bool :=
  match l with
  | x :: (y :: _) as l' => negb (Record_lt y x) && IsSorted l'
  | _ => true
  end.

(** [Algo::LowerBound] on the sorted array: the position of the first
    element that is not less than [x]. *)
Fixpoint LowerBound (l : list FCommonInventoryRegistryRecord)
    (x : FCommonInventoryRegistryRecord) : nat :=
  match l with
  | [] => O
  | y :: l' => if Record_lt y x then S (LowerBound l' x) else O
  end.

Definition TArray_Insert {A} (l : list A) (x : A) (Index : nat) : list A :=
  take Index l ++ x :: drop Index l.

(** [TArray::Sort] with [operator<].  The engine's sort is not stable; the
    order of records with equal ids is left open there, and
    [FixupDependencies] rejects such arrays anyway. *)
Definition TArray_Sort (l : list FCommonInventoryRegistryRecord)
    : list FCommonInventoryRegistryRecord :=
  foldl (λ acc x, TArray_Insert acc x (LowerBound acc x)) [] l.

(** ** FixupDependencies *)

(** [RefreshViewData]. *)
Definition RefreshViewData (Container : list FInstancedStruct) (InIndex : Z)
    : FConstStructView :=
  if IsValidIndex Container InIndex then ViewSlot (Z.to_nat InIndex) else ViewNull.

(** What the loop of [FixupDependencies] has built so far. *)
Record FFixupLoop := MkFixupLoop {
  L_DataMap : gmap FPrimaryAssetId nat;
  L_ReplicationMap : gmap Z nat;
  L_Archetypes : list FArchetypeGroup;
  L_Records : list FCommonInventoryRegistryRecord
}.

Definition IncrementOffset (g : FArchetypeGroup) : FArchetypeGroup :=
  MkArchetypeGroup (GroupType g) (Begin g) (Offset g + 1) (GroupChecksum g).

(** One round of the loop for the record at [Index].  [ArchetypeIterator]
    points at the last group emplaced, if any.  A duplicated id is fatal. *)
Definition FixupDependencies_step (Container : list FInstancedStruct)
    (st : FFixupLoop) (Index : nat) (RegistryData : FCommonInventoryRegistryRecord)
    : option FFixupLoop :=
  if bool_decide (is_Some (L_DataMap st !! GetPrimaryAssetId RegistryData)) then None
  else
    let RegistryData1 :=
      SetView FieldCustomData
        (RefreshViewData Container (CustomDataIndex RegistryData))
        (SetView FieldDefaultPayload
           (RefreshViewData Container (DefaultPayloadIndex RegistryData))
           (SetRepIndex (Z.of_nat Index + 1) RegistryData)) in
    let NewGroup :=
      MkArchetypeGroup (GetPrimaryAssetType RegistryData) (Z.of_nat Index) 0 0 in
    let Archetypes1 :=
      match last (L_Archetypes st) with
      | Some ArchetypeIterator =>
          if bool_decide (GroupType ArchetypeIterator
                          = GetPrimaryAssetType RegistryData)
          then L_Archetypes st
          else L_Archetypes st ++ [NewGroup]
      | None => L_Archetypes st ++ [NewGroup]
      end in
    Some (MkFixupLoop
            (<[GetPrimaryAssetId RegistryData := Index]> (L_DataMap st))
            (<[Z.of_nat Index + 1 := Index]> (L_ReplicationMap st))
            (alter IncrementOffset (length Archetypes1 - 1)%nat Archetypes1)
            (L_Records st ++ [RegistryData1])).

Fixpoint FixupDependencies_loop (Container : list FInstancedStruct)
    (st : FFixupLoop) (Index : nat)
    (Records : list FCommonInventoryRegistryRecord) : option FFixupLoop :=
  match Records with
  | [] => Some st
  | r :: rs =>
      match FixupDependencies_step Container st Index r with
      | None => None
      | Some st' => FixupDependencies_loop Container st' (S Index) rs
      end
  end.

(** The migration of the group checksums from the previous groups. *)
Definition MigrateArchetypeChecksum (CachedArchetypes : list FArchetypeGroup)
    (g : FArchetypeGroup) : FArchetypeGroup :=
  match FindBy_GroupType CachedArchetypes (GroupType g) with
  | Some (_, PreviousArchetype) => SetGroupChecksum (GroupChecksum PreviousArchetype) g
  | None => g
  end.

(** [FixupDependencies]; [None] when one of its checks fails. *)
Definition FixupDependencies (bMigrateArchetypeChecksum : bool)
    (s : FCommonInventoryRegistryState) : option FCommonInventoryRegistryState :=
  if negb (IsSorted (DataContainer s)) then None
  else
    match FixupDependencies_loop (CustomDataContainer s)
            (MkFixupLoop ∅ ∅ [] []) O (DataContainer s) with
    | None => None
    | Some st =>
        Some (MkState (L_Records st) (CustomDataContainer s)
                (if bMigrateArchetypeChecksum
                 then MigrateArchetypeChecksum (Archetypes s) <$> L_Archetypes st
                 else L_Archetypes st)
                (L_DataMap st) (L_ReplicationMap st)
                (Z.log2_up (Z.of_nat (length (DataContainer s)) + 1))
                0)
    end.

(** ** RemoveCustomData *)

(** The shift of one payload slot of a record after the item at
    [InCustomDataIndex] is gone; indexing the container out of range fails. *)
Definition ShiftField (Container : list FInstancedStruct) (InCustomDataIndex : Z)
    (f : EPayloadField) (r : FCommonInventoryRegistryRecord)
    : option FCommonInventoryRegistryRecord :=
  if GetIndex f r >? InCustomDataIndex then
    if IsValidIndex Container (GetIndex f r - 1) then
      Some (SetView f (ViewSlot (Z.to_nat (GetIndex f r - 1)))
              (SetIndex f (GetIndex f r - 1) r))
    else None
  else Some r.

Definition ShiftRecord (Container : list FInstancedStruct) (InCustomDataIndex : Z)
    (r : FCommonInventoryRegistryRecord) : option FCommonInventoryRegistryRecord :=
  match ShiftField Container InCustomDataIndex FieldDefaultPayload r with
  | Some r' => ShiftField Container InCustomDataIndex FieldCustomData r'
  | None => None
  end.

Definition RemoveCustomData (InCustomDataIndex : Z)
    (s : FCommonInventoryRegistryState) : option FCommonInventoryRegistryState :=
  if IsValidIndex (CustomDataContainer s) InCustomDataIndex then
    let Container' := delete (Z.to_nat InCustomDataIndex) (CustomDataContainer s) in
    if IsValidIndex Container' InCustomDataIndex then
      match mapM (ShiftRecord Container' InCustomDataIndex) (DataContainer s) with
      | Some Records => Some (SetDataContainer Records (SetCustomDataContainer Container' s))
      | None => None
      end
    else Some (SetCustomDataContainer Container' s)
  else Some s.

(** ** Reset *)

(** [CollectCustomData] over the records, for one payload slot: valid views
    are collected, and each record gets the position of its view. *)
Fixpoint CollectCustomData (Container : list FInstancedStruct) (f : EPayloadField)
    (CustomData_ : list (string * list Z))
    (Records : list FCommonInventoryRegistryRecord)
    : list (string * list Z) * list FCommonInventoryRegistryRecord :=
  match Records with
  | [] => (CustomData_, [])
  | r :: rs =>
      match ReadView Container (GetView f r) with
      | Some item =>
          let '(c, rs') := CollectCustomData Container f (CustomData_ ++ [item]) rs in
          (c, SetIndex f (Z.of_nat (length CustomData_)) r :: rs')
      | None =>
          let '(c, rs') := CollectCustomData Container f CustomData_ rs in
          (c, SetIndex f INDEX_NONE r :: rs')
      end
  end.

(** [Reset(InRegistryData)].  The views of the incoming records are read
    before the container is replaced. *)
Definition Reset (InRegistryData : list FCommonInventoryRegistryRecord)
    (s : FCommonInventoryRegistryState) : option FCommonInventoryRegistryState :=
  let Sorted := TArray_Sort InRegistryData in
  let '(CustomData1, Records1) :=
    CollectCustomData (CustomDataContainer s) FieldDefaultPayload [] Sorted in
  let '(CustomData2, Records2) :=
    CollectCustomData (CustomDataContainer s) FieldCustomData CustomData1 Records1 in
  FixupDependencies false
    (SetDataContainer (InvalidateChecksum <$> Records2)
       (SetCustomDataContainer (Some <$> CustomData2) s)).

(** ** AppendData *)

Definition SetMemory (m : list Z) (item : FInstancedStruct) : FInstancedStruct :=
  match item with
  | Some (s, _) => Some (s, m)
  | None => None
  end.

(** The tail of [RefreshCustomData]: the incoming struct is appended to
    the container and the payload slot [f] of the record at [Idx] is pointed
    at it, or the slot is reset when there is no incoming struct. *)
Definition RefreshCustomData_Append (InStructView : FInstancedStruct)
    (Idx : nat) (f : EPayloadField) (s : FCommonInventoryRegistryState)
    : FCommonInventoryRegistryState :=
  match InStructView with
  | Some _ =>
      SetDataContainer
        (alter (λ r, SetView f (ViewSlot (length (CustomDataContainer s)))
                       (SetIndex f (Z.of_nat (length (CustomDataContainer s))) r))
           Idx (DataContainer s))
        (SetCustomDataContainer (CustomDataContainer s ++ [InStructView]) s)
  | None =>
      SetDataContainer
        (alter (λ r, SetView f ViewNull (SetIndex f INDEX_NONE r))
           Idx (DataContainer s)) s
  end.

(** [RefreshCustomData] of the update branch, for the payload slot [f] of
    the record at [Idx]; [InStructView] has been read already. *)
Definition RefreshCustomData (InStructView : FInstancedStruct)
    (Idx : nat) (f : EPayloadField) (s : FCommonInventoryRegistryState)
    : option FCommonInventoryRegistryState :=
  match DataContainer s !! Idx with
  | None => None
  | Some ExistingRecord =>
      let TargetIndex := GetIndex f ExistingRecord in
      if View_IsValid (CustomDataContainer s) (GetView f ExistingRecord)
         && negb (bool_decide (TargetIndex = INDEX_NONE))
      then
        if bool_decide (View_GetScriptStruct (CustomDataContainer s)
                          (GetView f ExistingRecord)
                        = fst <$> InStructView)
        then
          match InStructView with
          | Some (_, Source) =>
              if IsValidIndex (CustomDataContainer s) TargetIndex then
                Some (SetCustomDataContainer
                        (alter (SetMemory Source) (Z.to_nat TargetIndex)
                           (CustomDataContainer s)) s)
              else None
          | None => None
          end
        else
          match RemoveCustomData TargetIndex s with
          | Some s1 => Some (RefreshCustomData_Append InStructView Idx f s1)
          | None => None
          end
      else Some (RefreshCustomData_Append InStructView Idx f s)
  end.

(** [AppendCustomData] of the insert branch, for the new record at
    [RecordIndex]. *)
Definition AppendCustomData (InStructView : FInstancedStruct)
    (RecordIndex : nat) (f : EPayloadField) (s : FCommonInventoryRegistryState)
    : FCommonInventoryRegistryState :=
  match InStructView with
  | Some _ =>
      SetDataContainer
        (alter (SetIndex f (Z.of_nat (length (CustomDataContainer s))))
           RecordIndex (DataContainer s))
        (SetCustomDataContainer (CustomDataContainer s ++ [InStructView]) s)
  | None =>
      SetDataContainer
        (alter (SetIndex f INDEX_NONE) RecordIndex (DataContainer s)) s
  end.

(** [AppendData]: the flag ([true] = inserted) and the new state; [None]
    when a check fails. *)
Definition AppendData (InRecord : FCommonInventoryRegistryRecord)
    (s : FCommonInventoryRegistryState)
    : option (bool * FCommonInventoryRegistryState) :=
  let InDefaultPayload := ReadView (CustomDataContainer s) (DefaultPayload InRecord) in
  let InCustomData := ReadView (CustomDataContainer s) (CustomData InRecord) in
  if ContainsRecord s (GetPrimaryAssetId InRecord) then
    match DataMap s !! GetPrimaryAssetId InRecord with
    | None => None
    | Some Idx =>
        if bool_decide (Idx < length (DataContainer s))%nat then
          let s1 :=
            SetDataContainer
              (alter (SetSharedData (SharedData InRecord) (AssetPath InRecord))
                 Idx (DataContainer s)) s in
          match RefreshCustomData InDefaultPayload Idx FieldDefaultPayload s1 with
          | None => None
          | Some s2 =>
              match RefreshCustomData InCustomData Idx FieldCustomData s2 with
              | None => None
              | Some s3 =>
                  match InvalidateArchetypeChecksum (GetPrimaryAssetType InRecord) s3 with
                  | None => None
                  | Some s4 =>
                      Some (false,
                            SetChecksum 0
                              (SetDataContainer
                                 (alter InvalidateChecksum Idx (DataContainer s4)) s4))
                  end
              end
          end
        else None
    end
  else
    let RecordIndex := LowerBound (DataContainer s) InRecord in
    let s1 :=
      SetDataContainer (TArray_Insert (DataContainer s) InRecord RecordIndex) s in
    let s2 :=
      match InvalidateArchetypeChecksum (GetPrimaryAssetType InRecord) s1 with
      | Some s2 => s2
      | None => s1
      end in
    let s3 :=
      SetDataContainer (alter InvalidateChecksum RecordIndex (DataContainer s2)) s2 in
    let s4 := AppendCustomData InDefaultPayload RecordIndex FieldDefaultPayload s3 in
    let s5 := AppendCustomData InCustomData RecordIndex FieldCustomData s4 in
    match FixupDependencies true s5 with
    | Some s6 => Some (true, s6)
    | None => None
    end.

(** ** RemoveData *)

(** The removal of one payload of the record at [Idx]: a valid view must
    come with an index, and its item is taken out of the container. *)
Definition RemovePayload (Idx : nat) (f : EPayloadField)
    (s : FCommonInventoryRegistryState) : option FCommonInventoryRegistryState :=
  match DataContainer s !! Idx with
  | None => None
  | Some r =>
      if View_IsValid (CustomDataContainer s) (GetView f r) then
        if bool_decide (GetIndex f r = INDEX_NONE) then None
        else RemoveCustomData (GetIndex f r) s
      else Some s
  end.

Definition RemoveData (Id : FPrimaryAssetId) (s : FCommonInventoryRegistryState)
    : option (bool * FCommonInventoryRegistryState) :=
  match DataMap s !! Id with
  | None => Some (false, s)
  | Some Idx =>
      match DataContainer s !! Idx with
      | None => None
      | Some RegistryRecord =>
          match RemovePayload Idx FieldDefaultPayload s with
          | None => None
          | Some s1 =>
              match RemovePayload Idx FieldCustomData s1 with
              | None => None
              | Some s2 =>
                  match InvalidateArchetypeChecksum
                          (GetPrimaryAssetType RegistryRecord) s2 with
                  | None => None
                  | Some s3 =>
                      match DataMap s3 !! GetPrimaryAssetId RegistryRecord with
                      | None => None
                      | Some Idx' =>
                          if bool_decide (Idx' < length (DataContainer s3))%nat then
                            match FixupDependencies true
                                    (SetDataContainer
                                       (delete Idx' (DataContainer s3)) s3) with
                            | Some s4 => Some (true, s4)
                            | None => None
                            end
                          else None
                      end
                  end
              end
          end
      end
  end.

(** ** DiffRecords *)

(** [GetRecords()] of a state as another state sees them: each view reads
    through the container of the state that owns the record. *)
Definition ExportRecord (s : FCommonInventoryRegistryState)
    (r : FCommonInventoryRegistryRecord) : FCommonInventoryRegistryRecord :=
  let export v :=
    match ReadView (CustomDataContainer s) v with
    | Some (t, m) => ViewOf t m
    | None => ViewNull
    end in
  SetView FieldCustomData (export (CustomData r))
    (SetView FieldDefaultPayload (export (DefaultPayload r)) r).

(** The ids collected by the loop of [DiffRecords]. *)
Definition PendingRemoveRecords (bFast : bool)
    (FirstState SecondState : FCommonInventoryRegistryState)
    : list FPrimaryAssetId :=
  omap (λ FirstRecord,
          match GetRecordPtr SecondState (GetPrimaryAssetId FirstRecord) with
          | Some SecondRecord =>
              if (if bFast then HasIdenticalDataFast SecondRecord FirstRecord
                  else HasIdenticalData (CustomDataContainer SecondState) SecondRecord
                         (CustomDataContainer FirstState) FirstRecord)
              then Some (GetPrimaryAssetId FirstRecord)
              else None
          | None => None
          end)
       (DataContainer FirstState).

(** [verify(RemoveData(Id))] for each pending id. *)
Fixpoint RemoveAll (Ids : list FPrimaryAssetId) (s : FCommonInventoryRegistryState)
    : option FCommonInventoryRegistryState :=
  match Ids with
  | [] => Some s
  | Id :: Ids' =>
      match RemoveData Id s with
      | Some (true, s') => RemoveAll Ids' s'
      | _ => None
      end
  end.

Definition DiffRecords (InBaseState : FCommonInventoryRegistryState)
    (s : FCommonInventoryRegistryState) : option FCommonInventoryRegistryState :=
  if HasRecords s && HasRecords InBaseState then
    let bSwap := bool_decide (GetRecordsNum InBaseState < GetRecordsNum s)%nat in
    let FirstState := if bSwap then InBaseState else s in
    let SecondState := if bSwap then s else InBaseState in
    let bFast :=
      negb (bool_decide (Checksum s = 0))
      && negb (bool_decide (Checksum InBaseState = 0)) in
    let Pending := PendingRemoveRecords bFast FirstState SecondState in
    if bool_decide (length Pending = GetRecordsNum s) then Reset [] s
    else RemoveAll Pending s
  else Some s.

(** ** Well-formed registry states *)

(** The array is sorted by [operator<], strictly. *)
Definition ids_sorted (l : list FCommonInventoryRegistryRecord) : Prop :=
  StronglySorted (λ a b, Record_lt a b = true) l.

(** The blob discipline: every payload index is [INDEX_NONE] or a valid
    index of the container, no two payload slots share an item, and every
    item has a script struct.  While a record is being updated or removed
    some of its payload slots are stale; [ex] tells which slots are exempt. *)
Record blobs_ok_ex (ex : nat → EPayloadField → Prop)
    (Records : list FCommonInventoryRegistryRecord)
    (Container : list FInstancedStruct) : Prop := {
  blob_range : ∀ i r f, Records !! i = Some r → ¬ ex i f →
    GetIndex f r = INDEX_NONE ∨ IsValidIndex Container (GetIndex f r) = true;
  blob_distinct : ∀ i j ri rj f g,
    Records !! i = Some ri → Records !! j = Some rj →
    (i, f) ≠ (j, g) → ¬ ex i f → ¬ ex j g → GetIndex f ri ≠ INDEX_NONE →
    GetIndex f ri ≠ GetIndex g rj;
  blob_valid : ∀ k item, Container !! k = Some item → is_Some item
}.

(** The cached views agree with the payload indices. *)
Definition views_ok_ex (ex : nat → EPayloadField → Prop)
    (Records : list FCommonInventoryRegistryRecord)
    (Container : list FInstancedStruct) : Prop :=
  ∀ i r f, Records !! i = Some r → ¬ ex i f →
    GetView f r = RefreshViewData Container (GetIndex f r).

Definition no_slot : nat → EPayloadField → Prop := λ _ _, False.

Definition blobs_ok := blobs_ok_ex no_slot.

Definition views_ok := views_ok_ex no_slot.

(** Two records agree on everything but their payload views and indices. *)
Definition same_meta (r r' : FCommonInventoryRegistryRecord) : Prop :=
  SharedData r' = SharedData r ∧ AssetPath r' = AssetPath r ∧
  RepIndex r' = RepIndex r ∧ RecordChecksum r' = RecordChecksum r.

(** The archetype groups that the loop of [FixupDependencies] builds for
    the records from position [Index] on, given the groups built so far. *)
Fixpoint BuildArchetypes (Groups : list FArchetypeGroup) (Index : nat)
    (Types : list FName) : list FArchetypeGroup :=
  match Types with
  | [] => Groups
  | t :: ts =>
      let NewGroup := MkArchetypeGroup t (Z.of_nat Index) 0 0 in
      let Groups1 :=
        match last Groups with
        | Some It => if bool_decide (GroupType It = t) then Groups
                     else Groups ++ [NewGroup]
        | None => Groups ++ [NewGroup]
        end in
      BuildArchetypes (alter IncrementOffset (length Groups1 - 1)%nat Groups1)
        (S Index) ts
  end.

(** The secondary data that [FixupDependencies] derives from the array. *)
Record derived_ok (s : FCommonInventoryRegistryState) : Prop := {
  derived_RepIndex : ∀ i r, DataContainer s !! i = Some r →
    RepIndex r = Z.of_nat i + 1;
  derived_DataMap : ∀ Id i, DataMap s !! Id = Some i ↔
    ∃ r, DataContainer s !! i = Some r ∧ GetPrimaryAssetId r = Id;
  derived_ReplicationMap : ∀ k i, ReplicationMap s !! k = Some i ↔
    k = Z.of_nat i + 1 ∧ (i < length (DataContainer s))%nat;
  derived_Archetypes :
    SetGroupChecksum 0 <$> Archetypes s =
    BuildArchetypes [] O (GetPrimaryAssetType <$> DataContainer s);
  derived_Bits :
    RepIndexEncodingBitsNum s =
    Z.log2_up (Z.of_nat (length (DataContainer s)) + 1)
}.

Record state_wf (s : FCommonInventoryRegistryState) : Prop := {
  wf_sorted : ids_sorted (DataContainer s);
  wf_blobs : blobs_ok (DataContainer s) (CustomDataContainer s);
  wf_views : views_ok (DataContainer s) (CustomDataContainer s);
  wf_derived : derived_ok s
}.

(** What a payload slot of a record of the state reads. *)
Definition FieldContent (s : FCommonInventoryRegistryState)
    (r : FCommonInventoryRegistryRecord) (f : EPayloadField) : FInstancedStruct :=
  ReadView (CustomDataContainer s) (GetView f r).

(** The data of a record, metadata excluded: what [HasIdenticalData]
    compares and what the checksum is computed from. *)
Definition RecordContent (s : FCommonInventoryRegistryState)
    (r : FCommonInventoryRegistryRecord)
    : FCommonItemSharedData * string * FInstancedStruct * FInstancedStruct :=
  (SharedData r, AssetPath r,
   FieldContent s r FieldDefaultPayload, FieldContent s r FieldCustomData).

(** ** The mutations of a registry state *)

Inductive FRegistryMutation :=
| MutReset (InRegistryData : list FCommonInventoryRegistryRecord)
| MutAppendData (InRecord : FCommonInventoryRegistryRecord)
| MutRemoveData (Id : FPrimaryAssetId).

Definition Mutate (m : FRegistryMutation) (s : FCommonInventoryRegistryState)
    : option FCommonInventoryRegistryState :=
  match m with
  | MutReset rs => Reset rs s
  | MutAppendData r => snd <$> AppendData r s
  | MutRemoveData Id => snd <$> RemoveData Id s
  end.

(** A run of mutations, each of which passes its checks. *)
Fixpoint MutateAll (ms : list FRegistryMutation) (s : FCommonInventoryRegistryState)
    : option FCommonInventoryRegistryState :=
  match ms with
  | [] => Some s
  | m :: ms' =>
      match Mutate m s with
      | Some s' => MutateAll ms' s'
      | None => None
      end
  end.

(** What [FixupDependencies] makes of the record at position [Index]. *)
Definition RefreshRecord (Container : list FInstancedStruct) (Index : nat)
    (r : FCommonInventoryRegistryRecord) : FCommonInventoryRegistryRecord :=
  SetView FieldCustomData (RefreshViewData Container (CustomDataIndex r))
    (SetView FieldDefaultPayload (RefreshViewData Container (DefaultPayloadIndex r))
       (SetRepIndex (Z.of_nat Index + 1) r)).

(** ** Replication indices *)

(** The replication indices are dense: the record at position [i] has
    index [i + 1], and the valid indices are exactly [1 .. N]. *)
Definition replication_dense (s : FCommonInventoryRegistryState) : Prop :=
  (∀ i r, DataContainer s !! i = Some r → RepIndex r = Z.of_nat i + 1) ∧
  (∀ k, is_Some (ReplicationMap s !! k) ↔ 1 ≤ k ≤ Z.of_nat (GetRecordsNum s)) ∧
  (∀ k, k ∈ RepIndex <$> DataContainer s ↔ 1 ≤ k ≤ Z.of_nat (GetRecordsNum s)) ∧
  (∀ k, 1 ≤ k ≤ Z.of_nat (GetRecordsNum s) →
        ∃ r, GetRecordFromReplication s k = Some r ∧ RepIndex r = k).

(** The insert branch: the state handed to [FixupDependencies]. *)
Definition AppendData_inserted (InRecord : FCommonInventoryRegistryRecord)
    (s : FCommonInventoryRegistryState) : FCommonInventoryRegistryState :=
  let RecordIndex := LowerBound (DataContainer s) InRecord in
  let s1 :=
    SetDataContainer (TArray_Insert (DataContainer s) InRecord RecordIndex) s in
  let s2 :=
    match InvalidateArchetypeChecksum (GetPrimaryAssetType InRecord) s1 with
    | Some s2 => s2
    | None => s1
    end in
  let s3 :=
    SetDataContainer (alter InvalidateChecksum RecordIndex (DataContainer s2)) s2 in
  let s4 :=
    AppendCustomData (ReadView (CustomDataContainer s) (DefaultPayload InRecord))
      RecordIndex FieldDefaultPayload s3 in
  AppendCustomData (ReadView (CustomDataContainer s) (CustomData InRecord))
    RecordIndex FieldCustomData s4.


(** The part of [derived_ok] that the replication indices rest on. *)
Definition replication_ok (s : FCommonInventoryRegistryState) : Prop :=
  (∀ i r, DataContainer s !! i = Some r → RepIndex r = Z.of_nat i + 1) ∧
  (∀ k i, ReplicationMap s !! k = Some i ↔
          k = Z.of_nat i + 1 ∧ (i < length (DataContainer s))%nat).

(** ** Cached checksums *)

(** The cached checksum of the archetype group of type [t], if there is
    such a group. *)
Definition GroupChecksumOf (s : FCommonInventoryRegistryState) (t : FName) : option Z :=
  (λ p, GroupChecksum p.2) <$> FindArchetypeGroup s t.

(** The cached checksum of the record [Id], if there is such a record. *)
Definition RecordChecksumOf (s : FCommonInventoryRegistryState)
    (Id : FPrimaryAssetId) : option Z :=
  RecordChecksum <$> GetRecordPtr s Id.

(** The slot [f] of the record at [Idx], as the one exempt slot. *)
Definition one_slot (Idx : nat) (f : EPayloadField) : nat → EPayloadField → Prop :=
  λ i g, i = Idx ∧ g = f.

(** The data of the record [Id], if there is such a record. *)
Definition ContentOf (s : FCommonInventoryRegistryState) (Id : FPrimaryAssetId)
    : option (FCommonItemSharedData * string * FInstancedStruct * FInstancedStruct) :=
  RecordContent s <$> GetRecordPtr s Id.

(** The parts of the state that only [FixupDependencies] and the checksum
    invalidation write. *)
Definition same_secondary (s s' : FCommonInventoryRegistryState) : Prop :=
  Archetypes s' = Archetypes s ∧ DataMap s' = DataMap s ∧
  ReplicationMap s' = ReplicationMap s ∧
  RepIndexEncodingBitsNum s' = RepIndexEncodingBitsNum s ∧
  Checksum s' = Checksum s.

(** The groups lie one behind the other from [Start] to [Stop], none of
    them empty. *)
Fixpoint groups_from (Start : Z) (Groups : list FArchetypeGroup) (Stop : Z) : Prop :=
  match Groups with
  | [] => Start = Stop
  | g :: Groups' =>
      Begin g = Start ∧ 0 < Offset g ∧ groups_from (Start + Offset g) Groups' Stop
  end.

(** Two records agree on everything but the cached checksum. *)
Definition same_but_checksum (r r' : FCommonInventoryRegistryRecord) : Prop :=
  DefaultPayload r' = DefaultPayload r ∧ CustomData r' = CustomData r ∧
  SharedData r' = SharedData r ∧ AssetPath r' = AssetPath r ∧
  DefaultPayloadIndex r' = DefaultPayloadIndex r ∧
  CustomDataIndex r' = CustomDataIndex r ∧ RepIndex r' = RepIndex r.

(** Two groups agree on everything but the cached checksum. *)
Definition same_group (g g' : FArchetypeGroup) : Prop :=
  GroupType g' = GroupType g ∧ Begin g' = Begin g ∧ Offset g' = Offset g.

(* ===================================================================== *)
(** ** Defaults propagation (CommonInventoryRegistryDataSource.cpp)       *)
(* ===================================================================== *)

(** [FPrimaryAssetId::IsValid] and the default-constructed id. *)
Definition FPrimaryAssetId_IsValid (Id : FPrimaryAssetId) : bool :=
  negb (IsNone (PrimaryAssetType Id)) && negb (IsNone (PrimaryAssetName Id)).

Definition FPrimaryAssetId_None : FPrimaryAssetId :=
  MkPrimaryAssetId NAME_None NAME_None.

(** [GetRecord]: [DataContainer[DataMap.FindChecked(Id)]]; a missing id is
    fatal. *)
Definition GetRecord (s : FCommonInventoryRegistryState) (Id : FPrimaryAssetId)
    : option FCommonInventoryRegistryRecord :=
  GetRecordPtr s Id.

(** [FCommonInventoryDefaultsPropagator::FContext], as far as the
    propagation of one item reads it; [CurrentObject] is the object, if
    any. *)
Record FContext := MkContext {
  OriginalRegistryState : FCommonInventoryRegistryState;
  CurrentObject : option nat;
  bIsInitialFixup : bool;
  bWasReset : bool
}.

(** What one call leaves behind: the id and the payload it was given by
    reference, and whether it marked the package of the current object
    dirty. *)
Record FPropagated := MkPropagated {
  OutPrimaryAssetId : FPrimaryAssetId;
  OutPayload : FInstancedStruct;
  bMarkedPackageDirty : bool
}.

(** A property of a script struct as the loop reads it.  The memory of a
    struct is the list of the values of its leaf fields; a property covers
    [Prop_Size] of them from [Prop_Offset] ([GetOffset_ForInternal]) on: one
    for a plain property, all the leaf fields of the inner struct for a
    property that is itself a struct. *)
Record FProperty := MkProperty {
  Prop_Offset : nat;
  Prop_Size : nat
}.

(** The value of a property in a memory, [Memory + Offset]; a read outside
    of the memory, or from no memory, fails. *)
Definition PropertyValue (Memory : option (list Z)) (Key : FProperty)
    : option (list Z) :=
  Memory ≫= sublist_lookup (Prop_Offset Key) (Prop_Size Key).

(** [FProperty::CopyCompleteValue(Dest + Offset, Src)]. *)
Definition CopyCompleteValue (Key : FProperty) (Dest Src : list Z) : list Z :=
  sublist_alter (λ _, Src) (Prop_Offset Key) (Prop_Size Key) Dest.

(** The loop over the properties of the payload.  [Props] are the
    properties the iterator enumerates, the top-level properties of the
    script struct.  [DefaultMemory] and [OriginalMemory] are the memories
    of the new and of the original default payload, [Stored] is the memory
    of the payload; [FProperty::Identical] compares the whole value of the
    property.  The result is the memory of the payload and
    [bMarkPackageDirty]. *)
Fixpoint PropagateProperties (DefaultMemory OriginalMemory : option (list Z))
    (Props : list FProperty) (Stored : list Z) (bMarkPackageDirty : bool)
    : option (list Z * bool) :=
  match Props with
  | [] => Some (Stored, bMarkPackageDirty)
  | Key :: Props' =>
      match PropertyValue DefaultMemory Key, PropertyValue OriginalMemory Key with
      | Some DefaultValue, Some OriginalValue =>
          if bool_decide (DefaultValue = OriginalValue) then
            PropagateProperties DefaultMemory OriginalMemory Props' Stored
              bMarkPackageDirty
          else
            match PropertyValue (Some Stored) Key with
            | Some Value =>
                if bool_decide (Value = OriginalValue) then
                  PropagateProperties DefaultMemory OriginalMemory Props'
                    (CopyCompleteValue Key Stored DefaultValue) true
                else
                  PropagateProperties DefaultMemory OriginalMemory Props' Stored
                    bMarkPackageDirty
            | None => None
            end
      | _, _ => None
      end
  end.



(** [UCommonInventoryRegistry::PropagateItemDefaults].  [Redirects] is the
    redirects singleton, [RegistryState] the live state of the registry,
    [SerializeNative] tells whether a script struct has the flag
    [STRUCT_SerializeNative], [Properties] gives the properties of a script
    struct that the iterator enumerates. *)
Definition PropagateItemDefaults (Redirects : FCommonInventoryRedirects)
    (RegistryState : FCommonInventoryRegistryState)
    (SerializeNative : UScriptStruct → bool)
    (Properties : UScriptStruct → list FProperty)
    (InContext : FContext)
    (InPrimaryAssetId : FPrimaryAssetId) (InPayload : FInstancedStruct)
    : option FPropagated :=
  if FPrimaryAssetId_IsValid InPrimaryAssetId
     && ContainsRecord (OriginalRegistryState InContext) InPrimaryAssetId
  then
    let OriginalPrimaryAssetId := InPrimaryAssetId in
    let RedirectedId := (TryRedirect Redirects InPrimaryAssetId).2 in
    match GetRecordPtr RegistryState RedirectedId with
    | Some RegistryRecord =>
        let Default :=
          ReadView (CustomDataContainer RegistryState)
            (DefaultPayload RegistryRecord) in
        if bool_decide (fst <$> Default ≠ fst <$> InPayload) then
          Some (MkPropagated RedirectedId Default false)
        else
          match GetRecord (OriginalRegistryState InContext)
                  OriginalPrimaryAssetId with
          | None => None
          | Some OriginalRecord =>
              let Original :=
                ReadView (CustomDataContainer (OriginalRegistryState InContext))
                  (DefaultPayload OriginalRecord) in
              match InPayload with
              | None => Some (MkPropagated RedirectedId None false)
              | Some (ScriptStruct, Stored) =>
                  match PropagateProperties (snd <$> Default) (snd <$> Original)
                          (Properties ScriptStruct) Stored false with
                  | None => None
                  | Some (Stored', bMarkPackageDirty) =>
                      Some (MkPropagated RedirectedId
                              (Some (ScriptStruct, Stored'))
                              (bMarkPackageDirty && SerializeNative ScriptStruct
                               && bool_decide (is_Some (CurrentObject InContext))
                               && negb (bIsInitialFixup InContext)))
                  end
              end
          end
    | None => Some (MkPropagated FPrimaryAssetId_None None false)
    end
  else Some (MkPropagated InPrimaryAssetId InPayload false).

(* ===================================================================== *)
(** ** The engine side: checksums, struct export, archives               *)
(* ===================================================================== *)

Abbreviation uint8 := Byte.byte.

#[global] Instance uint8_eq_dec : EqDecision uint8 := Byte.byte_eq_dec.

(** [FCustomVersionContainer], as the pairs of a key and a version. *)
Abbreviation FCustomVersionContainer := (list (string * Z)).

(** The serialized properties of a record ([UPROPERTY]): the shared data,
    the asset path and the two payload indices.  The views, the replication
    index and the cached checksum are not serialized. *)
Record FSerializedRecord := MkSerializedRecord {
  S_SharedData : FCommonItemSharedData;
  S_AssetPath : string;
  S_DefaultPayloadIndex : Z;
  S_CustomDataIndex : Z
}.

(** The serialized properties of a state: [DataContainer] and
    [CustomDataContainer]. *)
Abbreviation FSerializedState :=
  (list FSerializedRecord * list FInstancedStruct)%type.

(** [FInventoryRegistryHeader], without the magic. *)
Record FInventoryRegistryHeader := MkHeader {
  Version : Z;
  DataSourceClass : string;
  VersionContainer : FCustomVersionContainer;
  HeaderChecksum : Z;
  bIsCooked : bool
}.

(** What the code takes from the engine.
    - [MemCrc32], [StrCrc32], [TypeCrc32]: [FCrc], the last two with the
      running value as second argument;
    - [ExportText], [ExportText_SharedData]: [UScriptStruct::ExportText] of
      a payload struct and of [FCommonItemSharedData];
    - [HeaderFields_Write], [HeaderFields_Read]: the archive operators that
      [FInventoryRegistryHeader::Serialize] applies to the fields after the
      magic; reading gives the header and the bytes that follow it, [None]
      stands for an archive in error;
    - [SerializeItem_Write], [SerializeItem_Read]:
      [StaticStruct()->SerializeItem] through the proxy archive, with the
      cooking flag; writing gives the buffer ([None]: the buffer archive is
      in error), reading gets the custom versions of the header, the buffer
      and the serialized properties the state has, and gives the properties
      the state is left with and whether the reader is at its end and not in
      error;
    - [GetCustomVersions]: the custom versions the writer has registered. *)
Record FEngine := MkEngine {
  MemCrc32 : list uint8 → Z;
  StrCrc32 : string → Z → Z;
  TypeCrc32 : Z → Z → Z;
  ExportText : UScriptStruct → list Z → string;
  ExportText_SharedData : FCommonItemSharedData → string;
  HeaderFields_Write : FInventoryRegistryHeader → option (list uint8);
  HeaderFields_Read : list uint8 → option (FInventoryRegistryHeader * list uint8);
  SerializeItem_Write : bool → FSerializedState → option (list uint8);
  SerializeItem_Read : bool → FCustomVersionContainer → list uint8 →
                       FSerializedState → FSerializedState * bool;
  GetCustomVersions : bool → FSerializedState → FCustomVersionContainer
}.

(** What the round trip of the serializer needs from the archives: a
    header that was written reads back and leaves the bytes behind it, and
    a state that was written into a buffer reads back into a state with
    empty containers, up to the end of the buffer. *)
Record FEngine_roundtrip (E : FEngine) : Prop := {
  HeaderFields_roundtrip : ∀ Header Bytes Rest,
    HeaderFields_Write E Header = Some Bytes →
    HeaderFields_Read E (Bytes ++ Rest) = Some (Header, Rest);
  SerializeItem_roundtrip : ∀ bCooked Data Buffer,
    SerializeItem_Write E bCooked Data = Some Buffer →
    SerializeItem_Read E bCooked (GetCustomVersions E bCooked Data) Buffer ([], [])
    = (Data, true)
}.

(** [FCrc::MemCrc32] tells two buffers apart that differ in one byte. *)
Definition detects_byte_flips (E : FEngine) : Prop :=
  ∀ (Buffer : list uint8) i b b',
    Buffer !! i = Some b → b' ≠ b →
    MemCrc32 E (<[i := b']> Buffer) ≠ MemCrc32 E Buffer.

(* ===================================================================== *)
(** ** GetChecksum                                                        *)
(* ===================================================================== *)

Section checksum.
Context (E : FEngine).

(** [CommonInventory::ExportScriptStruct]. *)
Definition ExportScriptStruct (v : FInstancedStruct) : string :=
  match v with
  | Some (ScriptStruct, Memory) =>
      (ScriptStruct +:+ " " +:+ ExportText E ScriptStruct Memory)%string
  | None => "None"
  end.

Definition ExportSharedData (d : FCommonItemSharedData) : string :=
  ("/Script/CommonInventory.CommonItemSharedData" +:+ " "
   +:+ ExportText_SharedData E d)%string.

(** What [FCommonInventoryRegistryRecord::GetChecksum] computes when
    nothing is cached. *)
Definition ComputeRecordChecksum (Container : list FInstancedStruct)
    (r : FCommonInventoryRegistryRecord) : Z :=
  StrCrc32 E (AssetPath r)
    (StrCrc32 E (ExportScriptStruct (ReadView Container (CustomData r)))
       (StrCrc32 E (ExportScriptStruct (ReadView Container (DefaultPayload r)))
          (StrCrc32 E (ExportSharedData (SharedData r)) 0))).

Definition SetRecordChecksum (k : Z) (r : FCommonInventoryRegistryRecord)
    : FCommonInventoryRegistryRecord :=
  MkRecord (DefaultPayload r) (CustomData r) (SharedData r) (AssetPath r)
    (DefaultPayloadIndex r) (CustomDataIndex r) (RepIndex r) k.

(** [FCommonInventoryRegistryRecord::GetChecksum]: the value, and the
    record with its cache. *)
Definition Record_GetChecksum (Container : list FInstancedStruct)
    (r : FCommonInventoryRegistryRecord) : Z * FCommonInventoryRegistryRecord :=
  if bool_decide (RecordChecksum r = 0) then
    let k := ComputeRecordChecksum Container r in (k, SetRecordChecksum k r)
  else (RecordChecksum r, r).

(** The inner loop of [GetChecksum] over the [Count] records from
    [Index] on; a record outside of the array fails. *)
Fixpoint Archetype_loop (Container : list FInstancedStruct)
    (Records : list FCommonInventoryRegistryRecord) (Index Count : nat)
    (ArchetypeChecksum : Z)
    : option (list FCommonInventoryRegistryRecord * Z) :=
  match Count with
  | O => Some (Records, ArchetypeChecksum)
  | S Count' =>
      match Records !! Index with
      | None => None
      | Some r =>
          let '(k, r') := Record_GetChecksum Container r in
          Archetype_loop Container (<[Index := r']> Records) (S Index) Count'
            (TypeCrc32 E k ArchetypeChecksum)
      end
  end.

(** The outer loop of [GetChecksum] over the archetype groups: the records
    and the groups with their caches, and the running checksum. *)
Fixpoint Archetypes_loop (Container : list FInstancedStruct)
    (Records : list FCommonInventoryRegistryRecord)
    (Groups : list FArchetypeGroup) (Checksum_ : Z)
    : option (list FCommonInventoryRegistryRecord * list FArchetypeGroup * Z) :=
  match Groups with
  | [] => Some (Records, [], Checksum_)
  | g :: Groups' =>
      match
        (if bool_decide (GroupChecksum g = 0) then
           if bool_decide (0 ≤ Begin g ∧ 0 ≤ Offset g) then
             Archetype_loop Container Records (Z.to_nat (Begin g))
               (Z.to_nat (Offset g)) 0
           else None
         else Some (Records, GroupChecksum g))
      with
      | None => None
      | Some (Records1, k) =>
          match Archetypes_loop Container Records1 Groups' (TypeCrc32 E k Checksum_) with
          | Some (Records2, Groups2, Checksum2) =>
              Some (Records2, SetGroupChecksum k g :: Groups2, Checksum2)
          | None => None
          end
      end
  end.

(** [FCommonInventoryRegistryState::GetChecksum]: the value, and the state
    with its caches (they are [mutable]). *)
Definition GetChecksum (s : FCommonInventoryRegistryState)
    : option (Z * FCommonInventoryRegistryState) :=
  if bool_decide (Checksum s = 0) then
    match Archetypes_loop (CustomDataContainer s) (DataContainer s)
            (Archetypes s) 0 with
    | Some (Records, Groups, k) =>
        Some (k, SetChecksum k (SetArchetypes Groups (SetDataContainer Records s)))
    | None => None
    end
  else Some (Checksum s, s).

(** The checksum of a group and of the state when nothing is cached. *)
Definition ComputeArchetypeChecksum (Container : list FInstancedStruct)
    (Records : list FCommonInventoryRegistryRecord) (g : FArchetypeGroup) : Z :=
  foldl (λ k r, TypeCrc32 E (ComputeRecordChecksum Container r) k) 0
    (take (Z.to_nat (Offset g)) (drop (Z.to_nat (Begin g)) Records)).

Definition ComputeChecksum (s : FCommonInventoryRegistryState) : Z :=
  foldl (λ k g, TypeCrc32 E
                  (ComputeArchetypeChecksum (CustomDataContainer s)
                     (DataContainer s) g) k)
    0 (Archetypes s).

(** The cached record checksums are zero or right. *)
Definition records_valid (C : list FInstancedStruct)
    (l : list FCommonInventoryRegistryRecord) : Prop :=
  ∀ i r, l !! i = Some r → RecordChecksum r ≠ 0 →
    RecordChecksum r = ComputeRecordChecksum C r.

(** The cached group checksums are zero or right. *)
Definition groups_valid (C : list FInstancedStruct)
    (l : list FCommonInventoryRegistryRecord) (G : list FArchetypeGroup) : Prop :=
  ∀ g, g ∈ G → GroupChecksum g ≠ 0 →
    GroupChecksum g = ComputeArchetypeChecksum C l g.

(** Every cached checksum is zero or the checksum of what it caches. *)
Record caches_valid (s : FCommonInventoryRegistryState) : Prop := {
  cache_record : ∀ i r, DataContainer s !! i = Some r → RecordChecksum r ≠ 0 →
    RecordChecksum r = ComputeRecordChecksum (CustomDataContainer s) r;
  cache_group : ∀ g, g ∈ Archetypes s → GroupChecksum g ≠ 0 →
    GroupChecksum g =
      ComputeArchetypeChecksum (CustomDataContainer s) (DataContainer s) g;
  cache_state : Checksum s ≠ 0 → Checksum s = ComputeChecksum s
}.

End checksum.

(* ===================================================================== *)
(** ** SaveState and LoadState                                            *)
(* ===================================================================== *)

(** [FInventoryRegistryHeaderVersion::Magic] as the archive holds it: the
    four words in little-endian order spell the name of the plugin. *)
Definition Magic : list uint8 := String.list_byte_of_string "Common Inventory".

Definition LatestVersion : Z := 0.

Definition ToSerialized (r : FCommonInventoryRegistryRecord) : FSerializedRecord :=
  MkSerializedRecord (SharedData r) (AssetPath r)
    (DefaultPayloadIndex r) (CustomDataIndex r).

(** A record as the property serializer leaves it: the other members keep
    their default initializers. *)
Definition FromSerialized (p : FSerializedRecord) : FCommonInventoryRegistryRecord :=
  MkRecord ViewNull ViewNull (S_SharedData p) (S_AssetPath p)
    (S_DefaultPayloadIndex p) (S_CustomDataIndex p) INVALID_REPLICATION_INDEX 0.

Definition SerializedState (s : FCommonInventoryRegistryState) : FSerializedState :=
  (ToSerialized <$> DataContainer s, CustomDataContainer s).

Section serializer.
Context (E : FEngine).

(** [FInventoryRegistryHeader::Serialize] when saving. *)
Definition Header_Save (Header : FInventoryRegistryHeader) : option (list uint8) :=
  (Magic ++.) <$> HeaderFields_Write E Header.

(** [FInventoryRegistryHeader::Serialize] when loading: the header and the
    bytes behind it, or [None] when it returns false. *)
Definition Header_Load (Ar : list uint8)
    : option (FInventoryRegistryHeader * list uint8) :=
  if bool_decide (take (length Magic) Ar = Magic)
  then HeaderFields_Read E (drop (length Magic) Ar)
  else None.

(** [SaveState(Ar, bIsCooking)] with the data source class of the settings:
    the flag, what has been written to [Ar], and the log. *)
Definition SaveState (DataSourceClassName : string) (bIsCooking : bool)
    (s : FCommonInventoryRegistryState) : bool * list uint8 * list FLogLine :=
  match SerializeItem_Write E bIsCooking (SerializedState s) with
  | None =>
      (false, [],
       [LogLine Error "FCommonInventoryRegistryState: Failed to serialize state."])
  | Some BufferArchive =>
      let Header :=
        MkHeader LatestVersion DataSourceClassName
          (GetCustomVersions E bIsCooking (SerializedState s))
          (MemCrc32 E BufferArchive) bIsCooking in
      match Header_Save Header with
      | None =>
          (false, [],
           [LogLine Error "FCommonInventoryRegistryState: Failed to serialize header."])
      | Some HeaderBytes => (true, HeaderBytes ++ BufferArchive, [])
      end
  end.

(** [LoadState(Ar, bIsCooked)] with the data source class of the settings:
    the flag, the state and the log; [None] when a fatal check of
    [FixupDependencies] fails.  The archive is the list of its bytes, so
    reading what is left of it does not fail. *)
Definition LoadState (DataSourceClassName : string) (bIsCooked_ : bool)
    (Ar : list uint8) (s : FCommonInventoryRegistryState)
    : option (bool * FCommonInventoryRegistryState * list FLogLine) :=
  match Header_Load Ar with
  | None =>
      Some (false, s,
            [LogLine Error "FCommonInventoryRegistryState: Failed to read header in InventoryRegistry.bin."])
  | Some (Header, SerializedState_) =>
      if LatestVersion <? Version Header then
        Some (false, s,
              [LogLine Error "FCommonInventoryRegistryState: Unable to load InventoryRegistry.bin with a newer version."])
      else if bool_decide (DataSourceClass Header ≠ DataSourceClassName) then
        Some (false, s,
              [LogLine Error "FCommonInventoryRegistryState: Unable to load InventoryRegistry.bin with different data source."])
      else if negb (eqb (bIsCooked Header) bIsCooked_) then
        Some (false, s,
              [LogLine Error "FCommonInventoryRegistryState: Unable to load InventoryRegistry.bin with unexpected cooking state."])
      else if bool_decide (MemCrc32 E SerializedState_ ≠ HeaderChecksum Header) then
        Some (false, s,
              [LogLine Error "FCommonInventoryRegistryState: Failed to verify data integrity for InventoryRegistry.bin."])
      else
        let '(Records, Items, bAtEnd) :=
          SerializeItem_Read E bIsCooked_ (VersionContainer Header)
            SerializedState_ (SerializedState s) in
        let s1 :=
          SetDataContainer (FromSerialized <$> Records)
            (SetCustomDataContainer Items s) in
        if negb bAtEnd then
          match Reset [] s1 with
          | Some s2 =>
              Some (false, s2,
                    [LogLine Error "FCommonInventoryRegistryState: Failed to read data from InventoryRegistry.bin."])
          | None => None
          end
        else if negb (forallb (λ Item, bool_decide (is_Some Item)) Items) then
          match Reset [] s1 with
          | Some s2 =>
              Some (false, s2,
                    [LogLine Error "FCommonInventoryRegistryState: Found unsupported or missed DefaultPayload/CustomData type in InventoryRegistry.bin."])
          | None => None
          end
        else
          match FixupDependencies false s1 with
          | Some s2 => Some (true, s2, [])
          | None => None
          end
  end.

End serializer.

(* ===================================================================== *)
(** ** A sample engine                                                    *)
(* ===================================================================== *)

#[global] Instance FCommonItemSharedData_countable : Countable FCommonItemSharedData.
Proof.
  refine (inj_countable' (λ d, (PrimaryAssetId d, GameplayTags d, MaxStackSize d))
            (λ p, MkSharedData p.1.1 p.1.2 p.2) _).
  by intros [].
Defined.

#[global] Instance FSerializedRecord_eq_dec : EqDecision FSerializedRecord.
Proof. solve_decision. Defined.

#[global] Instance FSerializedRecord_countable : Countable FSerializedRecord.
Proof.
  refine (inj_countable'
            (λ r, (S_SharedData r, S_AssetPath r, S_DefaultPayloadIndex r,
                   S_CustomDataIndex r))
            (λ p, MkSerializedRecord p.1.1.1 p.1.1.2 p.1.2 p.2) _).
  by intros [].
Defined.

#[global] Instance FInventoryRegistryHeader_eq_dec :
  EqDecision FInventoryRegistryHeader.
Proof. solve_decision. Defined.

#[global] Instance FInventoryRegistryHeader_countable :
  Countable FInventoryRegistryHeader.
Proof.
  refine (inj_countable'
            (λ h, (Version h, DataSourceClass h, VersionContainer h,
                   HeaderChecksum h, bIsCooked h))
            (λ p, MkHeader p.1.1.1.1 p.1.1.1.2 p.1.1.2 p.1.2 p.2) _).
  by intros [].
Defined.

(** A positive number as bytes, one bit a byte, and back. *)
Fixpoint pos_to_bytes (p : positive) : list uint8 :=
  match p with
  | xH => []
  | xO p' => Byte.x00 :: pos_to_bytes p'
  | xI p' => Byte.x01 :: pos_to_bytes p'
  end.

Fixpoint bytes_to_pos (l : list uint8) : option positive :=
  match l with
  | [] => Some xH
  | b :: l' =>
      match bytes_to_pos l' with
      | Some p =>
          if decide (b = Byte.x00) then Some (xO p)
          else if decide (b = Byte.x01) then Some (xI p)
          else None
      | None => None
      end
  end.

(** A length-prefixed frame: as many one-bytes as the frame has bytes, a
    zero byte, the bytes. *)
Definition frame (l : list uint8) : list uint8 :=
  replicate (length l) Byte.x01 ++ Byte.x00 :: l.

Fixpoint unframe_count (l : list uint8) (n : nat) : option (nat * list uint8) :=
  match l with
  | [] => None
  | b :: l' =>
      if decide (b = Byte.x00) then Some (n, l')
      else if decide (b = Byte.x01) then unframe_count l' (S n)
      else None
  end.

Definition unframe (l : list uint8) : option (list uint8 * list uint8) :=
  match unframe_count l O with
  | Some (n, Rest) =>
      if bool_decide (n ≤ length Rest)%nat then Some (take n Rest, drop n Rest)
      else None
  | None => None
  end.

(** A byte sum as the buffer checksum of the sample engine. *)
Definition Sample_MemCrc32 (l : list uint8) : Z :=
  foldr (λ b k, Z.of_N (Byte.to_N b) + k) 0 l mod 2 ^ 32.

Definition Sample_Engine : FEngine :=
  {| MemCrc32 := Sample_MemCrc32;
     StrCrc32 := λ Data k, (Z.of_nat (String.length Data) + 31 * k + 1) mod 2 ^ 32;
     TypeCrc32 := λ Data k, (Data + 33 * k + 1) mod 2 ^ 32;
     ExportText := λ _ Memory,
       String.concat "," ((λ z, if bool_decide (z = 0) then "0" else "1") <$> Memory);
     ExportText_SharedData := λ d,
       (PrimaryAssetType (PrimaryAssetId d) +:+ ":"
        +:+ PrimaryAssetName (PrimaryAssetId d))%string;
     HeaderFields_Write := λ Header, Some (frame (pos_to_bytes (encode Header)));
     HeaderFields_Read := λ Ar,
       match unframe Ar with
       | Some (Bytes, Rest) =>
           match bytes_to_pos Bytes ≫= decode with
           | Some Header => Some (Header, Rest)
           | None => None
           end
       | None => None
       end;
     SerializeItem_Write := λ bCooked Data,
       Some (pos_to_bytes (encode (bCooked, Data)));
     SerializeItem_Read := λ bCooked _ Buffer Data,
       match bytes_to_pos Buffer ≫= decode with
       | Some (bCooked', Data') =>
           if eqb bCooked bCooked' then (Data', true) else (Data, false)
       | None => (Data, false)
       end;
     GetCustomVersions := λ _ _, [] |}.

(* ===================================================================== *)
(** ** Queries on the redirects                                           *)
(* ===================================================================== *)

(** [Algo::FindBy(Map, Value, &TTuple<FName, FName>::Value) != nullptr]. *)
Definition FindBy_Value (m : TMap.t FName FName) (v : FName) : bool :=
  bool_decide (v ∈ m.*2).

Definition HasTypeRedirects (R : FCommonInventoryRedirects)
    (InPrimaryAssetType : FName) : bool :=
  TMap.Contains (TypeRedirectionMap R) InPrimaryAssetType
  || FindBy_Value (TypeRedirectionMap R) InPrimaryAssetType.

Definition HasNameRedirects (R : FCommonInventoryRedirects)
    (InPrimaryAssetName : FName) : bool :=
  TMap.Contains (NameRedirectionMap R) InPrimaryAssetName
  || FindBy_Value (NameRedirectionMap R) InPrimaryAssetName.

(** One [for] loop of [TraversePermutations] over the entries of a map: the
    predicate is called with [Make OldValue] for every entry whose new
    value is [Target]; the loop tells whether the traversal goes on, and
    the ids the predicate has been called with. *)
Fixpoint TraversePermutations_loop (InPredicate : FPrimaryAssetId → bool)
    (Target : FName) (Make : FName → FPrimaryAssetId)
    (Entries : TMap.t FName FName) : bool * list FPrimaryAssetId :=
  match Entries with
  | [] => (true, [])
  | (OldValue_, NewValue_) :: Entries' =>
      if bool_decide (NewValue_ = Target) then
        if InPredicate (Make OldValue_) then
          let '(b, Calls) :=
            TraversePermutations_loop InPredicate Target Make Entries' in
          (b, Make OldValue_ :: Calls)
        else (false, [Make OldValue_])
      else TraversePermutations_loop InPredicate Target Make Entries'
  end.

(** The last, nested loop: types outside, names inside. *)
Fixpoint TraversePermutations_both (InPredicate : FPrimaryAssetId → bool)
    (InPrimaryAssetId : FPrimaryAssetId)
    (TypeEntries NameEntries : TMap.t FName FName)
    : bool * list FPrimaryAssetId :=
  match TypeEntries with
  | [] => (true, [])
  | (OldType, NewType) :: TypeEntries' =>
      if bool_decide (NewType = PrimaryAssetType InPrimaryAssetId) then
        let '(b, Calls) :=
          TraversePermutations_loop InPredicate
            (PrimaryAssetName InPrimaryAssetId)
            (λ OldName, MkPrimaryAssetId OldType OldName) NameEntries in
        if b then
          let '(b', Calls') :=
            TraversePermutations_both InPredicate InPrimaryAssetId
              TypeEntries' NameEntries in
          (b', Calls ++ Calls')
        else (false, Calls)
      else
        TraversePermutations_both InPredicate InPrimaryAssetId
          TypeEntries' NameEntries
  end.

(** [TraversePermutations]: the ids the predicate is called with, in the
    order of the calls. *)
Definition TraversePermutations (R : FCommonInventoryRedirects)
    (InPrimaryAssetId : FPrimaryAssetId) (InPredicate : FPrimaryAssetId → bool)
    : list FPrimaryAssetId :=
  let '(b1, Calls1) :=
    TraversePermutations_loop InPredicate (PrimaryAssetName InPrimaryAssetId)
      (λ OldName, MkPrimaryAssetId (PrimaryAssetType InPrimaryAssetId) OldName)
      (NameRedirectionMap R) in
  if negb b1 then Calls1
  else
    let '(b2, Calls2) :=
      TraversePermutations_loop InPredicate (PrimaryAssetType InPrimaryAssetId)
        (λ OldType, MkPrimaryAssetId OldType (PrimaryAssetName InPrimaryAssetId))
        (TypeRedirectionMap R) in
    if negb b2 then Calls1 ++ Calls2
    else
      Calls1 ++ Calls2 ++
      (TraversePermutations_both InPredicate InPrimaryAssetId
         (TypeRedirectionMap R) (NameRedirectionMap R)).2.

(** The calls of a predicate on a list that is walked until the predicate
    returns false. *)
Fixpoint calls_until {A} (InPredicate : A → bool) (l : list A) : list A :=
  match l with
  | [] => []
  | x :: l' => if InPredicate x then x :: calls_until InPredicate l' else [x]
  end.

(** The old values of the entries of a map that lead to [Target], in the
    order of the map. *)
Definition sources_of (m : TMap.t FName FName) (Target : FName) : list FName :=
  (filter (λ e, e.2 = Target) m).*1.

(** What a walk along the chain has seen is closed under the links, up to
    where the walk is. *)
Definition walk_closed (U : TMap.t FName FName) (V : list FName) (Out : FName)
    : Prop :=
  ∀ v, v ∈ V → v = Out ∨ ∀ y, redirect_step U v y → y ∈ V ∨ y = Out.

(** [CanResolveInto]. *)
Definition CanResolveInto (InRedirects : list FCommonInventoryRedirector)
    (OriginalValue TargetValue : FName) : option bool :=
  if bool_decide (OriginalValue ≠ TargetValue) then
    match ResolveValue (GenerateRedirectionMap InRedirects) OriginalValue
            (Some TargetValue) with
    | Some (true, ResolvedValue) => Some (bool_decide (ResolvedValue = TargetValue))
    | Some (false, _) => Some false
    | None => None
    end
  else Some false.

(** [HasCommonBase]. *)
Definition HasCommonBase (InRedirects : list FCommonInventoryRedirector)
    (FirstValue SecondValue : FName) : option bool :=
  let UnresolvedRedirects := GenerateRedirectionMap InRedirects in
  match ResolveValue UnresolvedRedirects FirstValue None with
  | Some (true, ResolvedFirst) =>
      if bool_decide (ResolvedFirst = SecondValue) then Some true
      else
        match ResolveValue UnresolvedRedirects SecondValue None with
        | Some (true, ResolvedSecond) =>
            Some (bool_decide (ResolvedFirst = ResolvedSecond))
        | Some (false, _) => Some false
        | None => None
        end
  | Some (false, _) => Some false
  | None => None
  end.

(** The [do ... while] loop of [CleanupRedirects] for one entry of the raw
    map: the visited keys and the final [CurrentValue].  [NextValue] is
    what the map holds for [CurrentValue]. *)
Fixpoint CleanupRedirects_walk (fuel : nat)
    (UnresolvedRedirects : TMap.t FName FName) (TargetValue : FName)
    (CleanupKeys InvalidKeys VisitedKeys : TSet.t FName)
    (CurrentValue NextValue : FName) : option (TSet.t FName * FName) :=
  match fuel with
  | O => None
  | S fuel' =>
      if TSet.Contains VisitedKeys CurrentValue
         || TSet.Contains InvalidKeys CurrentValue
      then Some (VisitedKeys, CurrentValue)
      else if TSet.Contains CleanupKeys CurrentValue
      then Some (VisitedKeys, TargetValue)
      else
        let VisitedKeys' := TSet.Emplace VisitedKeys CurrentValue in
        match TMap.Find UnresolvedRedirects NextValue with
        | Some NextValue' =>
            CleanupRedirects_walk fuel' UnresolvedRedirects TargetValue
              CleanupKeys InvalidKeys VisitedKeys' NextValue NextValue'
        | None => Some (VisitedKeys', NextValue)
        end
  end.

(** The [for] loop over the raw map: the keys to clean up and the keys
    known not to lead to the target. *)
Fixpoint CleanupRedirects_loop (fuel : nat)
    (UnresolvedRedirects : TMap.t FName FName) (TargetValue : FName)
    (CleanupKeys InvalidKeys : TSet.t FName) (Entries : list (FName * FName))
    : option (TSet.t FName * TSet.t FName) :=
  match Entries with
  | [] => Some (CleanupKeys, InvalidKeys)
  | (OldValue_, NewValue_) :: Entries' =>
      match CleanupRedirects_walk fuel UnresolvedRedirects TargetValue
              CleanupKeys InvalidKeys [] OldValue_ NewValue_ with
      | None => None
      | Some (VisitedKeys, CurrentValue) =>
          if bool_decide (CurrentValue = TargetValue) then
            CleanupRedirects_loop fuel UnresolvedRedirects TargetValue
              (TSet.Append CleanupKeys VisitedKeys) InvalidKeys Entries'
          else
            CleanupRedirects_loop fuel UnresolvedRedirects TargetValue
              CleanupKeys (TSet.Append InvalidKeys VisitedKeys) Entries'
      end
  end.

(** What the outer loop keeps true of its two key sets. *)
Record cleanup_inv (U : TMap.t FName FName) (TargetValue : FName)
    (C I : list FName) : Prop := {
  cleanup_target : TargetValue ∈ C;
  cleanup_leads : ∀ k, k ∈ C → k = TargetValue ∨ tc (redirect_step U) k TargetValue;
  cleanup_invalid : ∀ k, k ∈ I → ¬ rtc (redirect_step U) k TargetValue
}.

(** The keys [CleanupRedirects] removes. *)
Definition CleanupRedirects_keys
    (InRedirects : list FCommonInventoryRedirector) (TargetValue : FName)
    (bRecursively : bool) : option (TSet.t FName) :=
  if bRecursively then
    let UnresolvedRedirects := GenerateRedirectionMap InRedirects in
    fst <$> CleanupRedirects_loop (S (length UnresolvedRedirects))
              UnresolvedRedirects TargetValue [TargetValue] []
              UnresolvedRedirects
  else Some [TargetValue].

(** [CleanupRedirects] returns its flag and the updated list:
    [TArray::RemoveAll] keeps the order of what it leaves. *)
Definition CleanupRedirects (InRedirects : list FCommonInventoryRedirector)
    (TargetValue : FName) (bRecursively : bool)
    : option (bool * list FCommonInventoryRedirector) :=
  match CleanupRedirects_keys InRedirects TargetValue bRecursively with
  | Some CleanupKeys =>
      let Kept :=
        filter (λ Redirect, TSet.Contains CleanupKeys (OldValue Redirect) = false)
          InRedirects in
      Some (bool_decide (0 < length InRedirects - length Kept)%nat, Kept)
  | None => None
  end.

(* ===================================================================== *)
(** ** Items and the registry (CommonInventoryRegistryDataSource.cpp,     *)
(**    CommonInventoryTypes.cpp)                                          *)
(* ===================================================================== *)

(** [FVariadicStruct::IsValid]. *)
Definition Payload_IsValid (InPayload : FInstancedStruct) : bool :=
  bool_decide (is_Some InPayload).

(** [UCommonInventoryRegistry::ResetItem]: the flag and the payload. *)
Definition ResetItem (RegistryState : FCommonInventoryRegistryState)
    (InPrimaryAssetId : FPrimaryAssetId) (InPayload : FInstancedStruct)
    : bool * FInstancedStruct :=
  match GetRecordPtr RegistryState InPrimaryAssetId with
  | Some RegistryRecord =>
      (true, ReadView (CustomDataContainer RegistryState)
               (DefaultPayload RegistryRecord))
  | None => (false, InPayload)
  end.

(** [UCommonInventoryRegistry::ValidateItem]. *)
Definition ValidateItem (RegistryState : FCommonInventoryRegistryState)
    (InPrimaryAssetId : FPrimaryAssetId) (InPayload : FInstancedStruct) : bool :=
  match GetRecordPtr RegistryState InPrimaryAssetId with
  | Some RegistryRecord =>
      bool_decide (fst <$> InPayload =
                   View_GetScriptStruct (CustomDataContainer RegistryState)
                     (DefaultPayload RegistryRecord))
  | None =>
      negb (FPrimaryAssetId_IsValid InPrimaryAssetId)
      && negb (Payload_IsValid InPayload)
  end.

(** [UCommonInventoryRegistry::SynchronizeItem]: the flag, the id and the
    payload. *)
Definition SynchronizeItem (Redirects : FCommonInventoryRedirects)
    (RegistryState : FCommonInventoryRegistryState)
    (InPrimaryAssetId : FPrimaryAssetId) (InPayload : FInstancedStruct)
    : bool * FPrimaryAssetId * FInstancedStruct :=
  let Id :=
    if FPrimaryAssetId_IsValid InPrimaryAssetId
       && negb (ContainsRecord RegistryState InPrimaryAssetId)
    then (TryRedirect Redirects InPrimaryAssetId).2
    else InPrimaryAssetId in
  match GetRecordPtr RegistryState Id with
  | Some RegistryRecord =>
      if bool_decide (View_GetScriptStruct (CustomDataContainer RegistryState)
                        (DefaultPayload RegistryRecord) ≠ fst <$> InPayload)
      then (true, Id, ReadView (CustomDataContainer RegistryState)
                        (DefaultPayload RegistryRecord))
      else (true, Id, InPayload)
  | None => (false, Id, InPayload)
  end.

(** [FCommonItem]. *)
Record FCommonItem := MkCommonItem {
  Payload : FInstancedStruct;
  Item_PrimaryAssetId : FPrimaryAssetId
}.

(** [FCommonItem::ResetItem]. *)
Definition FCommonItem_ResetItem (RegistryState : FCommonInventoryRegistryState)
    (Item : FCommonItem) : FCommonItem :=
  if FPrimaryAssetId_IsValid (Item_PrimaryAssetId Item) then
    match ResetItem RegistryState (Item_PrimaryAssetId Item) (Payload Item) with
    | (true, Payload') => MkCommonItem Payload' (Item_PrimaryAssetId Item)
    | (false, _) => MkCommonItem None FPrimaryAssetId_None
    end
  else MkCommonItem None (Item_PrimaryAssetId Item).

(** [FCommonItem::ValidateItem]. *)
Definition FCommonItem_ValidateItem (RegistryState : FCommonInventoryRegistryState)
    (Item : FCommonItem) : bool :=
  if FPrimaryAssetId_IsValid (Item_PrimaryAssetId Item) then
    ValidateItem RegistryState (Item_PrimaryAssetId Item) (Payload Item)
  else negb (Payload_IsValid (Payload Item)).

(** [FCommonItem::SynchronizeItem]. *)
Definition FCommonItem_SynchronizeItem (Redirects : FCommonInventoryRedirects)
    (RegistryState : FCommonInventoryRegistryState)
    (Item : FCommonItem) : FCommonItem :=
  if FPrimaryAssetId_IsValid (Item_PrimaryAssetId Item) then
    match SynchronizeItem Redirects RegistryState
            (Item_PrimaryAssetId Item) (Payload Item) with
    | (true, Id, Payload') => MkCommonItem Payload' Id
    | (false, _, _) => MkCommonItem None FPrimaryAssetId_None
    end
  else MkCommonItem None (Item_PrimaryAssetId Item).

(** [FCommonItem(FPrimaryAssetId)]: the constructor resets the item. *)
Definition FCommonItem_Make (RegistryState : FCommonInventoryRegistryState)
    (InPrimaryAssetId : FPrimaryAssetId) : FCommonItem :=
  FCommonItem_ResetItem RegistryState (MkCommonItem None InPrimaryAssetId).

(** [FCommonItem::SetPrimaryAssetId]. *)
Definition FCommonItem_SetPrimaryAssetId
    (RegistryState : FCommonInventoryRegistryState)
    (InPrimaryAssetId : FPrimaryAssetId) (Item : FCommonItem) : FCommonItem :=
  if bool_decide (Item_PrimaryAssetId Item ≠ InPrimaryAssetId) then
    FCommonItem_ResetItem RegistryState
      (MkCommonItem (Payload Item) InPrimaryAssetId)
  else Item.

(* ===================================================================== *)
(** ** Calls on a registry state, checksum queries included               *)
(* ===================================================================== *)

(** A call on a registry state: a mutation, or [GetChecksum], which fills
    the caches. *)
Inductive FRegistryCall :=
| CallMutate (m : FRegistryMutation)
| CallGetChecksum.

Definition Call (E : FEngine) (c : FRegistryCall)
    (s : FCommonInventoryRegistryState) : option FCommonInventoryRegistryState :=
  match c with
  | CallMutate m => Mutate m s
  | CallGetChecksum => snd <$> GetChecksum E s
  end.

(** A run of calls, each of which passes its checks. *)
Fixpoint CallAll (E : FEngine) (cs : list FRegistryCall)
    (s : FCommonInventoryRegistryState) : option FCommonInventoryRegistryState :=
  match cs with
  | [] => Some s
  | c :: cs' =>
      match Call E c s with
      | Some s' => CallAll E cs' s'
      | None => None
      end
  end.

(** The order of the types in an array sorted by [operator<]. *)
Definition type_le (a b : FName) : Prop := a = b ∨ LexicalLess a b = true.

(** The types of the records a group stands for. *)
Definition group_run (g : FArchetypeGroup) : list FName :=
  replicate (Z.to_nat (Offset g)) (GroupType g).

(** The groups split the types of the array into its runs of equal types,
    one group per type. *)
Record groups_match (G : list FArchetypeGroup) (Types : list FName) : Prop := {
  match_cover : groups_from 0 G (Z.of_nat (length Types));
  match_runs : Types = G ≫= group_run;
  match_NoDup : NoDup (GroupType <$> G);
  match_last : ∀ It, last G = Some It → last Types = Some (GroupType It)
}.

(** The records of a group: [Offset] records from [Begin] on. *)
Definition GroupRecords (Records : list FCommonInventoryRegistryRecord)
    (g : FArchetypeGroup) : list FCommonInventoryRegistryRecord :=
  take (Z.to_nat (Offset g)) (drop (Z.to_nat (Begin g)) Records).

(* ===================================================================== *)
(** ** Replication of an item id (CommonInventoryRegistryDataSource.cpp)  *)
(* ===================================================================== *)

(** The bit archives of the engine.  A writer is the list of the bits
    written so far; it is taken to grow as needed.  A reader is the list of
    the bits left and its error flag. *)
Record FBitReader := MkBitReader {
  Bits : list bool;
  ArIsError : bool
}.

(** The [LengthBits] low bits of a value, lowest first, and the value of a
    run of bits. *)
Fixpoint BitsOf (LengthBits : nat) (Value : Z) : list bool :=
  match LengthBits with
  | O => []
  | S n => Z.odd Value :: BitsOf n (Z.div2 Value)
  end.

Fixpoint ValueOf (Run : list bool) : Z :=
  match Run with
  | [] => 0
  | b :: Run' => Z.b2z b + 2 * ValueOf Run'
  end.

(** [FBitWriter::SerializeBits] with a [uint32] as the source. *)
Definition Writer_SerializeBits (Value LengthBits : Z) (Ar : list bool) : list bool :=
  Ar ++ BitsOf (Z.to_nat LengthBits) Value.

(** [FBitReader::SerializeBits] with a zero-initialized [uint32] as the
    destination: a reader in error, or with too few bits left, zeroes the
    destination and is in error. *)
Definition Reader_SerializeBits (LengthBits : Z) (Ar : FBitReader) : Z * FBitReader :=
  if ArIsError Ar || bool_decide (length (Bits Ar) < Z.to_nat LengthBits)%nat
  then (0, MkBitReader (Bits Ar) true)
  else (ValueOf (take (Z.to_nat LengthBits) (Bits Ar)),
        MkBitReader (drop (Z.to_nat LengthBits) (Bits Ar)) false).

(** A value stored in a [uint32]. *)
Definition uint32 (z : Z) : Z := z mod 2 ^ 32.

(** [FCommonInventoryRegistryNetSerializationContext], with the two
    references of the call: [Ctx_PrimaryAssetId] is the copy of the id taken
    when the context is made, [Out_PrimaryAssetId] and [Out_bOutSuccess] are
    what the call leaves in [InPrimaryAssetId] and [bOutSuccess]. *)
Record FNetSerializationContext := MkNetContext {
  Ctx_RegistryRecord : option FCommonInventoryRegistryRecord;
  Ctx_PrimaryAssetId : FPrimaryAssetId;
  Out_PrimaryAssetId : FPrimaryAssetId;
  Out_bOutSuccess : bool
}.

(** [RegistryRecord->GetChecksum()] on the record at [Idx]: the value, the
    record and the state with the cache of the record. *)
Definition GetChecksumAt (E : FEngine) (s : FCommonInventoryRegistryState)
    (Idx : nat) (RegistryRecord : FCommonInventoryRegistryRecord)
    : Z * FCommonInventoryRegistryRecord * FCommonInventoryRegistryState :=
  let '(k, r) := Record_GetChecksum E (CustomDataContainer s) RegistryRecord in
  (k, r, SetDataContainer (<[Idx := r]> (DataContainer s)) s).

(** [UCommonInventoryRegistry::NetSerializeItem] on a saving archive.
    [bWithNetworkChecksum] is [COMMON_INVENTORY_WITH_NETWORK_CHECKSUM]. *)
Definition NetSerializeItem_Save (E : FEngine) (bWithNetworkChecksum : bool)
    (RegistryState : FCommonInventoryRegistryState) (Ar : list bool)
    (InPrimaryAssetId : FPrimaryAssetId) (bOutSuccess : bool)
    : FNetSerializationContext * list bool * FCommonInventoryRegistryState :=
  let '(RepIndex_, Checksum_, RegistryRecord, RegistryState') :=
    match DataMap RegistryState !! InPrimaryAssetId with
    | Some Idx =>
        match DataContainer RegistryState !! Idx with
        | Some r =>
            if bWithNetworkChecksum then
              let '(k, r', s') := GetChecksumAt E RegistryState Idx r in
              (RepIndex r, uint32 k, Some r', s')
            else (RepIndex r, 0, Some r, RegistryState)
        | None => (INVALID_REPLICATION_INDEX, 0, None, RegistryState)
        end
    | None => (INVALID_REPLICATION_INDEX, 0, None, RegistryState)
    end in
  let Ar1 :=
    Writer_SerializeBits RepIndex_ (RepIndexEncodingBitsNum RegistryState) Ar in
  let Ar2 :=
    if bWithNetworkChecksum then Writer_SerializeBits Checksum_ 32 Ar1 else Ar1 in
  (MkNetContext RegistryRecord InPrimaryAssetId InPrimaryAssetId bOutSuccess,
   Ar2, RegistryState').

(** [UCommonInventoryRegistry::NetSerializeItem] on a loading archive; a
    failed [ensureMsgf] logs and goes on. *)
Definition NetSerializeItem_Load (E : FEngine) (bWithNetworkChecksum : bool)
    (RegistryState : FCommonInventoryRegistryState) (Ar : FBitReader)
    (InPrimaryAssetId : FPrimaryAssetId) (bOutSuccess : bool)
    : FNetSerializationContext * FBitReader * FCommonInventoryRegistryState :=
  let '(RepIndex_, Ar1) :=
    Reader_SerializeBits (RepIndexEncodingBitsNum RegistryState) Ar in
  let '(Checksum_, Ar2) :=
    if bWithNetworkChecksum then Reader_SerializeBits 32 Ar1 else (0, Ar1) in
  let Found :=
    match ReplicationMap RegistryState !! RepIndex_ with
    | Some Idx => (Idx,.) <$> DataContainer RegistryState !! Idx
    | None => None
    end in
  match Found with
  | Some (Idx, r) =>
      let '(LocalChecksum, r', s') :=
        if bWithNetworkChecksum then
          let '(k, r', s') := GetChecksumAt E RegistryState Idx r in (uint32 k, r', s')
        else (0, r, RegistryState) in
      (MkNetContext (Some r') InPrimaryAssetId (GetPrimaryAssetId r)
         (if bWithNetworkChecksum && negb (bool_decide (Checksum_ = LocalChecksum))
          then false else bOutSuccess),
       Ar2, s')
  | None =>
      let bOutSuccess1 :=
        if bool_decide (RepIndex_ = INVALID_REPLICATION_INDEX)
        then bOutSuccess else false in
      (MkNetContext None InPrimaryAssetId FPrimaryAssetId_None
         (if bWithNetworkChecksum && negb (bool_decide (Checksum_ = 0))
          then false else bOutSuccess1),
       Ar2, RegistryState)
  end.

(* ===================================================================== *)
(** ** Sample data                                                        *)
(* ===================================================================== *)

(** A record as a data source hands it over: no indices, no replication
    index, no cached checksum. *)
Definition MakeRecord (InType InName : FName)
    (InDefaultPayload InCustomData : FConstStructView)
    : FCommonInventoryRegistryRecord :=
  MkRecord InDefaultPayload InCustomData
    (MkSharedData (MkPrimaryAssetId InType InName) [] 64) "/Game/Items"
    INDEX_NONE INDEX_NONE INVALID_REPLICATION_INDEX 0.

Definition Sample_Sword : FCommonInventoryRegistryRecord :=
  MakeRecord "Weapon" "Sword" (ViewOf "Durability" [100]) (ViewOf "Meta" [1]).

Definition Sample_Bow : FCommonInventoryRegistryRecord :=
  MakeRecord "Weapon" "Bow" ViewNull (ViewOf "Meta" [2]).

Definition Sample_Apple : FCommonInventoryRegistryRecord :=
  MakeRecord "Food" "Apple" (ViewOf "Nutrition" [5; 7]) ViewNull.

(** The sword again, with another stack size and another default payload
    type. *)
Definition Sample_Sword2 : FCommonInventoryRegistryRecord :=
  MkRecord (ViewOf "Sharpness" [3]) (ViewOf "Meta" [1])
    (MkSharedData (MkPrimaryAssetId "Weapon" "Sword") ["Item.Weapon"] 1)
    "/Game/Items2" INDEX_NONE INDEX_NONE INVALID_REPLICATION_INDEX 0.

Definition Sample_Mutations : list FRegistryMutation :=
  [MutReset [Sample_Sword; Sample_Apple]; MutAppendData Sample_Bow].

Definition Sample_State : FCommonInventoryRegistryState :=
  default EmptyState (MutateAll Sample_Mutations EmptyState).

Definition Sample_Shield : FCommonInventoryRegistryRecord :=
  MakeRecord "Armor" "Shield" ViewNull ViewNull.

Definition Sample_Herb : FCommonInventoryRegistryRecord :=
  MakeRecord "Food" "Herb" ViewNull (ViewOf "Meta" [0]).

(** The herb again, now with a default payload. *)
Definition Sample_Herb2 : FCommonInventoryRegistryRecord :=
  MakeRecord "Food" "Herb" (ViewOf "Nutrition" [5; 7]) (ViewOf "Meta" [0]).

(** A base state in which the herb has been given a default payload by an
    update, and the same state with one more record. *)
Definition Diff_Base_Mutations : list FRegistryMutation :=
  [MutReset [Sample_Herb; Sample_Bow]; MutAppendData Sample_Herb2].

Definition Diff_Base : FCommonInventoryRegistryState :=
  default EmptyState (MutateAll Diff_Base_Mutations EmptyState).

Definition Diff_Extended : FCommonInventoryRegistryState :=
  default EmptyState
    (MutateAll (Diff_Base_Mutations ++ [MutAppendData Sample_Shield]) EmptyState).

(** A registry before and after the default durability of the axe went
    from 100 to 80 and its default grade from 1 to 2. *)
Definition Sample_Axe (Durability Grade : Z) : FCommonInventoryRegistryRecord :=
  MakeRecord "Weapon" "Axe" (ViewOf "Durability" [Durability; 5; Grade]) ViewNull.


Definition Sample_Live : FCommonInventoryRegistryState :=
  default EmptyState (Reset [Sample_Axe 80 2] EmptyState).



(** The properties of the sample script structs.  A durability payload has
    three plain properties.  A blade payload has a plain property, its
    durability, and a property [Edge] that is a struct of two leaf fields,
    its sharpness and its grade. *)
Definition Sample_Properties (ScriptStruct : UScriptStruct) : list FProperty :=
  if bool_decide (ScriptStruct = "Durability") then
    [MkProperty 0 1; MkProperty 1 1; MkProperty 2 1]
  else if bool_decide (ScriptStruct = "Blade") then
    [MkProperty 0 1; MkProperty 1 2]
  else [].






Definition Sample_AxeId : FPrimaryAssetId := MkPrimaryAssetId "Weapon" "Axe".



(** An archive whose header promises the checksum 7 for a body whose
    checksum is 42. *)
Definition Sample_Header : FInventoryRegistryHeader :=
  MkHeader LatestVersion "/Script/Game.ItemDataSource" [] 7 false.

Definition Sample_HeaderBytes : list uint8 :=
  Magic ++ frame (pos_to_bytes (encode Sample_Header)).

Definition Sample_CorruptArchive : list uint8 :=
  Sample_HeaderBytes ++ [Byte.x2a].

(** The sample state after [GetChecksum] has filled its caches. *)
Definition Sample_Cached : FCommonInventoryRegistryState :=
  default Sample_State (snd <$> GetChecksum Sample_Engine Sample_State).

Definition Sample_Checksum : Z :=
  default 0 (fst <$> GetChecksum Sample_Engine Sample_State).

Definition Diff_HerbRecord : FCommonInventoryRegistryRecord :=
  default Sample_Herb (DataContainer Diff_Base !! 0%nat).

Definition Diff_BowRecord : FCommonInventoryRegistryRecord :=
  default Sample_Bow (DataContainer Diff_Base !! 1%nat).

(** An item saved under the old name of the axe, with a payload of another
    type, and the redirects that know the new name. *)
Definition Sample_ItemRedirects : FCommonInventoryRedirects :=
  Redirects_ [] [("Hatchet", "Axe")].

Definition Hatchet_Context : FContext :=
  MkContext
    (default EmptyState
       (Reset [MakeRecord "Weapon" "Hatchet" (ViewOf "Durability" [100; 5; 1])
                 ViewNull] EmptyState))
    (Some 0%nat) false false.

Definition Sample_Hatchet : FCommonItem :=
  MkCommonItem (Some ("Edge", [3])) (MkPrimaryAssetId "Weapon" "Hatchet").

(** A run of calls with checksum queries between the mutations. *)
Definition Checked_Calls : list FRegistryCall :=
  [CallMutate (MutReset [Sample_Sword; Sample_Apple]); CallGetChecksum;
   CallMutate (MutAppendData Sample_Bow); CallGetChecksum;
   CallMutate (MutAppendData Sample_Sword2);
   CallMutate (MutRemoveData (MkPrimaryAssetId "Food" "Apple"))].

Definition Checked_State : FCommonInventoryRegistryState :=
  default EmptyState (CallAll Sample_Engine Checked_Calls EmptyState).

(** The sample state after the sword has been updated. *)
Definition Diff_Updated : FCommonInventoryRegistryState :=
  default EmptyState
    (MutateAll (Sample_Mutations ++ [MutAppendData Sample_Sword2]) EmptyState).

(** A peer that holds the ids of [Checked_State], the sword as it was
    before its update. *)
Definition Peer_Calls : list FRegistryCall :=
  [CallMutate (MutReset [Sample_Sword; Sample_Bow])].

Definition Peer_State : FCommonInventoryRegistryState :=
  default EmptyState (CallAll Sample_Engine Peer_Calls EmptyState).
(* ===================================================================== *)
(** * Part II: properties                                                 *)
(* ===================================================================== *)

(** ** TMap and TSet *)

Section tmap_facts.
Context {K V : Type} `{EqDecision K}.
Implicit Types (m : list (K * V)) (k : K) (v : V).

Lemma Find_Emplace m k v k' :
  TMap.Find (TMap.Emplace m k v) k' =
  if decide (k = k') then Some v else TMap.Find m k'.
Proof.
  induction m as [|[k0 v0] m IH]; simpl.
  - repeat case_decide; congruence.
  - destruct (decide (k0 = k)) as [->|Hne]; simpl.
    + repeat case_decide; congruence.
    + rewrite IH. repeat case_decide; congruence.
Qed.

Lemma Find_Some_elem m k v : TMap.Find m k = Some v → (k, v) ∈ m.
Proof.
  induction m as [|[k0 v0] m IH]; simpl; [done|].
  case_decide; intros Hf.
  - simplify_eq. left.
  - right. auto.
Qed.

Lemma Find_None_keys m k : TMap.Find m k = None ↔ k ∉ TMap.Keys m.
Proof.
  unfold TMap.Keys. induction m as [|[k0 v0] m IH]; simpl.
  - split; [intros _; apply not_elem_of_nil | done].
  - rewrite not_elem_of_cons. case_decide; split; try done.
    + intros [? _]. congruence.
    + intros Hf. split; [congruence | by apply IH].
    + intros [_ ?]. by apply IH.
Qed.

Lemma Find_is_Some_keys m k : is_Some (TMap.Find m k) ↔ k ∈ TMap.Keys m.
Proof.
  destruct (TMap.Find m k) eqn:E.
  - split; [intros _|eauto]. destruct (decide (k ∈ TMap.Keys m)); [done|].
    apply Find_None_keys in n. congruence.
  - apply Find_None_keys in E. split; [intros [? ?]; done | done].
Qed.

Lemma Find_elem_NoDup m k v :
  NoDup (TMap.Keys m) → (k, v) ∈ m → TMap.Find m k = Some v.
Proof.
  unfold TMap.Keys. induction m as [|[k0 v0] m IH]; simpl.
  - intros _ Hin. by apply elem_of_nil in Hin.
  - intros Hnd Hin. apply NoDup_cons in Hnd as [Hnotin Hnd].
    apply elem_of_cons in Hin as [Heq|Hin].
    + simplify_eq. by rewrite decide_True.
    + rewrite decide_False; [by apply IH|].
      intros ->. apply Hnotin. apply list_elem_of_fmap. by exists (k, v).
Qed.

Lemma Contains_true m k : TMap.Contains m k = true ↔ is_Some (TMap.Find m k).
Proof.
  unfold TMap.Contains. destruct (TMap.Find m k); split; try done; eauto.
Qed.

Lemma Contains_false m k : TMap.Contains m k = false ↔ TMap.Find m k = None.
Proof. unfold TMap.Contains. destruct (TMap.Find m k); split; done. Qed.

Lemma Keys_Emplace_fresh m k v :
  TMap.Find m k = None → TMap.Keys (TMap.Emplace m k v) = TMap.Keys m ++ [k].
Proof.
  unfold TMap.Keys. induction m as [|[k0 v0] m IH]; simpl; [done|].
  case_decide; [done|]. intros Hf. rewrite fmap_cons. simpl.
  f_equal. by apply IH.
Qed.

Lemma length_Emplace_fresh m k v :
  TMap.Find m k = None → length (TMap.Emplace m k v) = S (length m).
Proof.
  induction m as [|[k0 v0] m IH]; simpl; [done|].
  case_decide; [done|]. intros Hf. simpl. by rewrite IH.
Qed.

Lemma Find_foldl_Emplace (ks : list K) m v k :
  TMap.Find (foldl (λ m' Key, TMap.Emplace m' Key v) m ks) k =
  if decide (k ∈ ks) then Some v else TMap.Find m k.
Proof.
  revert m. induction ks as [|k0 ks IH]; intros m; simpl.
  - destruct (decide (k ∈ [])) as [Hin|]; [|done].
    by apply elem_of_nil in Hin.
  - rewrite IH, Find_Emplace.
    destruct (decide (k ∈ ks)) as [Hin|Hnin];
      destruct (decide (k ∈ k0 :: ks)) as [Hin'|Hnin'];
      rewrite ?elem_of_cons in *; try naive_solver.
    + destruct Hin' as [->|?]; [|done]. by rewrite decide_True.
    + rewrite decide_False; naive_solver.
Qed.
End tmap_facts.

Section tset_facts.
Context {K : Type} `{EqDecision K}.
Implicit Types (s : list K) (k : K).

Lemma TSet_Contains_true s k : TSet.Contains s k = true ↔ k ∈ s.
Proof. unfold TSet.Contains. apply bool_decide_eq_true. Qed.

Lemma TSet_Contains_false s k : TSet.Contains s k = false ↔ k ∉ s.
Proof. unfold TSet.Contains. apply bool_decide_eq_false. Qed.

Lemma elem_of_TSet_Emplace s k x : x ∈ TSet.Emplace s k ↔ x ∈ s ∨ x = k.
Proof.
  unfold TSet.Emplace. destruct (TSet.Contains s k) eqn:E.
  - apply TSet_Contains_true in E. naive_solver.
  - rewrite elem_of_app, list_elem_of_singleton. done.
Qed.

Lemma elem_of_TSet_Append s ks x : x ∈ TSet.Append s ks ↔ x ∈ s ∨ x ∈ ks.
Proof.
  unfold TSet.Append. revert s. induction ks as [|k ks IH]; intros s; simpl.
  - rewrite elem_of_nil. naive_solver.
  - rewrite IH, elem_of_TSet_Emplace, elem_of_cons. naive_solver.
Qed.
End tset_facts.

(** ** The raw map built by GenerateRedirectionMap *)

Lemma Redirector_IsValid_true r :
  Redirector_IsValid r = true ↔
  OldValue r ≠ NAME_None ∧ NewValue r ≠ NAME_None ∧ OldValue r ≠ NewValue r.
Proof.
  unfold Redirector_IsValid, IsNone.
  rewrite !andb_true_iff, !negb_true_iff, !bool_decide_eq_false. naive_solver.
Qed.

Lemma GenerateRedirectionMap_from_ok m rs :
  raw_map_ok m → raw_map_ok (GenerateRedirectionMap_from m rs).1.
Proof.
  revert m. induction rs as [|r rs IH]; intros m Hm; simpl; [done|].
  destruct (Redirector_IsValid r) eqn:Hv; simpl.
  - destruct (TMap.Contains m (OldValue r)) eqn:Hc.
    + specialize (IH m Hm). by destruct (GenerateRedirectionMap_from m rs).
    + apply IH. apply Contains_false in Hc.
      apply Redirector_IsValid_true in Hv. destruct Hm as [Hnd Hval]. split.
      * rewrite Keys_Emplace_fresh by done.
        apply NoDup_app. split_and!; [done| |apply NoDup_singleton].
        intros x Hx Hx'. apply list_elem_of_singleton in Hx' as ->.
        by apply Find_None_keys in Hc.
      * intros k v Hin. apply Find_elem_NoDup in Hin.
        -- rewrite Find_Emplace in Hin. case_decide; simplify_eq; [done|].
           eapply Hval, Find_Some_elem, Hin.
        -- rewrite Keys_Emplace_fresh by done.
           apply NoDup_app. split_and!; [done| |apply NoDup_singleton].
           intros x Hx Hx'. apply list_elem_of_singleton in Hx' as ->.
           by apply Find_None_keys in Hc.
  - specialize (IH m Hm). by destruct (GenerateRedirectionMap_from m rs).
Qed.

Lemma GenerateRedirectionMap_ok rs : raw_map_ok (GenerateRedirectionMap rs).
Proof.
  apply GenerateRedirectionMap_from_ok. split; [apply NoDup_nil_2|].
  intros k v Hin. by apply elem_of_nil in Hin.
Qed.

Lemma raw_map_step_valid U k v :
  raw_map_ok U → TMap.Find U k = Some v →
  k ≠ NAME_None ∧ v ≠ NAME_None ∧ k ≠ v.
Proof. intros [_ Hval] Hf. eapply Hval, Find_Some_elem, Hf. Qed.

(** ** Chains *)

Section chains.
Variable U : list (FName * FName).
Notation step := (redirect_step U).

Lemma redirect_step_det a b c : step a b → step a c → b = c.
Proof. unfold redirect_step. congruence. Qed.

Lemma rtc_step_linear k a b : rtc step k a → rtc step k b → rtc step a b ∨ rtc step b a.
Proof.
  intros Ha. revert b. induction Ha as [x|x y z Hxy Hyz IH]; intros b Hb.
  - by left.
  - inversion Hb as [|? y' ? Hxy' Hy'b]; subst.
    + right. by econstructor.
    + assert (y' = y) as -> by eauto using redirect_step_det. by apply IH.
Qed.

Lemma cycle_no_end c v :
  tc step c c → rtc step c v → TMap.Find U v = None → False.
Proof.
  intros Hc Hv. induction Hv as [x|x y z Hxy Hyz IH]; intros Hnone.
  - apply tc_rtc_l with (x := x) in Hc; [|done].
    inversion Hc as [? ? Hs|? ? ? Hs]; unfold redirect_step in Hs; congruence.
  - apply IH; [|done].
    assert (rtc step y x) as Hyx.
    { inversion Hc as [? ? Hs|? y' ? Hs Hrest]; subst.
      - assert (x = y) as -> by eauto using redirect_step_det. done.
      - assert (y' = y) as -> by eauto using redirect_step_det.
        by apply tc_rtc. }
    eapply tc_rtc_l; [exact Hyx|]. by apply tc_once.
Qed.

Lemma chain_end_unique k v v' : chain_end U k v → chain_end U k v' → v = v'.
Proof.
  intros [Hv Hn] [Hv' Hn'].
  destruct (rtc_step_linear _ _ _ Hv Hv') as [H|H];
    inversion H as [|? ? ? Hs]; subst; try done;
    unfold redirect_step in Hs; congruence.
Qed.

Lemma chain_cyclic_no_end k v : chain_cyclic U k → chain_end U k v → False.
Proof.
  intros (c & Hkc & Hcc) [Hkv Hn].
  destruct (rtc_step_linear _ _ _ Hkc Hkv) as [H|H].
  - eauto using cycle_no_end.
  - inversion H as [|? ? ? Hs]; subst.
    + eapply cycle_no_end; [exact Hcc|constructor|done].
    + unfold redirect_step in Hs; congruence.
Qed.

Lemma chain_end_step k n v : step k n → chain_end U n v → chain_end U k v.
Proof. intros Hs [Hr Hn]. split; [by econstructor|done]. Qed.

Lemma chain_end_rtc k n v : rtc step k n → chain_end U n v → chain_end U k v.
Proof. intros Hs [Hr Hn]. split; [by etrans|done]. Qed.

Lemma chain_cyclic_rtc k n : rtc step k n → chain_cyclic U n → chain_cyclic U k.
Proof. intros Hs (c & Hr & Hc). exists c. split; [by etrans|done]. Qed.

Lemma chain_cyclic_is_key k : chain_cyclic U k → is_Some (TMap.Find U k).
Proof.
  intros (c & Hr & Hc). inversion Hr as [|? y ? Hs]; subst.
  - inversion Hc as [? ? Hs|? ? ? Hs]; unfold redirect_step in Hs; eauto.
  - unfold redirect_step in Hs; eauto.
Qed.
End chains.

(** ** ResolveRedirectionMap: what one run computes *)

Section resolve.
Variable U : list (FName * FName).
Hypothesis HU : raw_map_ok U.
Notation step := (redirect_step U).

Lemma resolve_inv_empty : resolve_inv U [] [].
Proof. split; [done|]. intros k Hk. by apply elem_of_nil in Hk. Qed.

Lemma unvisited_decreases (V : list FName) (n : FName) (l : list FName) :
  n ∈ l → n ∉ V →
  (length (filter (λ k, k ∉ TSet.Emplace V n) l) <
   length (filter (λ k, k ∉ V) l))%nat.
Proof.
  intros Hin HnV. induction l as [|x l IH]; [by apply elem_of_nil in Hin|].
  assert (∀ l', length (filter (λ k, k ∉ TSet.Emplace V n) l') ≤
                length (filter (λ k, k ∉ V) l'))%nat as Hle.
  { induction l' as [|y l' IH']; [done|].
    rewrite !filter_cons.
    destruct (decide (y ∉ TSet.Emplace V n)) as [Hy|Hy].
    - rewrite decide_True; [simpl; lia|].
      intros HyV. apply Hy, elem_of_TSet_Emplace. by left.
    - destruct (decide (y ∉ V)); simpl; lia. }
  rewrite !filter_cons.
  apply elem_of_cons in Hin as [->|Hin].
  - rewrite decide_False.
    + rewrite decide_True by done. simpl. specialize (Hle l). lia.
    + intros Hx. apply Hx, elem_of_TSet_Emplace. by right.
  - specialize (IH Hin).
    destruct (decide (x ∉ TSet.Emplace V n)) as [Hy|Hy].
    + rewrite decide_True; [simpl; lia|].
      intros HyV. apply Hy, elem_of_TSet_Emplace. by left.
    + destruct (decide (x ∉ V)); simpl; lia.
Qed.

(** The inner walk returns: it needs at most one round per key not visited
    yet. *)
Lemma ResolveRedirectionMap_walk_total fuel R I V n :
  n ∉ V →
  (length (filter (λ k, k ∉ V) (TMap.Keys U)) < fuel)%nat →
  is_Some (ResolveRedirectionMap_walk fuel U R I V n).
Proof.
  revert V n. induction fuel as [|fuel IH]; intros V n HnV Hlt; [lia|].
  simpl. destruct (TMap.Find U n) as [Next|] eqn:Hn; [|eauto].
  destruct (TMap.Find R Next); [eauto|].
  destruct (TSet.Contains (TSet.Emplace V n) Next || TSet.Contains I Next) eqn:Hc;
    [eauto|].
  apply orb_false_iff in Hc as [Hc _]. apply TSet_Contains_false in Hc.
  apply IH; [done|].
  assert (n ∈ TMap.Keys U) as Hkey by (apply Find_is_Some_keys; eauto).
  pose proof (unvisited_decreases V n _ Hkey HnV). lia.
Qed.

(** What the inner walk returns. *)
Lemma ResolveRedirectionMap_walk_spec fuel R I V n V' r :
  resolve_inv U R I →
  n ≠ NAME_None →
  (∀ x, x ∈ V → rtc step x n ∧ is_Some (TMap.Find U x)) →
  ResolveRedirectionMap_walk fuel U R I V n = Some (V', r) →
  (∀ x, x ∈ V → x ∈ V') ∧
  (∀ x, x ∈ V' → is_Some (TMap.Find U x)) ∧
  ((r ≠ NAME_None ∧ ∀ x, x ∈ V' → chain_end U x r) ∨
   (r = NAME_None ∧ ∀ x, x ∈ V' → chain_cyclic U x)).
Proof.
  intros [HR HI]. revert V n.
  induction fuel as [|fuel IH]; intros V n Hn HV Hw; [done|].
  simpl in Hw. destruct (TMap.Find U n) as [Next|] eqn:HUn.
  - assert (∀ x, x ∈ TSet.Emplace V n → rtc step x n ∧ is_Some (TMap.Find U x))
      as HV'.
    { intros x Hx. apply elem_of_TSet_Emplace in Hx as [Hx| ->]; [by apply HV|].
      split; [constructor | eauto]. }
    assert (∀ x, x ∈ V → x ∈ TSet.Emplace V n) as Hsub.
    { intros x Hx. apply elem_of_TSet_Emplace. by left. }
    destruct (TMap.Find R Next) as [Res|] eqn:HRn.
    + simplify_eq. destruct (HR _ _ HRn) as (Hend & Hne & _).
      split_and!; [done|intros x Hx; by apply HV'|]. left. split; [done|].
      intros x Hx. eapply chain_end_rtc; [by apply HV'|].
      by eapply chain_end_step.
    + destruct (TSet.Contains (TSet.Emplace V n) Next || TSet.Contains I Next) eqn:Hc.
      * simplify_eq. split_and!; [done|intros x Hx; by apply HV'|]. right.
        split; [done|]. intros x Hx. eapply chain_cyclic_rtc; [by apply HV'|].
        apply orb_true_iff in Hc as [Hc|Hc].
        -- apply TSet_Contains_true in Hc. exists n. split; [constructor|].
           eapply tc_rtc_r; [by apply tc_once|]. by apply HV'.
        -- apply TSet_Contains_true in Hc.
           eapply chain_cyclic_rtc; [|by apply HI]. by apply rtc_once.
      * destruct (raw_map_step_valid _ _ _ HU HUn) as (_ & HNext & _).
        apply IH in Hw; [|done|].
        -- destruct Hw as (Hs & Hk & Hres). split_and!; [|done|done].
           intros x Hx. by apply Hs, Hsub.
        -- intros x Hx. destruct (HV' _ Hx) as [Hr Hk]. split; [|done].
           eapply rtc_r; [exact Hr|done].
  - simplify_eq. split_and!; [done|intros x Hx; by apply HV|]. left.
    split; [done|]. intros x Hx. split; [by apply HV|done].
Qed.

(** One entry of the raw map keeps the invariant, keeps what was settled
    and settles its own key. *)
Lemma ResolveRedirectionMap_entry_spec fuel R I Old New R' I' :
  resolve_inv U R I →
  TMap.Find U Old = Some New →
  ResolveRedirectionMap_entry fuel U (R, I) (Old, New) = Some (R', I') →
  resolve_inv U R' I' ∧
  (∀ k, is_Some (TMap.Find R k) → is_Some (TMap.Find R' k)) ∧
  (∀ k, k ∈ I → k ∈ I') ∧
  (is_Some (TMap.Find R' Old) ∨ Old ∈ I').
Proof.
  intros HInv HUo He. pose proof HInv as [HR HI].
  destruct (raw_map_step_valid _ _ _ HU HUo) as (_ & HNew & _).
  unfold ResolveRedirectionMap_entry in He.
  destruct (TMap.Find R New) as [Res|] eqn:HRn.
  - simplify_eq. destruct (HR _ _ HRn) as (Hend & Hne & _). split_and!.
    + split; [|done]. intros k v. rewrite Find_Emplace.
      case_decide; [|by apply HR]. intros ?; simplify_eq.
      split_and!; [by eapply chain_end_step|done|eauto].
    + intros k. rewrite Find_Emplace. case_decide; eauto.
    + done.
    + left. rewrite Find_Emplace, decide_True by done. eauto.
  - destruct (TSet.Contains I New) eqn:HIn.
    + simplify_eq. apply TSet_Contains_true in HIn. split_and!.
      * split; [done|]. intros k Hk.
        apply elem_of_TSet_Emplace in Hk as [Hk| ->]; [by apply HI|].
        eapply chain_cyclic_rtc; [|by apply HI]. by apply rtc_once.
      * done.
      * intros k Hk. apply elem_of_TSet_Emplace. by left.
      * right. apply elem_of_TSet_Emplace. by right.
    + destruct (ResolveRedirectionMap_walk fuel U R I (TSet.Emplace [] Old) New)
        as [[V NV]|] eqn:Hw; [|done].
      apply ResolveRedirectionMap_walk_spec in Hw; [|done|done|].
      * destruct Hw as (Hsub & Hkeys & Hres).
        assert (Old ∈ V) as HOld.
        { apply Hsub, elem_of_TSet_Emplace. by right. }
        destruct (IsNone NV) eqn:HNV; simpl in He; simplify_eq.
        -- unfold IsNone in HNV. apply bool_decide_eq_true in HNV.
           destruct Hres as [[Hne _]|[_ Hcyc]]; [done|]. split_and!.
           ++ split; [done|]. intros k Hk.
              apply elem_of_TSet_Append in Hk as [Hk|Hk]; [by apply HI|by apply Hcyc].
           ++ done.
           ++ intros k Hk. apply elem_of_TSet_Append. by left.
           ++ right. apply elem_of_TSet_Append. by right.
        -- unfold IsNone in HNV. apply bool_decide_eq_false in HNV.
           destruct Hres as [[Hne Hend]|[Hne _]]; [|done]. split_and!.
           ++ split; [|done]. intros k v. rewrite Find_foldl_Emplace.
              case_decide; [|by apply HR]. intros ?; simplify_eq.
              split_and!; [by apply Hend|done|by apply Hkeys].
           ++ intros k. rewrite Find_foldl_Emplace. case_decide; eauto.
           ++ done.
           ++ left. rewrite Find_foldl_Emplace, decide_True by done. eauto.
      * intros x Hx. apply elem_of_TSet_Emplace in Hx as [Hx| ->];
          [by apply elem_of_nil in Hx|].
        split; [by apply rtc_once | eauto].
Qed.

Lemma ResolveRedirectionMap_entry_total fuel R I Old New :
  TMap.Find U Old = Some New →
  (length U < fuel)%nat →
  is_Some (ResolveRedirectionMap_entry fuel U (R, I) (Old, New)).
Proof.
  intros HUo Hfuel. unfold ResolveRedirectionMap_entry.
  destruct (TMap.Find R New); [eauto|].
  destruct (TSet.Contains I New); [eauto|].
  destruct (ResolveRedirectionMap_walk_total fuel R I (TSet.Emplace [] Old) New)
    as [[V NV] ->].
  - destruct (raw_map_step_valid _ _ _ HU HUo) as (_ & _ & Hne).
    intros Hin. apply elem_of_TSet_Emplace in Hin as [Hin|Hin];
      [by apply elem_of_nil in Hin | done].
  - eapply Nat.le_lt_trans; [apply length_filter|].
    unfold TMap.Keys. by rewrite length_fmap.
  - destruct (negb (IsNone NV)); eauto.
Qed.

Lemma ResolveRedirectionMap_loop_spec fuel es R I R' I' :
  resolve_inv U R I →
  (∀ o n, (o, n) ∈ es → TMap.Find U o = Some n) →
  ResolveRedirectionMap_loop fuel U (R, I) es = Some (R', I') →
  resolve_inv U R' I' ∧
  (∀ k, is_Some (TMap.Find R k) → is_Some (TMap.Find R' k)) ∧
  (∀ k, k ∈ I → k ∈ I') ∧
  (∀ o n, (o, n) ∈ es → is_Some (TMap.Find R' o) ∨ o ∈ I').
Proof.
  revert R I. induction es as [|[o n] es IH]; intros R I HInv Hes Hl;
    cbn [ResolveRedirectionMap_loop] in Hl.
  - simplify_eq. split_and!; try done. intros ? ? Hin. by apply elem_of_nil in Hin.
  - destruct (ResolveRedirectionMap_entry fuel U (R, I) (o, n)) as [[R1 I1]|] eqn:He;
      [|done].
    apply ResolveRedirectionMap_entry_spec in He as (HInv1 & HR1 & HI1 & Ho);
      [|done|apply Hes; left].
    apply IH in Hl as (HInv' & HR' & HI' & Hes'); [|done|].
    + split_and!; [done|by eauto|by eauto|].
      intros o' n' Hin. apply elem_of_cons in Hin as [Heq|Hin]; [|by eauto].
      simplify_eq. destruct Ho as [Ho|Ho]; [left|right]; eauto.
    + intros o' n' Hin. apply Hes. by right.
Qed.

Lemma ResolveRedirectionMap_loop_total fuel es R I :
  (length U < fuel)%nat →
  (∀ o n, (o, n) ∈ es → TMap.Find U o = Some n) →
  is_Some (ResolveRedirectionMap_loop fuel U (R, I) es).
Proof.
  intros Hfuel. revert R I.
  induction es as [|[o n] es IH]; intros R I Hes; cbn [ResolveRedirectionMap_loop].
  - eauto.
  - destruct (ResolveRedirectionMap_entry_total fuel R I o n) as [[R1 I1] ->];
      [apply Hes; left|done|].
    apply IH. intros o' n' Hin. apply Hes. by right.
Qed.

(** The load of the redirects never fails. *)
Lemma ResolveRedirectionMap_total : is_Some (ResolveRedirectionMap U).
Proof.
  unfold ResolveRedirectionMap.
  destruct (ResolveRedirectionMap_loop_total (S (length U)) U [] [])
    as [[R I] ->]; [lia| |eauto].
  intros o n Hin. apply Find_elem_NoDup; [apply HU|done].
Qed.

(** Every key of the raw map is settled: collapsed to the end of its chain
    or put on the dirty list when its chain runs into a cycle. *)
Lemma ResolveRedirectionMap_spec R I log :
  ResolveRedirectionMap U = Some (R, I, log) →
  (∀ k v, TMap.Find R k = Some v → chain_end U k v ∧ is_Some (TMap.Find U k)) ∧
  (∀ k v, is_Some (TMap.Find U k) → chain_end U k v → TMap.Find R k = Some v) ∧
  (∀ k, chain_cyclic U k → TMap.Find R k = None ∧ k ∈ I) ∧
  (I ≠ [] → logs_error log).
Proof.
  unfold ResolveRedirectionMap. intros Hr.
  destruct (ResolveRedirectionMap_loop (S (length U)) U ([], []) U)
    as [[R0 I0]|] eqn:Hl; [|done]. simplify_eq.
  apply ResolveRedirectionMap_loop_spec in Hl as ([HR HI] & _ & _ & Hall);
    [|apply resolve_inv_empty|].
  2: { intros o n Hin. apply Find_elem_NoDup; [apply HU|done]. }
  assert (∀ k, is_Some (TMap.Find U k) → is_Some (TMap.Find R k) ∨ k ∈ I) as Hsettled.
  { intros k [v Hk]. eapply Hall, Find_Some_elem, Hk. }
  split_and!.
  - intros k v Hk. by destruct (HR _ _ Hk) as (? & _ & ?).
  - intros k v Hk Hend. destruct (Hsettled k Hk) as [[v' Hv']|Hin].
    + destruct (HR _ _ Hv') as (Hend' & _).
      by rewrite (chain_end_unique _ _ _ _ Hend Hend').
    + exfalso. eapply chain_cyclic_no_end; [by apply HI|done].
  - intros k Hcyc.
    destruct (Hsettled k (chain_cyclic_is_key _ _ Hcyc)) as [[v' Hv']|Hin].
    + exfalso. destruct (HR _ _ Hv') as (Hend' & _).
      eapply chain_cyclic_no_end; done.
    + split; [|done]. destruct (TMap.Find R k) as [v|] eqn:Hv; [|done].
      exfalso. destruct (HR _ _ Hv) as (Hend' & _).
      eapply chain_cyclic_no_end; done.
  - intros Hne. rewrite bool_decide_eq_false_2 by done.
    eexists. split; [left|done].
Qed.
End resolve.

Lemma chain_end_or_cyclic (Redirects : list FCommonInventoryRedirector) k :
  let U := GenerateRedirectionMap Redirects in
  is_Some (TMap.Find U k) → (∃ v, chain_end U k v) ∨ chain_cyclic U k.
Proof.
  intros U Hk. pose proof (GenerateRedirectionMap_ok Redirects) as HU.
  destruct (ResolveRedirectionMap_total U HU) as [[[R I] log] Hr].
  unfold ResolveRedirectionMap in Hr.
  destruct (ResolveRedirectionMap_loop (S (length U)) U ([], []) U)
    as [[R0 I0]|] eqn:Hl; [|done]. simplify_eq.
  apply ResolveRedirectionMap_loop_spec in Hl as ([HR HI] & _ & _ & Hall);
    [|done|apply resolve_inv_empty|].
  - destruct Hk as [v Hk]. destruct (Hall _ _ (Find_Some_elem _ _ _ Hk)) as [[v' Hv']|Hin].
    + left. exists v'. by apply HR.
    + right. by apply HI.
  - intros o n Hin. apply Find_elem_NoDup; [apply HU|done].
Qed.

(** C6. Redirect resolution flattens chains.  Whenever the chain of a
    surviving old name ends at [Final] in the raw list, loading the
    redirects succeeds, the resolved map sends the name directly to [Final],
    [Final] itself is not redirected any further, and one [TryRedirect]
    call returns true and rewrites the name to [Final]. *)
Theorem redirect_chain_collapses
    (TypeRedirects NameRedirects : list FCommonInventoryRedirector)
    (Id : FPrimaryAssetId) (Final : FName) :
  is_Some (TMap.Find (GenerateRedirectionMap NameRedirects) (PrimaryAssetName Id)) →
  chain_end (GenerateRedirectionMap NameRedirects) (PrimaryAssetName Id) Final →
  ∃ R, LoadRedirectsFromConfig TypeRedirects NameRedirects = Some R ∧
       TMap.Find (NameRedirectionMap R) (PrimaryAssetName Id) = Some Final ∧
       TMap.Find (NameRedirectionMap R) Final = None ∧
       (TryRedirect R Id).1 = true ∧
       PrimaryAssetName (TryRedirect R Id).2 = Final.
Proof.
  intros Hkey Hend. unfold LoadRedirectsFromConfig.
  pose proof (GenerateRedirectionMap_ok NameRedirects) as HU.
  pose proof (GenerateRedirectionMap_ok TypeRedirects) as HT.
  destruct (ResolveRedirectionMap_total _ HT) as [[[RT IT] logT] ->].
  destruct (ResolveRedirectionMap_total _ HU) as [[[R I] log] Hr].
  rewrite Hr. eexists. split; [done|]. simpl.
  destruct (ResolveRedirectionMap_spec _ HU _ _ _ Hr) as (Hsound & Hcomplete & _).
  assert (TMap.Find R (PrimaryAssetName Id) = Some Final) as HF by eauto.
  assert (TMap.Find R Final = None) as HN.
  { destruct (TMap.Find R Final) as [w|] eqn:Hw; [|done].
    apply Hsound in Hw as [_ [? Hkey']]. destruct Hend as [_ Hterm]. congruence. }
  split_and!; [done|done| |]; unfold TryRedirect; simpl; rewrite HF;
    by destruct (TMap.Find RT (PrimaryAssetType Id)).
Qed.

Lemma redirect_chain_collapses_witness :
  let L := [Redirector "A" "B"; Redirector "B" "C"] in
  let Id := MkPrimaryAssetId "Item" "A" in
  is_Some (TMap.Find (GenerateRedirectionMap L) (PrimaryAssetName Id)) ∧
  chain_end (GenerateRedirectionMap L) (PrimaryAssetName Id) "C" ∧
  ∃ R, LoadRedirectsFromConfig [] L = Some R ∧
       TMap.Find (NameRedirectionMap R) (PrimaryAssetName Id) = Some "C" ∧
       TMap.Find (NameRedirectionMap R) "C" = None ∧
       (TryRedirect R Id).1 = true ∧
       PrimaryAssetName (TryRedirect R Id).2 = "C".
Proof.
  intros L Id.
  assert (is_Some (TMap.Find (GenerateRedirectionMap L) (PrimaryAssetName Id)))
    as H1 by (vm_compute; eauto).
  assert (chain_end (GenerateRedirectionMap L) (PrimaryAssetName Id) "C") as H2.
  { split; [|reflexivity].
    eapply rtc_l; [reflexivity|]. eapply rtc_l; [reflexivity|]. apply rtc_refl. }
  split_and!; [exact H1|exact H2|].
  exact (redirect_chain_collapses [] L Id "C" H1 H2).
Defined.

(** The chain A→B→C of the specification, run through the code. *)
Example redirect_chain_ABC :
  ∃ R, LoadRedirectsFromConfig [] [Redirector "A" "B"; Redirector "B" "C"] = Some R ∧
       TryRedirect R (MkPrimaryAssetId "Item" "A") = (true, MkPrimaryAssetId "Item" "C") ∧
       TryRedirect R (MkPrimaryAssetId "Item" "B") = (true, MkPrimaryAssetId "Item" "C").
Proof. eexists. split; [reflexivity|]. split; reflexivity. Qed.

(** C7. A cyclic chain does not fail the load.  When the chain of [k] runs
    into a cycle, resolution still returns; [k] lands on the dirty list, an
    error is logged, [k] is absent from the resolved map so that redirecting
    it leaves it unchanged, and every key whose chain does not run into a
    cycle is still collapsed to the end of its chain. *)
Theorem redirect_cycle_is_inert
    (Redirects : list FCommonInventoryRedirector) (NameMap : list (FName * FName))
    (k : FName) :
  chain_cyclic (GenerateRedirectionMap Redirects) k →
  ∃ R I log,
    ResolveRedirectionMap (GenerateRedirectionMap Redirects) = Some (R, I, log) ∧
    k ∈ I ∧ logs_error log ∧
    TMap.Find R k = None ∧
    TryRedirectType (Redirects_ R NameMap) k = (false, k) ∧
    (∀ k', is_Some (TMap.Find (GenerateRedirectionMap Redirects) k') →
           ¬ chain_cyclic (GenerateRedirectionMap Redirects) k' →
           ∃ v, chain_end (GenerateRedirectionMap Redirects) k' v ∧
                TMap.Find R k' = Some v ∧
                TryRedirectType (Redirects_ R NameMap) k' = (true, v)).
Proof.
  intros Hcyc. pose proof (GenerateRedirectionMap_ok Redirects) as HU.
  destruct (ResolveRedirectionMap_total _ HU) as [[[R I] log] Hr].
  exists R, I, log. split; [done|].
  destruct (ResolveRedirectionMap_spec _ HU _ _ _ Hr) as (_ & Hcomplete & Hcycs & Hlog).
  destruct (Hcycs _ Hcyc) as [HN HI].
  split_and!; [done| |done| |].
  - apply Hlog. intros ->. by apply elem_of_nil in HI.
  - unfold TryRedirectType. simpl. by rewrite HN.
  - intros k' Hk' Hnc. destruct (chain_end_or_cyclic Redirects k' Hk') as [[v Hv]|]; [|done].
    exists v. assert (TMap.Find R k' = Some v) as HF by eauto.
    split_and!; [done|done|]. unfold TryRedirectType. simpl. by rewrite HF.
Qed.

Lemma redirect_cycle_is_inert_witness :
  let L := [Redirector "D" "A"; Redirector "A" "B"; Redirector "B" "A";
            Redirector "X" "Y"; Redirector "Z" "X"] in
  chain_cyclic (GenerateRedirectionMap L) "A" ∧
  ∃ R I log,
    ResolveRedirectionMap (GenerateRedirectionMap L) = Some (R, I, log) ∧
    "A" ∈ I ∧ logs_error log ∧
    TMap.Find R "A" = None ∧
    TryRedirectType (Redirects_ R []) "A" = (false, "A") ∧
    (∀ k', is_Some (TMap.Find (GenerateRedirectionMap L) k') →
           ¬ chain_cyclic (GenerateRedirectionMap L) k' →
           ∃ v, chain_end (GenerateRedirectionMap L) k' v ∧
                TMap.Find R k' = Some v ∧
                TryRedirectType (Redirects_ R []) k' = (true, v)).
Proof.
  intros L.
  assert (chain_cyclic (GenerateRedirectionMap L) "A") as H1.
  { exists "A". split; [apply rtc_refl|].
    eapply tc_l; [reflexivity|]. apply tc_once. reflexivity. }
  split; [exact H1|]. exact (redirect_cycle_is_inert L [] "A" H1).
Defined.

(** ** AppendRedirects *)

Lemma TArray_Find_Some {A} `{EqDecision A} (l : list A) x j :
  TArray_Find l x = Some j ↔
  l !! j = Some x ∧ ∀ i, (i < j)%nat → l !! i ≠ Some x.
Proof.
  revert j. induction l as [|y l IH]; intros j; simpl.
  - split; [done|]. intros [? _]. done.
  - destruct (decide (y = x)) as [->|Hne].
    + split.
      * intros ?; simplify_eq. split; [done|]. intros; lia.
      * intros [Hj Hlt]. destruct j as [|j]; [done|].
        exfalso. apply (Hlt O); [lia|done].
    + rewrite fmap_Some. split.
      * intros (j' & Hf & ->). apply IH in Hf as [Hj Hlt]. split; [done|].
        intros [|i] Hi; simpl; [congruence|]. apply Hlt. lia.
      * intros [Hj Hlt]. destruct j as [|j]; simpl in Hj; [congruence|].
        exists j. split; [|done]. apply IH. split; [done|].
        intros i Hi. apply (Hlt (S i)). lia.
Qed.

Lemma TArray_Find_elem {A} `{EqDecision A} (l : list A) x :
  x ∈ l → is_Some (TArray_Find l x).
Proof.
  induction l as [|y l IH]; simpl; [intros H; by apply elem_of_nil in H|].
  intros Hin. case_decide; [eauto|].
  apply elem_of_cons in Hin as [->|Hin]; [done|].
  destruct (IH Hin) as [j ->]. simpl. eauto.
Qed.

Lemma GenerateRedirectionMap_from_Find m rs k v :
  TMap.Find (GenerateRedirectionMap_from m rs).1 k = Some v →
  TMap.Find m k = Some v ∨ Redirector k v ∈ rs.
Proof.
  revert m. induction rs as [|r rs IH]; intros m; simpl; [by left|].
  destruct (Redirector_IsValid r) eqn:Hv; simpl.
  - destruct (TMap.Contains m (OldValue r)) eqn:Hc.
    + specialize (IH m). destruct (GenerateRedirectionMap_from m rs). simpl in *.
      intros Hf. destruct (IH Hf); [by left|right; by right].
    + intros Hf. apply IH in Hf as [Hf|Hf]; [|right; by right].
      rewrite Find_Emplace in Hf. case_decide; [|by left].
      simplify_eq. right. destruct r. simpl. left.
  - specialize (IH m). destruct (GenerateRedirectionMap_from m rs). simpl in *.
    intros Hf. destruct (IH Hf); [by left|right; by right].
Qed.

Lemma GenerateRedirectionMap_from_is_Some m rs k :
  is_Some (TMap.Find (GenerateRedirectionMap_from m rs).1 k) ↔
  is_Some (TMap.Find m k) ∨ is_source rs k.
Proof.
  revert m. induction rs as [|r rs IH]; intros m; simpl.
  - split; [by left|]. intros [?|(r & Hin & _)]; [done|]. by apply elem_of_nil in Hin.
  - assert (is_source (r :: rs) k ↔
            (Redirector_IsValid r = true ∧ OldValue r = k) ∨ is_source rs k) as Hsrc.
    { unfold is_source. split.
      - intros (r' & Hin & Hv & Ho). apply elem_of_cons in Hin as [->|Hin]; eauto.
      - intros [[Hv Ho]|(r' & Hin & Hv & Ho)].
        + exists r. split; [left|done].
        + exists r'. split; [by right|done]. }
    rewrite Hsrc. destruct (Redirector_IsValid r) eqn:Hv; simpl.
    + destruct (TMap.Contains m (OldValue r)) eqn:Hc.
      * specialize (IH m). destruct (GenerateRedirectionMap_from m rs). simpl in *.
        rewrite IH. apply Contains_true in Hc. naive_solver.
      * rewrite IH, Find_Emplace. case_decide; naive_solver.
    + specialize (IH m). destruct (GenerateRedirectionMap_from m rs). simpl in *.
      rewrite IH. naive_solver.
Qed.

Lemma GenerateRedirectionMap_Find L k v :
  TMap.Find (GenerateRedirectionMap L) k = Some v → Redirector k v ∈ L.
Proof.
  intros Hf. by apply GenerateRedirectionMap_from_Find in Hf as [Hf|Hf].
Qed.

Lemma GenerateRedirectionMap_is_source L k :
  is_Some (TMap.Find (GenerateRedirectionMap L) k) ↔ is_source L k.
Proof.
  unfold GenerateRedirectionMap. rewrite GenerateRedirectionMap_from_is_Some.
  simpl. split; [|by right]. intros [[? ?]|?]; done.
Qed.

Section resolve_value.
Variable U : list (FName * FName).
Hypothesis HU : raw_map_ok U.
Notation step := (redirect_step U).

Lemma unvisited_le (V : list FName) :
  (length (filter (λ k, k ∉ V) (TMap.Keys U)) ≤ length U)%nat.
Proof.
  etrans; [apply length_filter|]. unfold TMap.Keys. by rewrite length_fmap.
Qed.

Lemma ResolveValue_loop_S fuel InValue V Out :
  ResolveValue_loop (S fuel) U InValue None V Out =
  match TMap.Find U Out with
  | None => Some Out
  | Some NextValue =>
      if TSet.Contains V NextValue then Some InValue
      else ResolveValue_loop fuel U InValue None (TSet.Emplace V Out) NextValue
  end.
Proof. cbn [ResolveValue_loop]. by destruct (TMap.Find U Out). Qed.

Lemma ResolveValue_loop_total fuel InValue V Out :
  Out ∉ V →
  (length (filter (λ k, k ∉ V) (TMap.Keys U)) < fuel)%nat →
  is_Some (ResolveValue_loop fuel U InValue None V Out).
Proof.
  revert V Out. induction fuel as [|fuel IH]; intros V Out HV Hlt; [lia|].
  rewrite ResolveValue_loop_S. destruct (TMap.Find U Out) as [Next|] eqn:HO; [|eauto].
  destruct (TSet.Contains V Next) eqn:Hc; [eauto|].
  apply TSet_Contains_false in Hc.
  destruct (raw_map_step_valid _ _ _ HU HO) as (_ & _ & Hne).
  apply IH.
  - intros Hin. apply elem_of_TSet_Emplace in Hin as [?|?]; done.
  - assert (Out ∈ TMap.Keys U) as Hkey by (apply Find_is_Some_keys; eauto).
    pose proof (unvisited_decreases V Out _ Hkey HV). lia.
Qed.

Lemma ResolveValue_loop_spec fuel InValue V Out r :
  (∀ x, x ∈ V → rtc step x Out) →
  rtc step InValue Out →
  ResolveValue_loop fuel U InValue None V Out = Some r →
  chain_end U InValue r ∨ (r = InValue ∧ chain_cyclic U InValue).
Proof.
  revert V Out. induction fuel as [|fuel IH]; intros V Out HV HIn Hl; [done|].
  rewrite ResolveValue_loop_S in Hl. destruct (TMap.Find U Out) as [Next|] eqn:HO.
  - destruct (TSet.Contains V Next) eqn:Hc.
    + simplify_eq. right. split; [done|]. apply TSet_Contains_true in Hc.
      exists Out. split; [done|]. eapply tc_rtc_r; [by apply tc_once|by apply HV].
    + apply IH in Hl; [done| |by eapply rtc_r].
      intros x Hx. apply elem_of_TSet_Emplace in Hx as [Hx| ->].
      * eapply rtc_r; [by apply HV|done].
      * by apply rtc_once.
  - simplify_eq. left. done.
Qed.

Lemma ResolveValue_total InValue : is_Some (ResolveValue U InValue None).
Proof.
  unfold ResolveValue.
  assert (is_Some (ResolveValue_loop (length U + 2) U InValue None [InValue] InValue))
    as [r ->]; [|eauto].
  replace (length U + 2)%nat with (S (S (length U))) by lia.
  rewrite ResolveValue_loop_S. destruct (TMap.Find U InValue) as [Next|] eqn:HO; [|eauto].
  destruct (TSet.Contains [InValue] Next) eqn:Hc; [eauto|].
  apply TSet_Contains_false in Hc. apply ResolveValue_loop_total.
  - intros Hin. apply elem_of_TSet_Emplace in Hin as [?|?]; [done|].
    subst. apply Hc. left.
  - pose proof (unvisited_le (TSet.Emplace [InValue] InValue)). lia.
Qed.

(** [ResolveValue] without a stop value: the end of the chain when there is
    one, the input itself when the chain runs into a cycle. *)
Lemma ResolveValue_spec InValue b r :
  ResolveValue U InValue None = Some (b, r) →
  (chain_end U InValue r ∧ b = negb (bool_decide (InValue = r))) ∨
  (chain_cyclic U InValue ∧ r = InValue ∧ b = false).
Proof.
  unfold ResolveValue.
  destruct (ResolveValue_loop _ U InValue None [InValue] InValue) as [o|] eqn:Hl;
    [|done].
  intros ?; simplify_eq.
  apply ResolveValue_loop_spec in Hl as [Hend|[-> Hcyc]].
  - by left.
  - right. by rewrite bool_decide_eq_true_2.
  - intros x Hx. apply list_elem_of_singleton in Hx as ->. apply rtc_refl.
  - apply rtc_refl.
Qed.
End resolve_value.

Section invert.
Variable L : list FCommonInventoryRedirector.
Variable start : FName.
Notation U := (GenerateRedirectionMap L).
Notation step := (redirect_step U).

#[local] Instance swapped_dec P i r : Decision (swapped L P i r).
Proof. unfold swapped. apply _. Defined.

Lemma AppendRedirects_invert_spec fuel P Lt Current final :
  (length (filter (λ k, k ∉ P) (TMap.Keys U)) < fuel)%nat →
  (∀ p, p ∈ P → rtc step start p ∧ tc step p Current) →
  (∀ x, rtc step start x → x ∈ P ∨ rtc step Current x) →
  rtc step start Current →
  chain_end U Current final →
  length Lt = length L →
  (∀ i r, L !! i = Some r →
     (swapped L P i r → Lt !! i = Some (SwapValues r)) ∧
     (¬ swapped L P i r → Lt !! i = Some r)) →
  ∃ L', AppendRedirects_invert fuel U Lt Current = Some L' ∧
        chain_inverted L start L'.
Proof.
  revert P Lt Current.
  induction fuel as [|fuel IH]; intros P Lt c Hfuel HP Hcov Hstart Hend Hlen HLt;
    [lia|].
  cbn [AppendRedirects_invert].
  destruct (TMap.Find U c) as [n|] eqn:Hc.
  - (* one more link [c -> n] *)
    assert (c ∉ P) as HcP.
    { intros Hin. destruct Hend as [Hr Hn].
      eapply cycle_no_end; [by apply HP|exact Hr|done]. }
    assert (chain_end U n final) as Hend'.
    { destruct Hend as [Hr Hn]. split; [|done].
      inversion Hr as [|? y ? Hs Hrest]; subst; [congruence|].
      unfold redirect_step in Hs. by simplify_eq. }
    assert (n ∉ P) as HnP.
    { intros Hin. destruct Hend as [Hr Hn].
      eapply (cycle_no_end U c); [|exact Hr|done].
      eapply tc_l; [exact Hc|]. by apply HP. }
    destruct (TArray_Find_elem L (Redirector c n)) as [j0 Hj0];
      [by apply GenerateRedirectionMap_Find|].
    pose proof Hj0 as Hj0'. apply TArray_Find_Some in Hj0' as [HLj0 Hfirst].
    assert (TArray_Find Lt (Redirector c n) = Some j0) as ->.
    { apply TArray_Find_Some. split.
      - apply (HLt _ _ HLj0). intros (Hin & _). done.
      - intros i Hi. assert (i < length L)%nat as HiL.
        { apply lookup_lt_Some in HLj0. lia. }
        destruct (lookup_lt_is_Some_2 L i HiL) as [r' Hr'].
        destruct (HLt _ _ Hr') as [Hsw Hnsw].
        destruct (decide (swapped L P i r')) as [Hs|Hs].
        + rewrite (Hsw Hs). intros Heq. destruct Hs as (Hin & _ & _).
          destruct r' as [o' n']. unfold SwapValues in Heq. simpl in *.
          simplify_eq. done.
        + rewrite (Hnsw Hs). intros Heq. simplify_eq. by apply (Hfirst i). }
    apply (IH (P ++ [c])).
    + assert (c ∈ TMap.Keys U) as Hkey by (apply Find_is_Some_keys; eauto).
      pose proof (unvisited_decreases P c _ Hkey HcP) as Hdec.
      unfold TSet.Emplace in Hdec.
      rewrite (proj2 (TSet_Contains_false P c) HcP) in Hdec. lia.
    + intros p Hp. apply elem_of_app in Hp as [Hp|Hp].
      * destruct (HP _ Hp) as [Hsp Htc]. split; [done|]. by eapply tc_r.
      * apply list_elem_of_singleton in Hp as ->. split; [done|]. by apply tc_once.
    + intros x Hx. destruct (Hcov x Hx) as [Hin|Hr].
      * left. apply elem_of_app. by left.
      * inversion Hr as [|? y ? Hs Hrest]; subst.
        -- left. apply elem_of_app. right. by apply list_elem_of_singleton.
        -- right. unfold redirect_step in Hs. by simplify_eq.
    + eapply rtc_r; [exact Hstart|done].
    + done.
    + by rewrite length_alter.
    + intros i r Hr. destruct (HLt _ _ Hr) as [Hsw Hnsw]. split.
      * intros (Hin & HF & Hidx). apply elem_of_app in Hin as [Hin|Hin].
        -- assert (i ≠ j0) as Hne.
           { intros ->. rewrite HLj0 in Hr. simplify_eq. done. }
           rewrite list_lookup_alter_ne by done. apply Hsw. done.
        -- apply list_elem_of_singleton in Hin. destruct r as [o' n']. simpl in *.
           subst o'. rewrite Hc in HF. simplify_eq.
           rewrite list_lookup_alter, decide_True by done.
           rewrite Hnsw; [done|]. intros (Hin & _). done.
      * intros Hns. assert (i ≠ j0) as Hne.
        { intros ->. rewrite HLj0 in Hr. simplify_eq. apply Hns.
          split_and!; simpl; [|done|done].
          apply elem_of_app. right. by apply list_elem_of_singleton. }
        rewrite list_lookup_alter_ne by done. apply Hnsw.
        intros (Hin & HF & Hidx). apply Hns. split_and!; [|done|done].
        apply elem_of_app. by left.
  - (* the chain is exhausted *)
    exists Lt. split; [done|]. split; [done|].
    intros i r Hr. destruct (HLt _ _ Hr) as [Hsw Hnsw]. split.
    + intros [[Hreach HF] Hidx]. apply Hsw. split_and!; [|done|done].
      destruct (Hcov _ Hreach) as [Hin|Hrc]; [done|].
      inversion Hrc as [|? y ? Hs]; subst; [congruence|].
      unfold redirect_step in Hs. congruence.
    + intros Hns. apply Hnsw. intros (Hin & HF & Hidx). apply Hns.
      split; [|done]. split; [|done].
      by apply HP.
Qed.
End invert.

(** C8. [AppendRedirects] rejects self-redirects and ambiguous duplicates
    and leaves the list as it was; when [new] is itself the source of a
    redirect it rejects the insertion as well, unless inversion is asked for
    and the chain from [new] ends at [old]: then it returns true with each
    link of that chain swapped in place and nothing else changed. *)
Theorem AppendRedirects_rejects_or_inverts
    (L : list FCommonInventoryRedirector) (old new : FName) (invert : bool) :
  (old = new ∨ is_source L old →
     ∃ log, AppendRedirects L old new invert = Some (false, L, log)) ∧
  (old ≠ new → ¬ is_source L old → is_source L new →
     (invert = true ∧ chain_end (GenerateRedirectionMap L) new old →
        ∃ L', AppendRedirects L old new invert = Some (true, L', []) ∧
              chain_inverted L new L') ∧
     (¬ (invert = true ∧ chain_end (GenerateRedirectionMap L) new old) →
        ∃ log, AppendRedirects L old new invert = Some (false, L, log))).
Proof.
  pose proof (GenerateRedirectionMap_ok L) as HU.
  unfold AppendRedirects. split.
  - intros Hrej. destruct (decide (old = new)) as [->|Hne].
    + rewrite bool_decide_eq_true_2 by done. eauto.
    + rewrite bool_decide_eq_false_2 by done.
      destruct Hrej as [?|Hsrc]; [done|].
      apply GenerateRedirectionMap_is_source, Contains_true in Hsrc.
      rewrite Hsrc. eauto.
  - intros Hne Hold Hnew. rewrite bool_decide_eq_false_2 by done.
    assert (TMap.Contains (GenerateRedirectionMap L) old = false) as ->.
    { apply Contains_false. destruct (TMap.Find _ old) eqn:E; [|done].
      exfalso. apply Hold, GenerateRedirectionMap_is_source. eauto. }
    apply GenerateRedirectionMap_is_source in Hnew. pose proof Hnew as Hnew'.
    apply Contains_true in Hnew'. rewrite Hnew'. cbn [negb].
    destruct (ResolveValue_total _ HU new) as [[b r] Hres]. split.
    + intros [-> Hend]. rewrite Hres.
      apply ResolveValue_spec in Hres as [[Hend' ->]|(Hcyc & _ & _)].
      * rewrite (chain_end_unique _ _ _ _ Hend' Hend).
        rewrite (bool_decide_eq_false_2 (new = old)) by done. cbn [negb].
        rewrite bool_decide_eq_true_2 by done. cbn [negb].
        destruct (AppendRedirects_invert_spec L new
                    (S (length (GenerateRedirectionMap L))) [] L new old)
          as (L' & -> & Hinv); try done.
        -- pose proof (unvisited_le (GenerateRedirectionMap L) []). lia.
        -- intros p Hp. by apply elem_of_nil in Hp.
        -- intros x Hx. by right.
        -- intros i r' Hr'. split; [|done]. intros (Hin & _).
           by apply elem_of_nil in Hin.
        -- eauto.
      * exfalso. eapply chain_cyclic_no_end; done.
    + intros Hno. destruct invert; [|eauto]. rewrite Hres.
      apply ResolveValue_spec in Hres as [[Hend' ->]|(Hcyc & -> & ->)]; [|by eauto].
      destruct (negb (bool_decide (new = r))); [|eauto].
      rewrite bool_decide_eq_false_2; [cbn [negb]; eauto|].
      intros ->. apply Hno. done.
Qed.

(** The example of the source comment: (1 -> 2 -> 3 -> 4) + (4 -> 2). *)
Example AppendRedirects_invert_example :
  AppendRedirects [Redirector "1" "2"; Redirector "2" "3"; Redirector "3" "4"]
    "4" "2" true
  = Some (true, [Redirector "1" "2"; Redirector "3" "2"; Redirector "4" "3"], []).
Proof. reflexivity. Qed.

(* ===================================================================== *)
(** ** The order on records                                               *)
(* ===================================================================== *)

Lemma LexicalLess_irrefl a : LexicalLess a a = false.
Proof.
  unfold LexicalLess.
  pose proof (proj2 (OrderedTypeEx.String_as_OT.cmp_eq a a) eq_refl) as H.
  unfold OrderedTypeEx.String_as_OT.cmp in H. by rewrite H.
Qed.

Lemma LexicalLess_trans a b c :
  LexicalLess a b = true → LexicalLess b c = true → LexicalLess a c = true.
Proof.
  unfold LexicalLess. intros Hab Hbc.
  destruct (String.compare a b) eqn:E1; try done.
  destruct (String.compare b c) eqn:E2; try done.
  apply OrderedTypeEx.String_as_OT.cmp_lt in E1, E2.
  pose proof (OrderedTypeEx.String_as_OT.lt_trans _ _ _ E1 E2) as Hac.
  apply OrderedTypeEx.String_as_OT.cmp_lt in Hac.
  unfold OrderedTypeEx.String_as_OT.cmp in Hac. by rewrite Hac.
Qed.

Lemma LexicalLess_asym a b : LexicalLess a b = true → LexicalLess b a = false.
Proof.
  intros Hab. destruct (LexicalLess b a) eqn:Hba; [|done].
  pose proof (LexicalLess_trans _ _ _ Hab Hba) as Haa.
  by rewrite LexicalLess_irrefl in Haa.
Qed.

Lemma LexicalLess_total a b :
  a ≠ b → LexicalLess a b = true ∨ LexicalLess b a = true.
Proof.
  intros Hne. unfold LexicalLess.
  destruct (String.compare a b) eqn:E.
  - apply String.compare_eq_iff in E. congruence.
  - by left.
  - right. rewrite String.compare_antisym, E. done.
Qed.

Lemma Record_lt_ids a a' b b' :
  GetPrimaryAssetId a = GetPrimaryAssetId a' →
  GetPrimaryAssetId b = GetPrimaryAssetId b' →
  Record_lt a b = Record_lt a' b'.
Proof.
  unfold Record_lt, GetPrimaryAssetType, GetPrimaryAssetName. by intros -> ->.
Qed.

Lemma Record_lt_irrefl a b :
  GetPrimaryAssetId a = GetPrimaryAssetId b → Record_lt a b = false.
Proof.
  unfold Record_lt, GetPrimaryAssetType, GetPrimaryAssetName. intros ->.
  rewrite bool_decide_eq_true_2 by done. simpl. apply LexicalLess_irrefl.
Qed.

Lemma Record_lt_trans a b c :
  Record_lt a b = true → Record_lt b c = true → Record_lt a c = true.
Proof.
  unfold Record_lt.
  destruct (decide (GetPrimaryAssetType a = GetPrimaryAssetType b)) as [Eab|Nab];
  destruct (decide (GetPrimaryAssetType b = GetPrimaryAssetType c)) as [Ebc|Nbc].
  - rewrite !bool_decide_eq_true_2 by congruence. simpl. apply LexicalLess_trans.
  - rewrite (bool_decide_eq_true_2 _ Eab), (bool_decide_eq_false_2 _ Nbc).
    rewrite bool_decide_eq_false_2 by congruence. simpl. by rewrite Eab.
  - rewrite (bool_decide_eq_false_2 _ Nab), (bool_decide_eq_true_2 _ Ebc).
    rewrite bool_decide_eq_false_2 by congruence. simpl. by rewrite Ebc.
  - rewrite (bool_decide_eq_false_2 _ Nab), (bool_decide_eq_false_2 _ Nbc). simpl.
    intros Hab Hbc. pose proof (LexicalLess_trans _ _ _ Hab Hbc) as Hac.
    rewrite bool_decide_eq_false_2; [done|].
    intros Heq. rewrite Heq in Hab. apply LexicalLess_asym in Hab. congruence.
Qed.

Lemma Record_lt_asym a b : Record_lt a b = true → Record_lt b a = false.
Proof.
  intros Hab. destruct (Record_lt b a) eqn:Hba; [|done].
  pose proof (Record_lt_trans _ _ _ Hab Hba) as Haa.
  by rewrite Record_lt_irrefl in Haa.
Qed.

Lemma Record_lt_total a b :
  GetPrimaryAssetId a ≠ GetPrimaryAssetId b →
  Record_lt a b = true ∨ Record_lt b a = true.
Proof.
  unfold Record_lt, GetPrimaryAssetType, GetPrimaryAssetName. intros Hne.
  destruct (GetPrimaryAssetId a) as [ta na], (GetPrimaryAssetId b) as [tb nb]. simpl.
  destruct (decide (ta = tb)) as [->|Ht].
  - rewrite !bool_decide_eq_true_2 by done. simpl.
    apply LexicalLess_total. congruence.
  - rewrite !bool_decide_eq_false_2 by congruence. simpl.
    by apply LexicalLess_total.
Qed.

Lemma Record_lt_ne a b :
  Record_lt a b = true → GetPrimaryAssetId a ≠ GetPrimaryAssetId b.
Proof. intros Hab Heq. by rewrite (Record_lt_irrefl _ _ Heq) in Hab. Qed.

#[local] Instance Record_lt_transitive :
  Transitive (λ a b, Record_lt a b = true).
Proof. intros a b c. apply Record_lt_trans. Qed.

Lemma ids_sorted_lookup l i j ri rj :
  ids_sorted l → l !! i = Some ri → l !! j = Some rj → (i < j)%nat →
  Record_lt ri rj = true.
Proof.
  intros Hs. revert i j. induction Hs as [|x l Hs IH Hall]; intros i j Hi Hj Hlt.
  - done.
  - destruct j as [|j]; [lia|]. simpl in Hj. destruct i as [|i]; simpl in Hi.
    + simplify_eq. rewrite Forall_forall in Hall. apply Hall.
      by eapply list_elem_of_lookup_2.
    + eapply IH; [done|done|lia].
Qed.

Lemma ids_sorted_NoDup l : ids_sorted l → NoDup (GetPrimaryAssetId <$> l).
Proof.
  induction 1 as [|x l Hs IH Hall]; [apply NoDup_nil_2|].
  rewrite fmap_cons. apply NoDup_cons. split; [|done].
  intros Hin. apply list_elem_of_fmap in Hin as (y & Heq & Hy).
  rewrite Forall_forall in Hall. specialize (Hall _ Hy).
  by apply Record_lt_ne in Hall.
Qed.

Lemma ids_sorted_inj l i j ri rj :
  ids_sorted l → l !! i = Some ri → l !! j = Some rj →
  GetPrimaryAssetId ri = GetPrimaryAssetId rj → i = j.
Proof.
  intros Hs Hi Hj Heq.
  destruct (Nat.lt_trichotomy i j) as [Hlt|[?|Hlt]]; [|done|].
  - exfalso. eapply Record_lt_ne; [|exact Heq]. by eapply ids_sorted_lookup.
  - exfalso. eapply Record_lt_ne; [|symmetry; exact Heq].
    by eapply ids_sorted_lookup.
Qed.

Lemma IsSorted_cons x y l :
  IsSorted (x :: y :: l) = negb (Record_lt y x) && IsSorted (y :: l).
Proof. done. Qed.

Lemma ids_sorted_IsSorted l : ids_sorted l → IsSorted l = true.
Proof.
  induction 1 as [|x l Hs IH Hall]; [done|].
  destruct l as [|y l]; [done|]. rewrite IsSorted_cons, IH, andb_true_r.
  apply Forall_cons in Hall as [Hxy _]. by rewrite (Record_lt_asym _ _ Hxy).
Qed.

(** An array that passes both checks of [FixupDependencies] is strictly
    sorted. *)
Lemma IsSorted_NoDup_ids_sorted l :
  IsSorted l = true → NoDup (GetPrimaryAssetId <$> l) → ids_sorted l.
Proof.
  intros Hs Hnd. apply Sorted_StronglySorted; [apply _|].
  induction l as [|x l IH]; [constructor|].
  rewrite fmap_cons in Hnd. apply NoDup_cons in Hnd as [Hx Hnd].
  destruct l as [|y l].
  - constructor; constructor.
  - rewrite IsSorted_cons in Hs. apply andb_true_iff in Hs as [Hyx Hs].
    constructor; [by apply IH|]. constructor.
    apply negb_true_iff in Hyx.
    destruct (Record_lt_total x y) as [?|?]; [|done|congruence].
    intros Heq. apply Hx. rewrite fmap_cons, Heq. left.
Qed.

Lemma ids_sorted_fmap (g : FCommonInventoryRegistryRecord → FCommonInventoryRegistryRecord) l :
  (∀ r, GetPrimaryAssetId (g r) = GetPrimaryAssetId r) →
  ids_sorted l → ids_sorted (g <$> l).
Proof.
  intros Hg. induction 1 as [|x l Hs IH Hall]; [constructor|].
  rewrite fmap_cons. constructor; [done|].
  rewrite Forall_fmap. eapply Forall_impl; [exact Hall|].
  intros y Hxy. simpl. by rewrite (Record_lt_ids (g x) x (g y) y).
Qed.

Lemma ids_sorted_same_ids l l' :
  GetPrimaryAssetId <$> l = GetPrimaryAssetId <$> l' →
  ids_sorted l → ids_sorted l'.
Proof.
  intros Hids Hs. revert l' Hids.
  induction Hs as [|x l Hs IH Hall]; intros [|x' l'] Hids; try done;
    [constructor|].
  rewrite !fmap_cons in Hids. injection Hids as Hx Hl.
  constructor; [by apply IH|].
  rewrite Forall_forall in Hall. apply Forall_forall. intros y' Hy'.
  apply list_elem_of_lookup in Hy' as [k Hk].
  assert (is_Some (l !! k)) as [y Hy].
  { apply lookup_lt_is_Some. apply lookup_lt_Some in Hk.
    by rewrite <- (length_fmap GetPrimaryAssetId l), Hl, length_fmap. }
  assert (GetPrimaryAssetId y = GetPrimaryAssetId y') as Hyy.
  { assert ((GetPrimaryAssetId <$> l) !! k = (GetPrimaryAssetId <$> l') !! k)
      as Hkk by by rewrite Hl.
    rewrite !list_lookup_fmap, Hy, Hk in Hkk. simpl in Hkk. congruence. }
  rewrite <- (Record_lt_ids x x' y y') by done.
  apply Hall. by eapply list_elem_of_lookup_2.
Qed.

Lemma ids_sorted_delete l i : ids_sorted l → ids_sorted (delete i l).
Proof.
  intros Hs. revert i. induction Hs as [|x l Hs IH Hall]; intros i;
    [destruct i; constructor|].
  destruct i as [|i]; simpl; [done|].
  constructor; [apply IH|].
  rewrite Forall_forall in *. intros y Hy. apply Hall.
  by eapply list_elem_of_delete_inv.
Qed.

Lemma LowerBound_le l x : (LowerBound l x ≤ length l)%nat.
Proof. induction l as [|y l IH]; simpl; [lia|]. destruct (Record_lt y x); lia. Qed.

Lemma ids_sorted_insert l x :
  ids_sorted l →
  GetPrimaryAssetId x ∉ GetPrimaryAssetId <$> l →
  ids_sorted (TArray_Insert l x (LowerBound l x)).
Proof.
  unfold TArray_Insert. intros Hs. induction Hs as [|y l Hs IH Hall]; intros Hx.
  - simpl. constructor; constructor.
  - rewrite fmap_cons, not_elem_of_cons in Hx. destruct Hx as [Hne Hx].
    simpl. destruct (Record_lt y x) eqn:Hyx; simpl.
    + constructor; [by apply IH|].
      apply Forall_app. split; [|constructor].
      * eapply Forall_impl with (P := λ b, Record_lt y b = true); [|done].
        rewrite Forall_forall in *. intros z Hz. apply Hall.
        eapply elem_of_sublist; [exact Hz|]. apply sublist_take.
      * done.
      * rewrite Forall_forall in *. intros z Hz. apply Hall.
        eapply elem_of_sublist; [exact Hz|]. apply sublist_drop.
    + assert (Record_lt x y = true) as Hxy.
      { destruct (Record_lt_total x y); [done|done|congruence]. }
      constructor; [by constructor|]. constructor; [done|].
      eapply Forall_impl; [exact Hall|]. intros z Hz. simpl in *.
      by eapply Record_lt_trans.
Qed.

(* ===================================================================== *)
(** ** FixupDependencies                                                  *)
(* ===================================================================== *)

Lemma RefreshRecord_SharedData C i r : SharedData (RefreshRecord C i r) = SharedData r.
Proof. done. Qed.

Lemma RefreshRecord_id C i r :
  GetPrimaryAssetId (RefreshRecord C i r) = GetPrimaryAssetId r.
Proof. done. Qed.

Lemma RefreshRecord_GetIndex C i r f :
  GetIndex f (RefreshRecord C i r) = GetIndex f r.
Proof. by destruct f. Qed.

Lemma RefreshRecord_GetView C i r f :
  GetView f (RefreshRecord C i r) = RefreshViewData C (GetIndex f r).
Proof. by destruct f. Qed.

Lemma FixupDependencies_loop_spec C st k rs st' :
  FixupDependencies_loop C st k rs = Some st' →
  (∀ key i, L_ReplicationMap st !! key = Some i → key ≤ Z.of_nat k) →
  L_Records st' = L_Records st ++ imap (λ i r, RefreshRecord C (k + i) r) rs ∧
  L_Archetypes st' =
    BuildArchetypes (L_Archetypes st) k (GetPrimaryAssetType <$> rs) ∧
  (∀ Id i, L_DataMap st' !! Id = Some i ↔
     L_DataMap st !! Id = Some i ∨
     ∃ j r, rs !! j = Some r ∧ GetPrimaryAssetId r = Id ∧ i = (k + j)%nat) ∧
  (∀ key i, L_ReplicationMap st' !! key = Some i ↔
     L_ReplicationMap st !! key = Some i ∨
     ∃ j, (j < length rs)%nat ∧ i = (k + j)%nat ∧ key = Z.of_nat i + 1) ∧
  NoDup (GetPrimaryAssetId <$> rs) ∧
  (∀ r, r ∈ rs → L_DataMap st !! GetPrimaryAssetId r = None).
Proof.
  revert st k. induction rs as [|r rs IH]; intros st k Hl Hkeys;
    cbn [FixupDependencies_loop] in Hl.
  - simplify_eq. rewrite app_nil_r. split_and!; try done.
    + intros Id i. split; [by left|]. intros [?|(j & r & ? & _)]; done.
    + intros key i. split; [by left|]. intros [?|(j & Hj & _)]; [done|].
      simpl in Hj. lia.
    + apply NoDup_nil_2.
    + intros r Hr. by apply elem_of_nil in Hr.
  - destruct (FixupDependencies_step C st k r) as [st1|] eqn:Hstep; [|done].
    unfold FixupDependencies_step in Hstep.
    destruct (bool_decide (is_Some (L_DataMap st !! GetPrimaryAssetId r))) eqn:Hdup;
      [done|].
    apply bool_decide_eq_false in Hdup.
    assert (L_DataMap st !! GetPrimaryAssetId r = None) as Hfresh.
    { destruct (L_DataMap st !! GetPrimaryAssetId r) eqn:E; [|done].
      exfalso. apply Hdup. eauto. }
    simplify_eq. apply IH in Hl as (HR & HA & HD & HRep & Hnd & Hnone);
      cbn [L_Records L_Archetypes L_DataMap L_ReplicationMap] in *.
    2: { intros key i. rewrite lookup_insert. case_decide; [lia|].
         intros Hk. apply Hkeys in Hk. lia. }
    split_and!.
    + rewrite HR, <- app_assoc. f_equal. simpl. rewrite Nat.add_0_r. f_equal.
      apply imap_ext. intros j x _. simpl. f_equal. lia.
    + rewrite HA, fmap_cons. done.
    + intros Id i. rewrite HD, lookup_insert. split.
      * intros [Hins|(j & r' & Hj & Hid & ->)].
        -- case_decide; simplify_eq.
           ++ right. exists O, r. split_and!; [done|done|lia].
           ++ by left.
        -- right. exists (S j), r'. split_and!; [done|done|lia].
      * intros [Hold|(j & r' & Hj & Hid & ->)].
        -- left. rewrite decide_False; [done|]. intros Heq. congruence.
        -- destruct j as [|j]; simpl in Hj.
           ++ simplify_eq. left. rewrite decide_True by done. f_equal. lia.
           ++ right. exists j, r'. split_and!; [done|done|lia].
    + intros key i. rewrite HRep, lookup_insert. split.
      * intros [Hins|(j & Hj & -> & ->)].
        -- case_decide; simplify_eq.
           ++ right. exists O. split_and!; simpl; lia.
           ++ by left.
        -- right. exists (S j). split_and!; simpl; lia.
      * intros [Hold|(j & Hj & -> & ->)].
        -- left. rewrite decide_False; [done|]. intros Heq.
           apply Hkeys in Hold. lia.
        -- destruct j as [|j]; simpl in Hj.
           ++ left. rewrite decide_True by lia. f_equal. lia.
           ++ right. exists j. split_and!; lia.
    + rewrite fmap_cons. apply NoDup_cons. split; [|done].
      intros Hin. apply list_elem_of_fmap in Hin as (r' & Heq & Hr').
      specialize (Hnone _ Hr'). rewrite <- Heq, lookup_insert_eq in Hnone. done.
    + intros r' Hr'. apply elem_of_cons in Hr' as [->|Hr']; [done|].
      specialize (Hnone _ Hr'). rewrite lookup_insert in Hnone.
      by case_decide.
Qed.

Lemma FixupDependencies_loop_total C st k rs :
  NoDup (GetPrimaryAssetId <$> rs) →
  (∀ r, r ∈ rs → L_DataMap st !! GetPrimaryAssetId r = None) →
  is_Some (FixupDependencies_loop C st k rs).
Proof.
  revert st k. induction rs as [|r rs IH]; intros st k Hnd Hnone;
    cbn [FixupDependencies_loop]; [eauto|].
  rewrite fmap_cons in Hnd. apply NoDup_cons in Hnd as [Hr Hnd].
  unfold FixupDependencies_step.
  rewrite bool_decide_eq_false_2.
  2: { rewrite Hnone; [by intros [? ?]|left]. }
  apply IH; [done|]. intros r' Hr'. simpl. rewrite lookup_insert_ne.
  - apply Hnone. by right.
  - intros Heq. apply Hr. rewrite Heq. by apply list_elem_of_fmap_2.
Qed.

Lemma BuildArchetypes_checksum G k ts :
  Forall (λ g, GroupChecksum g = 0) G →
  Forall (λ g, GroupChecksum g = 0) (BuildArchetypes G k ts).
Proof.
  revert G k. induction ts as [|t ts IH]; intros G k HG; simpl; [done|].
  apply IH. apply Forall_alter; [|done..].
  destruct (last G) as [It|]; [case_bool_decide|]; try done;
    apply Forall_app; split; try done; by repeat constructor.
Qed.

Lemma SetGroupChecksum_id g : GroupChecksum g = 0 → SetGroupChecksum 0 g = g.
Proof. destruct g. simpl. intros ->. done. Qed.

Lemma SetGroupChecksum_fmap_id G :
  Forall (λ g, GroupChecksum g = 0) G → SetGroupChecksum 0 <$> G = G.
Proof.
  induction 1 as [|g G Hg HG IH]; [done|].
  rewrite fmap_cons, IH. by rewrite SetGroupChecksum_id.
Qed.

Lemma SetGroupChecksum_Migrate Cached g :
  SetGroupChecksum 0 (MigrateArchetypeChecksum Cached g) = SetGroupChecksum 0 g.
Proof.
  unfold MigrateArchetypeChecksum.
  by destruct (FindBy_GroupType Cached (GroupType g)) as [[? ?]|].
Qed.

Lemma imap_RefreshRecord_types C k rs :
  GetPrimaryAssetType <$> imap (λ i r, RefreshRecord C (k + i) r) rs =
  GetPrimaryAssetType <$> rs.
Proof.
  revert k. induction rs as [|r rs IH]; intros k; [done|].
  rewrite imap_cons, !fmap_cons. f_equal. rewrite <- (IH (S k)). f_equal.
  apply imap_ext. intros j x _. simpl. f_equal. lia.
Qed.

Lemma imap_RefreshRecord_ids C k rs :
  GetPrimaryAssetId <$> imap (λ i r, RefreshRecord C (k + i) r) rs =
  GetPrimaryAssetId <$> rs.
Proof.
  revert k. induction rs as [|r rs IH]; intros k; [done|].
  rewrite imap_cons, !fmap_cons. f_equal. rewrite <- (IH (S k)). f_equal.
  apply imap_ext. intros j x _. simpl. f_equal. lia.
Qed.

(** What a successful [FixupDependencies] returns. *)
Lemma FixupDependencies_spec b s s' :
  FixupDependencies b s = Some s' →
  DataContainer s' =
    imap (λ i r, RefreshRecord (CustomDataContainer s) i r) (DataContainer s) ∧
  CustomDataContainer s' = CustomDataContainer s ∧
  Archetypes s' =
    (if b then MigrateArchetypeChecksum (Archetypes s) <$>
               BuildArchetypes [] O (GetPrimaryAssetType <$> DataContainer s)
     else BuildArchetypes [] O (GetPrimaryAssetType <$> DataContainer s)) ∧
  Checksum s' = 0 ∧
  ids_sorted (DataContainer s) ∧
  derived_ok s'.
Proof.
  unfold FixupDependencies. destruct (IsSorted (DataContainer s)) eqn:Hsorted;
    [|done]. simpl.
  destruct (FixupDependencies_loop _ _ _ _) as [st|] eqn:Hl; [|done].
  intros ?; simplify_eq. simpl.
  apply FixupDependencies_loop_spec in Hl as (HR & HA & HD & HRep & Hnd & _);
    [|intros ? ?; simpl; by rewrite lookup_empty].
  simpl in *. rewrite HR, HA.
  split_and!; try done.
  - by apply IsSorted_NoDup_ids_sorted.
  - split; simpl.
    + intros i r. rewrite list_lookup_imap.
      destruct (DataContainer s !! i) eqn:E; simpl; [|done].
      intros ?; simplify_eq. done.
    + intros Id i. rewrite HD, lookup_empty, list_lookup_imap. split.
      * intros [?|(j & r & Hj & Hid & ->)]; [done|].
        rewrite Hj. simpl. eauto.
      * intros (r & Hr & Hid). right.
        destruct (DataContainer s !! i) as [r0|] eqn:E; simpl in Hr; [|done].
        simplify_eq. exists i, r0. done.
    + intros key i. rewrite HRep, lookup_empty, length_imap. split.
      * intros [?|(j & Hj & -> & ->)]; [done|]. done.
      * intros [-> Hi]. right. exists i. done.
    + rewrite (imap_RefreshRecord_types _ O).
      destruct b.
      * rewrite <- list_fmap_compose.
        erewrite list_fmap_ext;
          [|intros; apply SetGroupChecksum_Migrate].
        apply SetGroupChecksum_fmap_id, BuildArchetypes_checksum. constructor.
      * apply SetGroupChecksum_fmap_id, BuildArchetypes_checksum. constructor.
    + by rewrite length_imap.
Qed.

Lemma FixupDependencies_total b s :
  ids_sorted (DataContainer s) → is_Some (FixupDependencies b s).
Proof.
  intros Hs. unfold FixupDependencies.
  rewrite (ids_sorted_IsSorted _ Hs). simpl.
  destruct (FixupDependencies_loop_total (CustomDataContainer s)
              (MkFixupLoop ∅ ∅ [] []) O (DataContainer s)) as [st ->]; [| |eauto].
  - by apply ids_sorted_NoDup.
  - intros r _. apply lookup_empty.
Qed.

(* ===================================================================== *)
(** ** Views, indices and the blob container                              *)
(* ===================================================================== *)

Lemma IsValidIndex_true {A} (l : list A) i :
  IsValidIndex l i = true ↔ 0 ≤ i < Z.of_nat (length l).
Proof. unfold IsValidIndex. rewrite andb_true_iff, Z.leb_le, Z.ltb_lt. done. Qed.

Lemma IsValidIndex_false {A} (l : list A) i :
  IsValidIndex l i = false ↔ ¬ (0 ≤ i < Z.of_nat (length l)).
Proof. rewrite <- IsValidIndex_true. by destruct (IsValidIndex l i). Qed.

Lemma IsValidIndex_NONE {A} (l : list A) : IsValidIndex l INDEX_NONE = false.
Proof. done. Qed.

Lemma IsValidIndex_length {A B} (l : list A) (l' : list B) i :
  length l = length l' → IsValidIndex l i = IsValidIndex l' i.
Proof. unfold IsValidIndex. by intros ->. Qed.

Lemma IsValidIndex_lookup {A} (l : list A) i :
  IsValidIndex l i = true → is_Some (l !! Z.to_nat i).
Proof. rewrite IsValidIndex_true. intros H. apply lookup_lt_is_Some. lia. Qed.

Lemma ReadView_Refresh C i :
  ReadView C (RefreshViewData C i) =
  if IsValidIndex C i then mjoin (C !! Z.to_nat i) else None.
Proof. unfold RefreshViewData. by destruct (IsValidIndex C i). Qed.

Lemma View_IsValid_true C v : View_IsValid C v = true ↔ is_Some (ReadView C v).
Proof.
  unfold View_IsValid. destruct (ReadView C v); split; try done; eauto.
Qed.

Lemma blobs_ok_ex_weaken (ex ex' : nat → EPayloadField → Prop) DC C :
  (∀ i f, ex i f → ex' i f) → blobs_ok_ex ex DC C → blobs_ok_ex ex' DC C.
Proof.
  intros Hex [Hr Hd Hv]. split; [| |done].
  - intros i r f Hi Hn. eapply Hr; eauto.
  - intros i j ri rj f g Hi Hj Hne Hn1 Hn2. eapply Hd; eauto.
Qed.

Lemma views_ok_ex_weaken (ex ex' : nat → EPayloadField → Prop) DC C :
  (∀ i f, ex i f → ex' i f) → views_ok_ex ex DC C → views_ok_ex ex' DC C.
Proof. intros Hex Hv i r f Hi Hn. eapply Hv; eauto. Qed.

(** Under the blob discipline a payload slot is valid exactly when it has
    an index. *)
Lemma FieldContent_index ex DC C i r f :
  blobs_ok_ex ex DC C → views_ok_ex ex DC C → DC !! i = Some r → ¬ ex i f →
  (GetIndex f r = INDEX_NONE ∧ GetView f r = ViewNull) ∨
  (IsValidIndex C (GetIndex f r) = true ∧
   GetView f r = ViewSlot (Z.to_nat (GetIndex f r)) ∧
   is_Some (ReadView C (GetView f r))).
Proof.
  intros [Hr Hd Hv] Hviews Hi Hn. rewrite (Hviews _ _ _ Hi Hn).
  destruct (Hr _ _ f Hi Hn) as [Hnone|Hvalid].
  - left. by rewrite Hnone.
  - right. unfold RefreshViewData. rewrite Hvalid. split_and!; [done|done|].
    simpl. destruct (IsValidIndex_lookup _ _ Hvalid) as [item Hitem].
    rewrite Hitem. simpl. eapply Hv. done.
Qed.

(** ** Consequences of FixupDependencies *)

Lemma FixupDependencies_lookup b s s' i :
  FixupDependencies b s = Some s' →
  DataContainer s' !! i =
  RefreshRecord (CustomDataContainer s) i <$> DataContainer s !! i.
Proof.
  intros Hf. apply FixupDependencies_spec in Hf as (-> & _).
  by rewrite list_lookup_imap.
Qed.

Lemma FixupDependencies_length b s s' :
  FixupDependencies b s = Some s' →
  length (DataContainer s') = length (DataContainer s).
Proof.
  intros Hf. apply FixupDependencies_spec in Hf as (-> & _).
  by rewrite length_imap.
Qed.

Lemma FixupDependencies_ids b s s' :
  FixupDependencies b s = Some s' →
  GetPrimaryAssetId <$> DataContainer s' = GetPrimaryAssetId <$> DataContainer s.
Proof.
  intros Hf. apply FixupDependencies_spec in Hf as (-> & _).
  apply (imap_RefreshRecord_ids _ O).
Qed.

Lemma FixupDependencies_views_ok b s s' :
  FixupDependencies b s = Some s' →
  views_ok (DataContainer s') (CustomDataContainer s').
Proof.
  intros Hf. pose proof (FixupDependencies_spec _ _ _ Hf) as (_ & HC & _).
  intros i r' f Hi _. rewrite (FixupDependencies_lookup _ _ _ _ Hf) in Hi.
  destruct (DataContainer s !! i) as [r|]; simpl in Hi; [|done]. simplify_eq.
  by rewrite RefreshRecord_GetView, RefreshRecord_GetIndex, HC.
Qed.

Lemma FixupDependencies_blobs_ok b s s' :
  blobs_ok (DataContainer s) (CustomDataContainer s) →
  FixupDependencies b s = Some s' →
  blobs_ok (DataContainer s') (CustomDataContainer s').
Proof.
  intros [Hr Hd Hv] Hf.
  pose proof (FixupDependencies_spec _ _ _ Hf) as (_ & HC & _).
  assert (∀ i r', DataContainer s' !! i = Some r' →
            ∃ r, DataContainer s !! i = Some r ∧
                 ∀ f, GetIndex f r' = GetIndex f r) as Hlook.
  { intros i r' Hi. rewrite (FixupDependencies_lookup _ _ _ _ Hf) in Hi.
    destruct (DataContainer s !! i) as [r|]; simpl in Hi; [|done]. simplify_eq.
    exists r. split; [done|]. intros f. apply RefreshRecord_GetIndex. }
  rewrite HC. split; [| |done].
  - intros i r' f Hi Hn. destruct (Hlook _ _ Hi) as (r & Hr' & Hidx).
    rewrite Hidx. by eapply Hr.
  - intros i j ri' rj' f g Hi Hj Hne Hn1 Hn2.
    destruct (Hlook _ _ Hi) as (ri & Hri & Hidxi).
    destruct (Hlook _ _ Hj) as (rj & Hrj & Hidxj).
    rewrite Hidxi, Hidxj. by eapply Hd.
Qed.

Lemma FixupDependencies_sorted b s s' :
  FixupDependencies b s = Some s' → ids_sorted (DataContainer s').
Proof.
  intros Hf. pose proof (FixupDependencies_spec _ _ _ Hf) as (_ & _ & _ & _ & Hs & _).
  eapply ids_sorted_same_ids; [|exact Hs].
  symmetry. by eapply FixupDependencies_ids.
Qed.

(** [FixupDependencies] re-establishes every invariant that does not live
    in the payload indices themselves. *)
Lemma FixupDependencies_wf b s s' :
  blobs_ok (DataContainer s) (CustomDataContainer s) →
  FixupDependencies b s = Some s' → state_wf s'.
Proof.
  intros Hb Hf. split.
  - by eapply FixupDependencies_sorted.
  - by eapply FixupDependencies_blobs_ok.
  - by eapply FixupDependencies_views_ok.
  - by apply FixupDependencies_spec in Hf as (_ & _ & _ & _ & _ & ?).
Qed.

(* ===================================================================== *)
(** ** What the blob bookkeeping leaves alone                             *)
(* ===================================================================== *)

Lemma same_meta_refl r : same_meta r r.
Proof. by split_and!. Qed.

Lemma same_meta_trans r1 r2 r3 : same_meta r1 r2 → same_meta r2 r3 → same_meta r1 r3.
Proof. unfold same_meta. intros (?&?&?&?) (?&?&?&?). split_and!; congruence. Qed.

Lemma same_meta_SetView f v r : same_meta r (SetView f v r).
Proof. by destruct f. Qed.

Lemma same_meta_SetIndex f i r : same_meta r (SetIndex f i r).
Proof. by destruct f. Qed.

#[local] Instance same_meta_reflexive : Reflexive same_meta.
Proof. intros r. apply same_meta_refl. Qed.

#[local] Instance same_meta_transitive : Transitive same_meta.
Proof. intros r1 r2 r3. apply same_meta_trans. Qed.

Lemma Forall2_same_meta_refl l : Forall2 same_meta l l.
Proof. induction l; constructor; [apply same_meta_refl|done]. Qed.

Lemma ShiftField_same_meta C k f r r' : ShiftField C k f r = Some r' → same_meta r r'.
Proof.
  unfold ShiftField. destruct (GetIndex f r >? k); [|intros; simplify_eq; apply same_meta_refl].
  destruct (IsValidIndex C (GetIndex f r - 1)); [|done]. intros; simplify_eq.
  eapply same_meta_trans; [apply same_meta_SetIndex|apply same_meta_SetView].
Qed.

Lemma ShiftRecord_same_meta C k r r' : ShiftRecord C k r = Some r' → same_meta r r'.
Proof.
  unfold ShiftRecord.
  destruct (ShiftField C k FieldDefaultPayload r) as [r1|] eqn:E1; [|done].
  intros E2. eapply same_meta_trans; by eapply ShiftField_same_meta.
Qed.

Lemma same_secondary_refl s : same_secondary s s.
Proof. by split_and!. Qed.

Lemma same_secondary_trans s1 s2 s3 :
  same_secondary s1 s2 → same_secondary s2 s3 → same_secondary s1 s3.
Proof.
  unfold same_secondary. intros (?&?&?&?&?) (?&?&?&?&?). split_and!; congruence.
Qed.

Lemma RemoveCustomData_struct k s s' :
  RemoveCustomData k s = Some s' →
  Forall2 same_meta (DataContainer s) (DataContainer s') ∧ same_secondary s s'.
Proof.
  unfold RemoveCustomData.
  destruct (IsValidIndex (CustomDataContainer s) k);
    [|intros; simplify_eq; split;
       [apply Forall2_same_meta_refl | apply same_secondary_refl]].
  destruct (IsValidIndex (delete (Z.to_nat k) (CustomDataContainer s)) k).
  - destruct (mapM _ _) as [Records|] eqn:Hm; [|done]. intros; simplify_eq.
    split; [|by split_and!]. simpl. apply mapM_Some in Hm.
    eapply Forall2_impl; [exact Hm|]. intros r r' Hs.
    exact (ShiftRecord_same_meta _ _ _ _ Hs).
  - intros; simplify_eq. split; [|by split_and!]. simpl.
    apply Forall2_same_meta_refl.
Qed.

Lemma Forall2_same_meta_alter g i l :
  (∀ r, same_meta r (g r)) → Forall2 same_meta l (alter g i l).
Proof.
  intros Hg. apply Forall2_same_length_lookup_2; [by rewrite length_alter|].
  intros j r r' Hr Hr'. destruct (decide (i = j)) as [->|Hne].
  - rewrite list_lookup_alter_eq, Hr in Hr'. simpl in Hr'. simplify_eq. apply Hg.
  - rewrite list_lookup_alter_ne, Hr in Hr' by done. simplify_eq. apply same_meta_refl.
Qed.

Lemma Forall2_same_meta_trans l1 l2 l3 :
  Forall2 same_meta l1 l2 → Forall2 same_meta l2 l3 → Forall2 same_meta l1 l3.
Proof.
  intros H12 H23. by etrans.
Qed.

Lemma RefreshCustomData_Append_struct In Idx f s :
  Forall2 same_meta (DataContainer s)
    (DataContainer (RefreshCustomData_Append In Idx f s)) ∧
  same_secondary s (RefreshCustomData_Append In Idx f s).
Proof.
  unfold RefreshCustomData_Append.
  destruct In; (split; [|by split_and!]); simpl;
    apply Forall2_same_meta_alter; intros r0;
    (eapply same_meta_trans; [apply same_meta_SetIndex|apply same_meta_SetView]).
Qed.

Lemma RefreshCustomData_struct In Idx f s s' :
  RefreshCustomData In Idx f s = Some s' →
  Forall2 same_meta (DataContainer s) (DataContainer s') ∧ same_secondary s s'.
Proof.
  unfold RefreshCustomData.
  destruct (DataContainer s !! Idx) as [r|] eqn:Hr; [|done].
  destruct (View_IsValid _ _ && _).
  - case_bool_decide.
    + destruct In as [[t Source]|]; [|done].
      destruct (IsValidIndex _ _); [|done]. intros; simplify_eq.
      split; [|by split_and!]. simpl. apply Forall2_same_meta_refl.
    + destruct (RemoveCustomData (GetIndex f r) s) as [s1|] eqn:Hrm; [|done].
      intros ?; simplify_eq. apply RemoveCustomData_struct in Hrm as [H1 H1'].
      destruct (RefreshCustomData_Append_struct In Idx f s1) as [H2 H2']. split.
      * by eapply Forall2_same_meta_trans.
      * by eapply same_secondary_trans.
  - intros ?; simplify_eq. apply RefreshCustomData_Append_struct.
Qed.

(* ===================================================================== *)
(** ** AppendData: the two branches                                       *)
(* ===================================================================== *)

Lemma ContainsRecord_true s Id : ContainsRecord s Id = true ↔ is_Some (DataMap s !! Id).
Proof. unfold ContainsRecord. apply bool_decide_eq_true. Qed.

Lemma ContainsRecord_false s Id : ContainsRecord s Id = false ↔ DataMap s !! Id = None.
Proof.
  unfold ContainsRecord. rewrite bool_decide_eq_false. split.
  - intros H. destruct (DataMap s !! Id) eqn:E; [exfalso; apply H; eauto|done].
  - intros -> [? ?]. done.
Qed.

(** The update branch, step by step. *)
Lemma AppendData_update_inv InRecord s b s' Idx :
  DataMap s !! GetPrimaryAssetId InRecord = Some Idx →
  AppendData InRecord s = Some (b, s') →
  b = false ∧ (Idx < length (DataContainer s))%nat ∧
  ∃ s2 s3 s4,
    RefreshCustomData (ReadView (CustomDataContainer s) (DefaultPayload InRecord))
      Idx FieldDefaultPayload
      (SetDataContainer
         (alter (SetSharedData (SharedData InRecord) (AssetPath InRecord))
            Idx (DataContainer s)) s) = Some s2 ∧
    RefreshCustomData (ReadView (CustomDataContainer s) (CustomData InRecord))
      Idx FieldCustomData s2 = Some s3 ∧
    InvalidateArchetypeChecksum (GetPrimaryAssetType InRecord) s3 = Some s4 ∧
    s' = SetChecksum 0
           (SetDataContainer (alter InvalidateChecksum Idx (DataContainer s4)) s4).
Proof.
  intros HIdx. unfold AppendData.
  rewrite (proj2 (ContainsRecord_true _ _)) by eauto. rewrite HIdx.
  case_bool_decide; [|done].
  destruct (RefreshCustomData _ Idx FieldDefaultPayload _) as [s2|] eqn:H2; [|done].
  destruct (RefreshCustomData _ Idx FieldCustomData s2) as [s3|] eqn:H3; [|done].
  destruct (InvalidateArchetypeChecksum _ s3) as [s4|] eqn:H4; [|done].
  intros ?; simplify_eq. split_and!; [done|done|]. eauto 10.
Qed.

Lemma AppendData_insert_inv InRecord s b s' :
  DataMap s !! GetPrimaryAssetId InRecord = None →
  AppendData InRecord s = Some (b, s') →
  b = true ∧ FixupDependencies true (AppendData_inserted InRecord s) = Some s'.
Proof.
  intros HIdx. unfold AppendData.
  rewrite (proj2 (ContainsRecord_false _ _)) by done.
  fold (AppendData_inserted InRecord s).
  destruct (FixupDependencies true _) as [s6|] eqn:Hf; [|done].
  intros ?; simplify_eq. done.
Qed.

Lemma InvalidateArchetypeChecksum_spec t s s' :
  InvalidateArchetypeChecksum t s = Some s' →
  ∃ i g, FindBy_GroupType (Archetypes s) t = Some (i, g) ∧
         s' = SetArchetypes (alter (SetGroupChecksum 0) i (Archetypes s)) s.
Proof.
  unfold InvalidateArchetypeChecksum, FindArchetypeGroup.
  destruct (FindBy_GroupType (Archetypes s) t) as [[i g]|]; [|done].
  intros ?; simplify_eq. eauto.
Qed.

Lemma Forall2_same_meta_RepIndex l l' :
  Forall2 same_meta l l' → RepIndex <$> l' = RepIndex <$> l.
Proof.
  induction 1 as [|r r' l l' (_ & _ & Hr & _) _ IH]; [done|].
  rewrite !fmap_cons. congruence.
Qed.

Lemma fmap_alter_id {A B} (g : A → B) (h : A → A) i (l : list A) :
  (∀ x, g (h x) = g x) → g <$> alter h i l = g <$> l.
Proof.
  intros Hgh. apply list_eq. intros j. rewrite !list_lookup_fmap.
  destruct (decide (i = j)) as [->|Hne].
  - rewrite list_lookup_alter_eq. destruct (l !! j); simpl; [|done]. by rewrite Hgh.
  - by rewrite list_lookup_alter_ne.
Qed.

(** The update branch runs no fixup: the array keeps its length and the
    replication indices, and both maps are untouched. *)
Lemma AppendData_update_secondary InRecord s b s' Idx :
  DataMap s !! GetPrimaryAssetId InRecord = Some Idx →
  AppendData InRecord s = Some (b, s') →
  b = false ∧
  length (DataContainer s') = length (DataContainer s) ∧
  RepIndex <$> DataContainer s' = RepIndex <$> DataContainer s ∧
  DataMap s' = DataMap s ∧
  ReplicationMap s' = ReplicationMap s ∧
  RepIndexEncodingBitsNum s' = RepIndexEncodingBitsNum s.
Proof.
  intros HIdx Ha.
  destruct (AppendData_update_inv _ _ _ _ _ HIdx Ha)
    as (-> & Hlt & s2 & s3 & s4 & H2 & H3 & H4 & ->).
  apply RefreshCustomData_struct in H2 as [HF2 (_ & HD2 & HR2 & HB2 & _)].
  apply RefreshCustomData_struct in H3 as [HF3 (_ & HD3 & HR3 & HB3 & _)].
  apply InvalidateArchetypeChecksum_spec in H4 as (gi & g & _ & ->).
  simpl in *.
  assert (RepIndex <$> DataContainer s3 = RepIndex <$> DataContainer s) as HRep.
  { rewrite (Forall2_same_meta_RepIndex _ _ HF3), (Forall2_same_meta_RepIndex _ _ HF2).
    by apply fmap_alter_id. }
  split_and!; try congruence.
  - rewrite length_alter.
    rewrite <- (length_fmap RepIndex (DataContainer s3)), HRep. by rewrite length_fmap.
  - rewrite <- HRep. by apply fmap_alter_id.
Qed.

(* ===================================================================== *)
(** ** Replication indices                                                *)
(* ===================================================================== *)

Lemma RemoveData_inv Id s b s' :
  RemoveData Id s = Some (b, s') →
  (b = false ∧ s' = s ∧ DataMap s !! Id = None) ∨
  (b = true ∧ is_Some (DataMap s !! Id) ∧
   ∃ s0, FixupDependencies true s0 = Some s').
Proof.
  unfold RemoveData. destruct (DataMap s !! Id) as [Idx|] eqn:HIdx.
  - destruct (DataContainer s !! Idx) as [r|]; [|done].
    repeat (match goal with
            | |- context [match ?x with _ => _ end] =>
                let E := fresh "E" in destruct x eqn:E; try done
            end).
    intros ?; simplify_eq. right. split_and!; [done|eauto|eauto].
  - intros ?; simplify_eq. by left.
Qed.

Lemma derived_ok_replication_ok s : derived_ok s → replication_ok s.
Proof. intros [H1 _ H3 _ _]. by split. Qed.

Lemma replication_ok_dense s : replication_ok s → replication_dense s.
Proof.
  intros [HRep HMap]. unfold replication_dense, GetRecordsNum.
  assert (∀ k, 1 ≤ k ≤ Z.of_nat (length (DataContainer s)) →
               ∃ r, DataContainer s !! Z.to_nat (k - 1) = Some r ∧ RepIndex r = k)
    as Hpos.
  { intros k Hk.
    destruct (lookup_lt_is_Some_2 (DataContainer s) (Z.to_nat (k - 1))) as [r Hr];
      [lia|].
    exists r. split; [done|]. rewrite (HRep _ _ Hr). lia. }
  split_and!.
  - done.
  - intros k. split.
    + intros [i Hi]. apply HMap in Hi as [-> Hi]. lia.
    + intros Hk. exists (Z.to_nat (k - 1)). apply HMap. lia.
  - intros k. rewrite list_elem_of_fmap. split.
    + intros (r & -> & Hr). apply list_elem_of_lookup in Hr as [i Hi].
      rewrite (HRep _ _ Hi). apply lookup_lt_Some in Hi. lia.
    + intros Hk. destruct (Hpos k Hk) as (r & Hr & <-).
      exists r. split; [done|]. by eapply list_elem_of_lookup_2.
  - intros k Hk. destruct (Hpos k Hk) as (r & Hr & Hk').
    exists r. split; [|done]. unfold GetRecordFromReplication.
    assert (ReplicationMap s !! k = Some (Z.to_nat (k - 1))) as ->; [|done].
    apply HMap. lia.
Qed.

Lemma Mutate_replication_ok m s s' :
  replication_ok s → Mutate m s = Some s' → replication_ok s'.
Proof.
  intros Hok. destruct m as [rs|r|Id]; simpl.
  - unfold Reset. repeat (destruct (CollectCustomData _ _ _ _)).
    intros Hf. apply FixupDependencies_spec in Hf as (_ & _ & _ & _ & _ & Hd).
    by apply derived_ok_replication_ok.
  - destruct (AppendData r s) as [[b s1]|] eqn:Ha; [|done]. simpl.
    intros ?; simplify_eq.
    destruct (DataMap s !! GetPrimaryAssetId r) as [Idx|] eqn:HIdx.
    + destruct (AppendData_update_secondary _ _ _ _ _ HIdx Ha)
        as (_ & Hlen & HRep & _ & HMap & _).
      destruct Hok as [H1 H2]. split.
      * intros i r' Hi.
        assert ((RepIndex <$> DataContainer s') !! i = Some (RepIndex r')) as Hi'
          by by rewrite list_lookup_fmap, Hi.
        rewrite HRep, list_lookup_fmap in Hi'.
        destruct (DataContainer s !! i) as [r0|] eqn:E; simpl in Hi'; [|done].
        simplify_eq. rewrite <- Hi'. by eapply H1.
      * intros k i. by rewrite HMap, Hlen.
    + apply AppendData_insert_inv in Ha as [_ Hf]; [|done].
      apply FixupDependencies_spec in Hf as (_ & _ & _ & _ & _ & Hd).
      by apply derived_ok_replication_ok.
  - destruct (RemoveData Id s) as [[b s1]|] eqn:Hr; [|done]. simpl.
    intros ?; simplify_eq.
    apply RemoveData_inv in Hr as [(_ & -> & _)|(_ & _ & s0 & Hf)]; [done|].
    apply FixupDependencies_spec in Hf as (_ & _ & _ & _ & _ & Hd).
    by apply derived_ok_replication_ok.
Qed.

Lemma replication_ok_EmptyState : replication_ok EmptyState.
Proof.
  split; simpl.
  - intros i r Hi. done.
  - intros k i. rewrite lookup_empty. split; [done|]. intros [_ ?]. lia.
Qed.

Lemma MutateAll_replication_ok ms s s' :
  replication_ok s → MutateAll ms s = Some s' → replication_ok s'.
Proof.
  revert s. induction ms as [|m ms IH]; intros s Hok; simpl.
  - intros ?; simplify_eq. done.
  - destruct (Mutate m s) as [s1|] eqn:Hm; [|done].
    intros Hrest. eapply IH; [|exact Hrest]. by eapply Mutate_replication_ok.
Qed.

(** C4. Replication indices are dense.  After any run of mutations
    ([Reset], [AppendData] inserting or updating, [RemoveData]) that pass
    their checks, starting from the default-constructed state, the record at
    position [i] has replication index [i + 1], the keys of the replication
    map and the replication indices of the records are exactly [1 .. N], and
    each of them leads back to its record. *)
Theorem replication_index_dense
    (ms : list FRegistryMutation) (s : FCommonInventoryRegistryState) :
  MutateAll ms EmptyState = Some s → replication_dense s.
Proof.
  intros Hrun. apply replication_ok_dense.
  eapply MutateAll_replication_ok; [apply replication_ok_EmptyState|exact Hrun].
Qed.

(* ===================================================================== *)
(** ** Archetype groups                                                   *)
(* ===================================================================== *)

Lemma FindBy_GroupType_Some l t i g :
  FindBy_GroupType l t = Some (i, g) →
  l !! i = Some g ∧ GroupType g = t ∧
  ∀ j g', (j < i)%nat → l !! j = Some g' → GroupType g' ≠ t.
Proof.
  revert i. induction l as [|g0 l IH]; intros i; simpl; [done|].
  case_decide.
  - intros ?; simplify_eq. split_and!; [done|done|]. intros; lia.
  - destruct (FindBy_GroupType l t) as [[i' g']|] eqn:E; simpl; [|done].
    intros ?; simplify_eq. destruct (IH _ eq_refl) as (Hl & Ht & Hfirst).
    split_and!; [done|done|].
    intros [|j] g'' Hj Hg''; simpl in Hg''; [by simplify_eq|].
    eapply Hfirst; [|done]. lia.
Qed.

Lemma FindBy_GroupType_is_Some l t :
  is_Some (FindBy_GroupType l t) ↔ t ∈ GroupType <$> l.
Proof.
  induction l as [|g0 l IH].
  - simpl. split; [intros [? ?]; done|]. intros H. by apply elem_of_nil in H.
  - cbn [FindBy_GroupType]. rewrite fmap_cons, elem_of_cons. case_decide.
    + split; [by left|eauto].
    + rewrite <- IH. split.
      * intros [[i g] Hf]. right. destruct (FindBy_GroupType l t); [eauto|done].
      * intros [?|[[i g] Hf]]; [congruence|]. rewrite Hf. simpl. eauto.
Qed.

Lemma FindBy_GroupType_fmap (h : FArchetypeGroup → FArchetypeGroup) l t :
  (∀ g, GroupType (h g) = GroupType g) →
  FindBy_GroupType (h <$> l) t = prod_map id h <$> FindBy_GroupType l t.
Proof.
  intros Hh. induction l as [|g0 l IH]; [done|].
  rewrite fmap_cons. simpl. rewrite Hh. case_decide; [done|].
  rewrite IH. by destruct (FindBy_GroupType l t) as [[? ?]|].
Qed.

(** Zeroing the cached checksum of the first group of type [t] leaves the
    cached checksum of every other type as it was. *)
Lemma FindBy_GroupType_alter_other l t i g t' :
  FindBy_GroupType l t = Some (i, g) → t' ≠ t →
  (λ p, GroupChecksum p.2) <$> FindBy_GroupType (alter (SetGroupChecksum 0) i l) t' =
  (λ p, GroupChecksum p.2) <$> FindBy_GroupType l t'.
Proof.
  revert i. induction l as [|g0 l IH]; intros i; simpl; [done|].
  destruct (decide (GroupType g0 = t)) as [Heq|Hne].
  - intros ?; simplify_eq. intros Ht'. simpl.
    rewrite !decide_False by done. done.
  - destruct (FindBy_GroupType l t) as [[i' g']|] eqn:E; simpl; [|done].
    intros ?; simplify_eq. intros Ht'. simpl.
    case_decide; [done|]. specialize (IH _ eq_refl Ht').
    change (list_alter (SetGroupChecksum 0) i' l)
      with (alter (SetGroupChecksum 0) i' l).
    destruct (FindBy_GroupType (alter (SetGroupChecksum 0) i' l) t') as [[? ?]|],
             (FindBy_GroupType l t') as [[? ?]|]; simpl in *; congruence.
Qed.

Lemma FindBy_GroupType_alter_same l t i g :
  FindBy_GroupType l t = Some (i, g) →
  (λ p, GroupChecksum p.2) <$> FindBy_GroupType (alter (SetGroupChecksum 0) i l) t =
  Some 0.
Proof.
  revert i. induction l as [|g0 l IH]; intros i; simpl; [done|].
  destruct (decide (GroupType g0 = t)) as [Heq|Hne].
  - intros ?; simplify_eq. simpl. by rewrite decide_True.
  - destruct (FindBy_GroupType l t) as [[i' g']|] eqn:E; simpl; [|done].
    intros ?; simplify_eq. simpl. rewrite decide_False by done.
    specialize (IH _ eq_refl).
    change (list_alter (SetGroupChecksum 0) i' l)
      with (alter (SetGroupChecksum 0) i' l).
    by destruct (FindBy_GroupType (alter (SetGroupChecksum 0) i' l) t) as [[? ?]|].
Qed.

Lemma GroupType_alter h i (l : list FArchetypeGroup) :
  (∀ g, GroupType (h g) = GroupType g) →
  GroupType <$> alter h i l = GroupType <$> l.
Proof. apply fmap_alter_id. Qed.

Lemma BuildArchetypes_types G k ts t :
  t ∈ GroupType <$> BuildArchetypes G k ts ↔ t ∈ GroupType <$> G ∨ t ∈ ts.
Proof.
  revert G k. induction ts as [|t0 ts IH]; intros G k; cbn [BuildArchetypes].
  - rewrite elem_of_nil. naive_solver.
  - rewrite IH, GroupType_alter by done. rewrite elem_of_cons.
    destruct (last G) as [It|] eqn:Hlast.
    + case_bool_decide as Ht.
      * apply last_Some in Hlast as [G' ->].
        rewrite fmap_app, elem_of_app, fmap_cons, elem_of_cons. naive_solver.
      * rewrite fmap_app, elem_of_app, fmap_cons, fmap_nil, list_elem_of_singleton.
        simpl. naive_solver.
    + rewrite fmap_app, elem_of_app, fmap_cons, fmap_nil, list_elem_of_singleton.
      simpl. naive_solver.
Qed.

(** In a fixed-up state there is a group for a type exactly when there is
    a record of that type. *)
Lemma derived_ok_group_types s t :
  derived_ok s →
  is_Some (FindArchetypeGroup s t) ↔ t ∈ GetPrimaryAssetType <$> DataContainer s.
Proof.
  intros Hd. unfold FindArchetypeGroup. rewrite FindBy_GroupType_is_Some.
  assert (GroupType <$> Archetypes s =
          GroupType <$> BuildArchetypes [] O (GetPrimaryAssetType <$> DataContainer s))
    as ->.
  { rewrite <- (derived_Archetypes _ Hd), <- list_fmap_compose.
    by apply list_fmap_ext. }
  rewrite BuildArchetypes_types. rewrite fmap_nil, elem_of_nil. naive_solver.
Qed.

(** The cached group checksums after a fixup with migration. *)
Lemma FixupDependencies_GroupChecksumOf s s' t :
  FixupDependencies true s = Some s' →
  GroupChecksumOf s' t =
  if bool_decide (t ∈ GetPrimaryAssetType <$> DataContainer s) then
    match FindBy_GroupType (Archetypes s) t with
    | Some (_, PreviousArchetype) => Some (GroupChecksum PreviousArchetype)
    | None => Some 0
    end
  else None.
Proof.
  intros Hf. apply FixupDependencies_spec in Hf as (_ & _ & HA & _).
  unfold GroupChecksumOf, FindArchetypeGroup. rewrite HA.
  rewrite FindBy_GroupType_fmap.
  2: { intros g. unfold MigrateArchetypeChecksum.
       by destruct (FindBy_GroupType _ _) as [[? ?]|]. }
  pose proof (FindBy_GroupType_is_Some
                (BuildArchetypes [] O (GetPrimaryAssetType <$> DataContainer s)) t)
    as Hsome.
  rewrite BuildArchetypes_types, fmap_nil, elem_of_nil in Hsome.
  case_bool_decide as Ht.
  - destruct Hsome as [_ [[i g] Hg]]; [by right|]. rewrite Hg. simpl.
    apply FindBy_GroupType_Some in Hg as (Hl & <- & _).
    unfold MigrateArchetypeChecksum.
    destruct (FindBy_GroupType (Archetypes s) (GroupType g)) as [[? ?]|] eqn:E;
      [done|].
    simpl. f_equal.
    assert (Forall (λ g, GroupChecksum g = 0)
              (BuildArchetypes [] O (GetPrimaryAssetType <$> DataContainer s)))
      as Hz by (apply BuildArchetypes_checksum; constructor).
    rewrite Forall_forall in Hz. apply Hz.
    by eapply list_elem_of_lookup_2.
  - destruct (FindBy_GroupType _ t) as [[i g]|] eqn:E; [|done].
    exfalso. apply Ht. destruct Hsome as [[?|?] _]; [eauto|done|done].
Qed.

(* ===================================================================== *)
(** ** RemoveCustomData                                                   *)
(* ===================================================================== *)

Lemma Zgtb_false x k : (x >? k) = false ↔ x ≤ k.
Proof. rewrite Z.gtb_ltb, Z.ltb_ge. done. Qed.

Lemma Zgtb_true x k : (x >? k) = true ↔ k < x.
Proof. rewrite Z.gtb_ltb, Z.ltb_lt. done. Qed.

Lemma GetIndex_SetIndex f g i r :
  GetIndex f (SetIndex g i r) = if decide (f = g) then i else GetIndex f r.
Proof. by destruct f, g. Qed.

Lemma GetIndex_SetView f g v r : GetIndex f (SetView g v r) = GetIndex f r.
Proof. by destruct f, g. Qed.

Lemma GetView_SetView f g v r :
  GetView f (SetView g v r) = if decide (f = g) then v else GetView f r.
Proof. by destruct f, g. Qed.

Lemma GetView_SetIndex f g i r : GetView f (SetIndex g i r) = GetView f r.
Proof. by destruct f, g. Qed.

Lemma ShiftField_fields C k g r r' f :
  ShiftField C k g r = Some r' →
  GetIndex f r' =
    (if decide (f = g) then
       if GetIndex f r >? k then GetIndex f r - 1 else GetIndex f r
     else GetIndex f r) ∧
  GetView f r' =
    (if decide (f = g) then
       if GetIndex f r >? k then ViewSlot (Z.to_nat (GetIndex f r - 1))
       else GetView f r
     else GetView f r).
Proof.
  unfold ShiftField. destruct (GetIndex g r >? k) eqn:Hgt.
  - destruct (IsValidIndex C (GetIndex g r - 1)); [|done]. intros ?; simplify_eq.
    rewrite GetIndex_SetView, GetIndex_SetIndex, GetView_SetView, GetView_SetIndex.
    case_decide; [subst; by rewrite Hgt|done].
  - intros ?; simplify_eq. case_decide; [subst; by rewrite Hgt|done].
Qed.

Lemma ShiftRecord_fields C k r r' f :
  ShiftRecord C k r = Some r' →
  GetIndex f r' = (if GetIndex f r >? k then GetIndex f r - 1 else GetIndex f r) ∧
  GetView f r' =
    (if GetIndex f r >? k then ViewSlot (Z.to_nat (GetIndex f r - 1))
     else GetView f r).
Proof.
  unfold ShiftRecord.
  destruct (ShiftField C k FieldDefaultPayload r) as [r1|] eqn:E1; [|done].
  intros E2.
  destruct (ShiftField_fields _ _ _ _ _ f E1) as [Hi1 Hv1].
  destruct (ShiftField_fields _ _ _ _ _ f E2) as [Hi2 Hv2].
  rewrite Hi2, Hv2, Hi1, Hv1. destruct f; simpl; done.
Qed.

(** What [RemoveCustomData] does to every payload slot that does not own
    the removed item: the index follows the item, the view is re-resolved,
    and the slot reads what it read before. *)
Lemma RemoveCustomData_blobs ex k s s' :
  RemoveCustomData k s = Some s' →
  IsValidIndex (CustomDataContainer s) k = true →
  blobs_ok_ex ex (DataContainer s) (CustomDataContainer s) →
  views_ok_ex ex (DataContainer s) (CustomDataContainer s) →
  (∀ i r f, DataContainer s !! i = Some r → ¬ ex i f → GetIndex f r ≠ k) →
  CustomDataContainer s' = delete (Z.to_nat k) (CustomDataContainer s) ∧
  blobs_ok_ex ex (DataContainer s') (CustomDataContainer s') ∧
  views_ok_ex ex (DataContainer s') (CustomDataContainer s') ∧
  (∀ i r r' f, DataContainer s !! i = Some r → DataContainer s' !! i = Some r' →
     ¬ ex i f →
     ReadView (CustomDataContainer s') (GetView f r') =
       ReadView (CustomDataContainer s) (GetView f r) ∧
     (GetIndex f r' = INDEX_NONE ↔ GetIndex f r = INDEX_NONE)) ∧
  (∀ i r r' f, DataContainer s !! i = Some r → DataContainer s' !! i = Some r' →
     ex i f → GetIndex f r ≤ k →
     GetIndex f r' = GetIndex f r ∧ GetView f r' = GetView f r).
Proof.
  intros Hrm Hk [Hrange Hdist Hvalid] Hviews Hnotk.
  pose proof Hk as Hk'. apply IsValidIndex_true in Hk'.
  set (C := CustomDataContainer s) in *.
  set (C' := delete (Z.to_nat k) C).
  assert (length C' = (length C - 1)%nat) as HlenC'.
  { unfold C'. rewrite length_delete; [done|]. apply lookup_lt_is_Some. lia. }
  (* every record of the new array, slot by slot *)
  assert (CustomDataContainer s' = C' ∧
          ∀ i r, DataContainer s !! i = Some r →
            ∃ r', DataContainer s' !! i = Some r' ∧
              ∀ f, (¬ ex i f ∨ GetIndex f r ≤ k) →
                GetIndex f r' =
                  (if GetIndex f r >? k then GetIndex f r - 1 else GetIndex f r) ∧
                GetView f r' =
                  (if GetIndex f r >? k then ViewSlot (Z.to_nat (GetIndex f r - 1))
                   else GetView f r)) as [HC' Hrec].
  { unfold RemoveCustomData in Hrm. fold C in Hrm. rewrite Hk in Hrm.
    fold C' in Hrm. destruct (IsValidIndex C' k) eqn:Hk2.
    - destruct (mapM (ShiftRecord C' k) (DataContainer s)) as [Records|] eqn:Hm;
        [|done].
      simplify_eq. simpl. split; [done|]. intros i r Hi.
      apply mapM_Some in Hm.
      destruct (Forall2_lookup_l _ _ _ _ _ Hm Hi) as (r' & Hr' & Hs).
      exists r'. split; [done|]. intros f _. by apply ShiftRecord_fields with (C := C').
    - simplify_eq. simpl. split; [done|]. intros i r Hi. exists r. split; [done|].
      intros f Hf. apply IsValidIndex_false in Hk2.
      assert (GetIndex f r >? k = false) as ->; [|done].
      apply Zgtb_false.
      destruct Hf as [Hf|Hf]; [|done].
      destruct (Hrange _ _ f Hi Hf) as [Hn|Hv].
      + rewrite Hn. unfold INDEX_NONE. lia.
      + apply IsValidIndex_true in Hv. specialize (Hnotk _ _ _ Hi Hf). lia. }
  assert (∀ i r' , DataContainer s' !! i = Some r' →
            ∃ r, DataContainer s !! i = Some r) as Hback.
  { intros i r' Hi. apply RemoveCustomData_struct in Hrm as [HF _].
    destruct (Forall2_lookup_r _ _ _ _ _ HF Hi) as (r & Hr & _). eauto. }
  (* the per-slot facts, for slots that are not exempt *)
  assert (∀ i r r' f, DataContainer s !! i = Some r →
            DataContainer s' !! i = Some r' → ¬ ex i f →
            (GetIndex f r = INDEX_NONE ∧ GetIndex f r' = INDEX_NONE ∧
             GetView f r = ViewNull ∧ GetView f r' = ViewNull) ∨
            (IsValidIndex C (GetIndex f r) = true ∧ GetIndex f r ≠ k ∧
             GetIndex f r' =
               (if GetIndex f r >? k then GetIndex f r - 1 else GetIndex f r) ∧
             IsValidIndex C' (GetIndex f r') = true ∧
             GetView f r = ViewSlot (Z.to_nat (GetIndex f r)) ∧
             GetView f r' = ViewSlot (Z.to_nat (GetIndex f r')) ∧
             C' !! Z.to_nat (GetIndex f r') = C !! Z.to_nat (GetIndex f r)))
    as Hslot.
  { intros i r r' f Hi Hi' Hf.
    destruct (Hrec _ _ Hi) as (r'' & Hr'' & Hfields). simplify_eq.
    destruct (Hfields f (or_introl Hf)) as [Hidx Hview].
    pose proof (Hviews _ _ _ Hi Hf) as Hv. unfold RefreshViewData in Hv.
    destruct (Hrange _ _ f Hi Hf) as [Hn|Hval].
    - left. rewrite Hn in *. simpl in Hv.
      assert (INDEX_NONE >? k = false) as Hgt
        by (apply Zgtb_false; unfold INDEX_NONE; lia).
      rewrite Hgt in *. rewrite Hview, Hv. done.
    - right. rewrite Hval in Hv. pose proof Hval as Hval'.
      apply IsValidIndex_true in Hval'. specialize (Hnotk _ _ _ Hi Hf).
      split_and!; [done|done|done| | done | |].
      + apply IsValidIndex_true. rewrite Hidx, HlenC'.
        destruct (GetIndex f r >? k) eqn:Hgt.
        * apply Zgtb_true in Hgt. lia.
        * apply Zgtb_false in Hgt. lia.
      + rewrite Hview, Hidx. destruct (GetIndex f r >? k); [done|]. done.
      + rewrite Hidx. destruct (GetIndex f r >? k) eqn:Hgt.
        * apply Zgtb_true in Hgt. rewrite list_lookup_delete_ge by lia.
          f_equal. lia.
        * apply Zgtb_false in Hgt. rewrite list_lookup_delete_lt by lia. done. }
  rewrite HC'. split_and!.
  - done.
  - split.
    + intros i r' f Hi' Hf. destruct (Hback _ _ Hi') as [r Hi].
      destruct (Hslot _ _ _ f Hi Hi' Hf) as [(_ & Hn & _)|(_ & _ & _ & Hv & _)];
        [by left|by right].
    + intros i j ri' rj' f g Hi' Hj' Hne Hf Hg Hnn.
      destruct (Hback _ _ Hi') as [ri Hi]. destruct (Hback _ _ Hj') as [rj Hj].
      destruct (Hslot _ _ _ f Hi Hi' Hf)
        as [(_ & Hn & _)|(Hvi & Hki & Hidxi & Hvi' & _)]; [done|].
      apply IsValidIndex_true in Hvi, Hvi'.
      assert (GetIndex f ri ≠ INDEX_NONE) as Hnni by (unfold INDEX_NONE; lia).
      pose proof (Hdist _ _ _ _ f g Hi Hj Hne Hf Hg Hnni) as Hd.
      destruct (Hslot _ _ _ g Hj Hj' Hg)
        as [(_ & Hn & _)|(Hvj & Hkj & Hidxj & Hvj' & _)].
      * rewrite Hn. unfold INDEX_NONE. lia.
      * rewrite Hidxi, Hidxj.
        destruct (GetIndex f ri >? k) eqn:E1, (GetIndex g rj >? k) eqn:E2;
          rewrite ?Zgtb_true, ?Zgtb_false in E1, E2; lia.
    + intros j item Hj.
      unfold C' in Hj. eapply list_elem_of_lookup_2 in Hj.
      apply list_elem_of_delete_inv, list_elem_of_lookup in Hj as [j' Hj'].
      by eapply Hvalid.
  - intros i r' f Hi' Hf. destruct (Hback _ _ Hi') as [r Hi].
    unfold RefreshViewData.
    destruct (Hslot _ _ _ f Hi Hi' Hf)
      as [(_ & Hn & _ & Hv)|(_ & _ & _ & Hv' & _ & Hview' & _)].
    + rewrite Hn, Hv. done.
    + by rewrite Hv', Hview'.
  - intros i r r' f Hi Hi' Hf.
    destruct (Hslot _ _ _ f Hi Hi' Hf)
      as [(Hn & Hn' & Hv & Hv')|(Hval & _ & _ & Hval' & Hview & Hview' & Hsame)].
    + rewrite Hv, Hv', Hn, Hn'. done.
    + rewrite Hview, Hview'. simpl. rewrite Hsame. split; [done|].
      apply IsValidIndex_true in Hval, Hval'. unfold INDEX_NONE. lia.
  - intros i r r' f Hi Hi' Hf Hle.
    destruct (Hrec _ _ Hi) as (r'' & Hr'' & Hfields). simplify_eq.
    destruct (Hfields f (or_intror Hle)) as [Hidx Hview].
    assert (GetIndex f r >? k = false) as Hgt by (apply Zgtb_false; lia).
    rewrite Hgt in *. done.
Qed.

Lemma ShiftRecord_total C k r :
  (∀ f, GetIndex f r >? k = true → IsValidIndex C (GetIndex f r - 1) = true) →
  is_Some (ShiftRecord C k r).
Proof.
  intros Hv. unfold ShiftRecord.
  assert (∀ g r0, GetIndex g r0 = GetIndex g r →
            is_Some (ShiftField C k g r0)) as Hfield.
  { intros g r0 Hsame. unfold ShiftField. rewrite Hsame.
    destruct (GetIndex g r >? k) eqn:E; [|eauto]. rewrite (Hv g E). eauto. }
  destruct (Hfield FieldDefaultPayload r) as [r1 Hr1]; [done|]. rewrite Hr1.
  apply Hfield.
  by destruct (ShiftField_fields _ _ _ _ _ FieldCustomData Hr1) as [Hi _].
Qed.

(** [RemoveCustomData] passes its range checks when every index above the
    removed item is a valid index. *)
Lemma RemoveCustomData_total k s :
  (∀ i r f, DataContainer s !! i = Some r → k < GetIndex f r →
     IsValidIndex (CustomDataContainer s) (GetIndex f r) = true) →
  is_Some (RemoveCustomData k s).
Proof.
  intros Hrange. unfold RemoveCustomData.
  destruct (IsValidIndex (CustomDataContainer s) k) eqn:Hk; [|eauto].
  destruct (IsValidIndex (delete _ _) k) eqn:Hk2; [|eauto].
  assert (is_Some (mapM (ShiftRecord (delete (Z.to_nat k) (CustomDataContainer s)) k)
                     (DataContainer s))) as [Records ->]; [|eauto].
  apply mapM_is_Some. apply Forall_forall. intros r Hr.
  apply list_elem_of_lookup in Hr as [i Hi].
  apply ShiftRecord_total. intros f Hgt. apply Zgtb_true in Hgt.
  apply IsValidIndex_true in Hk.
  apply IsValidIndex_true. rewrite length_delete by (apply lookup_lt_is_Some; lia).
  specialize (Hrange _ _ _ Hi Hgt). apply IsValidIndex_true in Hrange. lia.
Qed.

(* ===================================================================== *)
(** ** RefreshCustomData                                                  *)
(* ===================================================================== *)

Lemma one_slot_dec Idx f i g : one_slot Idx f i g ∨ ¬ one_slot Idx f i g.
Proof.
  unfold one_slot. destruct (decide (i = Idx)), (decide (g = f)); naive_solver.
Qed.

Lemma IsValidIndex_app_l {A} (l l' : list A) i :
  IsValidIndex l i = true → IsValidIndex (l ++ l') i = true.
Proof. rewrite !IsValidIndex_true, length_app. lia. Qed.

Lemma RefreshViewData_app C C' i :
  i = INDEX_NONE ∨ IsValidIndex C i = true →
  RefreshViewData (C ++ C') i = RefreshViewData C i.
Proof.
  unfold RefreshViewData. intros [->|Hv].
  - by rewrite !IsValidIndex_NONE.
  - by rewrite Hv, (IsValidIndex_app_l _ _ _ Hv).
Qed.

(** Appending (or resetting) the stale slot restores the blob discipline;
    every other slot reads what it read, the slot itself reads the incoming
    struct. *)
Lemma RefreshCustomData_Append_blobs In Idx f s :
  blobs_ok_ex (one_slot Idx f) (DataContainer s) (CustomDataContainer s) →
  views_ok_ex (one_slot Idx f) (DataContainer s) (CustomDataContainer s) →
  let s' := RefreshCustomData_Append In Idx f s in
  blobs_ok (DataContainer s') (CustomDataContainer s') ∧
  views_ok (DataContainer s') (CustomDataContainer s') ∧
  (∀ j rj rj' g, DataContainer s !! j = Some rj → DataContainer s' !! j = Some rj' →
     ¬ one_slot Idx f j g →
     ReadView (CustomDataContainer s') (GetView g rj') =
     ReadView (CustomDataContainer s) (GetView g rj)) ∧
  (∀ r', DataContainer s' !! Idx = Some r' →
     ReadView (CustomDataContainer s') (GetView f r') = In).
Proof.
  intros [Hrange Hdist Hvalid] Hviews s'.
  set (C := CustomDataContainer s) in *.
  (* the slots of the new array *)
  assert (∀ j rj', DataContainer s' !! j = Some rj' →
            ∃ rj, DataContainer s !! j = Some rj ∧
              ∀ g, (¬ one_slot Idx f j g →
                      GetIndex g rj' = GetIndex g rj ∧ GetView g rj' = GetView g rj) ∧
                   (one_slot Idx f j g →
                      match In with
                      | Some _ => GetIndex g rj' = Z.of_nat (length C) ∧
                                  GetView g rj' = ViewSlot (length C)
                      | None => GetIndex g rj' = INDEX_NONE ∧ GetView g rj' = ViewNull
                      end)) as Hnew.
  { intros j rj' Hj. unfold s', RefreshCustomData_Append in Hj.
    destruct In as [item|]; simpl in Hj.
    - destruct (decide (j = Idx)) as [->|Hne].
      + rewrite list_lookup_alter_eq in Hj.
        destruct (DataContainer s !! Idx) as [rj|]; simpl in Hj; [|done].
        simplify_eq. exists rj. split; [done|]. intros g. fold C.
        rewrite GetIndex_SetView, GetIndex_SetIndex, GetView_SetView, GetView_SetIndex.
        split; intros Hg; unfold one_slot in Hg.
        * rewrite !decide_False by naive_solver. done.
        * destruct Hg as [_ ->]. by rewrite !decide_True.
      + rewrite list_lookup_alter_ne in Hj by done. exists rj'. split; [done|].
        intros g. split; [done|]. intros [? _]. done.
    - destruct (decide (j = Idx)) as [->|Hne].
      + rewrite list_lookup_alter_eq in Hj.
        destruct (DataContainer s !! Idx) as [rj|]; simpl in Hj; [|done].
        simplify_eq. exists rj. split; [done|]. intros g.
        rewrite GetIndex_SetView, GetIndex_SetIndex, GetView_SetView, GetView_SetIndex.
        split; intros Hg; unfold one_slot in Hg.
        * rewrite !decide_False by naive_solver. done.
        * destruct Hg as [_ ->]. by rewrite !decide_True.
      + rewrite list_lookup_alter_ne in Hj by done. exists rj'. split; [done|].
        intros g. split; [done|]. intros [? _]. done. }
  assert (CustomDataContainer s' =
          match In with Some _ => C ++ [In] | None => C end) as HC'.
  { unfold s', RefreshCustomData_Append. by destruct In. }
  assert (∀ i, i = INDEX_NONE ∨ IsValidIndex C i = true →
               i = INDEX_NONE ∨ IsValidIndex (CustomDataContainer s') i = true)
    as Hmono.
  { intros i [?|Hv]; [by left|right]. rewrite HC'.
    destruct In; [by apply IsValidIndex_app_l|done]. }
  assert (∀ i, i = INDEX_NONE ∨ IsValidIndex C i = true →
               RefreshViewData (CustomDataContainer s') i = RefreshViewData C i)
    as Hrefresh.
  { intros i Hi. rewrite HC'. destruct In; [by apply RefreshViewData_app|done]. }
  split_and!.
  - split.
    + intros j rj' g Hj _. destruct (Hnew _ _ Hj) as (rj & Hrj & Hslots).
      destruct (Hslots g) as [Hother Hhole].
      destruct (one_slot_dec Idx f j g) as [Hg|Hg].
      * specialize (Hhole Hg). rewrite HC'. destruct In.
        -- right. destruct Hhole as [-> _]. apply IsValidIndex_true.
           rewrite length_app. simpl. lia.
        -- left. by destruct Hhole.
      * destruct (Hother Hg) as [-> _]. apply Hmono. by eapply Hrange.
    + intros i j ri' rj' g1 g2 Hi Hj Hne _ _ Hnn.
      destruct (Hnew _ _ Hi) as (ri & Hri & Hsi).
      destruct (Hnew _ _ Hj) as (rj & Hrj & Hsj).
      destruct (Hsi g1) as [Hoi Hhi]. destruct (Hsj g2) as [Hoj Hhj].
      destruct (one_slot_dec Idx f i g1) as [H1|H1];
        destruct (one_slot_dec Idx f j g2) as [H2|H2].
      * exfalso. apply Hne. destruct H1 as [-> ->], H2 as [-> ->]. done.
      * specialize (Hhi H1). destruct (Hoj H2) as [Hj2 _]. rewrite Hj2.
        destruct In; destruct Hhi as [Hi1 _]; [|congruence]. rewrite Hi1.
        destruct (Hrange _ _ g2 Hrj H2) as [->|Hv]; [unfold INDEX_NONE; lia|].
        apply IsValidIndex_true in Hv. lia.
      * specialize (Hhj H2). destruct (Hoi H1) as [Hi1 _]. rewrite Hi1 in *.
        destruct (Hrange _ _ g1 Hri H1) as [?|Hv]; [done|].
        apply IsValidIndex_true in Hv.
        destruct In; destruct Hhj as [-> _]; [lia|unfold INDEX_NONE; lia].
      * destruct (Hoi H1) as [Hi1 _]. destruct (Hoj H2) as [Hj2 _].
        rewrite Hi1, Hj2 in *. by eapply Hdist.
    + intros k item. rewrite HC'. destruct In as [x|]; [|by apply Hvalid].
      intros Hk. apply lookup_app_Some in Hk as [Hk|[_ Hk]]; [by eapply Hvalid|].
      apply list_lookup_singleton_Some in Hk as [_ <-]. eauto.
  - intros j rj' g Hj _. destruct (Hnew _ _ Hj) as (rj & Hrj & Hslots).
    destruct (Hslots g) as [Hother Hhole].
    destruct (one_slot_dec Idx f j g) as [Hg|Hg].
    + specialize (Hhole Hg). rewrite HC'. destruct In; destruct Hhole as [-> ->].
      * unfold RefreshViewData.
        assert (IsValidIndex (C ++ [Some p]) (Z.of_nat (length C)) = true) as ->.
        { apply IsValidIndex_true. rewrite length_app. simpl. lia. }
        by rewrite Nat2Z.id.
      * done.
    + destruct (Hother Hg) as [-> ->]. rewrite Hrefresh by (by eapply Hrange).
      exact (Hviews _ _ _ Hrj Hg).
  - intros j rj rj' g Hj Hj' Hg. destruct (Hnew _ _ Hj') as (rj0 & Hrj0 & Hslots).
    simplify_eq. destruct (Hslots g) as [Hother _]. destruct (Hother Hg) as [_ ->].
    rewrite (Hviews _ _ _ Hj Hg), HC'. destruct In; [|done].
    unfold RefreshViewData.
    destruct (IsValidIndex C (GetIndex g _)) eqn:Hv; [|done]. simpl.
    rewrite lookup_app_l; [done|]. apply IsValidIndex_true in Hv. lia.
  - intros r' Hr'. destruct (Hnew _ _ Hr') as (r & Hr & Hslots).
    destruct (Hslots f) as [_ Hhole]. specialize (Hhole (conj eq_refl eq_refl)).
    rewrite HC'. destruct In; destruct Hhole as [_ ->]; [|done]. simpl.
    rewrite lookup_app_r by done. by rewrite Nat.sub_diag.
Qed.

(** One payload slot of the update branch, in a state that obeys the blob
    discipline: the call passes its checks and restores the discipline;
    every other slot reads what it read, the slot itself reads the incoming
    struct. *)
Lemma RefreshCustomData_spec In Idx f s r :
  blobs_ok (DataContainer s) (CustomDataContainer s) →
  views_ok (DataContainer s) (CustomDataContainer s) →
  DataContainer s !! Idx = Some r →
  ∃ s', RefreshCustomData In Idx f s = Some s' ∧
    blobs_ok (DataContainer s') (CustomDataContainer s') ∧
    views_ok (DataContainer s') (CustomDataContainer s') ∧
    (∀ j rj rj' g, DataContainer s !! j = Some rj → DataContainer s' !! j = Some rj' →
       ¬ one_slot Idx f j g →
       ReadView (CustomDataContainer s') (GetView g rj') =
       ReadView (CustomDataContainer s) (GetView g rj)) ∧
    (∀ r', DataContainer s' !! Idx = Some r' →
       ReadView (CustomDataContainer s') (GetView f r') = In).
Proof.
  intros Hb Hviews Hr. unfold RefreshCustomData. rewrite Hr.
  assert (blobs_ok_ex (one_slot Idx f) (DataContainer s) (CustomDataContainer s))
    as Hbex by (eapply blobs_ok_ex_weaken; [|exact Hb]; intros ? ? []).
  assert (views_ok_ex (one_slot Idx f) (DataContainer s) (CustomDataContainer s))
    as Hvex by (eapply views_ok_ex_weaken; [|exact Hviews]; intros ? ? []).
  destruct (View_IsValid _ _ && _) eqn:Hcond.
  - apply andb_true_iff in Hcond as [Hvalid Hnn].
    apply negb_true_iff, bool_decide_eq_false in Hnn.
    assert (¬ no_slot Idx f) as Hno by (intros []).
    destruct (FieldContent_index _ _ _ _ _ f Hb Hviews Hr Hno)
      as [[? _]|(Hk & Hview & Hsome)]; [done|].
    case_bool_decide as Htype.
    + (* the type matches: the value is copied in place *)
      unfold View_GetScriptStruct in Htype. destruct Hsome as [[t m] Hread].
      rewrite Hread in Htype. destruct In as [[t' Source]|]; [|done].
      simpl in Htype. simplify_eq. rewrite Hk. eexists. split; [done|]. simpl.
      set (k := Z.to_nat (GetIndex f r)).
      set (C := CustomDataContainer s) in *.
      assert (C !! k = Some (Some (t', m))) as HCk.
      { rewrite Hview in Hread. simpl in Hread. fold k in Hread.
        destruct (C !! k) as [[x|]|]; simpl in Hread; by simplify_eq. }
      assert (∀ i, IsValidIndex (alter (SetMemory Source) k C) i = IsValidIndex C i)
        as Hlen by (intros i; apply IsValidIndex_length; by rewrite length_alter).
      destruct Hb as [Hrange Hdist Hvalid']. split_and!.
      * split.
        -- intros i ri g Hi Hg. rewrite Hlen. by eapply Hrange.
        -- done.
        -- intros j item Hj. destruct (decide (j = k)) as [->|Hne].
           ++ rewrite list_lookup_alter_eq, HCk in Hj. simpl in Hj. simplify_eq. eauto.
           ++ rewrite list_lookup_alter_ne in Hj by done. by eapply Hvalid'.
      * intros i ri g Hi Hg. rewrite (Hviews _ _ _ Hi Hg).
        unfold RefreshViewData. by rewrite Hlen.
      * intros j rj rj' g Hj Hj' Hg. simplify_eq.
        assert (¬ no_slot j g) as Hno' by (intros []).
        destruct (FieldContent_index _ _ _ _ _ g
                    (Build_blobs_ok_ex _ _ _ Hrange Hdist Hvalid') Hviews Hj Hno')
          as [[_ ->]|(Hkj & -> & _)]; [done|].
        simpl. rewrite list_lookup_alter_ne; [done|].
        apply IsValidIndex_true in Hk, Hkj. unfold k. intros Heq.
        assert (GetIndex f r = GetIndex g rj) as Heq' by lia.
        eapply (Hdist Idx j r rj f g); try done.
        intros ?; simplify_eq. apply Hg. done.
      * intros r' Hr'. simplify_eq. rewrite Hview. simpl. fold k.
        rewrite list_lookup_alter_eq, HCk. done.
    + (* the type differs: the old item is removed, the new one appended *)
      destruct (RemoveCustomData_total (GetIndex f r) s) as [s1 Hrm].
      { intros i ri g Hi Hgt. destruct Hb as [Hrange _ _].
        destruct (Hrange _ _ g Hi) as [Hn|?]; [intros []| |done].
        apply IsValidIndex_true in Hk. rewrite Hn in Hgt.
        unfold INDEX_NONE in Hgt. lia. }
      rewrite Hrm. eexists. split; [done|].
      destruct (RemoveCustomData_blobs (one_slot Idx f) _ _ _ Hrm Hk Hbex Hvex)
        as (HC1 & Hb1 & Hv1 & Hread1 & Hhole1).
      { intros i ri g Hi Hg. destruct Hb as [_ Hdist _].
        intros Heq. eapply (Hdist Idx i r ri f g); try done.
        intros ?; simplify_eq. apply Hg. done. }
      destruct (RefreshCustomData_Append_blobs In Idx f s1 Hb1 Hv1)
        as (Hb2 & Hv2 & Hread2 & Hin2).
      split_and!; [done|done| |done].
      intros j rj rj' g Hj Hj' Hg.
      apply RemoveCustomData_struct in Hrm as [HF _].
      destruct (Forall2_lookup_l _ _ _ _ _ HF Hj) as (rj1 & Hrj1 & _).
      rewrite (Hread2 _ _ _ g Hrj1 Hj' Hg).
      by destruct (Hread1 _ _ _ g Hj Hrj1 Hg).
  - (* no item to replace *)
    eexists. split; [done|].
    by destruct (RefreshCustomData_Append_blobs In Idx f s Hbex Hvex)
      as (Hb2 & Hv2 & Hread2 & Hin2).
Qed.

(* ===================================================================== *)
(** ** AppendData, update branch                                          *)
(* ===================================================================== *)

Lemma blobs_ok_ex_same_slots ex DC DC' C :
  Forall2 (λ r r', ∀ f, GetIndex f r' = GetIndex f r) DC DC' →
  blobs_ok_ex ex DC C → blobs_ok_ex ex DC' C.
Proof.
  intros HF [Hrange Hdist Hvalid]. split; [| |done].
  - intros i r' f Hi Hf.
    destruct (Forall2_lookup_r _ _ _ _ _ HF Hi) as (r & Hr & Hsame).
    rewrite Hsame. by eapply Hrange.
  - intros i j ri' rj' f g Hi Hj Hne Hf Hg.
    destruct (Forall2_lookup_r _ _ _ _ _ HF Hi) as (ri & Hri & Hsi).
    destruct (Forall2_lookup_r _ _ _ _ _ HF Hj) as (rj & Hrj & Hsj).
    rewrite Hsi, Hsj. by eapply Hdist.
Qed.

Lemma views_ok_ex_same_slots ex DC DC' C :
  Forall2 (λ r r', ∀ f, GetIndex f r' = GetIndex f r ∧ GetView f r' = GetView f r)
    DC DC' →
  views_ok_ex ex DC C → views_ok_ex ex DC' C.
Proof.
  intros HF Hv i r' f Hi Hf.
  destruct (Forall2_lookup_r _ _ _ _ _ HF Hi) as (r & Hr & Hsame).
  destruct (Hsame f) as [-> ->]. by eapply Hv.
Qed.

Lemma Forall2_alter_r {A} (P : A → A → Prop) (h : A → A) i (l : list A) :
  (∀ x, P x x) → (∀ x, P x (h x)) → Forall2 P l (alter h i l).
Proof.
  intros Hrefl Hh. apply Forall2_same_length_lookup_2; [by rewrite length_alter|].
  intros j x y Hx Hy. destruct (decide (i = j)) as [->|Hne].
  - rewrite list_lookup_alter_eq, Hx in Hy. simpl in Hy. simplify_eq. apply Hh.
  - rewrite list_lookup_alter_ne, Hx in Hy by done. simplify_eq. apply Hrefl.
Qed.

Lemma Forall2_same_meta_SharedData l l' :
  Forall2 same_meta l l' → SharedData <$> l' = SharedData <$> l.
Proof.
  induction 1 as [|r r' l l' (Hr & _) _ IH]; [done|].
  rewrite !fmap_cons. congruence.
Qed.

Lemma Forall2_same_meta_ids l l' :
  Forall2 same_meta l l' → GetPrimaryAssetId <$> l' = GetPrimaryAssetId <$> l.
Proof.
  induction 1 as [|r r' l l' (Hr & _) _ IH]; [done|].
  rewrite !fmap_cons. unfold GetPrimaryAssetId at 1 3. congruence.
Qed.

Lemma ids_types (l l' : list FCommonInventoryRegistryRecord) :
  GetPrimaryAssetId <$> l' = GetPrimaryAssetId <$> l →
  GetPrimaryAssetType <$> l' = GetPrimaryAssetType <$> l.
Proof.
  revert l'. induction l as [|r l IH]; intros [|r' l'] H; try done.
  rewrite !fmap_cons in *. injection H as Hr Hl.
  unfold GetPrimaryAssetType at 1 3. rewrite Hr. f_equal. by apply IH.
Qed.

Lemma fmap_lookup_eq {A B} (g : A → B) (l l' : list A) i x x' :
  g <$> l' = g <$> l → l !! i = Some x → l' !! i = Some x' → g x' = g x.
Proof.
  intros Heq Hx Hx'.
  assert ((g <$> l') !! i = (g <$> l) !! i) as H by by rewrite Heq.
  rewrite !list_lookup_fmap, Hx, Hx' in H. simpl in H. congruence.
Qed.

Lemma derived_ok_lookup_id s Idx r :
  derived_ok s → DataContainer s !! Idx = Some r →
  DataMap s !! GetPrimaryAssetId r = Some Idx.
Proof. intros Hd Hr. apply (derived_DataMap _ Hd). eauto. Qed.

Lemma derived_ok_DataMap_lookup s Id Idx :
  derived_ok s → DataMap s !! Id = Some Idx →
  ∃ r, DataContainer s !! Idx = Some r ∧ GetPrimaryAssetId r = Id.
Proof. intros Hd HI. by apply (derived_DataMap _ Hd). Qed.

Lemma GetRecordPtr_Some s Id r :
  derived_ok s →
  GetRecordPtr s Id = Some r ↔ r ∈ DataContainer s ∧ GetPrimaryAssetId r = Id.
Proof.
  intros Hd. unfold GetRecordPtr. split.
  - destruct (DataMap s !! Id) as [Idx|] eqn:HI; [|done]. intros Hr.
    destruct (derived_ok_DataMap_lookup _ _ _ Hd HI) as (r' & Hr' & Hid).
    simplify_eq. split; [|done]. by eapply list_elem_of_lookup_2.
  - intros [Hin Hid]. apply list_elem_of_lookup in Hin as [i Hi].
    rewrite <- Hid, (derived_ok_lookup_id _ _ _ Hd Hi). done.
Qed.

(** The update branch in a well-formed state: the call passes its checks,
    the state stays well formed, and nothing but the matched record's data
    and the checksum chain above it is written. *)
Lemma AppendData_update_spec InRecord s Idx :
  state_wf s →
  DataMap s !! GetPrimaryAssetId InRecord = Some Idx →
  ∃ s' r0,
    AppendData InRecord s = Some (false, s') ∧
    state_wf s' ∧
    DataContainer s !! Idx = Some r0 ∧
    GetPrimaryAssetId r0 = GetPrimaryAssetId InRecord ∧
    GetPrimaryAssetId <$> DataContainer s' = GetPrimaryAssetId <$> DataContainer s ∧
    (∀ j rj rj', DataContainer s !! j = Some rj → DataContainer s' !! j = Some rj' →
       j ≠ Idx → RecordContent s' rj' = RecordContent s rj ∧
                 RecordChecksum rj' = RecordChecksum rj) ∧
    (∃ r', DataContainer s' !! Idx = Some r' ∧
       RecordContent s' r' =
         (SharedData InRecord, AssetPath InRecord,
          ReadView (CustomDataContainer s) (DefaultPayload InRecord),
          ReadView (CustomDataContainer s) (CustomData InRecord)) ∧
       RecordChecksum r' = 0) ∧
    (∃ gi g, FindBy_GroupType (Archetypes s) (GetPrimaryAssetType InRecord)
               = Some (gi, g) ∧
             Archetypes s' = alter (SetGroupChecksum 0) gi (Archetypes s)) ∧
    Checksum s' = 0.
Proof.
  intros [Hsorted Hb Hv Hd] HIdx.
  destruct (derived_ok_DataMap_lookup _ _ _ Hd HIdx) as (r0 & Hr0 & Hid0).
  set (InD := ReadView (CustomDataContainer s) (DefaultPayload InRecord)).
  set (InC := ReadView (CustomDataContainer s) (CustomData InRecord)).
  set (h := SetSharedData (SharedData InRecord) (AssetPath InRecord)).
  set (s1 := SetDataContainer (alter h Idx (DataContainer s)) s).
  assert (Forall2 (λ r r', ∀ f, GetIndex f r' = GetIndex f r ∧ GetView f r' = GetView f r)
            (DataContainer s) (DataContainer s1)) as Hslots1.
  { apply Forall2_alter_r; [done|]. intros x f. by destruct f. }
  assert (blobs_ok (DataContainer s1) (CustomDataContainer s1)) as Hb1.
  { eapply blobs_ok_ex_same_slots; [|exact Hb].
    eapply Forall2_impl; [exact Hslots1|]. intros ? ? H f. by destruct (H f). }
  assert (views_ok (DataContainer s1) (CustomDataContainer s1)) as Hv1.
  { eapply views_ok_ex_same_slots; [exact Hslots1|exact Hv]. }
  assert (DataContainer s1 !! Idx = Some (h r0)) as Hr1.
  { unfold s1. simpl. by rewrite list_lookup_alter_eq, Hr0. }
  destruct (RefreshCustomData_spec InD Idx FieldDefaultPayload s1 _ Hb1 Hv1 Hr1)
    as (s2 & H2 & Hb2 & Hv2 & Hread2 & Hin2).
  pose proof (RefreshCustomData_struct _ _ _ _ _ H2) as [HF2 Hsec2].
  destruct (Forall2_lookup_l _ _ _ _ _ HF2 Hr1) as (r2 & Hr2 & Hm2).
  destruct (RefreshCustomData_spec InC Idx FieldCustomData s2 _ Hb2 Hv2 Hr2)
    as (s3 & H3 & Hb3 & Hv3 & Hread3 & Hin3).
  pose proof (RefreshCustomData_struct _ _ _ _ _ H3) as [HF3 Hsec3].
  destruct (Forall2_lookup_l _ _ _ _ _ HF3 Hr2) as (r3 & Hr3 & Hm3).
  (* the archetype group of the record exists *)
  assert (Archetypes s3 = Archetypes s) as HA3.
  { destruct Hsec2 as (HA2 & _), Hsec3 as (HA3 & _). by rewrite HA3, HA2. }
  assert (is_Some (FindBy_GroupType (Archetypes s) (GetPrimaryAssetType InRecord)))
    as [[gi g] Hgi].
  { apply (derived_ok_group_types s _ Hd). apply list_elem_of_fmap.
    exists r0. split; [|by eapply list_elem_of_lookup_2].
    unfold GetPrimaryAssetType. by rewrite Hid0. }
  set (s4 := SetArchetypes (alter (SetGroupChecksum 0) gi (Archetypes s3)) s3).
  assert (InvalidateArchetypeChecksum (GetPrimaryAssetType InRecord) s3 = Some s4)
    as H4.
  { unfold InvalidateArchetypeChecksum, FindArchetypeGroup, s4. by rewrite HA3, Hgi. }
  set (s' := SetChecksum 0
               (SetDataContainer (alter InvalidateChecksum Idx (DataContainer s4)) s4)).
  assert (AppendData InRecord s = Some (false, s')) as Happend.
  { unfold AppendData. rewrite (proj2 (ContainsRecord_true _ _)) by eauto.
    rewrite HIdx. rewrite bool_decide_eq_true_2 by (by eapply lookup_lt_Some).
    fold InD InC h s1. rewrite H2, H3, H4. done. }
  (* the ids stay where they are *)
  assert (GetPrimaryAssetId <$> DataContainer s1 = GetPrimaryAssetId <$> DataContainer s)
    as Hids1.
  { unfold s1. simpl. apply list_eq. intros j. rewrite !list_lookup_fmap.
    destruct (decide (Idx = j)) as [<-|Hne].
    - rewrite list_lookup_alter_eq, Hr0. simpl. f_equal. by rewrite Hid0.
    - by rewrite list_lookup_alter_ne. }
  assert (GetPrimaryAssetId <$> DataContainer s3 = GetPrimaryAssetId <$> DataContainer s)
    as Hids3.
  { rewrite (Forall2_same_meta_ids _ _ HF3), (Forall2_same_meta_ids _ _ HF2). done. }
  assert (GetPrimaryAssetId <$> DataContainer s' = GetPrimaryAssetId <$> DataContainer s)
    as Hids'.
  { unfold s'. simpl. rewrite fmap_alter_id by done. done. }
  assert (Forall2 (λ r r', ∀ f, GetIndex f r' = GetIndex f r ∧ GetView f r' = GetView f r)
            (DataContainer s3) (DataContainer s')) as Hslots'.
  { unfold s'. simpl. apply Forall2_alter_r; [done|]. intros x f. by destruct f. }
  destruct (AppendData_update_secondary _ _ _ _ _ HIdx Happend)
    as (_ & Hlen' & HRep' & HDM' & HRM' & HBits').
  exists s', r0. split_and!; try done.
  - split.
    + eapply ids_sorted_same_ids; [symmetry; exact Hids'|done].
    + unfold s' at 2. simpl. eapply blobs_ok_ex_same_slots; [|exact Hb3].
      eapply Forall2_impl; [exact Hslots'|]. intros ? ? H f. by destruct (H f).
    + unfold s' at 2. simpl. eapply views_ok_ex_same_slots; [exact Hslots'|exact Hv3].
    + destruct Hd as [HdRep HdMap HdRM HdA HdB]. split.
      * intros i r' Hi. destruct (lookup_lt_is_Some_2 (DataContainer s) i) as [r Hr].
        { rewrite <- Hlen'. by eapply lookup_lt_Some. }
        rewrite (fmap_lookup_eq RepIndex _ _ _ _ _ HRep' Hr Hi). by eapply HdRep.
      * intros Id i. rewrite HDM', HdMap. split.
        -- intros (r & Hr & Hid).
           destruct (lookup_lt_is_Some_2 (DataContainer s') i) as [r' Hr'].
           { rewrite Hlen'. by eapply lookup_lt_Some. }
           exists r'. split; [done|].
           by rewrite (fmap_lookup_eq GetPrimaryAssetId _ _ _ _ _ Hids' Hr Hr').
        -- intros (r' & Hr' & Hid).
           destruct (lookup_lt_is_Some_2 (DataContainer s) i) as [r Hr].
           { rewrite <- Hlen'. by eapply lookup_lt_Some. }
           exists r. split; [done|].
           by rewrite <- (fmap_lookup_eq GetPrimaryAssetId _ _ _ _ _ Hids' Hr Hr').
      * intros k i. by rewrite HRM', Hlen'.
      * rewrite (ids_types _ _ Hids'), <- HdA. unfold s'. simpl. rewrite HA3.
        apply list_eq. intros j. rewrite !list_lookup_fmap.
        destruct (decide (gi = j)) as [<-|Hne].
        -- rewrite list_lookup_alter_eq. by destruct (Archetypes s !! gi).
        -- by rewrite list_lookup_alter_ne.
      * by rewrite HBits', Hlen'.
  - (* the other records *)
    intros j rj rj' Hj Hj' Hne.
    assert (DataContainer s1 !! j = Some rj) as Hj1.
    { unfold s1. simpl. by rewrite list_lookup_alter_ne. }
    destruct (Forall2_lookup_l _ _ _ _ _ HF2 Hj1) as (rj2 & Hrj2 & Hmj2).
    destruct (Forall2_lookup_l _ _ _ _ _ HF3 Hrj2) as (rj3 & Hrj3 & Hmj3).
    assert (DataContainer s' !! j = Some rj3) as Hj3'.
    { unfold s'. simpl. by rewrite list_lookup_alter_ne. }
    simplify_eq. destruct Hmj2 as (HS2 & HP2 & _ & HK2), Hmj3 as (HS3 & HP3 & _ & HK3).
    split; [|congruence]. unfold RecordContent, FieldContent.
    assert (CustomDataContainer s' = CustomDataContainer s3) as -> by done.
    assert (∀ f, ReadView (CustomDataContainer s3) (GetView f rj') =
                 ReadView (CustomDataContainer s) (GetView f rj)) as Hcontent.
    { intros f. rewrite (Hread3 _ _ _ f Hrj2 Hrj3) by (intros [? _]; done).
      rewrite (Hread2 _ _ _ f Hj1 Hrj2) by (intros [? _]; done). done. }
    by rewrite !Hcontent, HS3, HS2, HP3, HP2.
  - (* the matched record *)
    exists (InvalidateChecksum r3). split_and!.
    + unfold s'. simpl. by rewrite list_lookup_alter_eq, Hr3.
    + unfold RecordContent, FieldContent.
      assert (CustomDataContainer s' = CustomDataContainer s3) as -> by done.
      destruct Hm2 as (HS2 & HP2 & _), Hm3 as (HS3 & HP3 & _). simpl.
      rewrite HS3, HS2, HP3, HP2. simpl.
      change (CustomData r3) with (GetView FieldCustomData r3).
      change (DefaultPayload r3) with (GetView FieldDefaultPayload r3).
      rewrite (Hin3 _ Hr3).
      rewrite (Hread3 _ _ _ FieldDefaultPayload Hr2 Hr3) by (intros [_ ?]; done).
      rewrite (Hin2 _ Hr2). done.
    + done.
  - exists gi, g. split; [done|]. unfold s'. simpl. by rewrite HA3.
Qed.

(* ===================================================================== *)
(** ** AppendData, insert branch                                          *)
(* ===================================================================== *)

Lemma TArray_Insert_lookup {A} (l : list A) x K i y :
  (K ≤ length l)%nat → TArray_Insert l x K !! i = Some y →
  (i = K ∧ y = x) ∨ (i < K ∧ l !! i = Some y)%nat ∨
  (K < i ∧ l !! (i - 1)%nat = Some y)%nat.
Proof.
  intros HK. unfold TArray_Insert. intros Hi.
  apply lookup_app_Some in Hi as [Hi|[Hlen Hi]].
  - apply lookup_take_Some in Hi as [Hi Hlt]. right; left. done.
  - rewrite length_take, Nat.min_l in Hlen, Hi by done.
    destruct (i - K)%nat as [|m] eqn:Em; simpl in Hi.
    + simplify_eq. left. split; [lia|done].
    + rewrite lookup_drop in Hi. right; right. split; [lia|].
      by replace (i - 1)%nat with (K + m)%nat by lia.
Qed.

Lemma TArray_Insert_lookup_new {A} (l : list A) x K :
  (K ≤ length l)%nat → TArray_Insert l x K !! K = Some x.
Proof.
  intros HK. unfold TArray_Insert.
  rewrite lookup_app_r by (rewrite length_take; lia).
  rewrite length_take, Nat.min_l by done. by rewrite Nat.sub_diag.
Qed.

Lemma TArray_Insert_alter {A} (h : A → A) (l : list A) x K :
  (K ≤ length l)%nat →
  alter h K (TArray_Insert l x K) = TArray_Insert l (h x) K.
Proof.
  intros HK. unfold TArray_Insert.
  rewrite alter_app_r_alt by (rewrite length_take; lia).
  rewrite length_take, Nat.min_l by done. by rewrite Nat.sub_diag.
Qed.

Lemma TArray_Insert_length {A} (l : list A) x K :
  length (TArray_Insert l x K) = S (length l).
Proof.
  unfold TArray_Insert. rewrite length_app. simpl.
  rewrite length_take, length_drop. lia.
Qed.

Lemma TArray_Insert_fmap {A B} (g : A → B) (l : list A) x K :
  g <$> TArray_Insert l x K = TArray_Insert (g <$> l) (g x) K.
Proof.
  unfold TArray_Insert. by rewrite fmap_app, fmap_cons, fmap_take, fmap_drop.
Qed.

Lemma TArray_Insert_elem_of {A} (l : list A) x K y :
  y ∈ TArray_Insert l x K ↔ y = x ∨ y ∈ l.
Proof.
  unfold TArray_Insert. rewrite elem_of_app, elem_of_cons.
  assert (y ∈ l ↔ y ∈ take K l ∨ y ∈ drop K l) as ->; [|tauto].
  by rewrite <- elem_of_app, take_drop.
Qed.

(** The state that the insert branch hands to [FixupDependencies]: the new
    record sits at its lower bound, and its payloads are appended to the
    container. *)
Lemma AppendData_inserted_shape InRecord s :
  ∃ x C',
    DataContainer (AppendData_inserted InRecord s) =
      TArray_Insert (DataContainer s) x (LowerBound (DataContainer s) InRecord) ∧
    CustomDataContainer (AppendData_inserted InRecord s) =
      CustomDataContainer s ++ C' ∧
    SharedData x = SharedData InRecord ∧ AssetPath x = AssetPath InRecord ∧
    RecordChecksum x = 0 ∧
    (∀ k item, C' !! k = Some item → is_Some item) ∧
    (∀ f, GetIndex f x = INDEX_NONE ∨
          Z.of_nat (length (CustomDataContainer s)) ≤ GetIndex f x
            < Z.of_nat (length (CustomDataContainer s) + length C')) ∧
    (GetIndex FieldDefaultPayload x ≠ INDEX_NONE →
     GetIndex FieldDefaultPayload x ≠ GetIndex FieldCustomData x) ∧
    (∀ f, ReadView (CustomDataContainer s ++ C')
            (RefreshViewData (CustomDataContainer s ++ C') (GetIndex f x)) =
          ReadView (CustomDataContainer s) (GetView f InRecord)) ∧
    Archetypes (AppendData_inserted InRecord s) =
      match FindBy_GroupType (Archetypes s) (GetPrimaryAssetType InRecord) with
      | Some (i, _) => alter (SetGroupChecksum 0) i (Archetypes s)
      | None => Archetypes s
      end ∧
    DataMap (AppendData_inserted InRecord s) = DataMap s.
Proof.
  pose proof (LowerBound_le (DataContainer s) InRecord) as HK.
  unfold AppendData_inserted.
  set (K := LowerBound (DataContainer s) InRecord) in *.
  set (s1 := SetDataContainer (TArray_Insert (DataContainer s) InRecord K) s).
  set (s2 := match InvalidateArchetypeChecksum _ s1 with Some s2 => s2 | None => s1 end).
  assert (DataContainer s2 = TArray_Insert (DataContainer s) InRecord K ∧
          CustomDataContainer s2 = CustomDataContainer s ∧
          DataMap s2 = DataMap s ∧
          Archetypes s2 =
            match FindBy_GroupType (Archetypes s) (GetPrimaryAssetType InRecord) with
            | Some (i, _) => alter (SetGroupChecksum 0) i (Archetypes s)
            | None => Archetypes s
            end) as (HD2 & HC2 & HM2 & HA2).
  { unfold s2, InvalidateArchetypeChecksum, FindArchetypeGroup, s1. simpl.
    by destruct (FindBy_GroupType _ _) as [[i g]|]. }
  set (n := length (CustomDataContainer s)).
  destruct (ReadView (CustomDataContainer s) (DefaultPayload InRecord))
    as [d|] eqn:Hd;
  destruct (ReadView (CustomDataContainer s) (CustomData InRecord))
    as [c|] eqn:Hc; simpl; rewrite ?HD2, ?HC2, ?HA2, ?HM2;
    rewrite ?length_alter, ?length_app; simpl;
    rewrite !TArray_Insert_alter by done.
  - eexists _, [Some d; Some c]. rewrite <- app_assoc. simpl.
    split_and!; try done.
    + intros [|[|k]] item Hk; simpl in Hk; simplify_eq; eauto.
    + intros []; right; simpl; fold n; lia.
    + simpl. fold n. lia.
    + intros []; simpl; unfold RefreshViewData; fold n.
      * rewrite (proj2 (IsValidIndex_true _ _)) by (rewrite length_app; simpl; lia).
        simpl. rewrite Nat2Z.id, lookup_app_r by (fold n; lia).
        fold n. by rewrite Nat.sub_diag.
      * rewrite (proj2 (IsValidIndex_true _ _)) by (rewrite length_app; simpl; lia).
        simpl. rewrite Nat2Z.id, lookup_app_r by (fold n; lia).
        fold n. by replace (n + 1 - n)%nat with 1%nat by lia.
  - eexists _, [Some d]. split_and!; try done.
    + intros [|k] item Hk; simpl in Hk; simplify_eq; eauto.
    + intros []; simpl; fold n; [right; lia|by left].
    + intros []; simpl; unfold RefreshViewData; fold n.
      * rewrite (proj2 (IsValidIndex_true _ _)) by (rewrite length_app; simpl; lia).
        simpl. rewrite Nat2Z.id, lookup_app_r by (fold n; lia).
        fold n. by rewrite Nat.sub_diag.
      * done.
  - eexists _, [Some c]. split_and!; try done.
    + intros [|k] item Hk; simpl in Hk; simplify_eq; eauto.
    + intros []; simpl; fold n; [by left|right; lia].
    + intros []; simpl; unfold RefreshViewData; fold n.
      * done.
      * rewrite (proj2 (IsValidIndex_true _ _)) by (rewrite length_app; simpl; lia).
        simpl. rewrite Nat2Z.id, lookup_app_r by (fold n; lia).
        fold n. by rewrite Nat.sub_diag.
  - eexists _, []. rewrite app_nil_r. split_and!; try done.
    + intros []; by left.
    + intros []; simpl; done.
Qed.

Lemma blobs_ok_insert DC C x K C' :
  (K ≤ length DC)%nat → blobs_ok DC C →
  (∀ k item, C' !! k = Some item → is_Some item) →
  (∀ f, GetIndex f x = INDEX_NONE ∨
        Z.of_nat (length C) ≤ GetIndex f x < Z.of_nat (length C + length C')) →
  (GetIndex FieldDefaultPayload x ≠ INDEX_NONE →
   GetIndex FieldDefaultPayload x ≠ GetIndex FieldCustomData x) →
  blobs_ok (TArray_Insert DC x K) (C ++ C').
Proof.
  intros HK [Hrange Hdist Hvalid] HC' Hx Hxd.
  assert (∀ i r f, DC !! i = Some r →
            GetIndex f r = INDEX_NONE ∨
            0 ≤ GetIndex f r < Z.of_nat (length C)) as Hold.
  { intros i r f Hi. destruct (Hrange _ _ f Hi) as [?|Hv]; [intros []|by left|].
    right. by apply IsValidIndex_true. }
  split.
  - intros i r f Hi _.
    destruct (TArray_Insert_lookup _ _ _ _ _ HK Hi) as [[-> ->]|[[_ Hr]|[_ Hr]]].
    + destruct (Hx f) as [?|?]; [by left|right].
      apply IsValidIndex_true. rewrite length_app. lia.
    + destruct (Hold _ _ f Hr) as [?|?]; [by left|right].
      apply IsValidIndex_true. rewrite length_app. lia.
    + destruct (Hold _ _ f Hr) as [?|?]; [by left|right].
      apply IsValidIndex_true. rewrite length_app. lia.
  - intros i j ri rj f g Hi Hj Hne _ _ Hnone.
    destruct (TArray_Insert_lookup _ _ _ _ _ HK Hi) as [[-> ->]|[[Hik Hri]|[Hik Hri]]];
    destruct (TArray_Insert_lookup _ _ _ _ _ HK Hj) as [[-> ->]|[[Hjk Hrj]|[Hjk Hrj]]].
    + destruct f, g; try done.
      * by apply Hxd.
      * intros Heq. destruct (Hx FieldDefaultPayload) as [Hn|Hn].
        -- rewrite Hn in Heq. done.
        -- apply Hxd; [|done]. unfold INDEX_NONE. lia.
    + destruct (Hx f) as [?|?]; [done|].
      destruct (Hold _ _ g Hrj) as [Hn|?]; [rewrite Hn; done|lia].
    + destruct (Hx f) as [?|?]; [done|].
      destruct (Hold _ _ g Hrj) as [Hn|?]; [rewrite Hn; done|lia].
    + destruct (Hold _ _ f Hri) as [?|?]; [done|].
      destruct (Hx g) as [Hn|?]; [rewrite Hn; done|lia].
    + eapply Hdist; eauto; intros [=]; apply Hne; by f_equal.
    + eapply Hdist; eauto; intros [=]; lia.
    + destruct (Hold _ _ f Hri) as [?|?]; [done|].
      destruct (Hx g) as [Hn|?]; [rewrite Hn; done|lia].
    + eapply Hdist; eauto; intros [=]; lia.
    + eapply Hdist; eauto; intros [=]; apply Hne; f_equal; [lia|done].
  - intros k item Hk. apply lookup_app_Some in Hk as [Hk|[_ Hk]]; eauto.
Qed.

Lemma GetRecordPtr_None s Id :
  derived_ok s →
  GetRecordPtr s Id = None ↔ Id ∉ GetPrimaryAssetId <$> DataContainer s.
Proof.
  intros Hd. split.
  - intros Hnone Hin. apply list_elem_of_fmap in Hin as (r & -> & Hr).
    assert (GetRecordPtr s (GetPrimaryAssetId r) = Some r) as Hsome
      by by apply GetRecordPtr_Some.
    congruence.
  - intros Hnin. destruct (GetRecordPtr s Id) as [r|] eqn:Hr; [|done].
    apply GetRecordPtr_Some in Hr as [Hin <-]; [|done].
    exfalso. apply Hnin. apply list_elem_of_fmap. eauto.
Qed.

(** The records after [FixupDependencies], looked up by id. *)
Lemma FixupDependencies_by_id b s s' :
  FixupDependencies b s = Some s' →
  (∀ r, r ∈ DataContainer s →
     ∃ r', GetRecordPtr s' (GetPrimaryAssetId r) = Some r' ∧
           SharedData r' = SharedData r ∧ AssetPath r' = AssetPath r ∧
           RecordChecksum r' = RecordChecksum r ∧
           ∀ f, FieldContent s' r' f =
                ReadView (CustomDataContainer s)
                  (RefreshViewData (CustomDataContainer s) (GetIndex f r))) ∧
  (∀ Id, Id ∉ GetPrimaryAssetId <$> DataContainer s → GetRecordPtr s' Id = None).
Proof.
  intros Hf.
  pose proof (FixupDependencies_spec _ _ _ Hf) as (HDC & HC & _ & _ & _ & Hd).
  split.
  - intros r Hr. apply list_elem_of_lookup in Hr as [i Hi].
    exists (RefreshRecord (CustomDataContainer s) i r). split_and!; try done.
    + apply GetRecordPtr_Some; [done|]. split; [|done].
      apply (list_elem_of_lookup_2 _ i).
      by rewrite (FixupDependencies_lookup _ _ _ _ Hf), Hi.
    + intros f. unfold FieldContent. by rewrite RefreshRecord_GetView, HC.
  - intros Id Hnin. apply GetRecordPtr_None; [done|].
    by rewrite (FixupDependencies_ids _ _ _ Hf).
Qed.

Lemma ReadView_Refresh_app C C' i :
  i = INDEX_NONE ∨ IsValidIndex C i = true →
  ReadView (C ++ C') (RefreshViewData (C ++ C') i) = ReadView C (RefreshViewData C i).
Proof.
  intros Hi. rewrite (RefreshViewData_app _ _ _ Hi). unfold RefreshViewData.
  destruct Hi as [->|Hv].
  - by rewrite IsValidIndex_NONE.
  - rewrite Hv. simpl. apply IsValidIndex_true in Hv.
    by rewrite lookup_app_l by lia.
Qed.

(** The cached group checksums after the group of one type has been
    invalidated and [FixupDependencies] has migrated the rest. *)
Lemma invalidated_group_checksums s0 s s' t0 :
  derived_ok s0 →
  Archetypes s =
    match FindBy_GroupType (Archetypes s0) t0 with
    | Some (i, _) => alter (SetGroupChecksum 0) i (Archetypes s0)
    | None => Archetypes s0
    end →
  FixupDependencies true s = Some s' →
  (∀ t, t ≠ t0 → t ∈ GetPrimaryAssetType <$> DataContainer s ↔
                 t ∈ GetPrimaryAssetType <$> DataContainer s0) →
  (∀ t, t ≠ t0 → GroupChecksumOf s' t = GroupChecksumOf s0 t) ∧
  GroupChecksumOf s' t0 =
    (if bool_decide (t0 ∈ GetPrimaryAssetType <$> DataContainer s)
     then Some 0 else None).
Proof.
  intros Hd HA Hf Htypes. split.
  - intros t Hne. rewrite (FixupDependencies_GroupChecksumOf _ _ _ Hf).
    pose proof (derived_ok_group_types s0 t Hd) as Hgt.
    unfold GroupChecksumOf. unfold FindArchetypeGroup in *.
    assert ((λ p, GroupChecksum p.2) <$> FindBy_GroupType (Archetypes s) t =
            (λ p : nat * FArchetypeGroup, GroupChecksum p.2)
              <$> FindBy_GroupType (Archetypes s0) t) as Hsame.
    { rewrite HA. destruct (FindBy_GroupType (Archetypes s0) t0) as [[i g]|] eqn:E;
        [|done]. by eapply FindBy_GroupType_alter_other. }
    case_bool_decide as Hin.
    + apply Htypes in Hin; [|done]. apply Hgt in Hin as [[j g'] Hj].
      rewrite Hj in Hsame |- *. simpl in *.
      destruct (FindBy_GroupType (Archetypes s) t) as [[? ?]|]; simpl in *;
        congruence.
    + rewrite Htypes in Hin by done.
      destruct (FindBy_GroupType (Archetypes s0) t) as [p|] eqn:E; [|done].
      exfalso. apply Hin, Hgt. eauto.
  - rewrite (FixupDependencies_GroupChecksumOf _ _ _ Hf).
    case_bool_decide; [|done]. rewrite HA.
    destruct (FindBy_GroupType (Archetypes s0) t0) as [[i g]|] eqn:E.
    + pose proof (FindBy_GroupType_alter_same _ _ _ _ E) as Hz.
      destruct (FindBy_GroupType (alter _ i _) t0) as [[? ?]|]; simpl in *;
        congruence.
    + by rewrite E.
Qed.

(** The insert branch in a well-formed state: the call passes its checks
    and the state stays well formed; every other record keeps its data and
    its cached checksum, every other group its cached checksum. *)
Lemma AppendData_insert_spec InRecord s :
  state_wf s →
  DataMap s !! GetPrimaryAssetId InRecord = None →
  ∃ s',
    AppendData InRecord s = Some (true, s') ∧
    state_wf s' ∧
    GetPrimaryAssetId <$> DataContainer s' =
      TArray_Insert (GetPrimaryAssetId <$> DataContainer s)
        (GetPrimaryAssetId InRecord) (LowerBound (DataContainer s) InRecord) ∧
    (∀ Id, Id ≠ GetPrimaryAssetId InRecord →
       ContentOf s' Id = ContentOf s Id ∧
       RecordChecksumOf s' Id = RecordChecksumOf s Id) ∧
    ContentOf s' (GetPrimaryAssetId InRecord) =
      Some (SharedData InRecord, AssetPath InRecord,
            ReadView (CustomDataContainer s) (DefaultPayload InRecord),
            ReadView (CustomDataContainer s) (CustomData InRecord)) ∧
    RecordChecksumOf s' (GetPrimaryAssetId InRecord) = Some 0 ∧
    GroupChecksumOf s' (GetPrimaryAssetType InRecord) = Some 0 ∧
    (∀ t, t ≠ GetPrimaryAssetType InRecord →
       GroupChecksumOf s' t = GroupChecksumOf s t) ∧
    Checksum s' = 0.
Proof.
  intros [Hsorted Hb Hv Hd] HIdx.
  destruct (AppendData_inserted_shape InRecord s)
    as (x & C' & HDC & HCC & HxS & HxP & HxK & HC' & Hxr & Hxd & Hxread & HA & HDM).
  set (s5 := AppendData_inserted InRecord s) in *.
  pose proof (LowerBound_le (DataContainer s) InRecord) as HK.
  set (K := LowerBound (DataContainer s) InRecord) in *.
  assert (GetPrimaryAssetId x = GetPrimaryAssetId InRecord) as Hxid.
  { unfold GetPrimaryAssetId. by rewrite HxS. }
  assert (GetPrimaryAssetId InRecord ∉ GetPrimaryAssetId <$> DataContainer s) as Hnin.
  { intros Hin. apply list_elem_of_fmap in Hin as (r & Hid & Hr).
    apply list_elem_of_lookup in Hr as [i Hi].
    rewrite Hid, (derived_ok_lookup_id _ _ _ Hd Hi) in HIdx. done. }
  assert (GetPrimaryAssetId <$> DataContainer s5 =
          TArray_Insert (GetPrimaryAssetId <$> DataContainer s)
            (GetPrimaryAssetId InRecord) K) as Hids5.
  { by rewrite HDC, TArray_Insert_fmap, Hxid. }
  assert (ids_sorted (DataContainer s5)) as Hsorted5.
  { eapply ids_sorted_same_ids; [|apply (ids_sorted_insert _ InRecord Hsorted Hnin)].
    fold K. by rewrite Hids5, TArray_Insert_fmap. }
  assert (blobs_ok (DataContainer s5) (CustomDataContainer s5)) as Hb5.
  { rewrite HDC, HCC. by apply blobs_ok_insert. }
  destruct (FixupDependencies_total true s5 Hsorted5) as [s' Hf].
  pose proof (FixupDependencies_by_id _ _ _ Hf) as [Hin Hout].
  pose proof (FixupDependencies_spec _ _ _ Hf) as (_ & _ & _ & Hsum & _ & Hd').
  assert (x ∈ DataContainer s5) as Hx5.
  { rewrite HDC. apply TArray_Insert_elem_of. by left. }
  destruct (Hin x Hx5) as (x' & Hx' & Hx'S & Hx'P & Hx'K & Hx'f).
  rewrite Hxid in Hx'.
  assert (∀ t, t ≠ GetPrimaryAssetType InRecord →
            t ∈ GetPrimaryAssetType <$> DataContainer s5 ↔
            t ∈ GetPrimaryAssetType <$> DataContainer s) as Htypes.
  { intros t Hne. rewrite HDC, TArray_Insert_fmap, TArray_Insert_elem_of.
    unfold GetPrimaryAssetType at 1. rewrite Hxid. naive_solver. }
  destruct (invalidated_group_checksums s s5 s' _ Hd HA Hf Htypes) as [Hother Hown].
  exists s'. split_and!.
  - unfold AppendData. rewrite (proj2 (ContainsRecord_false _ _)) by done.
    fold (AppendData_inserted InRecord s). fold s5. by rewrite Hf.
  - by eapply FixupDependencies_wf.
  - by rewrite (FixupDependencies_ids _ _ _ Hf).
  - intros Id Hne. unfold ContentOf, RecordChecksumOf.
    destruct (GetRecordPtr s Id) as [r|] eqn:Hr.
    + apply GetRecordPtr_Some in Hr as [Hr Hid]; [|done].
      assert (r ∈ DataContainer s5) as Hr5.
      { rewrite HDC. apply TArray_Insert_elem_of. by right. }
      destruct (Hin r Hr5) as (r' & Hr' & Hr'S & Hr'P & Hr'K & Hr'f).
      rewrite Hid in Hr'. rewrite Hr'. simpl. split; [|congruence].
      f_equal. unfold RecordContent. rewrite Hr'S, Hr'P, !Hr'f. rewrite HCC.
      apply list_elem_of_lookup in Hr as [i Hi].
      rewrite !ReadView_Refresh_app.
      * unfold FieldContent.
        by rewrite (Hv _ _ FieldDefaultPayload Hi), (Hv _ _ FieldCustomData Hi)
          by (intros []).
      * eapply (blob_range _ _ _ Hb); [done|intros []].
      * eapply (blob_range _ _ _ Hb); [done|intros []].
    + rewrite Hout; [done|]. rewrite Hids5.
      rewrite TArray_Insert_elem_of. intros [?|Hin']; [done|].
      apply (GetRecordPtr_None _ _ Hd) in Hr. done.
  - unfold ContentOf. rewrite Hx'. simpl. f_equal.
    unfold RecordContent. rewrite Hx'S, Hx'P, !Hx'f, HxS, HxP, HCC, !Hxread. done.
  - unfold RecordChecksumOf. rewrite Hx'. simpl. congruence.
  - rewrite Hown. rewrite bool_decide_eq_true_2; [done|].
    apply list_elem_of_fmap. exists x. split; [|done].
    unfold GetPrimaryAssetType. by rewrite Hxid.
  - done.
  - done.
Qed.

(* ===================================================================== *)
(** ** Reset                                                              *)
(* ===================================================================== *)

(** [CollectCustomData] hands out fresh, increasing positions. *)
Lemma CollectCustomData_spec C f acc rs c rs' :
  CollectCustomData C f acc rs = (c, rs') →
  (length acc ≤ length c)%nat ∧
  Forall2 (λ r r', ∃ k, r' = SetIndex f k r ∧
             (k = INDEX_NONE ∨
              Z.of_nat (length acc) ≤ k < Z.of_nat (length c))) rs rs' ∧
  (∀ i j ri rj, rs' !! i = Some ri → rs' !! j = Some rj → i ≠ j →
     GetIndex f ri ≠ INDEX_NONE → GetIndex f ri ≠ GetIndex f rj).
Proof.
  revert acc c rs'. induction rs as [|r rs IH]; intros acc c rs'; simpl.
  - intros ?; simplify_eq. split_and!; [done|constructor|done].
  - destruct (ReadView C (GetView f r)) as [item|].
    + destruct (CollectCustomData C f (acc ++ [item]) rs) as [c0 rs0] eqn:Hrec.
      intros ?; simplify_eq.
      destruct (IH _ _ _ Hrec) as (Hlen & HF & Hdist).
      rewrite length_app in Hlen. simpl in Hlen.
      assert (∀ j rj, rs0 !! j = Some rj →
                GetIndex f rj = INDEX_NONE ∨
                Z.of_nat (length acc) < GetIndex f rj) as Htail.
      { intros j rj Hj. destruct (Forall2_lookup_r _ _ _ _ _ HF Hj)
          as (r0 & _ & k & -> & Hk).
        rewrite GetIndex_SetIndex, decide_True by done.
        rewrite length_app in Hk. simpl in Hk. lia. }
      split_and!; [lia| |].
      * constructor.
        -- eexists. split; [done|]. right. lia.
        -- eapply Forall2_impl; [exact HF|]. intros r1 r2 (k & -> & Hk).
           exists k. split; [done|]. rewrite length_app in Hk. simpl in Hk. lia.
      * intros [|i] [|j] ri rj Hi Hj Hne Hnone; simpl in Hi, Hj; simplify_eq.
        -- rewrite GetIndex_SetIndex, decide_True by done.
           destruct (Htail _ _ Hj) as [->|?]; [unfold INDEX_NONE|]; lia.
        -- rewrite (GetIndex_SetIndex f f), decide_True by done.
           destruct (Htail _ _ Hi) as [?|?]; [done|lia].
        -- eapply Hdist; eauto.
    + destruct (CollectCustomData C f acc rs) as [c0 rs0] eqn:Hrec.
      intros ?; simplify_eq.
      destruct (IH _ _ _ Hrec) as (Hlen & HF & Hdist).
      split_and!; [done| |].
      * constructor; [|done]. eexists. split; [done|]. by left.
      * intros [|i] [|j] ri rj Hi Hj Hne Hnone; simpl in Hi, Hj; simplify_eq.
        -- rewrite GetIndex_SetIndex, decide_True in Hnone by done. done.
        -- rewrite (GetIndex_SetIndex f f), decide_True by done. done.
        -- eapply Hdist; eauto.
Qed.

(** A state that comes out of [Reset] is well formed. *)
Lemma Reset_wf InRegistryData s s' :
  Reset InRegistryData s = Some s' → state_wf s'.
Proof.
  unfold Reset.
  destruct (CollectCustomData _ FieldDefaultPayload _ _) as [c1 rs1] eqn:H1.
  destruct (CollectCustomData _ FieldCustomData _ _) as [c2 rs2] eqn:H2.
  intros Hf. eapply FixupDependencies_wf; [|exact Hf]. simpl.
  destruct (CollectCustomData_spec _ _ _ _ _ _ H1) as (_ & HF1 & Hd1).
  destruct (CollectCustomData_spec _ _ _ _ _ _ H2) as (Hlen & HF2 & Hd2).
  simpl in HF1.
  assert (∀ i r, (InvalidateChecksum <$> rs2) !! i = Some r →
            ∃ r1 r2, rs1 !! i = Some r1 ∧ rs2 !! i = Some r2 ∧
              GetIndex FieldDefaultPayload r = GetIndex FieldDefaultPayload r1 ∧
              GetIndex FieldCustomData r = GetIndex FieldCustomData r2 ∧
              (GetIndex FieldDefaultPayload r1 = INDEX_NONE ∨
               0 ≤ GetIndex FieldDefaultPayload r1 < Z.of_nat (length c1)) ∧
              (GetIndex FieldCustomData r2 = INDEX_NONE ∨
               Z.of_nat (length c1) ≤ GetIndex FieldCustomData r2
                 < Z.of_nat (length c2))) as Hlook.
  { intros i r Hi. rewrite list_lookup_fmap in Hi.
    destruct (rs2 !! i) as [r2|] eqn:Hr2; simpl in Hi; [|done]. simplify_eq.
    destruct (Forall2_lookup_r _ _ _ _ _ HF2 Hr2) as (r1 & Hr1 & k2 & -> & Hk2).
    destruct (Forall2_lookup_r _ _ _ _ _ HF1 Hr1) as (r0 & Hr0 & k1 & -> & Hk1).
    exists (SetIndex FieldDefaultPayload k1 r0),
           (SetIndex FieldCustomData k2 (SetIndex FieldDefaultPayload k1 r0)).
    split_and!; try done. }
  split.
  - intros i r f Hi _. destruct (Hlook _ _ Hi) as (r1 & r2 & _ & _ & Hd & Hc & Hrd & Hrc).
    destruct f.
    + rewrite Hd. destruct Hrd as [?|?]; [by left|right].
      apply IsValidIndex_true. rewrite length_fmap. lia.
    + rewrite Hc. destruct Hrc as [?|?]; [by left|right].
      apply IsValidIndex_true. rewrite length_fmap. lia.
  - intros i j ri rj f g Hi Hj Hne _ _ Hnone.
    destruct (Hlook _ _ Hi) as (ri1 & ri2 & Hi1 & Hi2 & Hid & Hic & Hird & Hirc).
    destruct (Hlook _ _ Hj) as (rj1 & rj2 & Hj1 & Hj2 & Hjd & Hjc & Hjrd & Hjrc).
    assert (i ≠ j ∨ f ≠ g) as Hij.
    { destruct (decide (i = j)) as [->|]; [right|by left]. intros ->. done. }
    destruct f, g.
    + rewrite Hid, Hjd in *. eapply Hd1; eauto. by destruct Hij.
    + rewrite Hid, Hjc in *. unfold INDEX_NONE in *. lia.
    + rewrite Hic, Hjd in *. unfold INDEX_NONE in *. lia.
    + rewrite Hic, Hjc in *. eapply Hd2; eauto. by destruct Hij.
  - intros k item Hk. rewrite list_lookup_fmap in Hk.
    destruct (c2 !! k); simpl in Hk; simplify_eq. eauto.
Qed.

(* ===================================================================== *)
(** ** RemoveData                                                         *)
(* ===================================================================== *)

(** Removing the payload [f] of the record at [Idx] leaves that slot stale
    and every other slot reading what it read. *)
Lemma RemovePayload_spec (ex : nat → EPayloadField → Prop) Idx f s s1 :
  blobs_ok_ex ex (DataContainer s) (CustomDataContainer s) →
  views_ok_ex ex (DataContainer s) (CustomDataContainer s) →
  ¬ ex Idx f →
  RemovePayload Idx f s = Some s1 →
  let ex' := λ i g, ex i g ∨ one_slot Idx f i g in
  blobs_ok_ex ex' (DataContainer s1) (CustomDataContainer s1) ∧
  views_ok_ex ex' (DataContainer s1) (CustomDataContainer s1) ∧
  Forall2 same_meta (DataContainer s) (DataContainer s1) ∧
  same_secondary s s1 ∧
  (∀ i r r' g, DataContainer s !! i = Some r → DataContainer s1 !! i = Some r' →
     ¬ ex' i g →
     ReadView (CustomDataContainer s1) (GetView g r') =
       ReadView (CustomDataContainer s) (GetView g r)).
Proof.
  intros Hb Hv Hnex. unfold RemovePayload.
  destruct (DataContainer s !! Idx) as [r|] eqn:Hr; [|done].
  assert (∀ i g, ex i g → ex i g ∨ one_slot Idx f i g) as Hweak by (intros; by left).
  destruct (View_IsValid _ _) eqn:Hvalid.
  - case_bool_decide as Hnone; [done|]. intros Hrm. simpl.
    destruct (FieldContent_index _ _ _ _ _ f Hb Hv Hr Hnex)
      as [[? _]|(Hk & _ & _)]; [done|].
    pose proof (blobs_ok_ex_weaken _ _ _ _ Hweak Hb) as Hb'.
    pose proof (views_ok_ex_weaken _ _ _ _ Hweak Hv) as Hv'.
    destruct (RemoveCustomData_blobs _ _ _ _ Hrm Hk Hb' Hv')
      as (_ & Hb1 & Hv1 & Hread & _).
    { intros i r0 g Hi Hn Heq. apply Decidable.not_or in Hn as [Hn1 Hn2].
      refine (blob_distinct _ _ _ Hb Idx i r r0 f g Hr Hi _ Hnex Hn1 Hnone _);
        [|done].
      intros [=]. apply Hn2. by split. }
    destruct (RemoveCustomData_struct _ _ _ Hrm) as [HF Hsec].
    split_and!; try done.
    intros i r0 r0' g Hi Hi' Hn. by destruct (Hread _ _ _ g Hi Hi' Hn).
  - intros ?; simplify_eq. simpl. split_and!.
    + by eapply blobs_ok_ex_weaken.
    + by eapply views_ok_ex_weaken.
    + apply Forall2_same_meta_refl.
    + apply same_secondary_refl.
    + intros i r0 r0' g Hi Hi' _. congruence.
Qed.

Lemma blobs_ok_ex_delete (ex : nat → EPayloadField → Prop) Idx DC C :
  (∀ i f, ex i f → i = Idx) →
  blobs_ok_ex ex DC C → blobs_ok (delete Idx DC) C.
Proof.
  intros Hex [Hrange Hdist Hvalid].
  assert (∀ i r, delete Idx DC !! i = Some r →
            ∃ j, DC !! j = Some r ∧ j ≠ Idx ∧
                 j = if decide (i < Idx)%nat then i else S i) as Hlook.
  { intros i r Hi. destruct (decide (i < Idx)%nat).
    - rewrite list_lookup_delete_lt in Hi by done. exists i. split_and!; [done|lia|done].
    - rewrite list_lookup_delete_ge in Hi by lia. exists (S i).
      split_and!; [done|lia|done]. }
  split; [| |done].
  - intros i r f Hi _. destruct (Hlook _ _ Hi) as (j & Hj & Hne & _).
    eapply Hrange; [done|]. intros H. by apply Hex in H.
  - intros i j ri rj f g Hi Hj Hne _ _ Hnone.
    destruct (Hlook _ _ Hi) as (i' & Hi' & Hnei & Hi'').
    destruct (Hlook _ _ Hj) as (j' & Hj' & Hnej & Hj'').
    eapply Hdist; [exact Hi'|exact Hj'| | | |done].
    + intros [=]. apply Hne. f_equal; [|done].
      repeat case_decide; lia.
    + intros H. by apply Hex in H.
    + intros H. by apply Hex in H.
Qed.

Lemma elem_of_delete_ids (l : list FCommonInventoryRegistryRecord) Idx r x :
  ids_sorted l → l !! Idx = Some r →
  x ∈ delete Idx l ↔ x ∈ l ∧ GetPrimaryAssetId x ≠ GetPrimaryAssetId r.
Proof.
  intros Hs Hr. split.
  - intros Hx. apply list_elem_of_lookup in Hx as [i Hi].
    destruct (decide (i < Idx)%nat).
    + rewrite list_lookup_delete_lt in Hi by done. split.
      * by eapply list_elem_of_lookup_2.
      * intros Heq. pose proof (ids_sorted_inj _ _ _ _ _ Hs Hi Hr Heq). lia.
    + rewrite list_lookup_delete_ge in Hi by lia. split.
      * by eapply list_elem_of_lookup_2.
      * intros Heq. pose proof (ids_sorted_inj _ _ _ _ _ Hs Hi Hr Heq). lia.
  - intros [Hx Hne]. apply list_elem_of_lookup in Hx as [i Hi].
    destruct (decide (i = Idx)) as [->|Hni]; [congruence|].
    destruct (decide (i < Idx)%nat).
    + apply (list_elem_of_lookup_2 _ i). by rewrite list_lookup_delete_lt.
    + apply (list_elem_of_lookup_2 _ (i - 1)%nat).
      rewrite list_lookup_delete_ge by lia. by replace (S (i - 1)) with i by lia.
Qed.

(** A removal that passes its checks, in a well-formed state: the state
    stays well formed, the record is gone, every other record keeps its
    data and its cached checksum, every other group its cached checksum. *)
Lemma RemoveData_spec Id s s' :
  state_wf s →
  RemoveData Id s = Some (true, s') →
  ∃ r,
    GetRecordPtr s Id = Some r ∧
    state_wf s' ∧
    (∀ x, x ∈ GetPrimaryAssetId <$> DataContainer s' ↔
          x ∈ GetPrimaryAssetId <$> DataContainer s ∧ x ≠ Id) ∧
    GetRecordPtr s' Id = None ∧
    (∀ Id', Id' ≠ Id →
       ContentOf s' Id' = ContentOf s Id' ∧
       RecordChecksumOf s' Id' = RecordChecksumOf s Id') ∧
    (GroupChecksumOf s' (GetPrimaryAssetType r) = Some 0 ∨
     GroupChecksumOf s' (GetPrimaryAssetType r) = None) ∧
    (∀ t, t ≠ GetPrimaryAssetType r → GroupChecksumOf s' t = GroupChecksumOf s t) ∧
    Checksum s' = 0.
Proof.
  intros [Hsorted Hb Hv Hd]. unfold RemoveData.
  destruct (DataMap s !! Id) as [Idx|] eqn:HIdx; [|done].
  destruct (derived_ok_DataMap_lookup _ _ _ Hd HIdx) as (r & Hr & Hid).
  rewrite Hr.
  destruct (RemovePayload Idx FieldDefaultPayload s) as [s1|] eqn:H1; [|done].
  destruct (RemovePayload Idx FieldCustomData s1) as [s2|] eqn:H2; [|done].
  destruct (InvalidateArchetypeChecksum _ s2) as [s3|] eqn:H3; [|done].
  destruct (RemovePayload_spec no_slot _ _ _ _ Hb Hv (λ H, H) H1)
    as (Hb1 & Hv1 & HF1 & Hsec1 & Hread1).
  assert (¬ (no_slot Idx FieldCustomData ∨
             one_slot Idx FieldDefaultPayload Idx FieldCustomData)) as Hn1.
  { intros [[]|[_ ?]]. done. }
  destruct (RemovePayload_spec _ _ _ _ _ Hb1 Hv1 Hn1 H2)
    as (Hb2 & Hv2 & HF2 & Hsec2 & Hread2).
  apply InvalidateArchetypeChecksum_spec in H3 as (gi & g & Hgi & ->). simpl.
  pose proof (same_secondary_trans _ _ _ Hsec1 Hsec2) as (HA2 & HDM2 & _).
  pose proof (Forall2_same_meta_trans _ _ _ HF1 HF2) as HF.
  rewrite HDM2, Hid, HIdx.
  case_bool_decide as Hlt; [|done].
  destruct (FixupDependencies true _) as [s4|] eqn:Hf; [|done].
  intros ?; simplify_eq.
  set (s3 := SetDataContainer (delete Idx (DataContainer s2))
               (SetArchetypes (alter (SetGroupChecksum 0) gi (Archetypes s2)) s2))
    in *.
  set (ex2 := λ i g, (no_slot i g ∨ one_slot Idx FieldDefaultPayload i g)
                     ∨ one_slot Idx FieldCustomData i g) in *.
  assert (∀ i f, ex2 i f → i = Idx) as Hex2.
  { intros i f [[[]|[? _]]|[? _]]; done. }
  assert (∀ i f, i ≠ Idx → ¬ ex2 i f) as Hnex2.
  { intros i f Hne H. by apply Hex2 in H. }
  assert (blobs_ok (DataContainer s3) (CustomDataContainer s3)) as Hb3.
  { unfold s3. simpl. by eapply blobs_ok_ex_delete. }
  pose proof (FixupDependencies_by_id _ _ _ Hf) as [Hin Hout].
  pose proof (FixupDependencies_spec _ _ _ Hf) as (_ & _ & _ & Hsum & _ & Hd').
  pose proof (Forall2_same_meta_ids _ _ HF) as Hids2.
  assert (ids_sorted (DataContainer s2)) as Hsorted2.
  { eapply ids_sorted_same_ids; [symmetry; exact Hids2|done]. }
  destruct (Forall2_lookup_l _ _ _ _ _ HF Hr) as (r2 & Hr2 & Hm2).
  assert (GetPrimaryAssetId r2 = GetPrimaryAssetId r) as Hid2.
  { unfold GetPrimaryAssetId. by destruct Hm2 as (-> & _). }
  assert (∀ x, x ∈ GetPrimaryAssetId <$> DataContainer s3 ↔
               x ∈ GetPrimaryAssetId <$> DataContainer s ∧ x ≠ GetPrimaryAssetId r)
    as Hids3.
  { intros x. unfold s3. simpl. rewrite <- Hids2, !list_elem_of_fmap. split.
    - intros (y & -> & Hy).
      apply (elem_of_delete_ids _ _ _ _ Hsorted2 Hr2) in Hy as [Hy Hne].
      split; [eauto|congruence].
    - intros [(y & -> & Hy) Hne]. exists y. split; [done|].
      apply (elem_of_delete_ids _ _ _ _ Hsorted2 Hr2). split; [done|congruence]. }
  assert (∀ t, t ≠ GetPrimaryAssetType r →
            t ∈ GetPrimaryAssetType <$> DataContainer s3 ↔
            t ∈ GetPrimaryAssetType <$> DataContainer s) as Htypes.
  { intros t Hne. unfold s3. simpl. rewrite !list_elem_of_fmap. split.
    - intros (y & -> & Hy).
      apply (elem_of_delete_ids _ _ _ _ Hsorted2 Hr2) in Hy as [Hy _].
      apply list_elem_of_lookup in Hy as [i Hi].
      destruct (Forall2_lookup_r _ _ _ _ _ HF Hi) as (y0 & Hy0 & Hm).
      exists y0. split; [|by eapply list_elem_of_lookup_2].
      unfold GetPrimaryAssetType, GetPrimaryAssetId. by destruct Hm as (-> & _).
    - intros (y0 & -> & Hy0). apply list_elem_of_lookup in Hy0 as [i Hi].
      destruct (Forall2_lookup_l _ _ _ _ _ HF Hi) as (y & Hy & Hm).
      exists y. split.
      + unfold GetPrimaryAssetType, GetPrimaryAssetId. by destruct Hm as (-> & _).
      + apply (elem_of_delete_ids _ _ _ _ Hsorted2 Hr2). split.
        * by eapply list_elem_of_lookup_2.
        * intros Heq. apply Hne. unfold GetPrimaryAssetType.
          rewrite <- Hid2, <- Heq. unfold GetPrimaryAssetId.
          by destruct Hm as (-> & _). }
  assert (Archetypes s3 =
          match FindBy_GroupType (Archetypes s) (GetPrimaryAssetType r) with
          | Some (i, _) => alter (SetGroupChecksum 0) i (Archetypes s)
          | None => Archetypes s
          end) as HA3.
  { unfold s3. simpl. rewrite HA2 in Hgi |- *. by rewrite Hgi. }
  destruct (invalidated_group_checksums s s3 s' _ Hd HA3 Hf Htypes) as [Hother Hown].
  exists r. split_and!.
  - unfold GetRecordPtr. by rewrite HIdx.
  - by eapply FixupDependencies_wf.
  - intros x. by rewrite (FixupDependencies_ids _ _ _ Hf), Hids3.
  - apply Hout. rewrite Hids3. naive_solver.
  - intros Id' Hne. unfold ContentOf, RecordChecksumOf.
    destruct (GetRecordPtr s Id') as [y0|] eqn:Hy0.
    + apply GetRecordPtr_Some in Hy0 as [Hy0 Hidy]; [|done].
      apply list_elem_of_lookup in Hy0 as [i Hi].
      destruct (Forall2_lookup_l _ _ _ _ _ HF1 Hi) as (y1 & Hy1 & Hm1).
      destruct (Forall2_lookup_l _ _ _ _ _ HF2 Hy1) as (y & Hy & Hm).
      assert (i ≠ Idx) as Hni by (intros ->; simplify_eq; done).
      assert (GetPrimaryAssetId y = Id') as Hidy2.
      { rewrite <- Hidy. unfold GetPrimaryAssetId.
        destruct Hm1 as (E1 & _), Hm as (E2 & _). by rewrite E2, E1. }
      assert (y ∈ DataContainer s3) as Hy3.
      { unfold s3. simpl. apply (elem_of_delete_ids _ _ _ _ Hsorted2 Hr2). split.
        - by eapply list_elem_of_lookup_2.
        - rewrite Hidy2, Hid2. done. }
      destruct (Hin y Hy3) as (y' & Hy' & Hy'S & Hy'P & Hy'K & Hy'f).
      rewrite Hidy2 in Hy'. rewrite Hy'. simpl.
      destruct Hm1 as (HS1 & HP1 & _ & HK1), Hm as (HS2 & HP2 & _ & HK2).
      split; [|congruence]. f_equal. unfold RecordContent.
      rewrite Hy'S, Hy'P, !Hy'f, HS2, HS1, HP2, HP1.
      assert (∀ f, ReadView (CustomDataContainer s3)
                     (RefreshViewData (CustomDataContainer s3) (GetIndex f y)) =
                   FieldContent s y0 f) as Hcontent.
      { intros f. unfold s3. simpl.
        rewrite <- (Hv2 _ _ f Hy) by (by apply Hnex2).
        rewrite (Hread2 _ _ _ f Hy1 Hy) by (by apply Hnex2).
        rewrite (Hread1 _ _ _ f Hi Hy1); [done|].
        intros [[]|[? _]]. done. }
      by rewrite !Hcontent.
    + rewrite Hout; [done|]. rewrite Hids3.
      apply (GetRecordPtr_None _ _ Hd) in Hy0. naive_solver.
  - rewrite Hown. case_bool_decide; eauto.
  - done.
  - done.
Qed.

(* ===================================================================== *)
(** ** Reachable states are well formed                                   *)
(* ===================================================================== *)

Lemma state_wf_EmptyState : state_wf EmptyState.
Proof.
  split.
  - constructor.
  - split; intros; simpl in *; by rewrite ?lookup_nil in *.
  - intros i r f Hi. simpl in Hi. by rewrite lookup_nil in Hi.
  - split; simpl.
    + intros i r Hi. by rewrite lookup_nil in Hi.
    + intros Id i. rewrite lookup_empty. split; [done|].
      intros (r & Hr & _). by rewrite lookup_nil in Hr.
    + intros k i. rewrite lookup_empty. split; [done|]. lia.
    + done.
    + done.
Qed.

Lemma AppendData_wf InRecord s b s' :
  state_wf s → AppendData InRecord s = Some (b, s') → state_wf s'.
Proof.
  intros Hwf Ha.
  destruct (DataMap s !! GetPrimaryAssetId InRecord) as [Idx|] eqn:HIdx.
  - destruct (AppendData_update_spec _ _ _ Hwf HIdx) as (s1 & r0 & Ha1 & Hwf1 & _).
    congruence.
  - destruct (AppendData_insert_spec _ _ Hwf HIdx) as (s1 & Ha1 & Hwf1 & _).
    congruence.
Qed.

Lemma RemoveData_wf Id s b s' :
  state_wf s → RemoveData Id s = Some (b, s') → state_wf s'.
Proof.
  intros Hwf Hr. destruct b.
  - by destruct (RemoveData_spec _ _ _ Hwf Hr) as (r & _ & Hwf' & _).
  - apply RemoveData_inv in Hr as [(_ & -> & _)|(? & _)]; done.
Qed.

Lemma Mutate_wf m s s' : state_wf s → Mutate m s = Some s' → state_wf s'.
Proof.
  intros Hwf. destruct m as [rs|r|Id]; simpl.
  - apply Reset_wf.
  - destruct (AppendData r s) as [[b s1]|] eqn:Ha; [|done]. simpl.
    intros ?; simplify_eq. by eapply AppendData_wf.
  - destruct (RemoveData Id s) as [[b s1]|] eqn:Hr; [|done]. simpl.
    intros ?; simplify_eq. by eapply RemoveData_wf.
Qed.

Lemma MutateAll_wf ms s s' : state_wf s → MutateAll ms s = Some s' → state_wf s'.
Proof.
  revert s. induction ms as [|m ms IH]; intros s Hwf; simpl.
  - intros ?; by simplify_eq.
  - destruct (Mutate m s) as [s1|] eqn:Hm; [|done].
    apply IH. by eapply Mutate_wf.
Qed.

(** Every state that the mutations build from the empty state is well
    formed. *)
Lemma reachable_wf ms s : MutateAll ms EmptyState = Some s → state_wf s.
Proof. apply MutateAll_wf, state_wf_EmptyState. Qed.

(** The update branch, by id. *)
Lemma AppendData_update_by_id InRecord s Idx :
  state_wf s →
  DataMap s !! GetPrimaryAssetId InRecord = Some Idx →
  ∃ s',
    AppendData InRecord s = Some (false, s') ∧
    state_wf s' ∧
    GetPrimaryAssetId <$> DataContainer s' = GetPrimaryAssetId <$> DataContainer s ∧
    (∀ Id, Id ≠ GetPrimaryAssetId InRecord →
       ContentOf s' Id = ContentOf s Id ∧
       RecordChecksumOf s' Id = RecordChecksumOf s Id) ∧
    ContentOf s' (GetPrimaryAssetId InRecord) =
      Some (SharedData InRecord, AssetPath InRecord,
            ReadView (CustomDataContainer s) (DefaultPayload InRecord),
            ReadView (CustomDataContainer s) (CustomData InRecord)) ∧
    RecordChecksumOf s' (GetPrimaryAssetId InRecord) = Some 0 ∧
    GroupChecksumOf s' (GetPrimaryAssetType InRecord) = Some 0 ∧
    (∀ t, t ≠ GetPrimaryAssetType InRecord →
       GroupChecksumOf s' t = GroupChecksumOf s t) ∧
    Checksum s' = 0.
Proof.
  intros Hwf HIdx.
  destruct (AppendData_update_spec _ _ _ Hwf HIdx)
    as (s' & r0 & Ha & Hwf' & Hr0 & Hid0 & Hids & Hothers & (r' & Hr' & Hc' & Hk')
        & (gi & g & Hgi & HA') & Hsum).
  destruct (AppendData_update_secondary _ _ _ _ _ HIdx Ha)
    as (_ & Hlen & _ & HDM & _).
  pose proof (wf_derived _ Hwf) as Hd. pose proof (wf_derived _ Hwf') as Hd'.
  exists s'. split_and!; try done.
  - intros Id Hne. unfold ContentOf, RecordChecksumOf, GetRecordPtr. rewrite HDM.
    destruct (DataMap s !! Id) as [j|] eqn:Hj; [|done].
    destruct (derived_ok_DataMap_lookup _ _ _ Hd Hj) as (rj & Hrj & Hidj).
    destruct (lookup_lt_is_Some_2 (DataContainer s') j) as [rj' Hrj'].
    { rewrite Hlen. by eapply lookup_lt_Some. }
    assert (j ≠ Idx) as Hnj by (intros ->; simplify_eq; congruence).
    destruct (Hothers _ _ _ Hrj Hrj' Hnj) as [Hc Hk].
    rewrite Hrj, Hrj'. simpl. by rewrite Hc, Hk.
  - unfold ContentOf, GetRecordPtr. rewrite HDM, HIdx, Hr'. simpl. by rewrite Hc'.
  - unfold RecordChecksumOf, GetRecordPtr. rewrite HDM, HIdx, Hr'. simpl.
    by rewrite Hk'.
  - unfold GroupChecksumOf, FindArchetypeGroup. rewrite HA'.
    by eapply FindBy_GroupType_alter_same.
  - intros t Hne. unfold GroupChecksumOf, FindArchetypeGroup. rewrite HA'.
    by eapply FindBy_GroupType_alter_other.
Qed.

(* ===================================================================== *)
(** ** The sample state                                                   *)
(* ===================================================================== *)

Lemma Sample_State_reachable :
  MutateAll Sample_Mutations EmptyState = Some Sample_State.
Proof. vm_compute. reflexivity. Qed.

Lemma Sample_State_wf : state_wf Sample_State.
Proof. exact (reachable_wf _ _ Sample_State_reachable). Qed.

(* ===================================================================== *)
(** ** Replication indices, update frame, checksum locality               *)
(* ===================================================================== *)

Lemma replication_index_dense_witness :
  MutateAll Sample_Mutations EmptyState = Some Sample_State ∧
  replication_dense Sample_State.
Proof.
  split; [vm_compute; reflexivity|].
  apply (replication_index_dense Sample_Mutations Sample_State).
  vm_compute; reflexivity.
Defined.

(** C10.  On the update path of [AppendData] (the id is already there, the
    call returns false) the record count, the order of the ids, every
    replication index, the id map and the replication map stay as they
    are, and so do the shared data, asset path and payload values of every
    other record; the matched record takes the shared data, the asset path
    and the payload values of the incoming record. *)
Theorem AppendData_update_frame InRecord s :
  state_wf s →
  ContainsRecord s (GetPrimaryAssetId InRecord) = true →
  ∃ s',
    AppendData InRecord s = Some (false, s') ∧
    GetRecordsNum s' = GetRecordsNum s ∧
    GetPrimaryAssetId <$> DataContainer s' = GetPrimaryAssetId <$> DataContainer s ∧
    ids_sorted (DataContainer s') ∧
    RepIndex <$> DataContainer s' = RepIndex <$> DataContainer s ∧
    DataMap s' = DataMap s ∧
    ReplicationMap s' = ReplicationMap s ∧
    RepIndexEncodingBitsNum s' = RepIndexEncodingBitsNum s ∧
    (∀ i r r', DataContainer s !! i = Some r → DataContainer s' !! i = Some r' →
       GetPrimaryAssetId r ≠ GetPrimaryAssetId InRecord →
       RecordContent s' r' = RecordContent s r) ∧
    (∃ r', GetRecordPtr s' (GetPrimaryAssetId InRecord) = Some r' ∧
       RecordContent s' r' =
         (SharedData InRecord, AssetPath InRecord,
          ReadView (CustomDataContainer s) (DefaultPayload InRecord),
          ReadView (CustomDataContainer s) (CustomData InRecord))).
Proof.
  intros Hwf Hc. apply ContainsRecord_true in Hc as [Idx HIdx].
  destruct (AppendData_update_spec _ _ _ Hwf HIdx)
    as (s' & r0 & Ha & Hwf' & Hr0 & Hid0 & Hids & Hothers & (r' & Hr' & Hc' & _) & _).
  destruct (AppendData_update_secondary _ _ _ _ _ HIdx Ha)
    as (_ & Hlen & HRep & HDM & HRM & HBits).
  exists s'. split_and!; try done.
  - apply (wf_sorted _ Hwf').
  - intros i r r1 Hi Hi' Hne. apply (Hothers _ _ _ Hi Hi').
    intros ->. by simplify_eq.
  - exists r'. split; [|done]. unfold GetRecordPtr. by rewrite HDM, HIdx.
Qed.

Lemma AppendData_update_frame_witness :
  state_wf Sample_State ∧
  ContainsRecord Sample_State (GetPrimaryAssetId Sample_Sword2) = true ∧
  ∃ s',
    AppendData Sample_Sword2 Sample_State = Some (false, s') ∧
    GetRecordsNum s' = GetRecordsNum Sample_State ∧
    DataMap s' = DataMap Sample_State ∧
    ReplicationMap s' = ReplicationMap Sample_State ∧
    ∃ r', GetRecordPtr s' (GetPrimaryAssetId Sample_Sword2) = Some r' ∧
      RecordContent s' r' =
        (SharedData Sample_Sword2, AssetPath Sample_Sword2,
         ReadView (CustomDataContainer Sample_State) (DefaultPayload Sample_Sword2),
         ReadView (CustomDataContainer Sample_State) (CustomData Sample_Sword2)).
Proof.
  assert (state_wf Sample_State) as Hwf
    by exact (reachable_wf _ _ Sample_State_reachable).
  assert (ContainsRecord Sample_State (GetPrimaryAssetId Sample_Sword2) = true)
    as Hc by (vm_compute; reflexivity).
  split; [exact Hwf|]. split; [exact Hc|].
  destruct (AppendData_update_frame Sample_Sword2 Sample_State Hwf Hc)
    as (s' & Ha & Hnum & _ & _ & _ & HDM & HRM & _ & _ & Hown).
  exists s'. split; [exact Ha|]. split; [exact Hnum|]. split; [exact HDM|].
  split; [exact HRM|exact Hown].
Defined.

(** C5.  A change of one record ([AppendData] updating or inserting it,
    [RemoveData] removing it) zeroes the cached checksum of that record, of
    its archetype group and of the state; the cached checksum of every other
    archetype group and of every other record stays as it was. *)
Theorem checksum_invalidation_is_local s :
  state_wf s →
  (∀ InRecord, ∃ b s',
     AppendData InRecord s = Some (b, s') ∧
     Checksum s' = 0 ∧
     RecordChecksumOf s' (GetPrimaryAssetId InRecord) = Some 0 ∧
     GroupChecksumOf s' (GetPrimaryAssetType InRecord) = Some 0 ∧
     (∀ t, t ≠ GetPrimaryAssetType InRecord →
        GroupChecksumOf s' t = GroupChecksumOf s t) ∧
     (∀ Id, Id ≠ GetPrimaryAssetId InRecord →
        RecordChecksumOf s' Id = RecordChecksumOf s Id)) ∧
  (∀ Id s', RemoveData Id s = Some (true, s') →
     ∃ r, GetRecordPtr s Id = Some r ∧
       Checksum s' = 0 ∧
       RecordChecksumOf s' Id = None ∧
       (GroupChecksumOf s' (GetPrimaryAssetType r) = Some 0 ∨
        GroupChecksumOf s' (GetPrimaryAssetType r) = None) ∧
       (∀ t, t ≠ GetPrimaryAssetType r →
          GroupChecksumOf s' t = GroupChecksumOf s t) ∧
       (∀ Id', Id' ≠ Id → RecordChecksumOf s' Id' = RecordChecksumOf s Id')).
Proof.
  intros Hwf. split.
  - intros InRecord.
    destruct (DataMap s !! GetPrimaryAssetId InRecord) as [Idx|] eqn:HIdx.
    + destruct (AppendData_update_by_id _ _ _ Hwf HIdx)
        as (s' & Ha & _ & _ & Hothers & _ & Hown & Hgroup & Hgroups & Hsum).
      exists false, s'. split_and!; try done. intros Id Hne.
      by destruct (Hothers Id Hne).
    + destruct (AppendData_insert_spec _ _ Hwf HIdx)
        as (s' & Ha & _ & _ & Hothers & _ & Hown & Hgroup & Hgroups & Hsum).
      exists true, s'. split_and!; try done. intros Id Hne.
      by destruct (Hothers Id Hne).
  - intros Id s' Hr.
    destruct (RemoveData_spec _ _ _ Hwf Hr)
      as (r & Hptr & _ & _ & Hgone & Hothers & Hgroup & Hgroups & Hsum).
    exists r. split_and!; try done.
    + unfold RecordChecksumOf. by rewrite Hgone.
    + intros Id' Hne. by destruct (Hothers Id' Hne).
Qed.

Lemma checksum_invalidation_is_local_witness :
  state_wf Sample_State ∧
  ∃ b s',
    AppendData Sample_Shield Sample_State = Some (b, s') ∧
    Checksum s' = 0 ∧
    GroupChecksumOf s' "Armor" = Some 0 ∧
    GroupChecksumOf s' "Weapon" = GroupChecksumOf Sample_State "Weapon" ∧
    RecordChecksumOf s' (MkPrimaryAssetId "Weapon" "Bow") =
      RecordChecksumOf Sample_State (MkPrimaryAssetId "Weapon" "Bow").
Proof.
  assert (state_wf Sample_State) as Hwf
    by exact (reachable_wf _ _ Sample_State_reachable).
  split; [exact Hwf|].
  destruct (checksum_invalidation_is_local Sample_State Hwf) as [Happend _].
  destruct (Happend Sample_Shield) as (b & s' & Ha & Hsum & _ & Hown & Hg & Hr).
  exists b, s'. split; [exact Ha|]. split; [exact Hsum|]. split; [exact Hown|].
  split.
  - apply Hg. intros H. discriminate H.
  - apply Hr. intros H. discriminate H.
Defined.

(* ===================================================================== *)
(** ** DiffRecords                                                        *)
(* ===================================================================== *)

Lemma Identical_refl x : Identical x x = true.
Proof.
  unfold Identical. rewrite bool_decide_eq_true_2 by done.
  destruct x as [[t m]|]; [|done]. by apply bool_decide_eq_true_2.
Qed.

Lemma HasIdenticalData_refl C r : HasIdenticalData C r C r = true.
Proof.
  unfold HasIdenticalData. rewrite !bool_decide_eq_true_2 by done. simpl.
  by rewrite !Identical_refl.
Qed.

Lemma PendingRemoveRecords_self bFast s :
  derived_ok s →
  PendingRemoveRecords bFast s s = GetPrimaryAssetId <$> DataContainer s.
Proof.
  intros Hd. unfold PendingRemoveRecords.
  assert (∀ r, r ∈ DataContainer s →
            GetRecordPtr s (GetPrimaryAssetId r) = Some r) as Hptr.
  { intros r Hr. by apply GetRecordPtr_Some. }
  induction (DataContainer s) as [|r l IH]; [done|].
  simpl. rewrite (Hptr r) by apply list_elem_of_here.
  assert ((if bFast then HasIdenticalDataFast r r
           else HasIdenticalData (CustomDataContainer s) r
                  (CustomDataContainer s) r) = true) as ->.
  { destruct bFast; [by apply bool_decide_eq_true_2|apply HasIdenticalData_refl]. }
  simpl. f_equal. apply IH. intros r' Hr'. apply Hptr. by apply list_elem_of_further.
Qed.

Lemma Reset_nil s :
  ∃ s', Reset [] s = Some s' ∧ DataContainer s' = [] ∧
        CustomDataContainer s' = [] ∧ Archetypes s' = [] ∧ Checksum s' = 0.
Proof. eexists. split; [reflexivity|]. by split_and!. Qed.

(** The first half of the diff property holds on the code: diffing a state
    against itself leaves no record. *)
Lemma DiffRecords_self s :
  derived_ok s →
  ∃ s', DiffRecords s s = Some s' ∧ HasRecords s' = false.
Proof.
  intros Hd. unfold DiffRecords. destruct (HasRecords s) eqn:Hhas; simpl.
  - rewrite (bool_decide_eq_false_2 (GetRecordsNum s < GetRecordsNum s)%nat) by lia.
    rewrite PendingRemoveRecords_self by done.
    rewrite bool_decide_eq_true_2 by apply length_fmap.
    destruct (Reset_nil s) as (s' & -> & HDC & HCC & _).
    exists s'. split; [done|]. unfold HasRecords. by rewrite HDC.
  - by exists s.
Qed.

Lemma Diff_Base_reachable :
  MutateAll Diff_Base_Mutations EmptyState = Some Diff_Base.
Proof. vm_compute. reflexivity. Qed.

Lemma Diff_Extended_reachable :
  MutateAll [MutAppendData Sample_Shield] Diff_Base = Some Diff_Extended.
Proof. vm_compute. reflexivity. Qed.

(** Removing the herb from the base state: its default payload is the
    last item of the container and its custom data lies two items before
    it, so the second [RemoveCustomData] shifts the stale default payload
    index of the record itself and indexes the container out of range. *)
Lemma RemoveData_stale_index_fails :
  RemoveData (MkPrimaryAssetId "Food" "Herb") Diff_Base = None.
Proof. vm_compute. reflexivity. Qed.

Lemma Some_pair_inj {A B} (a a' : A) (b b' : B) :
  Some (a, b) = Some (a', b') → b = b'.
Proof. congruence. Qed.

Lemma Diff_Extended_append :
  AppendData Sample_Shield Diff_Base = Some (true, Diff_Extended).
Proof. vm_compute. reflexivity. Qed.

Lemma Sample_Shield_fresh :
  DataMap Diff_Base !! GetPrimaryAssetId Sample_Shield = None.
Proof. vm_compute. reflexivity. Qed.

Lemma DiffRecords_Diff_Extended : DiffRecords Diff_Base Diff_Extended = None.
Proof. vm_compute. reflexivity. Qed.

(** C9.  At the base state [Diff_Base] and [Diff_Extended], which is
    [Diff_Base] plus the one record [Sample_Shield], [DiffRecords] does not
    leave exactly the added record: both states pass every check of the
    mutations that build them, and the diff runs into the range check of
    [RemoveCustomData] while it removes the first identical record. *)
Theorem DiffRecords_added_record_fails :
  state_wf Diff_Base ∧ state_wf Diff_Extended ∧
  AppendData Sample_Shield Diff_Base = Some (true, Diff_Extended) ∧
  (∀ Id, Id ≠ GetPrimaryAssetId Sample_Shield →
     ContentOf Diff_Extended Id = ContentOf Diff_Base Id) ∧
  DiffRecords Diff_Base Diff_Extended = None.
Proof.
  pose proof (reachable_wf _ _ Diff_Base_reachable) as Hwf.
  destruct (AppendData_insert_spec Sample_Shield Diff_Base Hwf Sample_Shield_fresh)
    as (s' & Ha' & Hwf' & _ & Hothers & _).
  pose proof (Some_pair_inj _ _ _ _
                (eq_trans (eq_sym Ha') Diff_Extended_append)) as Hs'.
  rewrite Hs' in *. clear Hs'.
  split; [exact Hwf|]. split; [exact Hwf'|]. split; [exact Ha'|].
  split; [|exact DiffRecords_Diff_Extended].
  intros Id Hne. exact (proj1 (Hothers Id Hne)).
Qed.
(* ===================================================================== *)
(** ** Defaults propagation                                               *)
(* ===================================================================== *)

(** The leaf fields of a memory after a value has been copied over a
    range of it. *)
Lemma lookup_sublist_alter_const (k l : list Z) i n c :
  (i + n ≤ length l)%nat → length k = n →
  sublist_alter (λ _, k) i n l !! c =
  if bool_decide (i ≤ c < i + n)%nat then k !! (c - i)%nat else l !! c.
Proof.
  intros Hl Hk. unfold sublist_alter.
  destruct (decide (c < i)%nat) as [Hlt|Hge].
  - rewrite bool_decide_eq_false_2 by lia.
    rewrite lookup_app_l by (rewrite length_take; lia).
    by rewrite lookup_take_lt by lia.
  - rewrite lookup_app_r by (rewrite length_take; lia).
    rewrite length_take, Nat.min_l by lia.
    case_bool_decide as Hin.
    + by rewrite lookup_app_l by lia.
    + rewrite lookup_app_r by lia. rewrite lookup_drop. f_equal. lia.
Qed.

Lemma sublist_lookup_cells (l k : list Z) i n j :
  sublist_lookup i n l = Some k → (j < n)%nat → k !! j = l !! (i + j)%nat.
Proof.
  intros [-> _]%sublist_lookup_Some' Hj.
  by rewrite lookup_take_lt, lookup_drop by done.
Qed.




Lemma lookup_CopyCompleteValue P Dest Src v c :
  PropertyValue (Some Dest) P = Some v → length Src = Prop_Size P →
  CopyCompleteValue P Dest Src !! c =
  if bool_decide (Prop_Offset P ≤ c < Prop_Offset P + Prop_Size P)%nat
  then Src !! (c - Prop_Offset P)%nat else Dest !! c.
Proof.
  intros [_ Hv]%sublist_lookup_Some' Hs. by apply lookup_sublist_alter_const.
Qed.


Lemma PropertyValue_length Memory P v :
  PropertyValue Memory P = Some v → length v = Prop_Size P.
Proof.
  destruct Memory as [m|]; [|done]. simpl. apply sublist_lookup_length.
Qed.








(* ===================================================================== *)
(** ** The sample engine keeps the laws of the archives                   *)
(* ===================================================================== *)

Lemma bytes_to_pos_to_bytes p : bytes_to_pos (pos_to_bytes p) = Some p.
Proof. induction p as [p IH|p IH|]; simpl; by rewrite ?IH. Qed.

Lemma unframe_count_replicate n k l :
  unframe_count (replicate n Byte.x01 ++ Byte.x00 :: l) k = Some ((k + n)%nat, l).
Proof.
  revert k. induction n as [|n IH]; intros k; simpl.
  - by rewrite Nat.add_0_r.
  - rewrite IH. f_equal. f_equal. lia.
Qed.

Lemma unframe_frame l Rest : unframe (frame l ++ Rest) = Some (l, Rest).
Proof.
  unfold unframe, frame.
  rewrite <- (app_assoc (replicate _ _) (_ :: l) Rest). simpl.
  rewrite unframe_count_replicate. simpl.
  rewrite bool_decide_eq_true_2 by (rewrite length_app; lia).
  by rewrite take_app_length, drop_app_length.
Qed.

Lemma Sample_Engine_roundtrip : FEngine_roundtrip Sample_Engine.
Proof.
  split.
  - intros Header Bytes Rest Hw. simpl in *. simplify_eq.
    rewrite unframe_frame, bytes_to_pos_to_bytes. simpl.
    by rewrite decode_encode.
  - intros bCooked Data Buffer Hw. simpl in *. simplify_eq.
    rewrite bytes_to_pos_to_bytes. simpl. rewrite decode_encode.
    by rewrite eqb_reflx.
Qed.

Lemma byte_sum_insert (l : list uint8) i b b' :
  l !! i = Some b →
  foldr (λ b k, Z.of_N (Byte.to_N b) + k) 0 (<[i := b']> l) =
  foldr (λ b k, Z.of_N (Byte.to_N b) + k) 0 l
    - Z.of_N (Byte.to_N b) + Z.of_N (Byte.to_N b').
Proof.
  revert i. induction l as [|x l IH]; intros [|i] Hi; simpl in *; try done.
  - simplify_eq. lia.
  - rewrite (IH _ Hi). lia.
Qed.

Lemma Byte_to_N_inj b b' : Byte.to_N b = Byte.to_N b' → b = b'.
Proof.
  intros H. assert (Some b = Some b') as E; [|by injection E].
  by rewrite <- !Byte.of_to_N, H.
Qed.

Lemma Sample_Engine_detects_byte_flips : detects_byte_flips Sample_Engine.
Proof.
  intros Buffer i b b' Hi Hne. simpl. unfold Sample_MemCrc32.
  rewrite (byte_sum_insert _ _ _ _ Hi).
  pose proof (Byte.to_N_bounded b) as Hb. pose proof (Byte.to_N_bounded b') as Hb'.
  assert (Byte.to_N b' ≠ Byte.to_N b) as Hn by (intros H; by apply Byte_to_N_inj in H).
  set (k := foldr _ 0 Buffer). intros Heq.
  assert ((k - Z.of_N (Byte.to_N b) + Z.of_N (Byte.to_N b') - k) mod 2 ^ 32 = 0)
    as Hz by (rewrite Zminus_mod, Heq, Z.sub_diag; done).
  replace (k - Z.of_N (Byte.to_N b) + Z.of_N (Byte.to_N b') - k)
    with (Z.of_N (Byte.to_N b') - Z.of_N (Byte.to_N b)) in Hz by lia.
  apply Z.mod_divide in Hz; [|done]. destruct Hz as [q Hq]. lia.
Qed.

(* ===================================================================== *)
(** ** LoadState: what is rejected                                        *)
(* ===================================================================== *)

Section load_rejects.
Context (E : FEngine).

Lemma Header_Load_Save Header Bytes Rest :
  FEngine_roundtrip E →
  Header_Save E Header = Some Bytes →
  Header_Load E (Bytes ++ Rest) = Some (Header, Rest).
Proof.
  intros Hlaws. unfold Header_Save, Header_Load.
  destruct (HeaderFields_Write E Header) as [Fields|] eqn:Hw; [|done].
  intros Hs. apply fmap_Some in Hs as (Fields' & HF & ->).
  assert (Fields' = Fields) as -> by congruence.
  rewrite <- (app_assoc Magic Fields Rest).
  rewrite take_app_length, drop_app_length.
  rewrite bool_decide_eq_true_2 by done.
  by apply (HeaderFields_roundtrip _ Hlaws).
Qed.

(** Whatever the header says: when the checksum of the bytes behind it is
    not the checksum in the header, the load fails with an error in the log
    and the state is the one it was. *)
Lemma LoadState_checksum_mismatch DataSourceClassName bCooked Ar s Header Body :
  Header_Load E Ar = Some (Header, Body) →
  MemCrc32 E Body ≠ HeaderChecksum Header →
  ∃ log, LoadState E DataSourceClassName bCooked Ar s = Some (false, s, log) ∧
         logs_error log.
Proof.
  intros Hh Hcrc. unfold LoadState. rewrite Hh.
  assert (∀ m, logs_error [LogLine Error m]) as Herr.
  { intros m. eexists. split; [apply list_elem_of_here|done]. }
  destruct (LatestVersion <? Version Header); [eauto|].
  case_bool_decide; [eauto|].
  destruct (negb _); [eauto|].
  rewrite bool_decide_eq_true_2 by done. eauto.
Qed.

End load_rejects.

(** C1, as the code has it.  When the bytes behind the header fail the
    checksum comparison, [LoadState] returns false, logs an error and
    leaves the state as it was: nothing of the input has been read into
    it, and it is not reset either (it is empty when it was empty).  In
    particular, a saved state with one byte of its body changed fails to
    load and leaves the state as it was, for a checksum that tells such
    buffers apart. *)
Theorem LoadState_rejects_corruption (E : FEngine) DataSourceClassName bCooked s :
  (∀ Ar Header Body,
     Header_Load E Ar = Some (Header, Body) →
     MemCrc32 E Body ≠ HeaderChecksum Header →
     ∃ log, LoadState E DataSourceClassName bCooked Ar s = Some (false, s, log) ∧
            logs_error log) ∧
  (FEngine_roundtrip E → detects_byte_flips E →
   ∀ Saved Ar log0,
     SaveState E DataSourceClassName bCooked Saved = (true, Ar, log0) →
     ∃ HeaderBytes Body,
       Ar = HeaderBytes ++ Body ∧
       SerializeItem_Write E bCooked (SerializedState Saved) = Some Body ∧
       ∀ i b b', Body !! i = Some b → b' ≠ b →
         ∃ log,
           LoadState E DataSourceClassName bCooked
             (HeaderBytes ++ <[i := b']> Body) s = Some (false, s, log) ∧
           logs_error log).
Proof.
  split.
  - intros Ar Header Body. apply LoadState_checksum_mismatch.
  - intros Hlaws Hflip Saved Ar log0. unfold SaveState.
    destruct (SerializeItem_Write E bCooked (SerializedState Saved))
      as [Body|] eqn:Hbody; [|done].
    destruct (Header_Save E _) as [HeaderBytes|] eqn:Hsave; [|done].
    intros ?; simplify_eq. exists HeaderBytes, Body. split_and!; [done|done|].
    intros i b b' Hi Hne.
    eapply LoadState_checksum_mismatch.
    + by apply Header_Load_Save.
    + simpl. by eapply Hflip.
Qed.

Lemma Sample_CorruptArchive_header :
  Header_Load Sample_Engine Sample_CorruptArchive = Some (Sample_Header, [Byte.x2a]).
Proof.
  apply Header_Load_Save; [apply Sample_Engine_roundtrip|]. reflexivity.
Qed.

Lemma Sample_CorruptArchive_checksum :
  MemCrc32 Sample_Engine [Byte.x2a] ≠ HeaderChecksum Sample_Header.
Proof. intros H. vm_compute in H. discriminate H. Qed.

Lemma Sample_State_HasRecords : HasRecords Sample_State = true.
Proof. vm_compute. reflexivity. Qed.

(** The claim as the specification has it fails: a state that holds
    records still holds them after a load that the checksum comparison has
    rejected. *)
Lemma LoadState_corrupt_archive_keeps_state :
  ∃ log,
    Header_Load Sample_Engine Sample_CorruptArchive
      = Some (Sample_Header, [Byte.x2a]) ∧
    MemCrc32 Sample_Engine [Byte.x2a] ≠ HeaderChecksum Sample_Header ∧
    LoadState Sample_Engine "/Script/Game.ItemDataSource" false
      Sample_CorruptArchive Sample_State = Some (false, Sample_State, log) ∧
    HasRecords Sample_State = true.
Proof.
  destruct (LoadState_checksum_mismatch Sample_Engine "/Script/Game.ItemDataSource"
              false Sample_CorruptArchive Sample_State Sample_Header [Byte.x2a]
              Sample_CorruptArchive_header Sample_CorruptArchive_checksum)
    as (log & Hload & _).
  exists log. split; [exact Sample_CorruptArchive_header|].
  split; [exact Sample_CorruptArchive_checksum|].
  split; [exact Hload|exact Sample_State_HasRecords].
Qed.

Lemma LoadState_rejects_corruption_witness :
  ∃ log,
    LoadState Sample_Engine "/Script/Game.ItemDataSource" false
      Sample_CorruptArchive EmptyState = Some (false, EmptyState, log) ∧
    logs_error log.
Proof.
  exact (proj1 (LoadState_rejects_corruption Sample_Engine
                  "/Script/Game.ItemDataSource" false EmptyState)
           Sample_CorruptArchive Sample_Header [Byte.x2a]
           Sample_CorruptArchive_header Sample_CorruptArchive_checksum).
Defined.

(* ===================================================================== *)
(** ** The archetype groups partition the array                           *)
(* ===================================================================== *)

Lemma groups_from_snoc a G g c :
  groups_from a (G ++ [g]) c ↔
  ∃ b, groups_from a G b ∧ Begin g = b ∧ 0 < Offset g ∧ c = b + Offset g.
Proof.
  revert a. induction G as [|g0 G IH]; intros a; simpl.
  - split.
    + intros (Hb & Ho & <-). exists a. done.
    + intros (b & <- & Hb & Ho & ->). done.
  - rewrite IH. naive_solver.
Qed.

Lemma groups_from_le a G c : groups_from a G c → a ≤ c.
Proof.
  revert a. induction G as [|g G IH]; intros a; simpl; [lia|].
  intros (_ & Ho & HG). apply IH in HG. lia.
Qed.

Lemma groups_from_range a G c g :
  groups_from a G c → g ∈ G →
  a ≤ Begin g ∧ 0 < Offset g ∧ Begin g + Offset g ≤ c.
Proof.
  revert a. induction G as [|g0 G IH]; intros a HG Hin; simpl in *.
  - by apply elem_of_nil in Hin.
  - destruct HG as (Hb & Ho & HG). apply elem_of_cons in Hin as [->|Hin].
    + apply groups_from_le in HG. lia.
    + destruct (IH _ HG Hin) as (? & ? & ?). lia.
Qed.

Lemma groups_from_same a G G' c :
  Forall2 same_group G G' → groups_from a G c → groups_from a G' c.
Proof.
  intros HF. revert a. induction HF as [|g g' G G' (_ & Hb & Ho) _ IH]; intros a;
    simpl; [done|].
  rewrite Hb, Ho. naive_solver.
Qed.

Lemma BuildArchetypes_cover G k ts :
  groups_from 0 G (Z.of_nat k) →
  groups_from 0 (BuildArchetypes G k ts) (Z.of_nat (k + length ts)).
Proof.
  revert G k. induction ts as [|t ts IH]; intros G k HG; cbn [BuildArchetypes].
  - simpl. by rewrite Nat.add_0_r.
  - replace (k + length (t :: ts))%nat with (S k + length ts)%nat by (simpl; lia).
    apply IH.
    assert (∀ G0 g, alter IncrementOffset (length (G0 ++ [g]) - 1)%nat (G0 ++ [g])
                    = G0 ++ [IncrementOffset g]) as Halter.
    { intros G0 g. rewrite length_app. simpl.
      replace (length G0 + 1 - 1)%nat with (length G0 + 0)%nat by lia.
      by rewrite alter_app_r. }
    destruct (last G) as [It|] eqn:Hlast.
    + apply last_Some in Hlast as [G0 ->]. case_bool_decide.
      * rewrite Halter. apply groups_from_snoc in HG as (b & HG0 & Hb & Ho & Hk).
        apply groups_from_snoc. exists b. simpl. split_and!; [done|done|lia|lia].
      * rewrite Halter. apply groups_from_snoc. exists (Z.of_nat k). simpl.
        split_and!; [done|done|lia|lia].
    + rewrite Halter. apply groups_from_snoc. exists (Z.of_nat k). simpl.
      split_and!; [done|done|lia|lia].
Qed.

Lemma Forall2_fmap_eq {A B} (h : A → B) (P : A → A → Prop) (l l' : list A) :
  (∀ x y, h x = h y → P x y) → h <$> l = h <$> l' → Forall2 P l l'.
Proof.
  intros HP. revert l'. induction l as [|x l IH]; intros [|y l'] Heq; try done.
  rewrite !fmap_cons in Heq. injection Heq as Hxy Hl.
  constructor; [by apply HP|by apply IH].
Qed.

Lemma SetGroupChecksum_same_group g g' :
  SetGroupChecksum 0 g = SetGroupChecksum 0 g' → same_group g g'.
Proof. destruct g, g'. unfold SetGroupChecksum. simpl. intros [=]. by split_and!. Qed.

(** In a fixed-up state the groups cover the array. *)
Lemma derived_ok_groups_cover s :
  derived_ok s →
  groups_from 0 (Archetypes s) (Z.of_nat (length (DataContainer s))).
Proof.
  intros Hd.
  pose proof (BuildArchetypes_cover [] O
                (GetPrimaryAssetType <$> DataContainer s) eq_refl) as Hc.
  rewrite length_fmap in Hc. simpl in Hc.
  eapply groups_from_same; [|exact Hc].
  rewrite <- (derived_Archetypes _ Hd).
  apply Forall2_fmap_l, Forall_Forall2_diag, Forall_forall.
  intros g _. destruct g. by split_and!.
Qed.

Lemma derived_ok_same_groups s s' :
  derived_ok s → derived_ok s' →
  GetPrimaryAssetType <$> DataContainer s' = GetPrimaryAssetType <$> DataContainer s →
  Forall2 same_group (Archetypes s) (Archetypes s').
Proof.
  intros Hd Hd' Htypes.
  apply (Forall2_fmap_eq (SetGroupChecksum 0)); [apply SetGroupChecksum_same_group|].
  by rewrite (derived_Archetypes _ Hd), (derived_Archetypes _ Hd'), Htypes.
Qed.

(* ===================================================================== *)
(** ** GetChecksum                                                        *)
(* ===================================================================== *)

Lemma foldl_pointwise {A B} (f g : A → B → A) (l : list B) (a : A) :
  (∀ x y, f x y = g x y) → foldl f a l = foldl g a l.
Proof.
  intros Hfg. revert a. induction l as [|y l IH]; intros a; [done|].
  simpl. by rewrite Hfg, IH.
Qed.

Section checksum_facts.
Context (E : FEngine).

Lemma same_but_checksum_refl r : same_but_checksum r r.
Proof. by split_and!. Qed.

Lemma same_but_checksum_trans r1 r2 r3 :
  same_but_checksum r1 r2 → same_but_checksum r2 r3 → same_but_checksum r1 r3.
Proof.
  unfold same_but_checksum. intros (?&?&?&?&?&?&?) (?&?&?&?&?&?&?).
  split_and!; congruence.
Qed.

Lemma ComputeRecordChecksum_same C r r' :
  same_but_checksum r r' →
  ComputeRecordChecksum E C r' = ComputeRecordChecksum E C r.
Proof.
  intros (Hd & Hc & Hs & Hp & _). unfold ComputeRecordChecksum.
  by rewrite Hd, Hc, Hs, Hp.
Qed.

Lemma Forall2_same_but_checksum_refl l : Forall2 same_but_checksum l l.
Proof. apply Forall_Forall2_diag, Forall_forall. intros. apply same_but_checksum_refl. Qed.

Lemma Forall2_same_but_checksum_trans l1 l2 l3 :
  Forall2 same_but_checksum l1 l2 → Forall2 same_but_checksum l2 l3 →
  Forall2 same_but_checksum l1 l3.
Proof.
  intros H12. revert l3. induction H12 as [|x y l1 l2 Hxy _ IH]; intros l3 H23.
  - by inversion H23.
  - inversion H23 as [|y' z l2' l3' Hyz H23']; subst.
    constructor; [by eapply same_but_checksum_trans|by apply IH].
Qed.

Lemma Record_GetChecksum_spec C r :
  (RecordChecksum r ≠ 0 → RecordChecksum r = ComputeRecordChecksum E C r) →
  ∃ r', Record_GetChecksum E C r = (ComputeRecordChecksum E C r, r') ∧
        same_but_checksum r r' ∧
        (RecordChecksum r' ≠ 0 → RecordChecksum r' = ComputeRecordChecksum E C r') ∧
        (RecordChecksum r ≠ 0 → r' = r).
Proof.
  intros Hvalid. unfold Record_GetChecksum. case_bool_decide as Hz.
  - eexists. split; [done|]. split_and!; [by split_and!|done|done].
  - exists r. rewrite <- (Hvalid Hz). split_and!;
      [done|apply same_but_checksum_refl|done|done].
Qed.

Lemma fold_checksums_same C (l l' : list FCommonInventoryRegistryRecord) k :
  Forall2 same_but_checksum l l' →
  foldl (λ k r, TypeCrc32 E (ComputeRecordChecksum E C r) k) k l' =
  foldl (λ k r, TypeCrc32 E (ComputeRecordChecksum E C r) k) k l.
Proof.
  intros HF. revert k. induction HF as [|r r' l l' Hr _ IH]; intros k; [done|].
  simpl. by rewrite (ComputeRecordChecksum_same _ _ _ Hr), IH.
Qed.

Lemma ComputeArchetypeChecksum_same C l l' g g' :
  Forall2 same_but_checksum l l' → same_group g g' →
  ComputeArchetypeChecksum E C l' g' = ComputeArchetypeChecksum E C l g.
Proof.
  intros HF (_ & Hb & Ho). unfold ComputeArchetypeChecksum. rewrite Hb, Ho.
  apply fold_checksums_same. by apply Forall2_take, Forall2_drop.
Qed.

(** The inner loop: the checksum of the slice, and the records with their
    caches filled in. *)
Lemma Archetype_loop_spec C l Index Count k :
  (Index + Count ≤ length l)%nat → records_valid E C l →
  ∃ l',
    Archetype_loop E C l Index Count k =
      Some (l', foldl (λ k r, TypeCrc32 E (ComputeRecordChecksum E C r) k) k
                  (take Count (drop Index l))) ∧
    Forall2 same_but_checksum l l' ∧ records_valid E C l'.
Proof.
  revert l Index k. induction Count as [|Count IH]; intros l Index k Hlen Hvalid.
  - exists l. simpl. split_and!; [done|apply Forall2_same_but_checksum_refl|done].
  - simpl. destruct (lookup_lt_is_Some_2 l Index) as [r Hr]; [lia|]. rewrite Hr.
    destruct (Record_GetChecksum_spec C r (Hvalid _ _ Hr))
      as (r' & -> & Hsame & Hr'valid & _).
    assert (Forall2 same_but_checksum l (<[Index := r']> l)) as HF1.
    { apply Forall2_same_length_lookup_2; [by rewrite length_insert|].
      intros j x y Hx Hy. destruct (decide (Index = j)) as [->|Hne].
      - rewrite list_lookup_insert_eq in Hy by (by eapply lookup_lt_Some).
        by simplify_eq.
      - rewrite list_lookup_insert_ne in Hy by done. simplify_eq.
        apply same_but_checksum_refl. }
    assert (records_valid E C (<[Index := r']> l)) as Hvalid1.
    { intros j x Hx. destruct (decide (Index = j)) as [->|Hne].
      - rewrite list_lookup_insert_eq in Hx by (by eapply lookup_lt_Some).
        by simplify_eq.
      - rewrite list_lookup_insert_ne in Hx by done. by eapply Hvalid. }
    destruct (IH (<[Index := r']> l) (S Index)
                (TypeCrc32 E (ComputeRecordChecksum E C r) k))
      as (l' & -> & HF & Hvalid'); [rewrite length_insert; lia|done|].
    exists l'. split_and!; [|by eapply Forall2_same_but_checksum_trans|done].
    f_equal. f_equal.
    rewrite (drop_S l r Index Hr). simpl. f_equal.
    by rewrite drop_insert_lt by lia.
Qed.

(** The outer loop: the checksum over the groups, and the records and the
    groups with their caches filled in. *)
Lemma Archetypes_loop_spec C l G k :
  (∀ g, g ∈ G → 0 ≤ Begin g ∧ 0 ≤ Offset g ∧
                Begin g + Offset g ≤ Z.of_nat (length l)) →
  records_valid E C l → groups_valid E C l G →
  ∃ l' G',
    Archetypes_loop E C l G k =
      Some (l', G',
            foldl (λ k g, TypeCrc32 E (ComputeArchetypeChecksum E C l g) k) k G) ∧
    Forall2 same_but_checksum l l' ∧ records_valid E C l' ∧
    Forall2 same_group G G' ∧ groups_valid E C l' G' ∧
    Forall2 (λ g g', GroupChecksum g' = ComputeArchetypeChecksum E C l g) G G'.
Proof.
  revert l k. induction G as [|g G IH]; intros l k Hrange Hvalid Hgroups.
  - exists l, []. simpl.
    split_and!; [done|apply Forall2_same_but_checksum_refl|done|constructor| |constructor].
    intros g Hg. by apply elem_of_nil in Hg.
  - cbn [Archetypes_loop].
    destruct (Hrange g (list_elem_of_here _ _)) as (Hb & Ho & Hend).
    assert (∃ l1,
              (if bool_decide (GroupChecksum g = 0) then
                 if bool_decide (0 ≤ Begin g ∧ 0 ≤ Offset g) then
                   Archetype_loop E C l (Z.to_nat (Begin g)) (Z.to_nat (Offset g)) 0
                 else None
               else Some (l, GroupChecksum g))
              = Some (l1, ComputeArchetypeChecksum E C l g) ∧
              Forall2 same_but_checksum l l1 ∧ records_valid E C l1)
      as (l1 & -> & HF1 & Hvalid1).
    { case_bool_decide as Hz.
      - rewrite bool_decide_eq_true_2 by done.
        destruct (Archetype_loop_spec C l (Z.to_nat (Begin g))
                    (Z.to_nat (Offset g)) 0) as (l1 & -> & HF1 & Hv1);
          [lia|done|]. by exists l1.
      - exists l. rewrite <- (Hgroups g (list_elem_of_here _ _) Hz).
        split_and!; [done|apply Forall2_same_but_checksum_refl|done]. }
    assert (∀ g0, ComputeArchetypeChecksum E C l1 g0
                  = ComputeArchetypeChecksum E C l g0) as Hsame1.
    { intros g0. apply ComputeArchetypeChecksum_same; [done|by split_and!]. }
    destruct (IH l1 (TypeCrc32 E (ComputeArchetypeChecksum E C l g) k))
      as (l' & G' & -> & HF & Hvalid' & HG & Hgroups' & Hsums).
    { intros g0 Hg0. rewrite <- (Forall2_length _ _ _ HF1).
      apply Hrange. by apply list_elem_of_further. }
    { done. }
    { intros g0 Hg0 Hz. rewrite Hsame1. apply Hgroups; [|done].
      by apply list_elem_of_further. }
    assert (∀ g0, ComputeArchetypeChecksum E C l' g0
                  = ComputeArchetypeChecksum E C l g0) as Hsame'.
    { intros g0. rewrite <- Hsame1.
      apply ComputeArchetypeChecksum_same; [done|by split_and!]. }
    exists l', (SetGroupChecksum (ComputeArchetypeChecksum E C l g) g :: G').
    split_and!.
    + simpl. f_equal. f_equal. apply foldl_pointwise. intros. by rewrite Hsame1.
    + by eapply Forall2_same_but_checksum_trans.
    + done.
    + constructor; [by destruct g|done].
    + intros g0 Hg0 Hz. apply elem_of_cons in Hg0 as [->|Hg0].
      * rewrite Hsame'. by destruct g.
      * by apply Hgroups'.
    + constructor; [by destruct g|].
      eapply Forall2_impl; [exact Hsums|]. intros g1 g2 ->. apply Hsame1.
Qed.

(** [GetChecksum] of a well-formed state with valid caches returns the
    checksum of the data, and leaves the caches valid. *)
Lemma GetChecksum_spec s :
  derived_ok s → caches_valid E s →
  ∃ s',
    GetChecksum E s = Some (ComputeChecksum E s, s') ∧
    Forall2 same_but_checksum (DataContainer s) (DataContainer s') ∧
    CustomDataContainer s' = CustomDataContainer s ∧
    Forall2 same_group (Archetypes s) (Archetypes s') ∧
    DataMap s' = DataMap s ∧ ReplicationMap s' = ReplicationMap s ∧
    RepIndexEncodingBitsNum s' = RepIndexEncodingBitsNum s ∧
    Checksum s' = ComputeChecksum E s ∧
    caches_valid E s'.
Proof.
  intros Hd [Hrec Hgrp Hsum]. unfold GetChecksum.
  pose proof (derived_ok_groups_cover _ Hd) as Hcover.
  case_bool_decide as Hz.
  - destruct (Archetypes_loop_spec (CustomDataContainer s) (DataContainer s)
                (Archetypes s) 0) as (l' & G' & -> & HF & Hvalid' & HG & Hgroups' & Hsums).
    { intros g Hg. destruct (groups_from_range _ _ _ _ Hcover Hg) as (?&?&?). lia. }
    { done. }
    { done. }
    eexists. split; [done|]. simpl. split_and!; try done.
    split; simpl.
    + done.
    + done.
    + intros _. unfold ComputeChecksum. simpl.
      clear -HF HG. generalize 0.
      induction HG as [|g g' G G' Hgg _ IH]; intros k; [done|].
      simpl. rewrite (ComputeArchetypeChecksum_same _ _ _ g g' HF Hgg).
      apply IH.
  - exists s. rewrite <- (Hsum Hz). split_and!; try done.
    + apply Forall2_same_but_checksum_refl.
    + apply Forall_Forall2_diag, Forall_forall. intros g _. by split_and!.
Qed.

End checksum_facts.

(* ===================================================================== *)
(** ** SaveState and LoadState: the round trip                            *)
(* ===================================================================== *)

Lemma forallb_elem_of {A} (f : A → bool) (l : list A) :
  forallb f l = true ↔ ∀ x, x ∈ l → f x = true.
Proof.
  induction l as [|y l IH]; simpl.
  - split; [|done]. intros _ x Hx. by apply elem_of_nil in Hx.
  - rewrite andb_true_iff, IH. split.
    + intros [Hy Hl] x Hx. apply elem_of_cons in Hx as [->|Hx]; auto.
    + intros H. split; [apply H, list_elem_of_here|].
      intros x Hx. by apply H, list_elem_of_further.
Qed.

Section roundtrip.
Context (E : FEngine).

Lemma ComputeChecksum_same s s' :
  Forall2 same_but_checksum (DataContainer s) (DataContainer s') →
  CustomDataContainer s' = CustomDataContainer s →
  Forall2 same_group (Archetypes s) (Archetypes s') →
  ComputeChecksum E s' = ComputeChecksum E s.
Proof.
  intros HF HC HG. unfold ComputeChecksum. rewrite HC. generalize 0.
  induction HG as [|g g' G G' Hgg _ IH]; intros k; [done|].
  simpl. rewrite (ComputeArchetypeChecksum_same E _ _ _ g g' HF Hgg). apply IH.
Qed.

Lemma ContentOf_same s s' Id :
  derived_ok s → derived_ok s' →
  Forall2 same_but_checksum (DataContainer s) (DataContainer s') →
  CustomDataContainer s' = CustomDataContainer s →
  ContentOf s' Id = ContentOf s Id.
Proof.
  intros Hd Hd' HF HC. unfold ContentOf.
  assert (∀ r r', same_but_checksum r r' → RecordContent s' r' = RecordContent s r)
    as Hcontent.
  { intros r r' (Hv1 & Hv2 & HS & HP & _). unfold RecordContent, FieldContent.
    simpl. by rewrite HC, Hv1, Hv2, HS, HP. }
  assert (∀ r r', same_but_checksum r r' →
            GetPrimaryAssetId r' = GetPrimaryAssetId r) as Hid.
  { intros r r' (_ & _ & HS & _). unfold GetPrimaryAssetId. by rewrite HS. }
  destruct (GetRecordPtr s Id) as [r|] eqn:Hr.
  - apply (GetRecordPtr_Some _ _ _ Hd) in Hr as [Hr Hidr].
    apply list_elem_of_lookup in Hr as [i Hi].
    destruct (Forall2_lookup_l _ _ _ _ _ HF Hi) as (r' & Hi' & Hsame).
    assert (GetRecordPtr s' Id = Some r') as ->.
    { apply (GetRecordPtr_Some _ _ _ Hd'). split; [by eapply list_elem_of_lookup_2|].
      by rewrite (Hid _ _ Hsame). }
    simpl. f_equal. by apply Hcontent.
  - destruct (GetRecordPtr s' Id) as [r'|] eqn:Hr'; [|done].
    apply (GetRecordPtr_Some _ _ _ Hd') in Hr' as [Hr' Hidr'].
    apply list_elem_of_lookup in Hr' as [i Hi'].
    destruct (Forall2_lookup_r _ _ _ _ _ HF Hi') as (r & Hi & Hsame).
    assert (GetRecordPtr s Id = Some r) as Hsome; [|congruence].
    apply (GetRecordPtr_Some _ _ _ Hd). split; [by eapply list_elem_of_lookup_2|].
    by rewrite <- (Hid _ _ Hsame).
Qed.

(** Loading what [SaveState] has written, into a state with empty
    containers: the records come back as they were, up to the caches. *)
Lemma LoadState_SaveState DataSourceClassName bCooked Saved s0 Ar log0 :
  FEngine_roundtrip E → state_wf Saved →
  DataContainer s0 = [] → CustomDataContainer s0 = [] →
  SaveState E DataSourceClassName bCooked Saved = (true, Ar, log0) →
  ∃ Loaded,
    LoadState E DataSourceClassName bCooked Ar s0 = Some (true, Loaded, []) ∧
    state_wf Loaded ∧
    Forall2 same_but_checksum (DataContainer Saved) (DataContainer Loaded) ∧
    CustomDataContainer Loaded = CustomDataContainer Saved ∧
    (∀ r, r ∈ DataContainer Loaded → RecordChecksum r = 0) ∧
    (∀ g, g ∈ Archetypes Loaded → GroupChecksum g = 0) ∧
    Checksum Loaded = 0.
Proof.
  intros Hlaws [Hsorted Hb Hv Hd] HDC0 HCC0. unfold SaveState.
  destruct (SerializeItem_Write E bCooked (SerializedState Saved))
    as [Body|] eqn:Hbody; [|done].
  destruct (Header_Save E _) as [HeaderBytes|] eqn:Hsave; [|done].
  intros ?; simplify_eq.
  unfold LoadState. rewrite (Header_Load_Save E _ _ _ Hlaws Hsave). simpl.
  rewrite bool_decide_eq_false_2 by (intros H; by apply H).
  rewrite eqb_reflx. simpl.
  rewrite bool_decide_eq_false_2 by (intros H; by apply H).
  assert (SerializedState s0 = ([], [])) as ->.
  { unfold SerializedState. by rewrite HDC0, HCC0. }
  rewrite (SerializeItem_roundtrip _ Hlaws _ _ _ Hbody).
  unfold SerializedState at 1. simpl.
  set (s1 := SetDataContainer
               (FromSerialized <$> (ToSerialized <$> DataContainer Saved))
               (SetCustomDataContainer (CustomDataContainer Saved) s0)).
  assert (forallb (λ Item, bool_decide (is_Some Item)) (CustomDataContainer Saved)
          = true) as ->.
  { apply forallb_elem_of. intros item Hitem.
    apply list_elem_of_lookup in Hitem as [k Hk].
    apply bool_decide_eq_true_2. by eapply (blob_valid _ _ _ Hb). }
  simpl.
  assert (∀ i, DataContainer s1 !! i =
               (λ r, FromSerialized (ToSerialized r)) <$> DataContainer Saved !! i)
    as Hlook1.
  { intros i. unfold s1. simpl. rewrite <- list_fmap_compose.
    by rewrite list_lookup_fmap. }
  assert (GetPrimaryAssetId <$> DataContainer s1
          = GetPrimaryAssetId <$> DataContainer Saved) as Hids1.
  { unfold s1. simpl. rewrite <- !list_fmap_compose. by apply list_fmap_ext. }
  assert (ids_sorted (DataContainer s1)) as Hsorted1.
  { eapply ids_sorted_same_ids; [symmetry; exact Hids1|done]. }
  destruct (FixupDependencies_total false s1 Hsorted1) as [Loaded Hf].
  rewrite Hf.
  pose proof (FixupDependencies_spec _ _ _ Hf) as (HDC & HC & HA & Hsum & _ & Hd').
  assert (blobs_ok (DataContainer s1) (CustomDataContainer s1)) as Hb1.
  { unfold s1 at 2. simpl. eapply blobs_ok_ex_same_slots; [|exact Hb].
    apply Forall2_same_length_lookup_2.
    - unfold s1. simpl. by rewrite !length_fmap.
    - intros i r r1 Hr Hr1. rewrite Hlook1, Hr in Hr1. simpl in Hr1.
      simplify_eq. by intros []. }
  exists Loaded. split_and!; [done| | |done| | |done].
  - by eapply FixupDependencies_wf.
  - apply Forall2_same_length_lookup_2.
    + rewrite (FixupDependencies_length _ _ _ Hf). unfold s1. simpl.
      by rewrite !length_fmap.
    + intros i r r' Hr Hr'.
      rewrite (FixupDependencies_lookup _ _ _ _ Hf), Hlook1, Hr in Hr'.
      simpl in Hr'. simplify_eq.
      unfold same_but_checksum, RefreshRecord. simpl.
      pose proof (Hv _ _ FieldDefaultPayload Hr (λ H, H)) as Hv1.
      pose proof (Hv _ _ FieldCustomData Hr (λ H, H)) as Hv2.
      simpl in Hv1, Hv2. rewrite (derived_RepIndex _ Hd _ _ Hr).
      by split_and!.
  - intros r' Hr'. apply list_elem_of_lookup in Hr' as [i Hi].
    rewrite (FixupDependencies_lookup _ _ _ _ Hf), Hlook1 in Hi.
    destruct (DataContainer Saved !! i); simpl in Hi; by simplify_eq.
  - intros g Hg. rewrite HA in Hg.
    pose proof (BuildArchetypes_checksum [] O
                  (GetPrimaryAssetType <$> DataContainer s1) (Forall_nil_2 _)) as HG.
    rewrite Forall_forall in HG. by apply HG.
Qed.

End roundtrip.

(** The caches of [GetChecksum] do not count for well-formedness. *)
Lemma state_wf_same_but_caches s s' :
  state_wf s →
  Forall2 same_but_checksum (DataContainer s) (DataContainer s') →
  CustomDataContainer s' = CustomDataContainer s →
  Forall2 same_group (Archetypes s) (Archetypes s') →
  DataMap s' = DataMap s → ReplicationMap s' = ReplicationMap s →
  RepIndexEncodingBitsNum s' = RepIndexEncodingBitsNum s →
  state_wf s'.
Proof.
  intros [Hsorted Hb Hv [Hd1 Hd2 Hd3 Hd4 Hd5]] HF HC HG HDM HRM HB.
  assert (GetPrimaryAssetId <$> DataContainer s' = GetPrimaryAssetId <$> DataContainer s)
    as Hids.
  { clear -HF. induction HF as [|r r' l l' (_ & _ & HS & _) _ IH]; [done|].
    rewrite !fmap_cons, IH. unfold GetPrimaryAssetId. by rewrite HS. }
  pose proof (Forall2_length _ _ _ HF) as Hlen.
  split.
  - eapply ids_sorted_same_ids; [symmetry; exact Hids|done].
  - rewrite HC. eapply blobs_ok_ex_same_slots; [|exact Hb].
    eapply Forall2_impl; [exact HF|]. intros r r' (_ & _ & _ & _ & H1 & H2 & _).
    by intros [].
  - rewrite HC. eapply views_ok_ex_same_slots; [|exact Hv].
    eapply Forall2_impl; [exact HF|].
    intros r r' (V1 & V2 & _ & _ & H1 & H2 & _). by intros [].
  - split.
    + intros i r' Hi. destruct (Forall2_lookup_r _ _ _ _ _ HF Hi)
        as (r & Hr & (_ & _ & _ & _ & _ & _ & HR)).
      rewrite HR. by eapply Hd1.
    + intros Id i. rewrite HDM, Hd2. split.
      * intros (r & Hr & Hid).
        destruct (Forall2_lookup_l _ _ _ _ _ HF Hr) as (r' & Hr' & Hsame).
        exists r'. split; [done|].
        by rewrite (fmap_lookup_eq GetPrimaryAssetId _ _ _ _ _ Hids Hr Hr').
      * intros (r' & Hr' & Hid).
        destruct (Forall2_lookup_r _ _ _ _ _ HF Hr') as (r & Hr & Hsame).
        exists r. split; [done|].
        by rewrite <- (fmap_lookup_eq GetPrimaryAssetId _ _ _ _ _ Hids Hr Hr').
    + intros k i. by rewrite HRM, <- Hlen.
    + rewrite (ids_types _ _ Hids), <- Hd4. clear -HG.
      induction HG as [|g g' G G' (H1 & H2 & H3) _ IH]; [done|].
      rewrite !fmap_cons, IH. f_equal. destruct g, g'. simpl in *. by subst.
    + by rewrite HB, <- Hlen.
Qed.

(** [GetChecksum] keeps a well-formed state well formed. *)
Lemma GetChecksum_wf (E : FEngine) s k s' :
  state_wf s → caches_valid E s → GetChecksum E s = Some (k, s') →
  state_wf s' ∧ caches_valid E s' ∧ k = ComputeChecksum E s.
Proof.
  intros Hwf Hc Hg.
  destruct (GetChecksum_spec E s (wf_derived _ Hwf) Hc)
    as (s1 & Hg1 & HF & HC & HG & HDM & HRM & HB & _ & Hc1).
  rewrite Hg in Hg1. injection Hg1 as -> ->.
  split_and!; [|done|done]. by eapply state_wf_same_but_caches.
Qed.

(** C2.  For a well-formed state whose caches are valid: what [SaveState]
    writes loads, with the same cooking flag and data source class, into a
    state with empty containers; the loaded state has the same ids in the
    same order, every record has the data it had, and [GetChecksum] returns
    the same value on both. *)
Theorem SaveState_LoadState_roundtrip (E : FEngine)
    DataSourceClassName bCooked Saved s0 Ar log0 :
  FEngine_roundtrip E →
  state_wf Saved → caches_valid E Saved →
  DataContainer s0 = [] → CustomDataContainer s0 = [] →
  SaveState E DataSourceClassName bCooked Saved = (true, Ar, log0) →
  ∃ Loaded k Saved' Loaded',
    LoadState E DataSourceClassName bCooked Ar s0 = Some (true, Loaded, []) ∧
    GetPrimaryAssetId <$> DataContainer Loaded
      = GetPrimaryAssetId <$> DataContainer Saved ∧
    (∀ Id, ContentOf Loaded Id = ContentOf Saved Id) ∧
    GetChecksum E Saved = Some (k, Saved') ∧
    GetChecksum E Loaded = Some (k, Loaded').
Proof.
  intros Hlaws Hwf Hcaches HDC0 HCC0 Hsave.
  destruct (LoadState_SaveState E _ _ _ _ _ _ Hlaws Hwf HDC0 HCC0 Hsave)
    as (Loaded & Hload & Hwf' & HF & HC & Hr0 & Hg0 & Hs0).
  pose proof (wf_derived _ Hwf) as Hd. pose proof (wf_derived _ Hwf') as Hd'.
  assert (GetPrimaryAssetId <$> DataContainer Loaded
          = GetPrimaryAssetId <$> DataContainer Saved) as Hids.
  { clear -HF. induction HF as [|r r' l l' (_ & _ & HS & _) _ IH]; [done|].
    rewrite !fmap_cons, IH. unfold GetPrimaryAssetId. by rewrite HS. }
  assert (caches_valid E Loaded) as Hcaches'.
  { split.
    - intros i r Hr Hne. exfalso. apply Hne, Hr0. by eapply list_elem_of_lookup_2.
    - intros g Hg Hne. exfalso. by apply Hne, Hg0.
    - intros Hne. by rewrite Hs0 in Hne. }
  destruct (GetChecksum_spec E Saved Hd Hcaches) as (Saved' & HgS & _).
  destruct (GetChecksum_spec E Loaded Hd' Hcaches') as (Loaded' & HgL & _).
  exists Loaded, (ComputeChecksum E Saved), Saved', Loaded'.
  split_and!; [done|done| |done|].
  - intros Id. by apply ContentOf_same.
  - rewrite HgL. f_equal. f_equal. apply ComputeChecksum_same; [done|done|].
    apply derived_ok_same_groups; [done|done|]. by apply ids_types.
Qed.

Lemma Sample_Engine_SaveState DataSourceClassName bCooked s :
  ∃ Ar, SaveState Sample_Engine DataSourceClassName bCooked s = (true, Ar, []).
Proof. eexists. reflexivity. Qed.

Lemma caches_valid_zero (E : FEngine) s :
  (∀ r, r ∈ DataContainer s → RecordChecksum r = 0) →
  (∀ g, g ∈ Archetypes s → GroupChecksum g = 0) →
  Checksum s = 0 → caches_valid E s.
Proof.
  intros Hr Hg Hs. split.
  - intros i r Hi Hne. exfalso. apply Hne, Hr. by eapply list_elem_of_lookup_2.
  - intros g Hin Hne. exfalso. by apply Hne, Hg.
  - intros Hne. by rewrite Hs in Hne.
Qed.

Lemma Sample_State_caches_valid : caches_valid Sample_Engine Sample_State.
Proof.
  apply caches_valid_zero.
  - intros r Hr.
    assert (forallb (λ r, bool_decide (RecordChecksum r = 0))
              (DataContainer Sample_State) = true) as H
      by (vm_compute; reflexivity).
    rewrite forallb_elem_of in H. exact (bool_decide_eq_true_1 _ (H r Hr)).
  - intros g Hg.
    assert (forallb (λ g, bool_decide (GroupChecksum g = 0))
              (Archetypes Sample_State) = true) as H
      by (vm_compute; reflexivity).
    rewrite forallb_elem_of in H. exact (bool_decide_eq_true_1 _ (H g Hg)).
  - vm_compute. reflexivity.
Qed.

Lemma Sample_Cached_GetChecksum :
  GetChecksum Sample_Engine Sample_State = Some (Sample_Checksum, Sample_Cached).
Proof. vm_compute. reflexivity. Qed.

Lemma Sample_Cached_nonzero : Checksum Sample_Cached ≠ 0.
Proof. intros H. vm_compute in H. discriminate H. Qed.

Lemma SaveState_LoadState_roundtrip_witness :
  ∃ Ar Loaded k Saved' Loaded',
    SaveState Sample_Engine "/Script/Game.ItemDataSource" false Sample_Cached
      = (true, Ar, []) ∧
    LoadState Sample_Engine "/Script/Game.ItemDataSource" false Ar EmptyState
      = Some (true, Loaded, []) ∧
    GetPrimaryAssetId <$> DataContainer Loaded
      = GetPrimaryAssetId <$> DataContainer Sample_Cached ∧
    (∀ Id, ContentOf Loaded Id = ContentOf Sample_Cached Id) ∧
    GetChecksum Sample_Engine Sample_Cached = Some (k, Saved') ∧
    GetChecksum Sample_Engine Loaded = Some (k, Loaded').
Proof.
  destruct (GetChecksum_wf Sample_Engine Sample_State Sample_Checksum Sample_Cached
              (reachable_wf _ _ Sample_State_reachable)
              Sample_State_caches_valid Sample_Cached_GetChecksum)
    as (Hwf & Hcaches & _).
  destruct (Sample_Engine_SaveState "/Script/Game.ItemDataSource" false Sample_Cached)
    as [Ar Hsave].
  destruct (SaveState_LoadState_roundtrip Sample_Engine
              "/Script/Game.ItemDataSource" false Sample_Cached EmptyState Ar []
              Sample_Engine_roundtrip Hwf Hcaches eq_refl eq_refl Hsave)
    as (Loaded & k & Saved' & Loaded' & H1 & H2 & H3 & H4 & H5).
  exists Ar, Loaded, k, Saved', Loaded'.
  split; [exact Hsave|]. split; [exact H1|]. split; [exact H2|].
  split; [exact H3|]. split; [exact H4|exact H5].
Defined.

(* ===================================================================== *)
(** * Further properties of the registry state                            *)
(* ===================================================================== *)

(** X1.  Every state that [Reset], [AppendData] and [RemoveData] build
    from the empty state, each call passing its checks, is well formed: the
    records are strictly sorted by id, every payload index is [INDEX_NONE]
    or a valid index of the container and no two payload slots share an
    item, every item has a script struct, every cached view points at the
    item of its index, and the maps, the groups and the encoding width are
    the ones [FixupDependencies] derives from the array. *)
Theorem mutations_keep_the_state_well_formed ms s :
  MutateAll ms EmptyState = Some s → state_wf s.
Proof. apply reachable_wf. Qed.

Lemma mutations_keep_the_state_well_formed_witness :
  MutateAll Diff_Base_Mutations EmptyState = Some Diff_Base ∧ state_wf Diff_Base.
Proof.
  split; [vm_compute; reflexivity|].
  apply (mutations_keep_the_state_well_formed Diff_Base_Mutations).
  vm_compute; reflexivity.
Defined.

(** X2.  [AppendData] with an id the state does not hold, in a well-formed
    state: the call passes its checks and returns true; the new id sits at
    its lower bound among the ids, which are otherwise in the order they
    were; the new record reads the shared data, asset path and payloads of
    the incoming record; every other record reads what it read; the state
    stays well formed. *)
Theorem AppendData_inserts_at_lower_bound InRecord s :
  state_wf s →
  ContainsRecord s (GetPrimaryAssetId InRecord) = false →
  ∃ s',
    AppendData InRecord s = Some (true, s') ∧
    state_wf s' ∧
    GetPrimaryAssetId <$> DataContainer s' =
      TArray_Insert (GetPrimaryAssetId <$> DataContainer s)
        (GetPrimaryAssetId InRecord) (LowerBound (DataContainer s) InRecord) ∧
    ContentOf s' (GetPrimaryAssetId InRecord) =
      Some (SharedData InRecord, AssetPath InRecord,
            ReadView (CustomDataContainer s) (DefaultPayload InRecord),
            ReadView (CustomDataContainer s) (CustomData InRecord)) ∧
    (∀ Id, Id ≠ GetPrimaryAssetId InRecord → ContentOf s' Id = ContentOf s Id).
Proof.
  intros Hwf Hc. apply ContainsRecord_false in Hc.
  destruct (AppendData_insert_spec _ _ Hwf Hc)
    as (s' & Ha & Hwf' & Hids & Hothers & Hown & _).
  exists s'. split_and!; try done. intros Id Hne. by destruct (Hothers Id Hne).
Qed.

Lemma AppendData_inserts_at_lower_bound_witness :
  state_wf Sample_State ∧
  ContainsRecord Sample_State (GetPrimaryAssetId Sample_Shield) = false ∧
  ∃ s',
    AppendData Sample_Shield Sample_State = Some (true, s') ∧
    ContentOf s' (GetPrimaryAssetId Sample_Shield) =
      Some (SharedData Sample_Shield, AssetPath Sample_Shield, None, None).
Proof.
  assert (state_wf Sample_State) as Hwf
    by exact (reachable_wf _ _ Sample_State_reachable).
  assert (ContainsRecord Sample_State (GetPrimaryAssetId Sample_Shield) = false)
    as Hc by (vm_compute; reflexivity).
  split; [exact Hwf|]. split; [exact Hc|].
  destruct (AppendData_inserts_at_lower_bound Sample_Shield Sample_State Hwf Hc)
    as (s' & Ha & _ & _ & Hown & _).
  exists s'. split; [exact Ha|exact Hown].
Defined.

(** X3.  [RemoveData] in a well-formed state.  An id the state does not
    hold: the call returns false and the state is the one it was.  An id it
    holds, when the call passes its checks: it returns true, the id is gone
    and the other ids stay, every other record reads what it read, and the
    state stays well formed. *)
Theorem RemoveData_removes_one_record Id s :
  state_wf s →
  (ContainsRecord s Id = false → RemoveData Id s = Some (false, s)) ∧
  (∀ b s', RemoveData Id s = Some (b, s') → ContainsRecord s Id = true →
     b = true ∧ state_wf s' ∧
     ContainsRecord s' Id = false ∧
     (∀ x, x ∈ GetPrimaryAssetId <$> DataContainer s' ↔
           x ∈ GetPrimaryAssetId <$> DataContainer s ∧ x ≠ Id) ∧
     (∀ Id', Id' ≠ Id → ContentOf s' Id' = ContentOf s Id')).
Proof.
  intros Hwf. split.
  - intros Hc. apply ContainsRecord_false in Hc. unfold RemoveData. by rewrite Hc.
  - intros b s' Hr Hc. apply ContainsRecord_true in Hc as [Idx HIdx].
    assert (b = true) as ->.
    { apply RemoveData_inv in Hr as [(_ & _ & Hnone)|(-> & _)]; [congruence|done]. }
    destruct (RemoveData_spec _ _ _ Hwf Hr)
      as (r & _ & Hwf' & Hids & Hgone & Hothers & _).
    split_and!; try done.
    + apply ContainsRecord_false. unfold GetRecordPtr in Hgone.
      destruct (DataMap s' !! Id) as [j|] eqn:Hj; [|done].
      destruct (derived_ok_DataMap_lookup _ _ _ (wf_derived _ Hwf') Hj)
        as (r' & Hr' & _). congruence.
    + intros Id' Hne. by destruct (Hothers Id' Hne).
Qed.

Lemma RemoveData_removes_one_record_witness :
  state_wf Sample_State ∧
  RemoveData (MkPrimaryAssetId "Armor" "Shield") Sample_State
    = Some (false, Sample_State) ∧
  ∃ s', RemoveData (MkPrimaryAssetId "Weapon" "Sword") Sample_State
          = Some (true, s') ∧
        ContainsRecord s' (MkPrimaryAssetId "Weapon" "Sword") = false ∧
        ContentOf s' (MkPrimaryAssetId "Weapon" "Bow") =
          ContentOf Sample_State (MkPrimaryAssetId "Weapon" "Bow").
Proof.
  assert (state_wf Sample_State) as Hwf
    by exact (reachable_wf _ _ Sample_State_reachable).
  destruct (RemoveData_removes_one_record (MkPrimaryAssetId "Armor" "Shield")
              Sample_State Hwf) as [Hmissing _].
  destruct (RemoveData_removes_one_record (MkPrimaryAssetId "Weapon" "Sword")
              Sample_State Hwf) as [_ Hheld].
  split; [exact Hwf|]. split; [apply Hmissing; vm_compute; reflexivity|].
  assert (RemoveData (MkPrimaryAssetId "Weapon" "Sword") Sample_State =
          Some (true, default EmptyState
                        (snd <$> RemoveData (MkPrimaryAssetId "Weapon" "Sword")
                                   Sample_State))) as Hr
    by (vm_compute; reflexivity).
  destruct (Hheld _ _ Hr) as (_ & _ & Hgone & _ & Hothers);
    [vm_compute; reflexivity|].
  eexists. split; [exact Hr|]. split; [exact Hgone|].
  apply Hothers. intros H. discriminate H.
Defined.

(** X4.  Diffing a state against itself leaves no record: [DiffRecords]
    finds every record identical to its counterpart and resets the state. *)
Theorem DiffRecords_against_itself s :
  state_wf s →
  ∃ s', DiffRecords s s = Some s' ∧ HasRecords s' = false.
Proof. intros Hwf. apply DiffRecords_self, (wf_derived _ Hwf). Qed.

Lemma DiffRecords_against_itself_witness :
  state_wf Diff_Base ∧ HasRecords Diff_Base = true ∧
  ∃ s', DiffRecords Diff_Base Diff_Base = Some s' ∧ HasRecords s' = false.
Proof.
  assert (state_wf Diff_Base) as Hwf by exact (reachable_wf _ _ Diff_Base_reachable).
  split; [exact Hwf|]. split; [vm_compute; reflexivity|].
  exact (DiffRecords_against_itself Diff_Base Hwf).
Defined.

(** X5.  [FixupDependencies] passes its checks exactly when the records
    are strictly sorted by id (sorted, and no id twice).  When it does, the
    record at position [i] gets the replication index [i + 1], both maps
    send the id and the replication index of every record to its position
    and hold nothing else, the top-level checksum is invalidated and the
    container is not touched. *)
Theorem FixupDependencies_rebuilds_secondary_data b s :
  (is_Some (FixupDependencies b s) ↔ ids_sorted (DataContainer s)) ∧
  (∀ s', FixupDependencies b s = Some s' →
     CustomDataContainer s' = CustomDataContainer s ∧
     GetPrimaryAssetId <$> DataContainer s' = GetPrimaryAssetId <$> DataContainer s ∧
     (∀ i r, DataContainer s' !! i = Some r →
        RepIndex r = Z.of_nat i + 1 ∧
        DataMap s' !! GetPrimaryAssetId r = Some i ∧
        ReplicationMap s' !! RepIndex r = Some i) ∧
     (∀ Id i, DataMap s' !! Id = Some i →
        GetPrimaryAssetId <$> DataContainer s' !! i = Some Id) ∧
     (∀ k i, ReplicationMap s' !! k = Some i →
        RepIndex <$> DataContainer s' !! i = Some k) ∧
     Checksum s' = 0).
Proof.
  split.
  - split.
    + intros [s' Hf]. by apply FixupDependencies_spec in Hf as (_ & _ & _ & _ & ? & _).
    + apply FixupDependencies_total.
  - intros s' Hf.
    pose proof (FixupDependencies_spec _ _ _ Hf) as (_ & HC & _ & Hsum & _ & Hd).
    destruct Hd as [HRep HMap HRM _ _].
    split_and!; [done|by eapply FixupDependencies_ids| | | |done].
    + intros i r Hr. split_and!.
      * by apply HRep.
      * apply HMap. eauto.
      * rewrite (HRep _ _ Hr). apply HRM. split; [done|]. by eapply lookup_lt_Some.
    + intros Id i Hi. apply HMap in Hi as (r & Hr & <-). by rewrite Hr.
    + intros k i Hi. apply HRM in Hi as [-> Hlt].
      destruct (lookup_lt_is_Some_2 _ _ Hlt) as [r Hr].
      rewrite Hr. simpl. f_equal. by apply HRep.
Qed.

(* ===================================================================== *)
(** ** When RemoveData fails                                              *)
(* ===================================================================== *)

Lemma ShiftRecord_is_Some C k r :
  is_Some (ShiftRecord C k r) ↔
  ∀ f, k < GetIndex f r → IsValidIndex C (GetIndex f r - 1) = true.
Proof.
  split.
  - intros [r' Hs] f Hlt. unfold ShiftRecord in Hs.
    destruct (ShiftField C k FieldDefaultPayload r) as [r1|] eqn:E1; [|done].
    assert (∀ g r0 r0', ShiftField C k g r0 = Some r0' → k < GetIndex g r0 →
              IsValidIndex C (GetIndex g r0 - 1) = true) as Hfield.
    { intros g r0 r0'. unfold ShiftField. intros H Hgt.
      rewrite (proj2 (Zgtb_true _ _) Hgt) in H.
      by destruct (IsValidIndex C (GetIndex g r0 - 1)). }
    destruct f.
    + by eapply Hfield.
    + destruct (ShiftField_fields _ _ _ _ _ FieldCustomData E1) as [Hi _].
      rewrite decide_False in Hi by done. rewrite <- Hi.
      eapply Hfield; [done|]. by rewrite Hi.
  - intros H. apply ShiftRecord_total. intros f Hgt. apply H. by apply Zgtb_true.
Qed.

Lemma mapM_is_Some_iff {A B} (h : A → option B) (l : list A) :
  is_Some (mapM h l) ↔ ∀ x, x ∈ l → is_Some (h x).
Proof. rewrite mapM_is_Some, Forall_forall. done. Qed.

(** [RemoveCustomData] passes its range checks exactly when, in case the
    shift loop runs, every index behind the removed item still is an index
    of the container once it has moved down. *)
Lemma RemoveCustomData_is_Some_iff k s :
  IsValidIndex (CustomDataContainer s) k = true →
  is_Some (RemoveCustomData k s) ↔
  (IsValidIndex (delete (Z.to_nat k) (CustomDataContainer s)) k = true →
   ∀ i r f, DataContainer s !! i = Some r → k < GetIndex f r →
     IsValidIndex (delete (Z.to_nat k) (CustomDataContainer s)) (GetIndex f r - 1)
       = true).
Proof.
  intros Hk. unfold RemoveCustomData. rewrite Hk.
  destruct (IsValidIndex (delete _ _) k) eqn:Hk2.
  - assert (is_Some (mapM (ShiftRecord (delete (Z.to_nat k) (CustomDataContainer s)) k)
                       (DataContainer s)) ↔
            is_Some (match mapM (ShiftRecord (delete (Z.to_nat k)
                                               (CustomDataContainer s)) k)
                             (DataContainer s) with
                     | Some Records =>
                         Some (SetDataContainer Records
                                 (SetCustomDataContainer
                                    (delete (Z.to_nat k) (CustomDataContainer s)) s))
                     | None => None
                     end)) as <-.
    { destruct (mapM _ _); split; intros [? ?]; eauto; done. }
    rewrite mapM_is_Some_iff. split.
    + intros H _ i r f Hi Hlt. apply (proj1 (ShiftRecord_is_Some _ _ _)
                                        (H r (list_elem_of_lookup_2 _ _ _ Hi)) f Hlt).
    + intros H r Hr. apply list_elem_of_lookup in Hr as [i Hi].
      apply ShiftRecord_is_Some. intros f Hlt. by eapply H.
  - split; [done|eauto].
Qed.

(** The payload indices after [RemoveCustomData], exactly. *)
Lemma RemoveCustomData_index k s s' i r r' f :
  IsValidIndex (CustomDataContainer s) k = true →
  RemoveCustomData k s = Some s' →
  (∀ g, GetIndex g r = INDEX_NONE ∨
        IsValidIndex (CustomDataContainer s) (GetIndex g r) = true) →
  DataContainer s !! i = Some r → DataContainer s' !! i = Some r' →
  GetIndex f r' = (if GetIndex f r >? k then GetIndex f r - 1 else GetIndex f r).
Proof.
  intros Hk. unfold RemoveCustomData. rewrite Hk.
  destruct (IsValidIndex (delete _ _) k) eqn:Hk2.
  - destruct (mapM _ _) as [Records|] eqn:Hm; [|done]. intros ?; simplify_eq.
    simpl. intros _ Hr Hr'. apply mapM_Some in Hm.
    destruct (Forall2_lookup_l _ _ _ _ _ Hm Hr) as (r1 & Hr1 & Hs).
    simplify_eq. by destruct (ShiftRecord_fields _ _ _ _ f Hs).
  - intros ?; simplify_eq. simpl. intros Hrange Hr Hr'. simplify_eq.
    destruct (GetIndex f r >? k) eqn:Hgt; [|done]. exfalso.
    apply Zgtb_true in Hgt. apply IsValidIndex_true in Hk.
    apply IsValidIndex_false in Hk2.
    rewrite length_delete in Hk2 by (apply lookup_lt_is_Some; lia).
    destruct (Hrange f) as [Hn|Hv]; [unfold INDEX_NONE in Hn; lia|].
    apply IsValidIndex_true in Hv. lia.
Qed.

Lemma length_delete_le {A} (l : list A) i : (length (delete i l) ≤ length l)%nat.
Proof.
  revert i. induction l as [|x l IH]; intros [|i]; simpl; try lia.
  specialize (IH i). lia.
Qed.

Lemma RemoveCustomData_container k s s' :
  IsValidIndex (CustomDataContainer s) k = true →
  RemoveCustomData k s = Some s' →
  CustomDataContainer s' = delete (Z.to_nat k) (CustomDataContainer s).
Proof.
  intros Hk. unfold RemoveCustomData. rewrite Hk.
  destruct (IsValidIndex (delete _ _) k).
  - destruct (mapM _ _); [|done]. by intros ?; simplify_eq.
  - by intros ?; simplify_eq.
Qed.

(** Removing the payload [f] of the record at [Idx]: the slots that are
    already stale are the only ones that can break the range check. *)
Lemma RemovePayload_is_Some_iff (ex : nat → EPayloadField → Prop) Idx f s r :
  (∀ i g, ex i g ∨ ¬ ex i g) →
  blobs_ok_ex ex (DataContainer s) (CustomDataContainer s) →
  views_ok_ex ex (DataContainer s) (CustomDataContainer s) →
  ¬ ex Idx f → DataContainer s !! Idx = Some r →
  is_Some (RemovePayload Idx f s) ↔
  (GetIndex f r ≠ INDEX_NONE →
   IsValidIndex (delete (Z.to_nat (GetIndex f r)) (CustomDataContainer s))
     (GetIndex f r) = true →
   ∀ i r0 g, ex i g → DataContainer s !! i = Some r0 →
     GetIndex f r < GetIndex g r0 →
     IsValidIndex (delete (Z.to_nat (GetIndex f r)) (CustomDataContainer s))
       (GetIndex g r0 - 1) = true).
Proof.
  intros Hdec Hb Hv Hnex Hr. unfold RemovePayload. rewrite Hr.
  destruct (FieldContent_index _ _ _ _ _ f Hb Hv Hr Hnex)
    as [[Hnone Hnull]|(Hk & _ & Hread)].
  - rewrite Hnull. simpl. split; [done|eauto].
  - rewrite (proj2 (View_IsValid_true _ _) Hread).
    assert (GetIndex f r ≠ INDEX_NONE) as Hne.
    { intros E. rewrite E in Hk. by rewrite IsValidIndex_NONE in Hk. }
    rewrite bool_decide_eq_false_2 by done.
    rewrite (RemoveCustomData_is_Some_iff _ _ Hk). split.
    + intros H _ Hk2 i r0 g _ Hi Hlt. by eapply H.
    + intros H Hk2 i r0 g Hi Hlt. destruct (Hdec i g) as [Hex|Hnex'].
      * by eapply H.
      * apply IsValidIndex_true in Hk.
        destruct (blob_range _ _ _ Hb _ _ g Hi Hnex') as [Hn|Hvalid].
        -- unfold INDEX_NONE in Hn. lia.
        -- apply IsValidIndex_true in Hvalid. apply IsValidIndex_true.
           rewrite length_delete by (apply lookup_lt_is_Some; lia). lia.
Qed.

(** Once both payloads are out, the rest of [RemoveData] passes. *)
Lemma RemoveData_tail_total Id s Idx r s1 s2 :
  state_wf s → DataMap s !! Id = Some Idx → DataContainer s !! Idx = Some r →
  RemovePayload Idx FieldDefaultPayload s = Some s1 →
  RemovePayload Idx FieldCustomData s1 = Some s2 →
  ∃ s', RemoveData Id s = Some (true, s').
Proof.
  intros [Hsorted Hb Hv Hd] HIdx Hr H1 H2.
  destruct (RemovePayload_spec no_slot _ _ _ _ Hb Hv (λ H, H) H1)
    as (Hb1 & Hv1 & HF1 & Hsec1 & _).
  assert (¬ (no_slot Idx FieldCustomData ∨
             one_slot Idx FieldDefaultPayload Idx FieldCustomData)) as Hn1.
  { intros [[]|[_ ?]]. done. }
  destruct (RemovePayload_spec _ _ _ _ _ Hb1 Hv1 Hn1 H2)
    as (_ & _ & HF2 & Hsec2 & _).
  pose proof (same_secondary_trans _ _ _ Hsec1 Hsec2) as (HA2 & HDM2 & _).
  pose proof (Forall2_same_meta_trans _ _ _ HF1 HF2) as HF.
  assert (GetPrimaryAssetId r = Id) as Hid.
  { destruct (derived_ok_DataMap_lookup _ _ _ Hd HIdx) as (r' & Hr' & ?).
    congruence. }
  assert (is_Some (FindArchetypeGroup s2 (GetPrimaryAssetType r))) as [[gi g] Hgi].
  { unfold FindArchetypeGroup. rewrite HA2.
    apply (derived_ok_group_types s _ Hd), list_elem_of_fmap.
    exists r. split; [done|by eapply list_elem_of_lookup_2]. }
  unfold RemoveData. rewrite HIdx, Hr, H1, H2.
  unfold InvalidateArchetypeChecksum. rewrite Hgi. simpl.
  rewrite HDM2, Hid, HIdx.
  rewrite bool_decide_eq_true_2.
  2:{ rewrite <- (Forall2_length _ _ _ HF). by eapply lookup_lt_Some. }
  destruct (FixupDependencies_total true
              (SetDataContainer (delete Idx (DataContainer s2))
                 (SetArchetypes (alter (SetGroupChecksum 0) gi (Archetypes s2)) s2)))
    as [s' Hf].
  - simpl. apply ids_sorted_delete.
    eapply ids_sorted_same_ids; [symmetry; apply (Forall2_same_meta_ids _ _ HF)|done].
  - rewrite Hf. eauto.
Qed.

(** X6.  [RemoveData] of a record the well-formed state holds fails a
    range check exactly when the default payload of the record is the last
    item of the container and its custom data lies at least two items
    before it: the record's own default payload index, stale once its item
    is removed, is decremented by the shift loop of the second
    [RemoveCustomData] and indexes the container out of range.  In every
    other case the call returns true. *)
Theorem RemoveData_fails_on_stale_default_index Id s Idx r :
  state_wf s → DataMap s !! Id = Some Idx → DataContainer s !! Idx = Some r →
  (RemoveData Id s = None ↔
   DefaultPayloadIndex r = Z.of_nat (length (CustomDataContainer s)) - 1 ∧
   0 ≤ CustomDataIndex r < DefaultPayloadIndex r - 1) ∧
  (RemoveData Id s ≠ None → ∃ s', RemoveData Id s = Some (true, s')).
Proof.
  intros Hwf HIdx Hr. pose proof Hwf as [Hsorted Hb Hv Hd].
  set (d := DefaultPayloadIndex r). set (c := CustomDataIndex r).
  set (n := Z.of_nat (length (CustomDataContainer s))).
  assert (d = INDEX_NONE ∨ 0 ≤ d < n) as Hdr.
  { destruct (blob_range _ _ _ Hb _ _ FieldDefaultPayload Hr (λ H, H)) as [?|H];
      [by left|right]. by apply IsValidIndex_true in H. }
  assert (c = INDEX_NONE ∨ 0 ≤ c < n) as Hcr.
  { destruct (blob_range _ _ _ Hb _ _ FieldCustomData Hr (λ H, H)) as [?|H];
      [by left|right]. by apply IsValidIndex_true in H. }
  assert (d ≠ INDEX_NONE → d ≠ c) as Hdc.
  { intros Hne.
    refine (blob_distinct _ _ _ Hb Idx Idx r r FieldDefaultPayload FieldCustomData
              Hr Hr _ (λ H, H) (λ H, H) Hne).
    intros [=]. }
  (* the first payload always goes *)
  destruct (proj2 (RemovePayload_is_Some_iff no_slot Idx FieldDefaultPayload s r
                     (λ _ _, or_intror (λ H, H)) Hb Hv (λ H, H) Hr)) as [s1 H1].
  { intros _ _ i r0 g []. }
  destruct (RemovePayload_spec no_slot _ _ _ _ Hb Hv (λ H, H) H1)
    as (Hb1 & Hv1 & HF1 & _ & _).
  destruct (Forall2_lookup_l _ _ _ _ _ HF1 Hr) as (r1 & Hr1 & _).
  set (ex1 := λ i g, no_slot i g ∨ one_slot Idx FieldDefaultPayload i g) in *.
  assert (∀ i g, ex1 i g ∨ ¬ ex1 i g) as Hdec1.
  { intros i g. destruct (one_slot_dec Idx FieldDefaultPayload i g) as [?|Hn];
      [left; by right|right]. intros [[]|?]. done. }
  assert (¬ ex1 Idx FieldCustomData) as Hn1.
  { intros [[]|[_ ?]]. done. }
  (* what the first removal leaves at [Idx] *)
  assert (GetIndex FieldDefaultPayload r1 = d ∧
          GetIndex FieldCustomData r1 =
            (if bool_decide (d ≠ INDEX_NONE ∧ d < c) then c - 1 else c) ∧
          Z.of_nat (length (CustomDataContainer s1)) =
            (if bool_decide (d = INDEX_NONE) then n else n - 1))
    as (Hd1 & Hc1 & Hn1').
  { unfold RemovePayload in H1. rewrite Hr in H1.
    destruct (FieldContent_index _ _ _ _ _ FieldDefaultPayload Hb Hv Hr (λ H, H))
      as [[Hnone Hnull]|(Hk & _ & Hread)].
    - rewrite Hnull in H1. simpl in H1. simplify_eq.
      fold d in Hnone. rewrite Hnone.
      rewrite bool_decide_eq_false_2 by (intros [? _]; done).
      rewrite bool_decide_eq_true_2 by done. done.
    - rewrite (proj2 (View_IsValid_true _ _) Hread) in H1.
      assert (d ≠ INDEX_NONE) as Hne.
      { intros E. unfold d in E. simpl in Hk. rewrite E in Hk.
        by rewrite IsValidIndex_NONE in Hk. }
      rewrite bool_decide_eq_false_2 in H1 by done.
      assert (∀ g, GetIndex g r = INDEX_NONE ∨
                   IsValidIndex (CustomDataContainer s) (GetIndex g r) = true)
        as Hrange.
      { intros g. apply (blob_range _ _ _ Hb _ _ g Hr (λ H, H)). }
      pose proof (RemoveCustomData_index _ _ _ _ _ _ FieldDefaultPayload
                    Hk H1 Hrange Hr Hr1) as E1.
      pose proof (RemoveCustomData_index _ _ _ _ _ _ FieldCustomData
                    Hk H1 Hrange Hr Hr1) as E2.
      simpl in E1, E2. fold d c in E1, E2.
      assert (d >? d = false) as Hdd by (apply Zgtb_false; lia).
      rewrite Hdd in E1.
      pose proof (RemoveCustomData_container _ _ _ Hk H1) as HC1.
      split_and!.
      + done.
      + change (GetIndex FieldCustomData r1) with (CustomDataIndex r1).
        rewrite E2. case_bool_decide as Hlt.
        * by rewrite (proj2 (Zgtb_true _ _) (proj2 Hlt)).
        * destruct (c >? d) eqn:Hgt; [|done]. apply Zgtb_true in Hgt.
          exfalso. apply Hlt. done.
      + rewrite HC1, length_delete.
        2:{ by apply IsValidIndex_lookup. }
        rewrite bool_decide_eq_false_2 by done.
        apply IsValidIndex_true in Hk. unfold n. lia. }
  (* the second payload goes unless the stale index is in the way *)
  pose proof (RemovePayload_is_Some_iff ex1 Idx FieldCustomData s1 r1
                Hdec1 Hb1 Hv1 Hn1 Hr1) as Hiff.
  rewrite Hc1 in Hiff.
  set (c1 := if bool_decide (d ≠ INDEX_NONE ∧ d < c) then c - 1 else c) in *.
  assert (is_Some (RemovePayload Idx FieldCustomData s1) ↔
          ¬ (d = n - 1 ∧ 0 ≤ c < d - 1)) as Hgood.
  { rewrite Hiff. clear Hiff. split.
    - intros H [Hlast Hbefore].
      assert (c1 = c) as Hc1c.
      { unfold c1. rewrite bool_decide_eq_false_2; [done|]. lia. }
      rewrite bool_decide_eq_false_2 in Hn1' by (unfold INDEX_NONE; lia).
      assert (IsValidIndex (CustomDataContainer s1) c1 = true) as Hk1.
      { apply IsValidIndex_true. rewrite Hn1', Hc1c. lia. }
      assert (IsValidIndex (delete (Z.to_nat c1) (CustomDataContainer s1))
                (GetIndex FieldDefaultPayload r1 - 1) = true) as Hbad.
      { apply (H (ltac:(rewrite Hc1c; unfold INDEX_NONE; lia))) with (i := Idx).
        - apply IsValidIndex_true.
          rewrite length_delete by (apply IsValidIndex_lookup; done).
          apply IsValidIndex_true in Hk1. lia.
        - right. by split.
        - done.
        - rewrite Hd1, Hc1c. lia. }
      rewrite Hd1 in Hbad. apply IsValidIndex_true in Hbad.
      rewrite length_delete in Hbad by (apply IsValidIndex_lookup; done).
      apply IsValidIndex_true in Hk1. lia.
    - intros Hnbad Hne Hk2 i r0 g Hex Hi Hlt. destruct Hex as [[]|[-> ->]].
      rewrite Hr1 in Hi. injection Hi as <-.
      rewrite Hd1 in Hlt |- *.
      apply IsValidIndex_true in Hk2. apply IsValidIndex_true.
      assert (0 ≤ c1 < Z.of_nat (length (CustomDataContainer s1))) as Hk1.
      { destruct (decide (Z.to_nat c1 < length (CustomDataContainer s1))%nat).
        - rewrite length_delete in Hk2 by (by apply lookup_lt_is_Some). lia.
        - pose proof (length_delete_le (CustomDataContainer s1) (Z.to_nat c1)).
          lia. }
      rewrite length_delete in Hk2 |- * by (apply lookup_lt_is_Some; lia).
      assert (c1 = c ∨ (c1 = c - 1 ∧ d < c)) as Hc1c.
      { unfold c1. destruct (bool_decide (d ≠ INDEX_NONE ∧ d < c)) eqn:Hb0.
        - right. apply bool_decide_eq_true in Hb0 as [_ Hb0]. by split.
        - by left. }
      unfold INDEX_NONE in *.
      destruct (decide (d = -1)) as [Hd0|Hd0].
      + rewrite bool_decide_eq_true_2 in Hn1' by done. lia.
      + rewrite bool_decide_eq_false_2 in Hn1' by done. lia. }
  split.
  - split.
    + intros Hnone. destruct (decide (d = n - 1 ∧ 0 ≤ c < d - 1)) as [?|Hno];
        [done|]. exfalso.
      apply Hgood in Hno as [s2 H2].
      destruct (RemoveData_tail_total _ _ _ _ _ _ Hwf HIdx Hr H1 H2) as [s' Hs'].
      congruence.
    + intros Hbad. unfold RemoveData. rewrite HIdx, Hr, H1.
      destruct (RemovePayload Idx FieldCustomData s1) as [s2|] eqn:H2; [|done].
      exfalso. apply (proj1 Hgood); [eauto|done].
  - intros Hsome.
    destruct (RemovePayload Idx FieldCustomData s1) as [s2|] eqn:H2.
    + by eapply RemoveData_tail_total.
    + exfalso. apply Hsome. unfold RemoveData. by rewrite HIdx, Hr, H1, H2.
Qed.

Lemma RemoveData_fails_on_stale_default_index_witness :
  RemoveData (MkPrimaryAssetId "Food" "Herb") Diff_Base = None ∧
  ∃ s', RemoveData (MkPrimaryAssetId "Weapon" "Bow") Diff_Base = Some (true, s').
Proof.
  pose proof (reachable_wf _ _ Diff_Base_reachable) as Hwf.
  split.
  - apply (proj1 (RemoveData_fails_on_stale_default_index
                    (MkPrimaryAssetId "Food" "Herb") Diff_Base 0%nat Diff_HerbRecord
                    Hwf ltac:(vm_compute; reflexivity)
                    ltac:(vm_compute; reflexivity))).
    split; [vm_compute; reflexivity|]. split; vm_compute; [discriminate|reflexivity].
  - destruct (RemoveData_fails_on_stale_default_index
                (MkPrimaryAssetId "Weapon" "Bow") Diff_Base 1%nat Diff_BowRecord
                Hwf ltac:(vm_compute; reflexivity) ltac:(vm_compute; reflexivity))
      as [Hiff Hsome].
    apply Hsome. intros Hnone. apply Hiff in Hnone as [Hlast _].
    vm_compute in Hlast. discriminate Hlast.
Defined.

(* ===================================================================== *)
(** * Further properties of the redirects                                 *)
(* ===================================================================== *)

(** X7.  Whatever the two redirect lists of the settings hold, the redirects
    load, and one [TryRedirect] settles an id: it reports a change exactly
    for the stale ids, the id it returns is not stale, and a second
    [TryRedirect] changes nothing. *)
Theorem TryRedirect_settles_in_one_step
    (TypeRedirects NameRedirects : list FCommonInventoryRedirector) :
  ∃ R, LoadRedirectsFromConfig TypeRedirects NameRedirects = Some R ∧
    ∀ Id,
      (TryRedirect R Id).1 = IsStale R Id ∧
      IsStale R (TryRedirect R Id).2 = false ∧
      TryRedirect R (TryRedirect R Id).2 = (false, (TryRedirect R Id).2).
Proof.
  unfold LoadRedirectsFromConfig.
  pose proof (GenerateRedirectionMap_ok NameRedirects) as HN.
  pose proof (GenerateRedirectionMap_ok TypeRedirects) as HT.
  destruct (ResolveRedirectionMap_total _ HT) as [[[RT IT] logT] HrT].
  destruct (ResolveRedirectionMap_total _ HN) as [[[RN IN] logN] HrN].
  rewrite HrT, HrN. eexists. split; [done|]. intros [t n].
  destruct (ResolveRedirectionMap_spec _ HT _ _ _ HrT) as (HsT & _).
  destruct (ResolveRedirectionMap_spec _ HN _ _ _ HrN) as (HsN & _).
  assert (∀ U R k v,
            (∀ k v, TMap.Find R k = Some v →
                    chain_end U k v ∧ is_Some (TMap.Find U k)) →
            TMap.Find R k = Some v → TMap.Find R v = None) as Hend.
  { intros U R k v Hs Hk. destruct (TMap.Find R v) as [w|] eqn:Hw; [|done].
    apply Hs in Hk as [[_ Hterm] _]. apply Hs in Hw as [_ [? Hkey]]. congruence. }
  unfold TryRedirect, IsStale, TMap.Contains. simpl.
  destruct (TMap.Find RN n) as [n'|] eqn:Hn;
    destruct (TMap.Find RT t) as [t'|] eqn:Ht; simpl;
    rewrite ?(Hend _ _ _ _ HsN Hn), ?(Hend _ _ _ _ HsT Ht), ?Hn, ?Ht; done.
Qed.

(** X8.  [GenerateRedirectionMap] keeps, for every old value, the first
    valid redirector of the list: a lookup returns the new value of that
    redirector.  Every other redirector is dropped with a warning, so the
    entries of the map and the warnings add up to the list. *)
Theorem GenerateRedirectionMap_first_valid_wins
    (InRedirects : list FCommonInventoryRedirector) (k : FName) :
  TMap.Find (GenerateRedirectionMap InRedirects) k =
    NewValue <$>
      head (filter (λ r, Redirector_IsValid r = true ∧ OldValue r = k) InRedirects) ∧
  (length (GenerateRedirectionMap InRedirects) +
   length (GenerateRedirectionMap_from [] InRedirects).2 = length InRedirects)%nat ∧
  Forall (λ l, Verbosity l = Warning) (GenerateRedirectionMap_from [] InRedirects).2.
Proof.
  unfold GenerateRedirectionMap.
  assert (∀ m,
    TMap.Find (GenerateRedirectionMap_from m InRedirects).1 k =
      match TMap.Find m k with
      | Some v => Some v
      | None => NewValue <$>
          head (filter (λ r, Redirector_IsValid r = true ∧ OldValue r = k) InRedirects)
      end ∧
    (length (GenerateRedirectionMap_from m InRedirects).1 +
     length (GenerateRedirectionMap_from m InRedirects).2
     = length m + length InRedirects)%nat ∧
    Forall (λ l, Verbosity l = Warning) (GenerateRedirectionMap_from m InRedirects).2)
    as Hgen.
  { induction InRedirects as [|r rs IH]; intros m; simpl.
    - split_and!; [by destruct (TMap.Find m k)|lia|constructor].
    - destruct (Redirector_IsValid r) eqn:Hv; simpl.
      + destruct (TMap.Contains m (OldValue r)) eqn:Hc.
        * destruct (IH m) as (IH1 & IH2 & IH3).
          destruct (GenerateRedirectionMap_from m rs) as [m' log]. simpl in *.
          split_and!; [|lia|by constructor].
          rewrite IH1. destruct (TMap.Find m k) as [v|] eqn:Hk; [done|].
          rewrite filter_cons. destruct (decide _) as [[_ Hold]|]; [|done].
          apply Contains_true in Hc as [v Hc]. congruence.
        * destruct (IH (TMap.Emplace m (OldValue r) (NewValue r)))
            as (IH1 & IH2 & IH3).
          apply Contains_false in Hc.
          rewrite length_Emplace_fresh in IH2 by done.
          split_and!; [|lia|done].
          rewrite IH1, Find_Emplace, filter_cons.
          destruct (decide (OldValue r = k)) as [<-|Hne].
          -- rewrite Hc, decide_True by done. done.
          -- rewrite decide_False by (intros [_ ?]; done). done.
      + destruct (IH m) as (IH1 & IH2 & IH3).
        destruct (GenerateRedirectionMap_from m rs) as [m' log]. simpl in *.
        split_and!; [|lia|by constructor].
        rewrite IH1, filter_cons, decide_False by (intros [? _]; congruence). done. }
  destruct (Hgen []) as (H1 & H2 & H3). simpl in *. done.
Qed.

(** ** Chains that are walked with a set of visited keys *)

Section walked.
Variable U : list (FName * FName).
Notation step := (redirect_step U).

Lemma walk_closed_rtc V Out v y :
  walk_closed U V Out → v ∈ V → rtc step v y → y ∈ V ∨ rtc step Out y.
Proof.
  intros Hcl Hv Hvy. induction Hvy as [v|v w y Hvw Hwy IH]; [by left|].
  destruct (Hcl _ Hv) as [->|Hnext].
  - right. by eapply rtc_l.
  - destruct (Hnext _ Hvw) as [Hw| ->]; [by apply IH|by right].
Qed.

Lemma walk_closed_step V Out Next :
  walk_closed U V Out → step Out Next →
  walk_closed U (TSet.Emplace V Out) Next.
Proof.
  intros Hcl Hstep v Hv. right. intros y Hy.
  assert (v = Out ∨ (v ∈ V ∧ v ≠ Out)) as [->|[HvV Hne]].
  { apply elem_of_TSet_Emplace in Hv as [?|?]; [|by left].
    destruct (decide (v = Out)); [by left|by right]. }
  - right. eapply redirect_step_det; eauto.
  - left. apply elem_of_TSet_Emplace.
    destruct (Hcl _ HvV) as [?|Hnext]; [done|].
    destruct (Hnext _ Hy) as [?| ->]; [by left|by right].
Qed.

(** When the walk runs into a key it has seen, all it can reach has been
    seen. *)
Lemma walk_closed_cycle V Out Next y :
  walk_closed U V Out → step Out Next → Next ∈ V →
  rtc step Out y → y ∈ V ∨ y = Out.
Proof.
  intros Hcl Hstep HNext Hy. revert y Hy.
  apply (rtc_ind_r (λ y, y ∈ V ∨ y = Out)); [by right|]. intros y z _ Hyz IH.
  assert (y = Out ∨ (y ∈ V ∧ y ≠ Out)) as [->|[HyV Hne]].
  { destruct IH as [?|?]; [|by left].
    destruct (decide (y = Out)); [by left|by right]. }
  - left. by rewrite (redirect_step_det U _ _ _ Hyz Hstep).
  - destruct (Hcl _ HyV) as [?|Hnext]; [done|]. by apply Hnext.
Qed.
End walked.

Section can_resolve.
Variable U : list (FName * FName).
Hypothesis HU : raw_map_ok U.
Variables OriginalValue TargetValue : FName.
Hypothesis Hne : OriginalValue ≠ TargetValue.
Notation step := (redirect_step U).

Lemma ResolveValue_loop_stop fuel V Out :
  OriginalValue ∈ V → (∀ v, v ∈ V → v ≠ TargetValue) →
  Out ≠ TargetValue → Out ∉ V →
  walk_closed U V Out → rtc step OriginalValue Out →
  (length (filter (λ k, k ∉ V) (TMap.Keys U)) < fuel)%nat →
  ∃ r, ResolveValue_loop fuel U OriginalValue (Some TargetValue) V Out = Some r ∧
       (r = TargetValue ↔ tc step OriginalValue TargetValue).
Proof.
  revert V Out. induction fuel as [|fuel IH];
    intros V Out HoV HVt HOt HOV Hcl Hreach Hfuel; [lia|].
  simpl. destruct (TMap.Find U Out) as [Next|] eqn:HOut.
  - case_bool_decide as Hstop.
    + injection Hstop as <-. eexists. split; [done|]. split; [|done].
      intros _. eapply tc_rtc_l; [exact Hreach|]. by apply tc_once.
    + assert (Next ≠ TargetValue) as HNt by congruence.
      destruct (TSet.Contains V Next) eqn:Hc.
      * apply TSet_Contains_true in Hc. eexists. split; [done|].
        split; [done|]. intros Htc. exfalso.
        destruct (walk_closed_rtc U V Out _ _ Hcl HoV (tc_rtc _ _ Htc)) as [?|Hr];
          [by eapply HVt|].
        destruct (walk_closed_cycle U V Out Next _ Hcl HOut Hc Hr) as [?|?];
          [by eapply HVt|done].
      * apply TSet_Contains_false in Hc.
        destruct (raw_map_step_valid U Out Next HU HOut) as (_ & _ & HON).
        apply IH.
        -- apply elem_of_TSet_Emplace. by left.
        -- intros v Hv. apply elem_of_TSet_Emplace in Hv as [?| ->]; [eauto|done].
        -- done.
        -- intros Hin. apply elem_of_TSet_Emplace in Hin as [?|?]; [done|]. by subst.
        -- by apply walk_closed_step.
        -- by eapply rtc_r.
        -- assert (Out ∈ TMap.Keys U) as Hkey by (apply Find_is_Some_keys; eauto).
           pose proof (unvisited_decreases V Out _ Hkey HOV). lia.
  - eexists. split; [done|]. split; [done|]. intros Htc. exfalso.
    destruct (walk_closed_rtc U V Out _ _ Hcl HoV (tc_rtc _ _ Htc)) as [?|Hr];
      [by eapply HVt|].
    apply rtc_inv in Hr as [?|(y & Hy & _)]; [done|].
    unfold redirect_step in Hy. congruence.
Qed.

Lemma ResolveValue_stop :
  ∃ b r, ResolveValue U OriginalValue (Some TargetValue) = Some (b, r) ∧
         (b = true ∧ r = TargetValue ↔ tc step OriginalValue TargetValue).
Proof.
  unfold ResolveValue.
  replace (length U + 2)%nat with (S (S (length U))) by lia. simpl.
  destruct (TMap.Find U OriginalValue) as [Next|] eqn:HO.
  - case_bool_decide as Hstop.
    + injection Hstop as <-. eexists _, _. split; [done|].
      rewrite bool_decide_eq_false_2 by done. split; [|done].
      intros _. by apply tc_once.
    + assert (Next ≠ TargetValue) as HNt by congruence.
      destruct (raw_map_step_valid U _ _ HU HO) as (_ & _ & HON).
      rewrite (proj2 (TSet_Contains_false [OriginalValue] Next))
        by (intros ->%list_elem_of_singleton; done).
      destruct (ResolveValue_loop_stop (S (length U))
                  (TSet.Emplace [OriginalValue] OriginalValue) Next)
        as (r & Hr & Hiff).
      * apply elem_of_TSet_Emplace. left. left.
      * intros v Hv. apply elem_of_TSet_Emplace in Hv as [Hv| ->]; [|done].
        by apply list_elem_of_singleton in Hv as ->.
      * done.
      * intros Hin. apply elem_of_TSet_Emplace in Hin as [Hin|?]; [|done].
        by apply list_elem_of_singleton in Hin.
      * intros v Hv. right. intros y Hy. right.
        assert (v = OriginalValue) as ->.
        { apply elem_of_TSet_Emplace in Hv as [Hv|?]; [|done].
          by apply list_elem_of_singleton in Hv. }
        eapply redirect_step_det; eauto.
      * by apply rtc_once.
      * pose proof (unvisited_le U (TSet.Emplace [OriginalValue] OriginalValue)). lia.
      * simpl in Hr. rewrite Hr. eexists _, _. split; [done|].
        rewrite <- Hiff. split; [by intros [_ ?]|]. intros ->.
        by rewrite bool_decide_eq_false_2.
  - eexists _, _. split; [done|]. rewrite bool_decide_eq_true_2 by done.
    split; [by intros [? _]|]. intros Htc. exfalso.
    apply tc_rtc, rtc_inv in Htc as [?|(y & Hy & _)]; [done|].
    unfold redirect_step in Hy. congruence.
Qed.
End can_resolve.

(** X9.  [CanResolveInto] returns, and it returns true exactly when the
    two values differ and the target lies on the chain of redirectors that
    starts at the original value (the first valid redirector of each old
    value counts), whether or not that chain ends or runs into a cycle
    later. *)
Theorem CanResolveInto_iff_target_on_chain
    (InRedirects : list FCommonInventoryRedirector)
    (OriginalValue TargetValue : FName) :
  ∃ b, CanResolveInto InRedirects OriginalValue TargetValue = Some b ∧
       (b = true ↔
        OriginalValue ≠ TargetValue ∧
        tc (redirect_step (GenerateRedirectionMap InRedirects))
           OriginalValue TargetValue).
Proof.
  unfold CanResolveInto. case_bool_decide as Hne.
  - destruct (ResolveValue_stop _ (GenerateRedirectionMap_ok InRedirects)
                OriginalValue TargetValue Hne) as (b & r & -> & Hiff).
    destruct b.
    + eexists. split; [done|]. rewrite bool_decide_eq_true.
      split; [intros ->; split; [done|]; by apply Hiff|].
      intros [_ Htc]. by apply Hiff in Htc as [_ ?].
    + eexists. split; [done|]. split; [done|].
      intros [_ Htc]. by apply Hiff in Htc as [? _].
  - eexists. split; [done|]. split; [done|]. by intros [? _].
Qed.

(** X10.  [HasCommonBase] returns, and it returns true exactly when the
    first value is redirected and both values have the same end of chain.
    A first value that is not redirected gives false even when the second
    value resolves into it. *)
Theorem HasCommonBase_iff_same_chain_end
    (InRedirects : list FCommonInventoryRedirector)
    (FirstValue SecondValue : FName) :
  let U := GenerateRedirectionMap InRedirects in
  ∃ b, HasCommonBase InRedirects FirstValue SecondValue = Some b ∧
       (b = true ↔
        ∃ Base, Base ≠ FirstValue ∧ chain_end U FirstValue Base ∧
                chain_end U SecondValue Base) ∧
       (TMap.Find U FirstValue = None → b = false).
Proof.
  intros U. unfold HasCommonBase. fold U.
  pose proof (GenerateRedirectionMap_ok InRedirects) as HU. fold U in HU.
  destruct (ResolveValue_total U HU FirstValue) as [[b1 r1] H1]. rewrite H1.
  apply ResolveValue_spec in H1 as [[Hend1 ->]|(Hcyc1 & -> & ->)].
  - case_bool_decide as Hsame; simpl.
    + subst r1. eexists. split; [done|]. split; [|done].
      split; [done|]. intros (Base & Hne & HB1 & _).
      by rewrite (chain_end_unique U _ _ _ Hend1 HB1) in Hne.
    + assert (TMap.Find U FirstValue = None → False) as Hkey.
      { intros Hnone. apply Hsame. destruct Hend1 as [Hr _].
        apply rtc_inv in Hr as [?|(y & Hy & _)]; [done|].
        unfold redirect_step in Hy. congruence. }
      case_bool_decide as Hsecond.
      * eexists. split; [done|]. split; [|by intros ?%Hkey]. split; [|done].
        intros _. exists r1. split_and!; [done|done|].
        subst. split; [apply rtc_refl|apply Hend1].
      * destruct (ResolveValue_total U HU SecondValue) as [[b2 r2] H2]. rewrite H2.
        apply ResolveValue_spec in H2 as [[Hend2 ->]|(Hcyc2 & -> & ->)].
        -- case_bool_decide as Hsame2; simpl.
           ++ subst r2. eexists. split; [done|]. split; [|done].
              split; [done|]. intros (Base & _ & HB1 & HB2).
              exfalso. apply Hsecond.
              rewrite (chain_end_unique U _ _ _ Hend1 HB1).
              by rewrite (chain_end_unique U _ _ _ Hend2 HB2).
           ++ eexists. split; [done|]. split; [|by intros ?%Hkey].
              rewrite bool_decide_eq_true. split.
              ** intros ->. exists r2. split_and!; [congruence|done|done].
              ** intros (Base & _ & HB1 & HB2).
                 rewrite (chain_end_unique U _ _ _ Hend1 HB1).
                 by rewrite (chain_end_unique U _ _ _ Hend2 HB2).
        -- eexists. split; [done|]. split; [|done]. split; [done|].
           intros (Base & _ & _ & HB2). exfalso.
           by eapply chain_cyclic_no_end.
  - eexists. split; [done|]. split; [|done]. split; [done|].
    intros (Base & _ & HB1 & _). exfalso. by eapply chain_cyclic_no_end.
Qed.

(** ** CleanupRedirects *)

Lemma length_filter_lt_iff {A} (P : A → Prop) `{∀ x, Decision (P x)} (l : list A) :
  (length (filter P l) < length l)%nat ↔ ∃ x, x ∈ l ∧ ¬ P x.
Proof.
  induction l as [|y l IH].
  - simpl. split; [lia|]. intros (x & Hx & _). by apply elem_of_nil in Hx.
  - rewrite filter_cons. pose proof (length_filter P l) as Hle.
    destruct (decide (P y)) as [Hy|Hy]; simpl.
    + rewrite <- Nat.succ_lt_mono, IH. split.
      * intros (x & Hx & HP). exists x. split; [by right|done].
      * intros (x & Hx & HP). apply elem_of_cons in Hx as [->|Hx]; [done|eauto].
    + split; [|lia]. intros _. exists y. split; [left|done].
Qed.

Section cleanup.
Variable U : list (FName * FName).
Hypothesis HU : raw_map_ok U.
Variable TargetValue : FName.
Notation step := (redirect_step U).

Lemma sealed_rtc (V : list FName) v y :
  (∀ v, v ∈ V → ∀ y, step v y → y ∈ V) → v ∈ V → rtc step v y → y ∈ V.
Proof.
  intros Hs Hv Hvy. induction Hvy as [v|v w y Hvw Hwy IH]; [done|].
  apply IH. by eapply Hs.
Qed.

Lemma CleanupRedirects_walk_spec fuel C I V Current Next :
  cleanup_inv U TargetValue C I →
  step Current Next →
  (∀ v, v ∈ V → v ≠ TargetValue) →
  (∀ v, v ∈ V → ∀ y, step v y → y ∈ V ∨ y = Current) →
  (∀ v, v ∈ V → tc step v Current) →
  (length (filter (λ k, k ∉ V) (TMap.Keys U)) < fuel)%nat →
  ∃ V' Current',
    CleanupRedirects_walk fuel U TargetValue C I V Current Next
      = Some (V', Current') ∧
    (∀ v, v ∈ V → v ∈ V') ∧
    (Current' = TargetValue → ∀ v, v ∈ V' → tc step v TargetValue) ∧
    (Current' ≠ TargetValue → ∀ v, v ∈ V' → ¬ rtc step v TargetValue) ∧
    (Current ∈ V' ∨ Current ∈ I ∨ Current ∈ C).
Proof.
  intros [HtC HC HI]. revert V Current Next.
  induction fuel as [|fuel IH]; intros V Current Next Hstep HVt Hcl Htc Hfuel; [lia|].
  simpl.
  assert (walk_closed U V Current) as Hwc.
  { intros v Hv. right. by apply Hcl. }
  destruct (TSet.Contains V Current) eqn:HcV; simpl.
  { apply TSet_Contains_true in HcV.
    eexists _, _. split; [done|]. split_and!; [done| | |by left].
    - intros ->. by apply HVt in HcV.
    - intros _ v Hv Hr. eapply HVt; [|done].
      eapply (sealed_rtc V v); [|done|done].
      intros v' Hv' y Hy. destruct (Hcl _ Hv' _ Hy) as [?| ->]; done. }
  apply TSet_Contains_false in HcV.
  destruct (TSet.Contains I Current) eqn:HcI; simpl.
  { apply TSet_Contains_true in HcI.
    eexists _, _. split; [done|]. split_and!; [done| | |by right; left].
    - intros ->. exfalso. by eapply HI.
    - intros _ v Hv Hr.
      destruct (walk_closed_rtc U V Current _ _ Hwc Hv Hr) as [?|?];
        [by eapply HVt|by eapply HI]. }
  destruct (TSet.Contains C Current) eqn:HcC.
  { apply TSet_Contains_true in HcC.
    eexists _, _. split; [done|]. split_and!; [done| |done|by right; right].
    intros _ v Hv. destruct (HC _ HcC) as [<-|Hk]; [by apply Htc|].
    eapply tc_rtc_r; [by apply Htc|by apply tc_rtc]. }
  apply TSet_Contains_false in HcC.
  assert (Current ≠ TargetValue) as HCt by (intros ->; done).
  assert (∀ v, v ∈ TSet.Emplace V Current → v ≠ TargetValue) as HVt'.
  { intros v Hv. apply elem_of_TSet_Emplace in Hv as [?| ->]; [eauto|done]. }
  assert (∀ v, v ∈ TSet.Emplace V Current → ∀ y, step v y →
               y ∈ TSet.Emplace V Current ∨ y = Next) as Hcl'.
  { intros v Hv y Hy. apply elem_of_TSet_Emplace in Hv as [Hv| ->].
    - left. apply elem_of_TSet_Emplace.
      destruct (Hcl _ Hv _ Hy) as [?| ->]; [by left|by right].
    - right. eapply redirect_step_det; eauto. }
  assert (∀ v, v ∈ TSet.Emplace V Current → tc step v Next) as Htc'.
  { intros v Hv. apply elem_of_TSet_Emplace in Hv as [Hv| ->].
    - eapply tc_rtc_r; [by apply Htc|by apply rtc_once].
    - by apply tc_once. }
  destruct (TMap.Find U Next) as [Next'|] eqn:HNext.
  - destruct (IH (TSet.Emplace V Current) Next Next')
      as (V' & Current' & -> & Hsub & Hyes & Hno & _); [done|done|done|done| |].
    { assert (Current ∈ TMap.Keys U) as Hkey by (apply Find_is_Some_keys; eauto).
      pose proof (unvisited_decreases V Current _ Hkey HcV). lia. }
    eexists _, _. split; [done|]. split_and!; [|done|done|].
    + intros v Hv. apply Hsub, elem_of_TSet_Emplace. by left.
    + left. apply Hsub, elem_of_TSet_Emplace. by right.
  - eexists _, _. split; [done|]. split_and!.
    + intros v Hv. apply elem_of_TSet_Emplace. by left.
    + intros <-. done.
    + intros HNt v Hv Hr.
      assert (walk_closed U (TSet.Emplace V Current) Next) as Hwc'.
      { intros v' Hv'. right. by apply Hcl'. }
      destruct (walk_closed_rtc U _ Next _ _ Hwc' Hv Hr) as [?|Hr'];
        [by eapply HVt'|].
      apply rtc_inv in Hr' as [?|(y & Hy & _)]; [done|].
      unfold redirect_step in Hy. congruence.
    + left. apply elem_of_TSet_Emplace. by right.
Qed.

Lemma cleanup_inv_Append_leads C I V :
  cleanup_inv U TargetValue C I → (∀ v, v ∈ V → tc step v TargetValue) →
  cleanup_inv U TargetValue (TSet.Append C V) I.
Proof.
  intros [HtC HC HI] HV. split; [| |done].
  - apply elem_of_TSet_Append. by left.
  - intros k Hk.
    apply elem_of_TSet_Append in Hk as [?|?]; [by apply HC|right; by apply HV].
Qed.

Lemma cleanup_inv_Append_invalid C I V :
  cleanup_inv U TargetValue C I → (∀ v, v ∈ V → ¬ rtc step v TargetValue) →
  cleanup_inv U TargetValue C (TSet.Append I V).
Proof.
  intros [HtC HC HI] HV. split; [done|done|].
  intros k Hk. apply elem_of_TSet_Append in Hk as [?|?]; [by apply HI|by apply HV].
Qed.

Lemma CleanupRedirects_loop_spec fuel C I Entries :
  cleanup_inv U TargetValue C I →
  (∀ o n, (o, n) ∈ Entries → TMap.Find U o = Some n) →
  (length U < fuel)%nat →
  ∃ C' I',
    CleanupRedirects_loop fuel U TargetValue C I Entries = Some (C', I') ∧
    cleanup_inv U TargetValue C' I' ∧
    (∀ k, k ∈ C → k ∈ C') ∧ (∀ k, k ∈ I → k ∈ I') ∧
    (∀ o n, (o, n) ∈ Entries → o ∈ C' ∨ o ∈ I').
Proof.
  revert C I. induction Entries as [|[o n] Entries IH]; intros C I Hinv HE Hfuel.
  - eexists _, _. split; [done|]. split_and!; [done|done|done|].
    intros ? ? Hin. by apply elem_of_nil in Hin.
  - simpl.
    destruct (CleanupRedirects_walk_spec fuel C I [] o n Hinv)
      as (V' & Current' & -> & _ & Hyes & Hno & Hsettled).
    { apply HE. left. }
    { intros v Hv. by apply elem_of_nil in Hv. }
    { intros v Hv. by apply elem_of_nil in Hv. }
    { intros v Hv. by apply elem_of_nil in Hv. }
    { pose proof (unvisited_le U []). lia. }
    assert (o ∈ V' ∨ o ∈ I ∨ o ∈ C) as Hsettled'.
    { destruct Hsettled as [?|[?|?]]; auto. }
    case_bool_decide as Ht.
    + destruct (IH (TSet.Append C V') I) as (C' & I' & -> & Hinv' & HC & HI & Hall).
      { apply cleanup_inv_Append_leads; [done|by apply Hyes]. }
      { intros ? ? ?. apply HE. by right. }
      { done. }
      eexists _, _. split; [done|]. split_and!; [done| |done|].
      * intros k Hk. apply HC, elem_of_TSet_Append. by left.
      * intros o' n' Hin. apply elem_of_cons in Hin as [[= -> ->]|Hin]; [|eauto].
        destruct Hsettled' as [?|[?|?]].
        -- left. apply HC, elem_of_TSet_Append. by right.
        -- right. by apply HI.
        -- left. apply HC, elem_of_TSet_Append. by left.
    + destruct (IH C (TSet.Append I V')) as (C' & I' & -> & Hinv' & HC & HI & Hall).
      { apply cleanup_inv_Append_invalid; [done|by apply Hno]. }
      { intros ? ? ?. apply HE. by right. }
      { done. }
      eexists _, _. split; [done|]. split_and!; [done|done| |].
      * intros k Hk. apply HI, elem_of_TSet_Append. by left.
      * intros o' n' Hin. apply elem_of_cons in Hin as [[= -> ->]|Hin]; [|eauto].
        destruct Hsettled' as [?|[?|?]].
        -- right. apply HI, elem_of_TSet_Append. by right.
        -- right. apply HI, elem_of_TSet_Append. by left.
        -- left. by apply HC.
Qed.
End cleanup.

(** X11.  [CleanupRedirects] returns.  Without recursion it removes the
    redirectors whose old value is the target; with recursion it removes
    also those whose old value leads to the target along the chain of
    redirectors, and no other: a redirector on a cycle or on a chain that
    ends elsewhere stays.  What is left keeps its order, and the flag tells
    whether a redirector has been removed. *)
Theorem CleanupRedirects_removes_what_leads_to_target
    (InRedirects : list FCommonInventoryRedirector) (TargetValue : FName)
    (bRecursively : bool) :
  ∃ (CleanupKeys : list FName) b Kept,
    CleanupRedirects InRedirects TargetValue bRecursively = Some (b, Kept) ∧
    (∀ k, k ∈ CleanupKeys ↔
          k = TargetValue ∨
          (bRecursively = true ∧
           tc (redirect_step (GenerateRedirectionMap InRedirects)) k TargetValue)) ∧
    Kept = filter (λ Redirect, OldValue Redirect ∉ CleanupKeys) InRedirects ∧
    (b = true ↔ ∃ Redirect, Redirect ∈ InRedirects ∧ OldValue Redirect ∈ CleanupKeys).
Proof.
  assert (∃ CleanupKeys,
    CleanupRedirects_keys InRedirects TargetValue bRecursively = Some CleanupKeys ∧
    (∀ k, k ∈ CleanupKeys ↔
          k = TargetValue ∨
          (bRecursively = true ∧
           tc (redirect_step (GenerateRedirectionMap InRedirects)) k TargetValue)))
    as (Keys & HK & Hiff).
  { unfold CleanupRedirects_keys. destruct bRecursively.
    - pose proof (GenerateRedirectionMap_ok InRedirects) as HU.
      set (U := GenerateRedirectionMap InRedirects) in *.
      destruct (CleanupRedirects_loop_spec U TargetValue (S (length U))
                  [TargetValue] [] U)
        as (C' & I' & -> & [HtC HC HI] & Hsub & _ & Hall).
      { split; [left| |].
        - intros k ->%list_elem_of_singleton. by left.
        - intros k Hk. by apply elem_of_nil in Hk. }
      { intros o n Hin. apply Find_elem_NoDup; [apply HU|done]. }
      { lia. }
      exists C'. split; [done|]. intros k. split.
      + intros Hk. destruct (HC _ Hk) as [?|?]; [by left|by right].
      + intros [->|[_ Htc]]; [done|].
        assert (is_Some (TMap.Find U k)) as [v Hv].
        { destruct Htc as [x y Hxy|x y z Hxy _]; by eexists. }
        destruct (Hall k v) as [?|Hinv]; [by apply Find_Some_elem|done|].
        exfalso. eapply HI; [done|by apply tc_rtc].
    - exists [TargetValue]. split; [done|]. intros k.
      rewrite list_elem_of_singleton. split; [by left|]. by intros [?|[? _]]. }
  unfold CleanupRedirects. rewrite HK.
  exists Keys. eexists _, _. split; [done|].
  assert (filter (λ Redirect, TSet.Contains Keys (OldValue Redirect) = false)
            InRedirects
          = filter (λ Redirect, OldValue Redirect ∉ Keys) InRedirects) as Hfilter.
  { apply list_filter_iff. intros r. apply TSet_Contains_false. }
  split; [done|]. split; [done|].
  rewrite bool_decide_eq_true, Hfilter.
  pose proof (length_filter (λ Redirect, OldValue Redirect ∉ Keys) InRedirects).
  pose proof (length_filter_lt_iff (λ Redirect, OldValue Redirect ∉ Keys) InRedirects)
    as Hlt.
  split.
  - intros Hpos. destruct (proj1 Hlt) as (r & Hr & Hin); [lia|].
    exists r. split; [done|]. by destruct (decide (OldValue r ∈ Keys)).
  - intros (r & Hr & Hin).
    assert (length (filter (λ Redirect, OldValue Redirect ∉ Keys) InRedirects)
            < length InRedirects)%nat; [|lia].
    apply Hlt. exists r. split; [done|]. simpl. by intros ?.
Qed.

(** ** TraversePermutations *)

Lemma calls_until_app {A} (P : A → bool) (l1 l2 : list A) :
  calls_until P (l1 ++ l2) =
  if forallb P l1 then l1 ++ calls_until P l2 else calls_until P l1.
Proof.
  induction l1 as [|x l1 IH]; simpl; [done|].
  destruct (P x); simpl; [|done]. rewrite IH. by destruct (forallb P l1).
Qed.

Lemma calls_until_all {A} (P : A → bool) (l : list A) :
  forallb P l = true → calls_until P l = l.
Proof.
  intros H. rewrite <- (app_nil_r l) at 1. rewrite calls_until_app, H.
  simpl. by rewrite app_nil_r.
Qed.

Lemma forallb_const_true {A} (l : list A) : forallb (λ _, true) l = true.
Proof. by induction l. Qed.

Lemma sources_of_cons o n m Target :
  sources_of ((o, n) :: m) Target =
  if bool_decide (n = Target) then o :: sources_of m Target else sources_of m Target.
Proof.
  unfold sources_of. rewrite filter_cons. cbn [snd].
  case_bool_decide; [by rewrite decide_True|by rewrite decide_False].
Qed.

Lemma TraversePermutations_loop_spec InPredicate Target Make Entries :
  TraversePermutations_loop InPredicate Target Make Entries =
    (forallb InPredicate (Make <$> sources_of Entries Target),
     calls_until InPredicate (Make <$> sources_of Entries Target)).
Proof.
  induction Entries as [|[o n] Entries IH]; [done|].
  cbn [TraversePermutations_loop]. rewrite sources_of_cons.
  case_bool_decide as Hn; [|exact IH].
  rewrite fmap_cons, IH. cbn [forallb calls_until].
  by destruct (InPredicate (Make o)).
Qed.

Lemma TraversePermutations_both_spec InPredicate Id TypeEntries NameEntries :
  TraversePermutations_both InPredicate Id TypeEntries NameEntries =
    (forallb InPredicate
       (sources_of TypeEntries (PrimaryAssetType Id) ≫=
          (λ OldType, MkPrimaryAssetId OldType
                        <$> sources_of NameEntries (PrimaryAssetName Id))),
     calls_until InPredicate
       (sources_of TypeEntries (PrimaryAssetType Id) ≫=
          (λ OldType, MkPrimaryAssetId OldType
                        <$> sources_of NameEntries (PrimaryAssetName Id)))).
Proof.
  induction TypeEntries as [|[o n] TypeEntries IH]; [done|].
  cbn [TraversePermutations_both]. rewrite sources_of_cons.
  case_bool_decide as Hn; [|exact IH].
  rewrite bind_cons, TraversePermutations_loop_spec, IH.
  rewrite forallb_app, calls_until_app.
  destruct (forallb InPredicate (MkPrimaryAssetId o <$> _)) eqn:Hall; [|done].
  by rewrite calls_until_all.
Qed.

Lemma TraversePermutations_calls R Id InPredicate :
  TraversePermutations R Id InPredicate =
    calls_until InPredicate
      (((λ OldName, MkPrimaryAssetId (PrimaryAssetType Id) OldName)
          <$> sources_of (NameRedirectionMap R) (PrimaryAssetName Id)) ++
       ((λ OldType, MkPrimaryAssetId OldType (PrimaryAssetName Id))
          <$> sources_of (TypeRedirectionMap R) (PrimaryAssetType Id)) ++
       (sources_of (TypeRedirectionMap R) (PrimaryAssetType Id) ≫=
          (λ OldType, MkPrimaryAssetId OldType
                        <$> sources_of (NameRedirectionMap R) (PrimaryAssetName Id)))).
Proof.
  unfold TraversePermutations.
  rewrite !TraversePermutations_loop_spec, TraversePermutations_both_spec.
  set (l1 := _ <$> sources_of (NameRedirectionMap R) _).
  set (l2 := _ <$> sources_of (TypeRedirectionMap R) _).
  set (l3 := _ ≫= _).
  rewrite !calls_until_app. cbn [snd].
  destruct (forallb InPredicate l1) eqn:H1; cbn [negb]; [|done].
  rewrite (calls_until_all _ l1 H1).
  destruct (forallb InPredicate l2) eqn:H2; cbn [negb]; [|done].
  by rewrite (calls_until_all _ l2 H2).
Qed.

Lemma elem_of_sources_of m Target k :
  NoDup (TMap.Keys m) →
  k ∈ sources_of m Target ↔ TMap.Find m k = Some Target.
Proof.
  intros Hnd. unfold sources_of. rewrite list_elem_of_fmap. split.
  - intros ([k' v] & -> & Hin). apply list_elem_of_filter in Hin as [Hv Hin].
    simpl in *. subst. by apply Find_elem_NoDup.
  - intros Hk. exists (k, Target). split; [done|].
    apply list_elem_of_filter. split; [done|]. by apply Find_Some_elem.
Qed.

Lemma NoDup_sources_of m Target :
  NoDup (TMap.Keys m) → NoDup (sources_of m Target).
Proof.
  intros Hnd. eapply sublist_NoDup; [exact Hnd|].
  unfold sources_of, TMap.Keys. apply fmap_sublist, sublist_filter.
Qed.

(** ** The resolved maps hold each key once *)

Lemma elem_of_Keys_Emplace (m : TMap.t FName FName) k v x :
  x ∈ TMap.Keys (TMap.Emplace m k v) ↔ x ∈ TMap.Keys m ∨ x = k.
Proof.
  rewrite <- !Find_is_Some_keys, Find_Emplace.
  destruct (decide (k = x)) as [->|Hne].
  - split; [by right|eauto].
  - split; [by left|]. by intros [?|?].
Qed.

Lemma NoDup_Keys_Emplace (m : TMap.t FName FName) k v :
  NoDup (TMap.Keys m) → NoDup (TMap.Keys (TMap.Emplace m k v)).
Proof.
  unfold TMap.Keys. induction m as [|[k' v'] m IH]; simpl; intros Hnd.
  - apply NoDup_singleton.
  - apply NoDup_cons in Hnd as [Hk' Hnd].
    destruct (decide (k' = k)) as [->|Hne]; simpl.
    + by apply NoDup_cons.
    + apply NoDup_cons. split; [|by apply IH].
      intros Hin. apply elem_of_Keys_Emplace in Hin as [?|?]; done.
Qed.

Lemma NoDup_Keys_foldl_Emplace (ks : list FName) (m : TMap.t FName FName) v :
  NoDup (TMap.Keys m) →
  NoDup (TMap.Keys (foldl (λ m' Key, TMap.Emplace m' Key v) m ks)).
Proof.
  revert m. induction ks as [|k ks IH]; intros m Hnd; simpl; [done|].
  by apply IH, NoDup_Keys_Emplace.
Qed.

Lemma ResolveRedirectionMap_loop_NoDup fuel U es R I R' I' :
  NoDup (TMap.Keys R) →
  ResolveRedirectionMap_loop fuel U (R, I) es = Some (R', I') →
  NoDup (TMap.Keys R').
Proof.
  revert R I. induction es as [|[o n] es IH]; intros R I Hnd Hl;
    cbn [ResolveRedirectionMap_loop] in Hl.
  - by injection Hl as <- _.
  - destruct (ResolveRedirectionMap_entry fuel U (R, I) (o, n))
      as [[R2 I2]|] eqn:He; [|done].
    eapply IH; [|exact Hl].
    unfold ResolveRedirectionMap_entry in He.
    destruct (TMap.Find R n).
    + injection He as <- _. by apply NoDup_Keys_Emplace.
    + destruct (TSet.Contains I n); [by injection He as <- _|].
      destruct (ResolveRedirectionMap_walk _ _ _ _ _ _) as [[V r]|]; [|done].
      destruct (negb (IsNone r)); injection He as <- _; [|done].
      by apply NoDup_Keys_foldl_Emplace.
Qed.

Lemma ResolveRedirectionMap_NoDup U R I log :
  ResolveRedirectionMap U = Some (R, I, log) → NoDup (TMap.Keys R).
Proof.
  unfold ResolveRedirectionMap.
  destruct (ResolveRedirectionMap_loop _ U ([], []) U) as [[R0 I0]|] eqn:Hl; [|done].
  intros [= -> _ _]. eapply ResolveRedirectionMap_loop_NoDup; [|exact Hl].
  constructor.
Qed.

(** X12.  [TraversePermutations] for an id that is not stale, with the
    redirects loaded from the settings.  With a predicate that always
    returns true it calls the predicate once with each id that
    [TryRedirect] turns into the given id, and with no other id.  With any
    predicate it makes the same calls in the same order and stops after
    the first call that returns false. *)
Theorem TraversePermutations_visits_what_redirects_here
    (TypeRedirects NameRedirects : list FCommonInventoryRedirector)
    (R : FCommonInventoryRedirects) (Id : FPrimaryAssetId)
    (InPredicate : FPrimaryAssetId → bool) :
  LoadRedirectsFromConfig TypeRedirects NameRedirects = Some R →
  IsStale R Id = false →
  (∀ P, P ∈ TraversePermutations R Id (λ _, true) ↔ TryRedirect R P = (true, Id)) ∧
  NoDup (TraversePermutations R Id (λ _, true)) ∧
  TraversePermutations R Id InPredicate =
    calls_until InPredicate (TraversePermutations R Id (λ _, true)).
Proof.
  intros Hload Hstale.
  assert (NoDup (TMap.Keys (TypeRedirectionMap R)) ∧
          NoDup (TMap.Keys (NameRedirectionMap R))) as [HT HN].
  { unfold LoadRedirectsFromConfig in Hload.
    destruct (ResolveRedirectionMap (GenerateRedirectionMap TypeRedirects))
      as [[[RT IT] logT]|] eqn:HrT; [|done].
    destruct (ResolveRedirectionMap (GenerateRedirectionMap NameRedirects))
      as [[[RN IN] logN]|] eqn:HrN; [|done].
    injection Hload as <-. simpl.
    split; by eapply ResolveRedirectionMap_NoDup. }
  unfold IsStale in Hstale. apply orb_false_iff in Hstale as [HsN HsT].
  apply Contains_false in HsN, HsT.
  destruct Id as [t n]. simpl in *.
  rewrite (TraversePermutations_calls R _ InPredicate).
  rewrite (TraversePermutations_calls R _ (λ _, true)).
  rewrite (calls_until_all (λ _, true)) by apply forallb_const_true.
  cbn [PrimaryAssetType PrimaryAssetName].
  set (names := sources_of (NameRedirectionMap R) n).
  set (types := sources_of (TypeRedirectionMap R) t).
  assert (∀ k, k ∈ names ↔ TMap.Find (NameRedirectionMap R) k = Some n) as Hnames
    by (intros; by apply elem_of_sources_of).
  assert (∀ k, k ∈ types ↔ TMap.Find (TypeRedirectionMap R) k = Some t) as Htypes
    by (intros; by apply elem_of_sources_of).
  assert (∀ pt pn, MkPrimaryAssetId pt pn ∈ MkPrimaryAssetId t <$> names ↔
                   pt = t ∧ pn ∈ names) as H1.
  { intros pt pn. rewrite list_elem_of_fmap. split.
    - by intros (k & [= -> ->] & Hk).
    - intros [-> Hk]. eauto. }
  assert (∀ pt pn, MkPrimaryAssetId pt pn ∈ (λ OldType, MkPrimaryAssetId OldType n) <$> types ↔
                   pn = n ∧ pt ∈ types) as H2.
  { intros pt pn. rewrite list_elem_of_fmap. split.
    - by intros (k & [= -> ->] & Hk).
    - intros [-> Hk]. eauto. }
  assert (∀ pt pn, MkPrimaryAssetId pt pn ∈
                     types ≫= (λ OldType, MkPrimaryAssetId OldType <$> names) ↔
                   pt ∈ types ∧ pn ∈ names) as H3.
  { intros pt pn. rewrite list_elem_of_bind. split.
    - intros (k & Hin & Hk). apply list_elem_of_fmap in Hin as (k' & [= -> ->] & Hk').
      done.
    - intros [Hk Hk']. exists pt. split; [|done]. apply list_elem_of_fmap. eauto. }
  split_and!.
  - intros [pt pn]. rewrite !elem_of_app, H1, H2, H3, !Hnames, !Htypes.
    unfold TryRedirect. simpl.
    destruct (TMap.Find (NameRedirectionMap R) pn) as [n'|] eqn:Hpn;
      destruct (TMap.Find (TypeRedirectionMap R) pt) as [t'|] eqn:Hpt; simpl;
      split; try (intros [(? & ?)|[(? & ?)|(? & ?)]]); try (intros [= ? ?]);
      subst; try congruence; try done; eauto.
  - assert (NoDup names) as HNn by by apply NoDup_sources_of.
    assert (NoDup types) as HNt by by apply NoDup_sources_of.
    apply NoDup_app. split_and!; [|..].
    + apply NoDup_fmap_2_strong; [|done]. by intros ? ? _ _ [= ->].
    + intros [pt pn] Hin. apply H1 in Hin as [-> Hpn]. apply Hnames in Hpn.
      rewrite not_elem_of_app, H2, H3, !Hnames, !Htypes.
      split; intros [? ?]; congruence.
    + apply NoDup_app. split_and!.
      * apply NoDup_fmap_2_strong; [|done]. by intros ? ? _ _ [= ->].
      * intros [pt pn] Hin. apply H2 in Hin as [-> Hpt]. apply Htypes in Hpt.
        rewrite H3, !Hnames. intros [_ ?]. congruence.
      * apply NoDup_bind; [| |done].
        -- intros x1 x2 [pt pn] _ _ Hy1 Hy2.
           apply list_elem_of_fmap in Hy1 as (? & [= -> ->] & _).
           by apply list_elem_of_fmap in Hy2 as (? & [= -> _] & _).
        -- intros x _. apply NoDup_fmap_2_strong; [|done]. by intros ? ? _ _ [= ->].
  - done.
Qed.

Lemma TraversePermutations_visits_what_redirects_here_witness :
  let R := Redirects_ [("Blade", "Weapon")] [("Sabre", "Sword"); ("Rapier", "Sword")] in
  let Id := MkPrimaryAssetId "Weapon" "Sword" in
  (∀ P, P ∈ TraversePermutations R Id (λ _, true) ↔ TryRedirect R P = (true, Id)) ∧
  NoDup (TraversePermutations R Id (λ _, true)) ∧
  TraversePermutations R Id (λ P, bool_decide (PrimaryAssetName P = "Sabre")) =
    calls_until (λ P, bool_decide (PrimaryAssetName P = "Sabre"))
      (TraversePermutations R Id (λ _, true)).
Proof.
  apply (TraversePermutations_visits_what_redirects_here
           [Redirector "Blade" "Weapon"]
           [Redirector "Sabre" "Sword"; Redirector "Rapier" "Sword"]).
  - vm_compute. reflexivity.
  - vm_compute. reflexivity.
Defined.

(* ===================================================================== *)
(** * Further properties of the items                                     *)
(* ===================================================================== *)

Lemma GetRecordPtr_ContainsRecord s Id r :
  GetRecordPtr s Id = Some r → ContainsRecord s Id = true.
Proof.
  unfold GetRecordPtr, ContainsRecord. intros Hr.
  destruct (DataMap s !! Id); [|done]. apply bool_decide_eq_true. eauto.
Qed.

Lemma FCommonItem_ValidateItem_stored s Id r InPayload :
  FPrimaryAssetId_IsValid Id = true →
  GetRecordPtr s Id = Some r →
  fst <$> InPayload = View_GetScriptStruct (CustomDataContainer s) (DefaultPayload r) →
  FCommonItem_ValidateItem s (MkCommonItem InPayload Id) = true.
Proof.
  intros Hvalid Hr Htype. unfold FCommonItem_ValidateItem, ValidateItem. simpl.
  rewrite Hvalid, Hr. by apply bool_decide_eq_true.
Qed.

Lemma FCommonItem_ValidateItem_cleared s Id :
  FPrimaryAssetId_IsValid Id = false →
  FCommonItem_ValidateItem s (MkCommonItem None Id) = true.
Proof. intros Hvalid. unfold FCommonItem_ValidateItem. simpl. by rewrite Hvalid. Qed.

(** X13.  [FCommonItem::SynchronizeItem] in a registry whose records have
    valid ids.  Whatever the item and the redirects, the item it leaves
    passes [FCommonItem::ValidateItem]: it holds the id of a record, after
    at most one redirection, with a payload of the type of the default
    payload of that record, or it is the empty item.  An item that passes
    [ValidateItem] already is left as it is, so synchronizing twice is
    synchronizing once; a payload of the right type is never replaced. *)
Theorem FCommonItem_SynchronizeItem_validates
    (Redirects : FCommonInventoryRedirects)
    (RegistryState : FCommonInventoryRegistryState) (Item : FCommonItem) :
  (∀ Id, ContainsRecord RegistryState Id = true → FPrimaryAssetId_IsValid Id = true) →
  FCommonItem_ValidateItem RegistryState
    (FCommonItem_SynchronizeItem Redirects RegistryState Item) = true ∧
  (FCommonItem_ValidateItem RegistryState Item = true →
   FCommonItem_SynchronizeItem Redirects RegistryState Item = Item) ∧
  (∀ r, GetRecordPtr RegistryState (Item_PrimaryAssetId Item) = Some r →
        FPrimaryAssetId_IsValid (Item_PrimaryAssetId Item) = true →
        fst <$> Payload Item =
          View_GetScriptStruct (CustomDataContainer RegistryState) (DefaultPayload r) →
        FCommonItem_SynchronizeItem Redirects RegistryState Item = Item).
Proof.
  intros Hids. destruct Item as [P Id].
  assert (∀ r, GetRecordPtr RegistryState Id = Some r →
               FPrimaryAssetId_IsValid Id = true →
               fst <$> P =
                 View_GetScriptStruct (CustomDataContainer RegistryState)
                   (DefaultPayload r) →
               FCommonItem_SynchronizeItem Redirects RegistryState
                 (MkCommonItem P Id) = MkCommonItem P Id) as Hkeep.
  { intros r Hr Hvalid Htype.
    unfold FCommonItem_SynchronizeItem, SynchronizeItem. simpl.
    rewrite Hvalid, (GetRecordPtr_ContainsRecord _ _ _ Hr). simpl.
    rewrite Hr. by rewrite bool_decide_eq_false_2 by (by intros ?). }
  split_and!; [| |exact Hkeep].
  - unfold FCommonItem_SynchronizeItem, SynchronizeItem. simpl.
    destruct (FPrimaryAssetId_IsValid Id) eqn:Hvalid; simpl;
      [|by apply FCommonItem_ValidateItem_cleared].
    set (Id' := if negb (ContainsRecord RegistryState Id)
                then (TryRedirect Redirects Id).2 else Id).
    destruct (GetRecordPtr RegistryState Id') as [r|] eqn:Hr;
      [|by apply FCommonItem_ValidateItem_cleared].
    pose proof (Hids _ (GetRecordPtr_ContainsRecord _ _ _ Hr)) as Hvalid'.
    case_bool_decide as Htype.
    + by eapply FCommonItem_ValidateItem_stored.
    + by eapply FCommonItem_ValidateItem_stored.
  - unfold FCommonItem_ValidateItem, ValidateItem. simpl.
    destruct (FPrimaryAssetId_IsValid Id) eqn:Hvalid.
    + destruct (GetRecordPtr RegistryState Id) as [r|] eqn:Hr; [|done].
      intros Htype%bool_decide_eq_true. by eapply Hkeep.
    + intros HP. unfold FCommonItem_SynchronizeItem. simpl. rewrite Hvalid.
      destruct P; [done|done].
Qed.

Lemma FCommonItem_SynchronizeItem_validates_witness :
  FCommonItem_SynchronizeItem Sample_ItemRedirects Sample_Live Sample_Hatchet
    = MkCommonItem (Some ("Durability", [80; 5; 2])) Sample_AxeId ∧
  FCommonItem_ValidateItem Sample_Live
    (FCommonItem_SynchronizeItem Sample_ItemRedirects Sample_Live Sample_Hatchet)
    = true.
Proof.
  split; [vm_compute; reflexivity|].
  refine (proj1 (FCommonItem_SynchronizeItem_validates
                   Sample_ItemRedirects Sample_Live Sample_Hatchet _)).
  intros Id HId. unfold ContainsRecord in HId.
  apply bool_decide_eq_true in HId as [i Hi].
  apply elem_of_map_to_list in Hi.
  assert (map_to_list (DataMap Sample_Live) = [(Sample_AxeId, 0%nat)]) as HM
    by (vm_compute; reflexivity).
  rewrite HM in Hi. apply list_elem_of_singleton in Hi.
  injection Hi as -> _. vm_compute. reflexivity.
Defined.

(** X14.  [FCommonItem::ResetItem], the constructor from an id and
    [FCommonItem::SetPrimaryAssetId] leave an item that passes
    [FCommonItem::ValidateItem], in any registry state: the default payload
    of the record when the id is valid and the registry holds it, the
    empty item when the registry does not hold it, and no payload when the
    id is not valid. *)
Theorem FCommonItem_ResetItem_validates
    (RegistryState : FCommonInventoryRegistryState)
    (Item : FCommonItem) (InPrimaryAssetId : FPrimaryAssetId) :
  FCommonItem_ValidateItem RegistryState
    (FCommonItem_ResetItem RegistryState Item) = true ∧
  FCommonItem_ValidateItem RegistryState
    (FCommonItem_Make RegistryState InPrimaryAssetId) = true ∧
  (Item_PrimaryAssetId Item ≠ InPrimaryAssetId →
   FCommonItem_ValidateItem RegistryState
     (FCommonItem_SetPrimaryAssetId RegistryState InPrimaryAssetId Item) = true) ∧
  FCommonItem_ResetItem RegistryState Item =
    (if FPrimaryAssetId_IsValid (Item_PrimaryAssetId Item) then
       match GetRecordPtr RegistryState (Item_PrimaryAssetId Item) with
       | Some r =>
           MkCommonItem
             (ReadView (CustomDataContainer RegistryState) (DefaultPayload r))
             (Item_PrimaryAssetId Item)
       | None => MkCommonItem None FPrimaryAssetId_None
       end
     else MkCommonItem None (Item_PrimaryAssetId Item)).
Proof.
  assert (∀ Item, FCommonItem_ValidateItem RegistryState
                    (FCommonItem_ResetItem RegistryState Item) = true) as Hreset.
  { intros [P Id]. unfold FCommonItem_ResetItem, ResetItem. simpl.
    destruct (FPrimaryAssetId_IsValid Id) eqn:Hvalid;
      [|by apply FCommonItem_ValidateItem_cleared].
    destruct (GetRecordPtr RegistryState Id) as [r|] eqn:Hr;
      [|by apply FCommonItem_ValidateItem_cleared].
    by eapply FCommonItem_ValidateItem_stored. }
  split_and!.
  - apply Hreset.
  - apply Hreset.
  - intros Hne. unfold FCommonItem_SetPrimaryAssetId.
    rewrite bool_decide_eq_true_2 by done. apply Hreset.
  - unfold FCommonItem_ResetItem, ResetItem.
    destruct (FPrimaryAssetId_IsValid _); [|done].
    by destruct (GetRecordPtr _ _).
Qed.

(* ===================================================================== *)
(** * Further properties of the serialized state                          *)
(* ===================================================================== *)



(* ===================================================================== *)
(** * The checksum caches                                                 *)
(* ===================================================================== *)

(** ** The groups of a sorted array *)

Lemma type_le_antisym a b : type_le a b → type_le b a → a = b.
Proof.
  intros [?|Hab] [?|Hba]; try done.
  apply LexicalLess_asym in Hab. congruence.
Qed.

Lemma Record_lt_type_le a b :
  Record_lt a b = true → type_le (GetPrimaryAssetType a) (GetPrimaryAssetType b).
Proof.
  unfold Record_lt, type_le. case_bool_decide as Ht; simpl; [by left|by right].
Qed.

Lemma ids_sorted_types l :
  ids_sorted l → StronglySorted type_le (GetPrimaryAssetType <$> l).
Proof. apply StronglySorted_fmap. intros x y. apply Record_lt_type_le. Qed.

Lemma elem_of_group_runs G t :
  t ∈ G ≫= group_run → t ∈ GroupType <$> G.
Proof.
  rewrite list_elem_of_bind. intros (g & Ht & Hg).
  unfold group_run in Ht. apply elem_of_replicate in Ht as [-> _].
  apply list_elem_of_fmap. eauto.
Qed.

Lemma groups_match_nil : groups_match [] [].
Proof. split; [done|done|constructor|done]. Qed.

(** One round of the loop of [FixupDependencies], on the types. *)
Lemma BuildArchetypes_match G pre ts :
  StronglySorted type_le (pre ++ ts) →
  groups_match G pre →
  groups_match (BuildArchetypes G (length pre) ts) (pre ++ ts).
Proof.
  revert G pre. induction ts as [|t ts IH]; intros G pre Hsorted HG;
    cbn [BuildArchetypes].
  - by rewrite app_nil_r.
  - replace (pre ++ t :: ts) with ((pre ++ [t]) ++ ts) in *
      by by rewrite <- app_assoc.
    replace (S (length pre)) with (length (pre ++ [t]))
      by (rewrite length_app; simpl; lia).
    apply IH; [done|].
    destruct HG as [Hcover Hruns Hnd Hlast].
    assert (∀ G0 g, alter IncrementOffset (length (G0 ++ [g]) - 1)%nat (G0 ++ [g])
                    = G0 ++ [IncrementOffset g]) as Halter.
    { intros G0 g. rewrite length_app. simpl.
      replace (length G0 + 1 - 1)%nat with (length G0 + 0)%nat by lia.
      by rewrite alter_app_r. }
    assert (Z.of_nat (length (pre ++ [t])) = Z.of_nat (length pre) + 1) as Hlen
      by (rewrite length_app; simpl; lia).
    assert (groups_match
              (G ++ [IncrementOffset
                       (MkArchetypeGroup t (Z.of_nat (length pre)) 0 0)])
              (pre ++ [t]) ∨ t ∈ GroupType <$> G) as Hnew.
    { destruct (decide (t ∈ GroupType <$> G)) as [?|Hfresh]; [by right|left].
      split.
      - apply groups_from_snoc. exists (Z.of_nat (length pre)). simpl.
        split_and!; [done|done|lia|lia].
      - by rewrite bind_app, <- Hruns.
      - rewrite fmap_app. simpl. apply NoDup_app. split_and!; [done| |].
        + intros x Hx ->%list_elem_of_singleton. done.
        + apply NoDup_singleton.
      - intros It. rewrite !last_snoc. by intros [= <-]. }
    destruct (last G) as [It|] eqn:HlastG.
    + specialize (Hlast _ eq_refl).
      apply last_Some in HlastG as [G0 ->].
      apply last_Some in Hlast as [pre0 ->].
      case_bool_decide as Ht.
      * rewrite Halter.
        apply groups_from_snoc in Hcover as (b & HG0 & Hb & Ho & Hk).
        split.
        -- apply groups_from_snoc. exists b. simpl. split_and!; [done|done|lia|lia].
        -- rewrite bind_app. rewrite bind_app in Hruns. cbn [mbind list_bind] in *.
           rewrite app_nil_r in *. rewrite Hruns.
           assert (group_run (IncrementOffset It) = group_run It ++ [t]) as ->.
           { unfold group_run. simpl.
             replace (Z.to_nat (Offset It + 1)) with (S (Z.to_nat (Offset It)))
               by lia.
             by rewrite replicate_S_end, Ht. }
           by rewrite app_assoc.
        -- rewrite fmap_app in *. done.
        -- intros It'. rewrite !last_snoc. intros [= <-]. simpl. by rewrite Ht.
      * rewrite Halter. destruct Hnew as [?|Hold]; [done|]. exfalso.
        assert (t ∈ pre0 ++ [GroupType It]) as Hin.
        { rewrite Hruns. rewrite list_elem_of_bind.
          apply list_elem_of_fmap in Hold as (g & -> & Hg).
          exists g. split; [|done]. unfold group_run.
          apply elem_of_replicate. split; [done|].
          destruct (groups_from_range _ _ _ _ Hcover Hg) as (_ & ? & _). lia. }
        apply elem_of_app in Hin as [Hin|Hin];
          [|apply list_elem_of_singleton in Hin; congruence].
        apply Ht. apply type_le_antisym.
        -- apply (StronglySorted_app_1_elem_of type_le
                    (pre0 ++ [GroupType It]) ([t] ++ ts)).
           ++ by replace ((pre0 ++ [GroupType It]) ++ [t] ++ ts)
                with (((pre0 ++ [GroupType It]) ++ [t]) ++ ts)
                by by rewrite <- !app_assoc.
           ++ apply elem_of_app. right. left.
           ++ left.
        -- apply (StronglySorted_app_1_elem_of type_le
                    pre0 ([GroupType It] ++ [t] ++ ts)).
           ++ by replace (pre0 ++ [GroupType It] ++ [t] ++ ts)
                with (((pre0 ++ [GroupType It]) ++ [t]) ++ ts)
                by by rewrite <- !app_assoc.
           ++ done.
           ++ left.
    + rewrite Halter. destruct Hnew as [?|Hold]; [done|]. exfalso.
      apply last_None in HlastG as ->. by apply elem_of_nil in Hold.
Qed.

(** In a well-formed state the groups are the runs of equal types. *)
Lemma state_wf_groups_match s :
  state_wf s →
  groups_match (Archetypes s) (GetPrimaryAssetType <$> DataContainer s).
Proof.
  intros [Hsorted _ _ Hd].
  pose proof (BuildArchetypes_match [] [] (GetPrimaryAssetType <$> DataContainer s)
                (ids_sorted_types _ Hsorted) groups_match_nil)
    as [Hcover Hruns Hnd Hlast].
  simpl in *. rewrite <- (derived_Archetypes _ Hd) in *.
  split.
  - rewrite length_fmap. by apply derived_ok_groups_cover.
  - by rewrite list_fmap_bind in Hruns.
  - by rewrite <- list_fmap_compose in Hnd.
  - intros It HIt. apply (Hlast (SetGroupChecksum 0 It)).
    by rewrite fmap_last, HIt.
Qed.

Lemma filter_none {A} (P : A → Prop) `{∀ x, Decision (P x)} (l : list A) :
  Forall (λ x, ¬ P x) l → filter P l = [].
Proof.
  induction 1 as [|x l Hx _ IH]; [done|]. by rewrite filter_cons_False.
Qed.

Lemma filter_all {A} (P : A → Prop) `{∀ x, Decision (P x)} (l : list A) :
  Forall P l → filter P l = l.
Proof.
  induction 1 as [|x l Hx _ IH]; [done|]. by rewrite filter_cons_True, IH.
Qed.

(** The records of a group are the records of its type. *)
Lemma GroupRecords_filter a G c
    (pre rest : list FCommonInventoryRegistryRecord) g :
  Z.of_nat (length pre) = a →
  groups_from a G c →
  GetPrimaryAssetType <$> rest = G ≫= group_run →
  NoDup (GroupType <$> G) →
  (∀ r, r ∈ pre → GetPrimaryAssetType r ∉ GroupType <$> G) →
  g ∈ G →
  GroupRecords (pre ++ rest) g =
    filter (λ r, GetPrimaryAssetType r = GroupType g) (pre ++ rest).
Proof.
  revert a pre rest. induction G as [|g1 G IH]; intros a pre rest Ha Hcover Hruns Hnd Hpre Hg.
  - by apply elem_of_nil in Hg.
  - destruct Hcover as (Hb & Ho & Hcover).
    rewrite fmap_cons in Hnd. apply NoDup_cons in Hnd as [Hfresh Hnd].
    rewrite bind_cons in Hruns.
    set (o := Z.to_nat (Offset g1)).
    assert (GetPrimaryAssetType <$> take o rest = group_run g1 ∧
            GetPrimaryAssetType <$> drop o rest = G ≫= group_run) as [Hr1 Hr2].
    { rewrite fmap_take, fmap_drop, Hruns.
      assert (length (group_run g1) = o) as Hlen
        by (unfold group_run; by rewrite length_replicate).
      split.
      - by rewrite take_app_length' by done.
      - by rewrite drop_app_length' by done. }
    assert (length (take o rest) = o) as Hlen1.
    { rewrite <- (length_fmap GetPrimaryAssetType), Hr1. unfold group_run.
      by rewrite length_replicate. }
    assert (∀ r, r ∈ take o rest → GetPrimaryAssetType r = GroupType g1) as Hrun.
    { intros r Hr. assert (GetPrimaryAssetType r ∈ group_run g1) as Hin.
      { rewrite <- Hr1. apply list_elem_of_fmap. eauto. }
      unfold group_run in Hin. by apply elem_of_replicate in Hin as [? _]. }
    assert (∀ r, r ∈ drop o rest → GetPrimaryAssetType r ∈ GroupType <$> G) as Hlater.
    { intros r Hr. apply elem_of_group_runs. rewrite <- Hr2.
      apply list_elem_of_fmap. eauto. }
    apply elem_of_cons in Hg as [->|Hg].
    + unfold GroupRecords. fold o.
      replace (Z.to_nat (Begin g1)) with (length pre) by lia.
      rewrite drop_app_length.
      rewrite <- (take_drop o rest) at 2. rewrite !filter_app.
      rewrite (filter_none _ pre), (filter_none _ (drop o rest)).
      * rewrite app_nil_r. simpl. symmetry. apply filter_all, Forall_forall.
        exact Hrun.
      * apply Forall_forall. intros r Hr Ht. apply Hfresh. rewrite <- Ht.
        by apply Hlater.
      * apply Forall_forall. intros r Hr Ht. apply (Hpre r Hr).
        rewrite fmap_cons, Ht. left.
    + rewrite <- (take_drop o rest), app_assoc.
      apply (IH (a + Offset g1)).
      * rewrite length_app, Hlen1. lia.
      * done.
      * done.
      * done.
      * intros r Hr Hin. apply elem_of_app in Hr as [Hr|Hr].
        -- apply (Hpre r Hr). rewrite fmap_cons. by right.
        -- apply Hfresh. by rewrite <- (Hrun r Hr).
      * done.
Qed.

Lemma state_wf_GroupRecords s g :
  state_wf s → g ∈ Archetypes s →
  GroupRecords (DataContainer s) g =
    filter (λ r, GetPrimaryAssetType r = GroupType g) (DataContainer s).
Proof.
  intros Hwf Hg. destruct (state_wf_groups_match s Hwf) as [Hcover Hruns Hnd _].
  apply (GroupRecords_filter 0 (Archetypes s)
           (Z.of_nat (length (GetPrimaryAssetType <$> DataContainer s)))
           [] (DataContainer s)); try done.
  intros r Hr. by apply elem_of_nil in Hr.
Qed.

Lemma FindBy_GroupType_NoDup l g :
  NoDup (GroupType <$> l) → g ∈ l →
  ∃ i, FindBy_GroupType l (GroupType g) = Some (i, g).
Proof.
  induction l as [|g0 l IH]; intros Hnd Hg; [by apply elem_of_nil in Hg|].
  rewrite fmap_cons in Hnd. apply NoDup_cons in Hnd as [Hfresh Hnd]. simpl.
  apply elem_of_cons in Hg as [->|Hg].
  - rewrite decide_True by done. eauto.
  - rewrite decide_False.
    + destruct (IH Hnd Hg) as [i ->]. simpl. eauto.
    + intros Heq. apply Hfresh. rewrite Heq. apply list_elem_of_fmap. eauto.
Qed.

Lemma state_wf_GroupChecksumOf s g :
  state_wf s → g ∈ Archetypes s →
  GroupChecksumOf s (GroupType g) = Some (GroupChecksum g).
Proof.
  intros Hwf Hg. destruct (state_wf_groups_match s Hwf) as [_ _ Hnd _].
  unfold GroupChecksumOf, FindArchetypeGroup.
  by destruct (FindBy_GroupType_NoDup _ _ Hnd Hg) as [i ->].
Qed.

(** ** Sorted arrays with the same ids *)

Lemma ids_sorted_same_elements l l' :
  ids_sorted l → ids_sorted l' →
  (∀ Id, Id ∈ GetPrimaryAssetId <$> l ↔ Id ∈ GetPrimaryAssetId <$> l') →
  GetPrimaryAssetId <$> l = GetPrimaryAssetId <$> l'.
Proof.
  intros Hs. revert l'. induction Hs as [|x l Hs IH Hx]; intros l' Hs' Hsame.
  - destruct l' as [|y l']; [done|]. exfalso.
    eapply elem_of_nil, Hsame. rewrite fmap_cons. left.
  - destruct Hs' as [|y l' Hs' Hy].
    { exfalso. eapply elem_of_nil, Hsame. rewrite fmap_cons. left. }
    rewrite Forall_forall in Hx, Hy.
    assert (GetPrimaryAssetId x = GetPrimaryAssetId y) as Hxy.
    { destruct (decide (GetPrimaryAssetId x = GetPrimaryAssetId y)) as [?|Hne];
        [done|exfalso].
      assert (GetPrimaryAssetId x ∈ GetPrimaryAssetId <$> l') as Hx'.
      { assert (GetPrimaryAssetId x ∈ GetPrimaryAssetId <$> y :: l') as Hin
          by (apply Hsame; rewrite fmap_cons; left).
        rewrite fmap_cons in Hin. by apply elem_of_cons in Hin as [?|?]. }
      assert (GetPrimaryAssetId y ∈ GetPrimaryAssetId <$> l) as Hy'.
      { assert (GetPrimaryAssetId y ∈ GetPrimaryAssetId <$> x :: l) as Hin
          by (apply Hsame; rewrite fmap_cons; left).
        rewrite fmap_cons in Hin. by apply elem_of_cons in Hin as [?|?]. }
      apply list_elem_of_fmap in Hx' as (x' & Hidx & Hx').
      apply list_elem_of_fmap in Hy' as (y' & Hidy & Hy').
      pose proof (Hy _ Hx') as H1. pose proof (Hx _ Hy') as H2.
      rewrite (Record_lt_ids y y x' x) in H1 by done.
      rewrite (Record_lt_ids x x y' y) in H2 by done.
      apply Record_lt_asym in H1. congruence. }
    rewrite !fmap_cons, Hxy. f_equal. apply IH; [done|].
    assert (NoDup (GetPrimaryAssetId <$> x :: l)) as Hnd
      by (apply ids_sorted_NoDup; by constructor; [|apply Forall_forall]).
    assert (NoDup (GetPrimaryAssetId <$> y :: l')) as Hnd'
      by (apply ids_sorted_NoDup; by constructor; [|apply Forall_forall]).
    rewrite fmap_cons in Hnd, Hnd'.
    apply NoDup_cons in Hnd as [Hnx _]. apply NoDup_cons in Hnd' as [Hny _].
    intros Id. specialize (Hsame Id). rewrite !fmap_cons, !elem_of_cons in Hsame.
    split; intros Hin.
    + destruct (proj1 Hsame (or_intror Hin)) as [->|?]; [|done].
      rewrite <- Hxy in Hin. done.
    + destruct (proj2 Hsame (or_intror Hin)) as [->|?]; [|done].
      rewrite Hxy in Hin. done.
Qed.

Lemma ids_sorted_filter (P : FCommonInventoryRegistryRecord → Prop)
    `{∀ r, Decision (P r)} l :
  ids_sorted l → ids_sorted (filter P l).
Proof.
  induction 1 as [|x l Hs IH Hx]; [constructor|].
  rewrite filter_cons. destruct (decide (P x)); [|done].
  constructor; [done|]. rewrite Forall_forall in *.
  intros y Hy. apply Hx. by apply list_elem_of_filter in Hy as [_ ?].
Qed.

(** ** Caches after a call *)

Lemma Forall2_fmap_eq_in {A B} (h : A → B) (P : A → A → Prop) (l l' : list A) :
  (∀ x y, x ∈ l → y ∈ l' → h x = h y → P x y) →
  h <$> l = h <$> l' → Forall2 P l l'.
Proof.
  revert l'. induction l as [|x l IH]; intros [|y l'] HP Heq; try done.
  rewrite !fmap_cons in Heq. injection Heq as Hxy Hl.
  constructor; [apply HP; [left|left|done]|].
  apply IH; [|done]. intros x' y' Hx' Hy'. apply HP; by right.
Qed.

Section caches.
Context (E : FEngine).

Lemma ComputeRecordChecksum_content s s' r r' :
  RecordContent s r = RecordContent s' r' →
  ComputeRecordChecksum E (CustomDataContainer s) r =
  ComputeRecordChecksum E (CustomDataContainer s') r'.
Proof.
  unfold RecordContent, FieldContent, ComputeRecordChecksum. simpl.
  intros [= -> -> -> ->]. done.
Qed.

Lemma fold_checksums_content C C' (l l' : list FCommonInventoryRegistryRecord) k :
  Forall2 (λ r r', ComputeRecordChecksum E C r = ComputeRecordChecksum E C' r') l l' →
  foldl (λ k r, TypeCrc32 E (ComputeRecordChecksum E C r) k) k l =
  foldl (λ k r, TypeCrc32 E (ComputeRecordChecksum E C' r) k) k l'.
Proof.
  intros HF. revert k. induction HF as [|r r' l l' Hr _ IH]; intros k; [done|].
  simpl. by rewrite Hr, IH.
Qed.

(** A call that touches the record [Id0] at most, clears the caches it
    touches and keeps the others, keeps the caches valid. *)
Lemma caches_valid_by_id s s' Id0 :
  state_wf s → state_wf s' → caches_valid E s →
  (∀ Id, Id ≠ Id0 →
     ContentOf s' Id = ContentOf s Id ∧
     RecordChecksumOf s' Id = RecordChecksumOf s Id) →
  (RecordChecksumOf s' Id0 = Some 0 ∨ RecordChecksumOf s' Id0 = None) →
  (GroupChecksumOf s' (PrimaryAssetType Id0) = Some 0 ∨
   GroupChecksumOf s' (PrimaryAssetType Id0) = None) →
  (∀ t, t ≠ PrimaryAssetType Id0 → GroupChecksumOf s' t = GroupChecksumOf s t) →
  Checksum s' = 0 →
  caches_valid E s'.
Proof.
  intros Hwf Hwf' [Hrec Hgrp _] Hothers Hown Hgown Hgothers Hsum.
  pose proof (wf_derived _ Hwf) as Hd. pose proof (wf_derived _ Hwf') as Hd'.
  assert (∀ Id r', Id ≠ Id0 → GetRecordPtr s' Id = Some r' →
            ∃ r, GetRecordPtr s Id = Some r ∧
                 RecordContent s r = RecordContent s' r' ∧
                 RecordChecksum r = RecordChecksum r') as Hback.
  { intros Id r' Hne Hr'. destruct (Hothers Id Hne) as [Hc Hk].
    unfold ContentOf, RecordChecksumOf in Hc, Hk. rewrite Hr' in Hc, Hk.
    destruct (GetRecordPtr s Id) as [r|]; [|done]. simpl in *.
    exists r. split; [done|]. split; congruence. }
  assert (∀ Id r, Id ≠ Id0 → GetRecordPtr s Id = Some r →
            ∃ r', GetRecordPtr s' Id = Some r') as Hforth.
  { intros Id r Hne Hr. destruct (Hothers Id Hne) as [Hc _].
    unfold ContentOf in Hc. rewrite Hr in Hc.
    destruct (GetRecordPtr s' Id) as [r'|]; [eauto|done]. }
  split.
  - intros i r' Hi Hne.
    assert (GetRecordPtr s' (GetPrimaryAssetId r') = Some r') as Hr'.
    { apply GetRecordPtr_Some; [done|]. split; [|done].
      by eapply list_elem_of_lookup_2. }
    destruct (decide (GetPrimaryAssetId r' = Id0)) as [Heq|Hid].
    { exfalso. unfold RecordChecksumOf in Hown. rewrite <- Heq, Hr' in Hown.
      simpl in Hown. destruct Hown as [[= ?]|?]; done. }
    destruct (Hback _ _ Hid Hr') as (r & Hr & Hc & Hk).
    apply (GetRecordPtr_Some _ _ _ Hd) in Hr as [Hin _].
    apply list_elem_of_lookup in Hin as [j Hj].
    rewrite <- Hk, <- (ComputeRecordChecksum_content _ _ _ _ Hc).
    apply (Hrec j r Hj). by rewrite Hk.
  - intros g' Hg' Hne.
    pose proof (state_wf_GroupChecksumOf _ _ Hwf' Hg') as Hk'.
    destruct (decide (GroupType g' = PrimaryAssetType Id0)) as [Heq|Ht].
    { exfalso. rewrite Heq in Hk'. rewrite Hk' in Hgown.
      destruct Hgown as [[= ?]|?]; done. }
    rewrite (Hgothers _ Ht) in Hk'. unfold GroupChecksumOf, FindArchetypeGroup in Hk'.
    destruct (FindBy_GroupType (Archetypes s) (GroupType g')) as [[i g]|] eqn:Hfind;
      [|done].
    simpl in Hk'. injection Hk' as Hk.
    apply FindBy_GroupType_Some in Hfind as (Hi & Hgt & _).
    assert (g ∈ Archetypes s) as Hg by by eapply list_elem_of_lookup_2.
    rewrite <- Hk. rewrite (Hgrp g Hg) by by rewrite Hk.
    unfold ComputeArchetypeChecksum.
    change (take (Z.to_nat (Offset g)) (drop (Z.to_nat (Begin g)) (DataContainer s)))
      with (GroupRecords (DataContainer s) g).
    change (take (Z.to_nat (Offset g')) (drop (Z.to_nat (Begin g')) (DataContainer s')))
      with (GroupRecords (DataContainer s') g').
    rewrite (state_wf_GroupRecords _ _ Hwf Hg), (state_wf_GroupRecords _ _ Hwf' Hg').
    rewrite Hgt. apply fold_checksums_content.
    apply (Forall2_fmap_eq_in GetPrimaryAssetId).
    + intros r r' Hr Hr' Hid.
      apply list_elem_of_filter in Hr as [Hrt Hr].
      apply list_elem_of_filter in Hr' as [Hrt' Hr'].
      assert (GetPrimaryAssetId r' ≠ Id0) as Hne0.
      { intros Heq. apply Ht. rewrite <- Hrt', <- Heq. done. }
      assert (GetRecordPtr s' (GetPrimaryAssetId r') = Some r') as Hp'
        by (by apply GetRecordPtr_Some).
      destruct (Hback _ _ Hne0 Hp') as (r1 & Hr1 & Hc & _).
      assert (GetRecordPtr s (GetPrimaryAssetId r') = Some r) as Hp
        by (by apply GetRecordPtr_Some).
      rewrite Hp in Hr1. injection Hr1 as <-.
      by apply ComputeRecordChecksum_content.
    + apply ids_sorted_same_elements.
      * apply ids_sorted_filter, Hwf.
      * apply ids_sorted_filter, Hwf'.
      * intros Id. rewrite !list_elem_of_fmap. split.
        -- intros (r & -> & Hr). apply list_elem_of_filter in Hr as [Hrt Hr].
           assert (GetPrimaryAssetId r ≠ Id0) as Hne0.
           { intros Heq. apply Ht. rewrite <- Hrt, <- Heq. done. }
           destruct (Hforth _ r Hne0) as [r' Hr']; [by apply GetRecordPtr_Some|].
           apply (GetRecordPtr_Some _ _ _ Hd') in Hr' as [Hin' Hid'].
           exists r'. split; [done|]. apply list_elem_of_filter. split; [|done].
           rewrite <- Hrt. unfold GetPrimaryAssetType.
           change (PrimaryAssetType (GetPrimaryAssetId r')
                   = PrimaryAssetType (GetPrimaryAssetId r)).
           by rewrite Hid'.
        -- intros (r' & -> & Hr'). apply list_elem_of_filter in Hr' as [Hrt' Hr'].
           assert (GetPrimaryAssetId r' ≠ Id0) as Hne0.
           { intros Heq. apply Ht. rewrite <- Hrt', <- Heq. done. }
           destruct (Hback _ r' Hne0) as (r & Hr & _); [by apply GetRecordPtr_Some|].
           apply (GetRecordPtr_Some _ _ _ Hd) in Hr as [Hin Hid].
           exists r. split; [done|]. apply list_elem_of_filter. split; [|done].
           rewrite <- Hrt'. unfold GetPrimaryAssetType.
           change (PrimaryAssetType (GetPrimaryAssetId r)
                   = PrimaryAssetType (GetPrimaryAssetId r')).
           by rewrite Hid.
  - by rewrite Hsum.
Qed.

Lemma AppendData_caches InRecord s b s' :
  state_wf s → caches_valid E s → AppendData InRecord s = Some (b, s') →
  caches_valid E s'.
Proof.
  intros Hwf Hc Ha.
  destruct (DataMap s !! GetPrimaryAssetId InRecord) as [Idx|] eqn:HIdx.
  - destruct (AppendData_update_by_id _ _ _ Hwf HIdx)
      as (s1 & Ha1 & Hwf1 & _ & Hothers & _ & Hown & Hgown & Hgothers & Hsum).
    rewrite Ha in Ha1. injection Ha1 as -> ->.
    eapply (caches_valid_by_id s s1 (GetPrimaryAssetId InRecord)); eauto.
  - destruct (AppendData_insert_spec _ _ Hwf HIdx)
      as (s1 & Ha1 & Hwf1 & _ & Hothers & _ & Hown & Hgown & Hgothers & Hsum).
    rewrite Ha in Ha1. injection Ha1 as -> ->.
    eapply (caches_valid_by_id s s1 (GetPrimaryAssetId InRecord)); eauto.
Qed.

Lemma RemoveData_caches Id s b s' :
  state_wf s → caches_valid E s → RemoveData Id s = Some (b, s') →
  caches_valid E s'.
Proof.
  intros Hwf Hc Hr. destruct b.
  - destruct (RemoveData_spec _ _ _ Hwf Hr)
      as (r & Hptr & Hwf' & _ & Hgone & Hothers & Hgown & Hgothers & Hsum).
    apply (GetRecordPtr_Some _ _ _ (wf_derived _ Hwf)) in Hptr as [_ Hid].
    assert (GetPrimaryAssetType r = PrimaryAssetType Id) as Ht by by rewrite <- Hid.
    rewrite Ht in Hgown, Hgothers.
    eapply (caches_valid_by_id s s' Id); eauto.
    right. unfold RecordChecksumOf. by rewrite Hgone.
  - apply RemoveData_inv in Hr as [(_ & -> & _)|(? & _)]; done.
Qed.

Lemma Reset_caches InRegistryData s s' :
  Reset InRegistryData s = Some s' → caches_valid E s'.
Proof.
  unfold Reset.
  destruct (CollectCustomData _ FieldDefaultPayload _ _) as [c1 rs1].
  destruct (CollectCustomData _ FieldCustomData _ _) as [c2 rs2].
  intros Hf.
  destruct (FixupDependencies_spec _ _ _ Hf) as (HDC & _ & HAr & Hsum & _).
  apply caches_valid_zero; [| |done].
  - intros r Hr. rewrite HDC in Hr. apply list_elem_of_lookup in Hr as [i Hi].
    rewrite list_lookup_imap in Hi. simpl in Hi. rewrite list_lookup_fmap in Hi.
    destruct (rs2 !! i) as [r2|]; simpl in Hi; [|done]. by injection Hi as <-.
  - intros g Hg. rewrite HAr in Hg.
    pose proof (BuildArchetypes_checksum [] 0
                  (GetPrimaryAssetType <$>
                     DataContainer
                       (SetDataContainer (InvalidateChecksum <$> rs2)
                          (SetCustomDataContainer (Some <$> c2) s)))
                  (Forall_nil_2 _)) as HF.
    rewrite Forall_forall in HF. by apply HF.
Qed.

Lemma Call_caches c s s' :
  state_wf s → caches_valid E s → Call E c s = Some s' →
  state_wf s' ∧ caches_valid E s'.
Proof.
  intros Hwf Hc. destruct c as [[rs|r|Id]|]; simpl.
  - intros Hr. split; [by eapply Reset_wf|by eapply Reset_caches].
  - destruct (AppendData r s) as [[b s1]|] eqn:Ha; [|done]. simpl.
    intros [= <-]. split; [by eapply AppendData_wf|by eapply AppendData_caches].
  - destruct (RemoveData Id s) as [[b s1]|] eqn:Hr; [|done]. simpl.
    intros [= <-]. split; [by eapply RemoveData_wf|by eapply RemoveData_caches].
  - destruct (GetChecksum E s) as [[k s1]|] eqn:Hg; [|done]. simpl.
    intros [= <-]. by destruct (GetChecksum_wf E _ _ _ Hwf Hc Hg) as (? & ? & _).
Qed.

Lemma CallAll_caches cs s s' :
  state_wf s → caches_valid E s → CallAll E cs s = Some s' →
  state_wf s' ∧ caches_valid E s'.
Proof.
  revert s. induction cs as [|c cs IH]; intros s Hwf Hc; simpl.
  - by intros [= <-].
  - destruct (Call E c s) as [s1|] eqn:Hcall; [|done].
    destruct (Call_caches _ _ _ Hwf Hc Hcall). by apply IH.
Qed.
End caches.

(** X16.  The checksum caches are never stale.  After any run of [Reset],
    [AppendData], [RemoveData] and [GetChecksum] calls from the empty state,
    each passing its checks, every cached checksum of a record, of a group
    or of the state is zero or the checksum of what it caches, and
    [GetChecksum] returns the checksum computed from the records with no
    cache, leaving the ids and the data of the records as they were. *)
Theorem checksum_caches_are_never_stale (E : FEngine)
    (cs : list FRegistryCall) (s : FCommonInventoryRegistryState) :
  CallAll E cs EmptyState = Some s →
  state_wf s ∧ caches_valid E s ∧
  ∃ s', GetChecksum E s = Some (ComputeChecksum E s, s') ∧
        GetPrimaryAssetId <$> DataContainer s' = GetPrimaryAssetId <$> DataContainer s ∧
        (∀ Id, ContentOf s' Id = ContentOf s Id).
Proof.
  intros Hrun.
  assert (caches_valid E EmptyState) as Hc0.
  { apply caches_valid_zero; [| |done]; intros x Hx; by apply elem_of_nil in Hx. }
  destruct (CallAll_caches E cs EmptyState s state_wf_EmptyState Hc0 Hrun)
    as [Hwf Hc].
  split; [done|]. split; [done|].
  destruct (GetChecksum_spec E s (wf_derived _ Hwf) Hc)
    as (s' & Hg & HF & HC & HG & HDM & HRM & HB & _ & Hc').
  exists s'. split; [done|].
  assert (state_wf s') as Hwf' by by eapply state_wf_same_but_caches.
  split.
  - clear -HF. induction HF as [|r r' l l' (_ & _ & HS & _) _ IH]; [done|].
    rewrite !fmap_cons, IH. unfold GetPrimaryAssetId. by rewrite HS.
  - intros Id. apply ContentOf_same; [apply Hwf|apply Hwf'|done|done].
Qed.

Lemma Checked_State_run :
  CallAll Sample_Engine Checked_Calls EmptyState = Some Checked_State.
Proof. vm_compute. reflexivity. Qed.

Lemma checksum_caches_are_never_stale_witness :
  ∃ s',
    GetChecksum Sample_Engine Checked_State
      = Some (ComputeChecksum Sample_Engine Checked_State, s').
Proof.
  destruct (checksum_caches_are_never_stale Sample_Engine Checked_Calls
              Checked_State Checked_State_run) as (_ & _ & s' & Hg & _).
  exists s'. exact Hg.
Defined.

(* ===================================================================== *)
(** * Further properties of the comparison and of the propagation         *)
(* ===================================================================== *)

Lemma Identical_true (Lhs Rhs : FInstancedStruct) :
  Identical Lhs Rhs = true ↔ Lhs = Rhs.
Proof.
  unfold Identical. destruct Lhs as [[t m]|], Rhs as [[t' m']|]; simpl;
    repeat case_bool_decide; naive_solver.
Qed.

(** [HasIdenticalData] compares what the two records read. *)
Lemma HasIdenticalData_content (s s' : FCommonInventoryRegistryState)
    (r r' : FCommonInventoryRegistryRecord) :
  HasIdenticalData (CustomDataContainer s) r (CustomDataContainer s') r' = true ↔
  RecordContent s r = RecordContent s' r'.
Proof.
  unfold HasIdenticalData, RecordContent, FieldContent. simpl.
  destruct (bool_decide (SharedData r = SharedData r')) eqn:HS;
    destruct (bool_decide (AssetPath r = AssetPath r')) eqn:HP; simpl;
    try apply bool_decide_eq_true in HS; try apply bool_decide_eq_true in HP;
    try apply bool_decide_eq_false in HS; try apply bool_decide_eq_false in HP.
  - rewrite andb_true_iff, !Identical_true. split.
    + intros [-> ->]. by rewrite HS, HP.
    + by intros [= _ _ -> ->].
  - split; [done|]. by intros [= _ ? _ _].
  - split; [done|]. by intros [= ? _ _ _].
  - split; [done|]. by intros [= ? _ _ _].
Qed.

(** Two memories of the same size that differ, differ in a leaf field. *)
Lemma list_differ (d o : list Z) :
  length d = length o → d ≠ o →
  ∃ j x y, d !! j = Some x ∧ o !! j = Some y ∧ x ≠ y.
Proof.
  revert o. induction d as [|x d IH]; intros [|y o] Hlen Hne; try done.
  destruct (decide (x = y)) as [->|Hxy].
  - destruct (IH o) as (j & x' & y' & ? & ? & ?); [by injection Hlen|congruence|].
    by exists (S j), x', y'.
  - by exists 0%nat, x, y.
Qed.

(** The property loop changes nothing when no default has changed. *)
Lemma PropagateProperties_unchanged D Props Stored b0 Stored' bDirty :
  PropagateProperties D D Props Stored b0 = Some (Stored', bDirty) →
  Stored' = Stored ∧ bDirty = b0.
Proof.
  induction Props as [|P Props IH]; cbn [PropagateProperties].
  - by intros [= <- <-].
  - destruct (PropertyValue D P) as [d|]; [|done].
    by rewrite bool_decide_eq_true_2.
Qed.

Lemma PropagateProperties_no_default Orig Props Stored b0 Stored' bDirty :
  PropagateProperties None Orig Props Stored b0 = Some (Stored', bDirty) →
  Stored' = Stored ∧ bDirty = b0.
Proof. destruct Props; cbn [PropagateProperties]; [by intros [= <- <-]|done]. Qed.

(** When the property loop asks for the package to be marked dirty, a leaf
    field of the payload has got a new default that it did not have
    before.  [Init] is the memory the loop started from. *)
Lemma PropagateProperties_dirty mD Orig (Init : list Z) Props Stored b0 Stored' bDirty :
  PropagateProperties (Some mD) Orig Props Stored b0 = Some (Stored', bDirty) →
  (∀ c, Stored !! c = Init !! c ∨ Stored !! c = mD !! c) →
  (b0 = true →
   ∃ c x, mD !! c = Some x ∧ Stored !! c = Some x ∧ Init !! c ≠ Some x) →
  bDirty = true →
  ∃ c x, mD !! c = Some x ∧ Stored' !! c = Some x ∧ Init !! c ≠ Some x.
Proof.
  revert Stored b0. induction Props as [|P Props IH]; intros Stored b0;
    cbn [PropagateProperties].
  - intros [= <- <-] _ Hb0. done.
  - destruct (PropertyValue (Some mD) P) as [d|] eqn:Hd; [|done].
    destruct (PropertyValue Orig P) as [o|] eqn:Ho; [|done].
    destruct (decide (d = o)) as [Hsame|Hsame].
    { rewrite (bool_decide_eq_true_2 (d = o)) by done. apply IH. }
    rewrite (bool_decide_eq_false_2 (d = o)) by done.
    destruct (PropertyValue (Some Stored) P) as [v|] eqn:Hv; [|done].
    destruct (decide (v = o)) as [Hold|Hold].
    2:{ rewrite (bool_decide_eq_false_2 (v = o)) by done. apply IH. }
    rewrite (bool_decide_eq_true_2 (v = o)) by done.
    intros Hrun Hinv _. apply (IH _ _ Hrun).
    + intros c. rewrite (lookup_CopyCompleteValue _ _ _ _ _ Hv
                           (PropertyValue_length _ _ _ Hd)).
      case_bool_decide as Hin; [|apply Hinv]. right.
      rewrite (sublist_lookup_cells mD d (Prop_Offset P) (Prop_Size P)) by (done || lia).
      f_equal. lia.
    + intros _.
      destruct (list_differ d o) as (j & x & y & Hdj & Hoj & Hxy); [|done|].
      { rewrite (PropertyValue_length _ _ _ Hd).
        by rewrite (PropertyValue_length _ _ _ Ho). }
      assert (j < Prop_Size P)%nat as Hj.
      { rewrite <- (PropertyValue_length _ _ _ Hd). by eapply lookup_lt_Some. }
      exists (Prop_Offset P + j)%nat, x. split_and!.
      * by rewrite <- (sublist_lookup_cells mD d _ (Prop_Size P)).
      * rewrite (lookup_CopyCompleteValue _ _ _ _ _ Hv
                   (PropertyValue_length _ _ _ Hd)).
        rewrite bool_decide_eq_true_2 by lia.
        by replace (Prop_Offset P + j - Prop_Offset P)%nat with j by lia.
      * assert (Stored !! (Prop_Offset P + j)%nat = Some y) as Hcur.
        { rewrite <- (sublist_lookup_cells Stored v _ (Prop_Size P)) by done.
          by rewrite Hold. }
        destruct (Hinv (Prop_Offset P + j)%nat) as [Heq|Heq].
        -- rewrite <- Heq, Hcur. congruence.
        -- rewrite Hcur in Heq.
           rewrite <- (sublist_lookup_cells mD d _ (Prop_Size P)) in Heq by done.
           congruence.
Qed.

(** X18.  What [PropagateItemDefaults] leaves alone, when it returns.  An
    item whose id is not valid, or not known to the original state, keeps
    its id and its payload.  An item whose record, after redirection, is
    in the live registry gets the redirected id; an item whose record is
    gone from the live registry becomes the empty item.  The package is
    marked dirty only if the payload has been changed, and then the payload
    keeps its type.  When the payload has the type of the new default and
    the new default payload is the original one, the payload is left as it
    is and nothing is marked dirty. *)
Theorem PropagateItemDefaults_touches_only_changed_defaults
    (Redirects : FCommonInventoryRedirects)
    (RegistryState : FCommonInventoryRegistryState)
    (SerializeNative : UScriptStruct → bool)
    (Properties : UScriptStruct → list FProperty) (InContext : FContext)
    (Id : FPrimaryAssetId) (InPayload : FInstancedStruct) (Out : FPropagated) :
  PropagateItemDefaults Redirects RegistryState SerializeNative Properties
    InContext Id InPayload = Some Out →
  (FPrimaryAssetId_IsValid Id = false ∨
   ContainsRecord (OriginalRegistryState InContext) Id = false →
   Out = MkPropagated Id InPayload false) ∧
  (FPrimaryAssetId_IsValid Id = true →
   ContainsRecord (OriginalRegistryState InContext) Id = true →
   is_Some (GetRecordPtr RegistryState (TryRedirect Redirects Id).2) →
   OutPrimaryAssetId Out = (TryRedirect Redirects Id).2) ∧
  (FPrimaryAssetId_IsValid Id = true →
   ContainsRecord (OriginalRegistryState InContext) Id = true →
   GetRecordPtr RegistryState (TryRedirect Redirects Id).2 = None →
   Out = MkPropagated FPrimaryAssetId_None None false) ∧
  (bMarkedPackageDirty Out = true →
   OutPayload Out ≠ InPayload ∧ fst <$> OutPayload Out = fst <$> InPayload) ∧
  (∀ RegistryRecord OriginalRecord,
     FPrimaryAssetId_IsValid Id = true →
     GetRecordPtr RegistryState (TryRedirect Redirects Id).2 = Some RegistryRecord →
     GetRecordPtr (OriginalRegistryState InContext) Id = Some OriginalRecord →
     ReadView (CustomDataContainer RegistryState) (DefaultPayload RegistryRecord)
       = ReadView (CustomDataContainer (OriginalRegistryState InContext))
           (DefaultPayload OriginalRecord) →
     fst <$> InPayload =
       View_GetScriptStruct (CustomDataContainer RegistryState)
         (DefaultPayload RegistryRecord) →
     OutPayload Out = InPayload ∧ bMarkedPackageDirty Out = false).
Proof.
  unfold PropagateItemDefaults.
  destruct (FPrimaryAssetId_IsValid Id) eqn:Hvalid; simpl;
    [|intros [= <-]; split_and!; try done].
  destruct (ContainsRecord (OriginalRegistryState InContext) Id) eqn:Hknown; simpl;
    [|intros [= <-]; split_and!; try done].
  destruct (GetRecordPtr RegistryState (TryRedirect Redirects Id).2)
    as [RegistryRecord|] eqn:Hlive.
  2:{ intros [= <-].
      split_and!; try done; try (by intros [?|?]); by intros _ _ [? ?]. }
  set (Default := ReadView (CustomDataContainer RegistryState)
                    (DefaultPayload RegistryRecord)).
  case_bool_decide as Htype.
  { intros [= <-]. split_and!; try done; [by intros [?|?]|].
    intros r o _ [= <-] _ _ Htype'. exfalso. apply Htype.
    by rewrite Htype'. }
  unfold GetRecord.
  destruct (GetRecordPtr (OriginalRegistryState InContext) Id)
    as [OriginalRecord|] eqn:Horig; [|done].
  destruct InPayload as [[ScriptStruct Stored]|].
  - destruct (PropagateProperties _ _ _ Stored false)
      as [[Stored' bDirty]|] eqn:Hp; [|done].
    intros [= <-]. simpl. split_and!; try done; [by intros [?|?]| |].
    + intros Hd. rewrite !andb_true_iff in Hd. destruct Hd as [[[Hd _] _] _].
      split; [|done]. intros [= Heq].
      destruct (snd <$> Default) as [mD|] eqn:HmD.
      * destruct (PropagateProperties_dirty mD _ Stored _ _ _ _ _ Hp)
          as (c & x & _ & Hc & Hne); [by left|done|done|].
        apply Hne. by rewrite <- Heq.
      * apply PropagateProperties_no_default in Hp as [_ ?]. congruence.
    + intros r o _ [= <-] [= <-] Hsamedef _.
      fold Default in Hsamedef. rewrite <- Hsamedef in Hp.
      by apply PropagateProperties_unchanged in Hp as [-> ->].
  - intros [= <-]. simpl. split_and!; try done. by intros [?|?].
Qed.

Lemma PropagateItemDefaults_touches_only_changed_defaults_witness :
  ∃ Out,
    PropagateItemDefaults Sample_ItemRedirects Sample_Live (λ _, true)
      Sample_Properties Hatchet_Context
      (MkPrimaryAssetId "Weapon" "Hatchet") (Some ("Durability", [100; 7; 9]))
      = Some Out ∧
    OutPrimaryAssetId Out = Sample_AxeId ∧
    bMarkedPackageDirty Out = true ∧
    OutPayload Out ≠ Some ("Durability", [100; 7; 9]).
Proof.
  eexists. split; [vm_compute; reflexivity|].
  destruct (PropagateItemDefaults_touches_only_changed_defaults
              Sample_ItemRedirects Sample_Live (λ _, true) Sample_Properties
              Hatchet_Context (MkPrimaryAssetId "Weapon" "Hatchet")
              (Some ("Durability", [100; 7; 9])) _
              ltac:(vm_compute; reflexivity))
    as (_ & Hid & _ & Hdirty & _).
  split; [|split; [vm_compute; reflexivity|]].
  - apply Hid; [vm_compute; reflexivity..|]. vm_compute. eauto.
  - apply Hdirty. vm_compute. reflexivity.
Defined.

(* ===================================================================== *)
(** * Reset                                                               *)
(* ===================================================================== *)

Lemma TArray_Insert_Permutation {A} (l : list A) x k :
  TArray_Insert l x k ≡ₚ x :: l.
Proof.
  unfold TArray_Insert. rewrite <- (take_drop k l) at 3.
  by rewrite Permutation_middle.
Qed.

Lemma TArray_Sort_from_Permutation acc l :
  foldl (λ acc x, TArray_Insert acc x (LowerBound acc x)) acc l ≡ₚ acc ++ l.
Proof.
  revert acc. induction l as [|x l IH]; intros acc; simpl.
  - by rewrite app_nil_r.
  - rewrite IH, TArray_Insert_Permutation. simpl. apply Permutation_middle.
Qed.

Lemma TArray_Sort_Permutation l : TArray_Sort l ≡ₚ l.
Proof. apply (TArray_Sort_from_Permutation [] l). Qed.

Lemma TArray_Sort_from_sorted acc l :
  ids_sorted acc → NoDup (GetPrimaryAssetId <$> acc ++ l) →
  ids_sorted (foldl (λ acc x, TArray_Insert acc x (LowerBound acc x)) acc l).
Proof.
  revert acc. induction l as [|x l IH]; intros acc Hs Hnd; simpl; [done|].
  rewrite fmap_app, fmap_cons in Hnd.
  assert (GetPrimaryAssetId x ∉ GetPrimaryAssetId <$> acc) as Hfresh.
  { apply NoDup_app in Hnd as (_ & Hdisj & _). intros Hin.
    apply (Hdisj _ Hin). left. }
  apply IH; [by apply ids_sorted_insert|].
  rewrite fmap_app.
  assert ((GetPrimaryAssetId <$> TArray_Insert acc x (LowerBound acc x)) ++
            (GetPrimaryAssetId <$> l)
          ≡ₚ (GetPrimaryAssetId <$> acc) ++
               GetPrimaryAssetId x :: (GetPrimaryAssetId <$> l)) as ->; [|done].
  rewrite (fmap_Permutation _ _ _ (TArray_Insert_Permutation acc x _)), fmap_cons.
  simpl. apply Permutation_middle.
Qed.

(** The array [Reset] sorts is strictly sorted when no id occurs twice. *)
Lemma TArray_Sort_sorted l :
  NoDup (GetPrimaryAssetId <$> l) → ids_sorted (TArray_Sort l).
Proof. intros Hnd. apply TArray_Sort_from_sorted; [constructor|done]. Qed.

(** What [CollectCustomData] collects: the item each valid view reads, at
    the index the record gets. *)
Lemma CollectCustomData_content C f acc rs c rs' :
  CollectCustomData C f acc rs = (c, rs') →
  (∃ tail, c = acc ++ tail) ∧
  Forall2 (λ r r', ∃ k, r' = SetIndex f k r ∧
             ((ReadView C (GetView f r) = None ∧ k = INDEX_NONE) ∨
              (∃ item, ReadView C (GetView f r) = Some item ∧ 0 ≤ k ∧
                       c !! Z.to_nat k = Some item))) rs rs'.
Proof.
  revert acc c rs'. induction rs as [|r rs IH]; intros acc c rs'; simpl.
  - intros [= <- <-]. split; [exists []; by rewrite app_nil_r|constructor].
  - destruct (ReadView C (GetView f r)) as [item|] eqn:Hview.
    + destruct (CollectCustomData C f (acc ++ [item]) rs) as [c0 rs0] eqn:Hrec.
      intros [= <- <-]. destruct (IH _ _ _ Hrec) as [[tail ->] HF].
      split; [exists ([item] ++ tail); by rewrite app_assoc|].
      constructor; [|done]. eexists. split; [done|]. right.
      exists item. split_and!; [done|lia|].
      rewrite Nat2Z.id, <- app_assoc. by rewrite lookup_app_r, Nat.sub_diag.
    + destruct (CollectCustomData C f acc rs) as [c0 rs0] eqn:Hrec.
      intros [= <- <-]. destruct (IH _ _ _ Hrec) as [Htail HF].
      split; [done|]. constructor; [|done]. eexists. split; [done|]. by left.
Qed.

Lemma ReadView_Refresh_collected (c : list (string * list Z)) k item :
  0 ≤ k → c !! Z.to_nat k = Some item →
  ReadView (Some <$> c) (RefreshViewData (Some <$> c) k) = Some item.
Proof.
  intros Hk Hc. rewrite ReadView_Refresh.
  assert (IsValidIndex (Some <$> c) k = true) as ->.
  { apply IsValidIndex_true. rewrite length_fmap.
    apply lookup_lt_Some in Hc. lia. }
  by rewrite list_lookup_fmap, Hc.
Qed.

Lemma SetIndex_SharedData f k r : SharedData (SetIndex f k r) = SharedData r.
Proof. by destruct f. Qed.

Lemma SetIndex_AssetPath f k r : AssetPath (SetIndex f k r) = AssetPath r.
Proof. by destruct f. Qed.

Lemma Forall2_compose {A B C} (P : A → B → Prop) (Q : B → C → Prop) l1 l2 l3 :
  Forall2 P l1 l2 → Forall2 Q l2 l3 →
  Forall2 (λ x z, ∃ y, P x y ∧ Q y z) l1 l3.
Proof.
  intros H12. revert l3. induction H12 as [|x y l1 l2 Hxy _ IH]; intros l3 H23.
  - inversion H23. constructor.
  - inversion H23 as [|y' z l2' l3' Hyz H23']; subst.
    constructor; [eauto|by apply IH].
Qed.

(** The records [Reset] hands to [FixupDependencies]. *)
Lemma Reset_records InRegistryData s c1 rs1 c2 rs2 :
  CollectCustomData (CustomDataContainer s) FieldDefaultPayload []
    (TArray_Sort InRegistryData) = (c1, rs1) →
  CollectCustomData (CustomDataContainer s) FieldCustomData c1 rs1 = (c2, rs2) →
  Forall2 (λ r p,
             SharedData p = SharedData r ∧ AssetPath p = AssetPath r ∧
             RecordChecksum p = 0 ∧
             ∀ f, ReadView (Some <$> c2)
                    (RefreshViewData (Some <$> c2) (GetIndex f p))
                  = ReadView (CustomDataContainer s) (GetView f r))
    (TArray_Sort InRegistryData) (InvalidateChecksum <$> rs2).
Proof.
  intros H1 H2.
  destruct (CollectCustomData_content _ _ _ _ _ _ H1) as [_ HF1].
  destruct (CollectCustomData_content _ _ _ _ _ _ H2) as [[tail ->] HF2].
  apply Forall2_fmap_r.
  eapply Forall2_impl; [exact (Forall2_compose _ _ _ _ _ HF1 HF2)|].
  intros r r2 (r1 & (k1 & -> & Hk1) & (k2 & -> & Hk2)).
  rewrite GetView_SetIndex in Hk2.
  split_and!; [done|done|done|]. intros f.
  assert (GetIndex f (InvalidateChecksum
            (SetIndex FieldCustomData k2 (SetIndex FieldDefaultPayload k1 r)))
          = match f with FieldDefaultPayload => k1 | FieldCustomData => k2 end)
    as -> by by destruct f.
  destruct f.
  - destruct Hk1 as [[-> ->]|(item & -> & Hk & Hitem)].
    + rewrite ReadView_Refresh. by rewrite IsValidIndex_NONE.
    + apply ReadView_Refresh_collected; [done|].
      by apply lookup_app_l_Some.
  - destruct Hk2 as [[-> ->]|(item & -> & Hk & Hitem)].
    + rewrite ReadView_Refresh. by rewrite IsValidIndex_NONE.
    + by apply ReadView_Refresh_collected.
Qed.

(** X19.  [Reset] passes its checks exactly when no id occurs twice among
    the records it is given.  The state it builds is well formed, holds
    the ids of these records and no other, and each record reads the
    shared data, the asset path and the two payloads of the record given,
    read where its views pointed before the call; no checksum is cached,
    of a record, of an archetype group or of the state. *)
Theorem Reset_loads_the_given_records
    (InRegistryData : list FCommonInventoryRegistryRecord)
    (s : FCommonInventoryRegistryState) :
  (is_Some (Reset InRegistryData s) ↔
   NoDup (GetPrimaryAssetId <$> InRegistryData)) ∧
  ∀ s', Reset InRegistryData s = Some s' →
    state_wf s' ∧
    GetPrimaryAssetId <$> DataContainer s' ≡ₚ GetPrimaryAssetId <$> InRegistryData ∧
    (∀ r, r ∈ InRegistryData →
       ContentOf s' (GetPrimaryAssetId r) =
         Some (SharedData r, AssetPath r,
               ReadView (CustomDataContainer s) (DefaultPayload r),
               ReadView (CustomDataContainer s) (CustomData r)) ∧
       RecordChecksumOf s' (GetPrimaryAssetId r) = Some 0) ∧
    (∀ Id, Id ∉ GetPrimaryAssetId <$> InRegistryData → ContentOf s' Id = None) ∧
    (∀ g, g ∈ Archetypes s' → GroupChecksum g = 0) ∧
    Checksum s' = 0.
Proof.
  unfold Reset.
  destruct (CollectCustomData _ FieldDefaultPayload _ _) as [c1 rs1] eqn:H1.
  destruct (CollectCustomData _ FieldCustomData _ _) as [c2 rs2] eqn:H2.
  pose proof (Reset_records _ _ _ _ _ _ H1 H2) as HF.
  set (s1 := SetDataContainer (InvalidateChecksum <$> rs2)
               (SetCustomDataContainer (Some <$> c2) s)) in *.
  assert (GetPrimaryAssetId <$> DataContainer s1
          = GetPrimaryAssetId <$> TArray_Sort InRegistryData) as Hids.
  { simpl. clear -HF. induction HF as [|r p l l' (HS & _) _ IH]; [done|].
    rewrite !fmap_cons, IH. unfold GetPrimaryAssetId. by rewrite HS. }
  assert (GetPrimaryAssetId <$> DataContainer s1 ≡ₚ GetPrimaryAssetId <$> InRegistryData)
    as Hperm.
  { rewrite Hids. apply fmap_Permutation, TArray_Sort_Permutation. }
  split.
  - split.
    + intros [s' Hf].
      destruct (FixupDependencies_spec _ _ _ Hf) as (_ & _ & _ & _ & Hsorted & _).
      rewrite <- Hperm. by apply ids_sorted_NoDup.
    + intros Hnd. apply FixupDependencies_total.
      eapply ids_sorted_same_ids; [symmetry; exact Hids|].
      by apply TArray_Sort_sorted.
  - intros s' Hf.
    assert (state_wf s') as Hwf.
    { apply (Reset_wf InRegistryData s). unfold Reset. by rewrite H1, H2. }
    destruct (FixupDependencies_by_id _ _ _ Hf) as [Hrecs Hnone].
    destruct (FixupDependencies_spec _ _ _ Hf) as (_ & _ & HAr & Hsum & _).
    split_and!; [done| | | | |done].
    + by rewrite (FixupDependencies_ids _ _ _ Hf).
    + intros r Hr.
      assert (r ∈ TArray_Sort InRegistryData) as Hr'
        by by rewrite TArray_Sort_Permutation.
      apply list_elem_of_lookup in Hr' as [i Hi].
      destruct (Forall2_lookup_l _ _ _ _ _ HF Hi) as (p & Hp & HS & HP & Hk & Hviews).
      destruct (Hrecs p) as (r' & Hptr & HS' & HP' & Hk' & Hcontent).
      { simpl. by eapply list_elem_of_lookup_2. }
      assert (GetPrimaryAssetId p = GetPrimaryAssetId r) as Hid
        by (unfold GetPrimaryAssetId; by rewrite HS).
      rewrite Hid in Hptr. unfold ContentOf, RecordChecksumOf. rewrite Hptr. simpl.
      split; [|by rewrite Hk', Hk].
      unfold RecordContent. rewrite HS', HP', HS, HP, !Hcontent. simpl.
      pose proof (Hviews FieldDefaultPayload) as Hv1.
      pose proof (Hviews FieldCustomData) as Hv2. simpl in Hv1, Hv2.
      by rewrite Hv1, Hv2.
    + intros Id HId. unfold ContentOf. rewrite Hnone; [done|].
      intros Hin. apply HId. by rewrite <- Hperm.
    + intros g Hg. rewrite HAr in Hg.
      pose proof (BuildArchetypes_checksum [] 0
                    (GetPrimaryAssetType <$> DataContainer s1) (Forall_nil_2 _)) as HG.
      rewrite Forall_forall in HG. by apply HG.
Qed.

(* ===================================================================== *)
(** * What a diff leaves                                                  *)
(* ===================================================================== *)

(** What [RemoveAll] leaves when every [RemoveData] passes its checks and
    returns true. *)
Lemma RemoveAll_spec Ids s s' :
  state_wf s → RemoveAll Ids s = Some s' →
  state_wf s' ∧
  ∀ Id, ContentOf s' Id = if bool_decide (Id ∈ Ids) then None else ContentOf s Id.
Proof.
  revert s. induction Ids as [|Id0 Ids IH]; intros s Hwf; cbn [RemoveAll].
  - intros [= <-]. split; [done|]. intros Id.
    rewrite bool_decide_eq_false_2; [done|apply not_elem_of_nil].
  - destruct (RemoveData Id0 s) as [[[] s1]|] eqn:Hr; [|done|done].
    intros Hrest.
    destruct (RemoveData_spec _ _ _ Hwf Hr) as (r & _ & Hwf1 & _ & Hgone & Hothers & _).
    destruct (IH _ Hwf1 Hrest) as [Hwf' Hcontent].
    split; [done|]. intros Id. rewrite Hcontent.
    destruct (decide (Id = Id0)) as [->|Hne].
    + rewrite (bool_decide_eq_true_2 (Id0 ∈ Id0 :: Ids)) by left.
      unfold ContentOf. rewrite Hgone. by case_bool_decide.
    + destruct (Hothers Id Hne) as [-> _].
      rewrite (bool_decide_ext (Id ∈ Id0 :: Ids) (Id ∈ Ids)); [done|].
      rewrite elem_of_cons. naive_solver.
Qed.

Lemma omap_sublist {A B} (f : A → option B) (g : A → B) (l : list A) :
  (∀ x y, f x = Some y → y = g x) → omap f l `sublist_of` g <$> l.
Proof.
  intros Hf. induction l as [|x l IH]; simpl; [done|].
  destruct (f x) as [y|] eqn:Hx.
  - rewrite (Hf _ _ Hx). by apply sublist_skip.
  - by apply sublist_cons.
Qed.

(** The ids the slow loop of [DiffRecords] collects: the ids both states
    hold with the same content. *)
Lemma PendingRemoveRecords_slow FirstState SecondState Id :
  derived_ok FirstState →
  Id ∈ PendingRemoveRecords false FirstState SecondState ↔
  is_Some (ContentOf FirstState Id) ∧
  ContentOf FirstState Id = ContentOf SecondState Id.
Proof.
  intros Hd. unfold PendingRemoveRecords. rewrite list_elem_of_omap. split.
  - intros (FirstRecord & Hin & Hsome).
    assert (GetRecordPtr FirstState (GetPrimaryAssetId FirstRecord) = Some FirstRecord)
      as Hfirst by by apply GetRecordPtr_Some.
    destruct (GetRecordPtr SecondState (GetPrimaryAssetId FirstRecord))
      as [SecondRecord|] eqn:Hsecond; [|done].
    destruct (HasIdenticalData _ SecondRecord _ FirstRecord) eqn:Hsame; [|done].
    injection Hsome as <-. apply HasIdenticalData_content in Hsame.
    unfold ContentOf. rewrite Hfirst, Hsecond. simpl. split; [eauto|by f_equal].
  - unfold ContentOf. intros [[c Hc] Heq]. rewrite Hc in Heq.
    destruct (GetRecordPtr FirstState Id) as [FirstRecord|] eqn:Hfirst; [|done].
    destruct (GetRecordPtr SecondState Id) as [SecondRecord|] eqn:Hsecond; [|done].
    apply (GetRecordPtr_Some _ _ _ Hd) in Hfirst as [Hin <-].
    exists FirstRecord. split; [done|]. rewrite Hsecond.
    rewrite (proj2 (HasIdenticalData_content SecondState FirstState
                      SecondRecord FirstRecord)); [done|].
    simpl in Hc, Heq. congruence.
Qed.

Lemma PendingRemoveRecords_NoDup bFast FirstState SecondState :
  ids_sorted (DataContainer FirstState) →
  NoDup (PendingRemoveRecords bFast FirstState SecondState).
Proof.
  intros Hs.
  apply (sublist_NoDup _ (GetPrimaryAssetId <$> DataContainer FirstState));
    [by apply ids_sorted_NoDup|].
  apply omap_sublist. intros r Id.
  destruct (GetRecordPtr SecondState (GetPrimaryAssetId r)); [|done].
  by destruct (if bFast then _ else _); intros [= <-].
Qed.

(** X20.  What [DiffRecords] leaves when it passes its checks, both states
    well formed and one of the two top-level checksums not cached (so that
    records are compared by [HasIdenticalData]): a record that the base
    state holds with the same shared data, asset path and payloads is gone,
    every other record of the state is there and reads what it read, and
    the state is still well formed. *)
Theorem DiffRecords_keeps_what_differs InBaseState s s' :
  state_wf s → state_wf InBaseState →
  Checksum s = 0 ∨ Checksum InBaseState = 0 →
  DiffRecords InBaseState s = Some s' →
  state_wf s' ∧
  ∀ Id, ContentOf s' Id =
        if bool_decide (ContentOf s Id = ContentOf InBaseState Id)
        then None else ContentOf s Id.
Proof.
  intros Hwf Hwfb Hslow. unfold DiffRecords.
  destruct (HasRecords s) eqn:Hs; simpl.
  2:{ intros [= <-]. split; [done|]. intros Id. case_bool_decide as Heq; [|done].
      unfold HasRecords in Hs. apply negb_false_iff, bool_decide_eq_true in Hs.
      unfold ContentOf. apply fmap_None. apply GetRecordPtr_None; [apply Hwf|].
      rewrite Hs. apply not_elem_of_nil. }
  destruct (HasRecords InBaseState) eqn:Hb.
  2:{ intros [= <-]. split; [done|]. intros Id. case_bool_decide as Heq; [|done].
      unfold HasRecords in Hb. apply negb_false_iff, bool_decide_eq_true in Hb.
      rewrite Heq. unfold ContentOf. apply fmap_None.
      apply GetRecordPtr_None; [apply Hwfb|]. rewrite Hb. apply not_elem_of_nil. }
  replace (negb (bool_decide (Checksum s = 0))
           && negb (bool_decide (Checksum InBaseState = 0))) with false
    by (destruct Hslow as [-> | ->]; simpl; [done|by rewrite andb_false_r]).
  set (bSwap := bool_decide (GetRecordsNum InBaseState < GetRecordsNum s)%nat).
  set (FirstState := if bSwap then InBaseState else s).
  set (SecondState := if bSwap then s else InBaseState).
  set (Pending := PendingRemoveRecords false FirstState SecondState).
  assert (state_wf FirstState) as HwfF by (unfold FirstState; by destruct bSwap).
  assert (∀ Id, Id ∈ Pending ↔
            is_Some (ContentOf s Id) ∧ ContentOf s Id = ContentOf InBaseState Id)
    as Hpending.
  { intros Id. unfold Pending.
    rewrite PendingRemoveRecords_slow by apply HwfF.
    unfold FirstState, SecondState. destruct bSwap; [|done].
    split; intros [Hsome Heq]; (split; [|done]); congruence. }
  assert (∀ Id, bool_decide (ContentOf s Id = ContentOf InBaseState Id) = true →
                Id ∉ Pending → ContentOf s Id = None) as Hnone.
  { intros Id Heq%bool_decide_eq_true Hnot.
    destruct (ContentOf s Id) as [c|] eqn:Hc; [|done].
    exfalso. apply Hnot, Hpending. rewrite Hc. split; [eauto|done]. }
  case_bool_decide as Hall.
  - destruct (Reset_nil s) as (s0 & Hreset & HD & _). rewrite Hreset.
    intros [= <-]. split.
    { by apply (Reset_wf [] s). }
    assert (∀ Id, ContentOf s0 Id = None) as Hempty.
    { intros Id. unfold ContentOf. apply fmap_None.
      apply GetRecordPtr_None.
      - by eapply wf_derived, (Reset_wf [] s).
      - rewrite HD. apply not_elem_of_nil. }
    intros Id. rewrite Hempty. case_bool_decide as Heq; [done|].
    symmetry. destruct (ContentOf s Id) as [c|] eqn:Hc; [|done].
    exfalso.
    assert (Pending ≡ₚ GetPrimaryAssetId <$> DataContainer s) as Hperm.
    { apply submseteq_length_Permutation.
      - apply NoDup_submseteq.
        + apply PendingRemoveRecords_NoDup, HwfF.
        + intros x [[c' Hx] _]%Hpending. unfold ContentOf in Hx.
          destruct (GetRecordPtr s x) as [r|] eqn:Hr; [|done].
          apply (GetRecordPtr_Some _ _ _ (wf_derived _ Hwf)) in Hr as [Hin <-].
          apply list_elem_of_fmap. eauto.
      - rewrite length_fmap. unfold GetRecordsNum in Hall. lia. }
    assert (Id ∈ Pending) as Hin.
    { rewrite Hperm. unfold ContentOf in Hc.
      destruct (GetRecordPtr s Id) as [r|] eqn:Hr; [|done].
      apply (GetRecordPtr_Some _ _ _ (wf_derived _ Hwf)) in Hr as [Hin <-].
      apply list_elem_of_fmap. eauto. }
    apply Hpending in Hin as [_ Hsame]. congruence.
  - intros Hrun. destruct (RemoveAll_spec _ _ _ Hwf Hrun) as [Hwf' Hcontent].
    split; [done|]. intros Id. rewrite Hcontent.
    case_bool_decide as Hin.
    + apply Hpending in Hin as [_ Heq]. by rewrite bool_decide_eq_true_2.
    + case_bool_decide as Heq; [|done].
      apply Hnone; [by apply bool_decide_eq_true|done].
Qed.

Lemma DiffRecords_keeps_what_differs_witness :
  ∃ s', DiffRecords Sample_State Diff_Updated = Some s' ∧
        state_wf s' ∧
        ContentOf s' (MkPrimaryAssetId "Weapon" "Bow") = None ∧
        ContentOf s' (MkPrimaryAssetId "Weapon" "Sword") =
          ContentOf Diff_Updated (MkPrimaryAssetId "Weapon" "Sword").
Proof.
  assert (state_wf Diff_Updated) as Hwf.
  { apply (reachable_wf (Sample_Mutations ++ [MutAppendData Sample_Sword2])).
    vm_compute; reflexivity. }
  assert (state_wf Sample_State) as Hwfb
    by exact (reachable_wf _ _ Sample_State_reachable).
  assert (Checksum Diff_Updated = 0) as Hzero by (vm_compute; reflexivity).
  assert (DiffRecords Sample_State Diff_Updated =
          Some (default EmptyState (DiffRecords Sample_State Diff_Updated))) as Hrun
    by (vm_compute; reflexivity).
  destruct (DiffRecords_keeps_what_differs Sample_State Diff_Updated _
              Hwf Hwfb (or_introl Hzero) Hrun) as [Hwf' Hcontent].
  eexists. split; [exact Hrun|]. split; [exact Hwf'|]. split.
  - rewrite Hcontent. vm_compute; reflexivity.
  - rewrite Hcontent. vm_compute; reflexivity.
Defined.

(* ===================================================================== *)
(** * Replication of an item id                                           *)
(* ===================================================================== *)

Lemma length_BitsOf n v : length (BitsOf n v) = n.
Proof. revert v. induction n as [|n IH]; intros v; simpl; [done|]. by rewrite IH. Qed.

Lemma ValueOf_BitsOf n v : ValueOf (BitsOf n v) = v mod 2 ^ Z.of_nat n.
Proof.
  revert v. induction n as [|n IH]; intros v.
  - simpl. by rewrite Z.mod_1_r.
  - cbn [BitsOf ValueOf]. rewrite IH, Nat2Z.inj_succ, Z.pow_succ_r by lia.
    rewrite Z.rem_mul_r by lia. rewrite Z.div2_div, Zmod_odd.
    by destruct (Z.odd v).
Qed.

(** A reader gets back the value a writer has written in enough bits. *)
Lemma Reader_SerializeBits_written Value LengthBits Rest :
  0 ≤ LengthBits → 0 ≤ Value < 2 ^ LengthBits →
  Reader_SerializeBits LengthBits
    (MkBitReader (BitsOf (Z.to_nat LengthBits) Value ++ Rest) false)
  = (Value, MkBitReader Rest false).
Proof.
  intros Hn Hv. unfold Reader_SerializeBits. simpl.
  rewrite bool_decide_eq_false_2
    by (rewrite length_app, length_BitsOf; lia).
  rewrite take_app_length', drop_app_length' by (by rewrite length_BitsOf).
  rewrite ValueOf_BitsOf, Z2Nat.id by done. by rewrite Z.mod_small.
Qed.

Lemma uint32_range z : 0 ≤ uint32 z < 2 ^ 32.
Proof. unfold uint32. apply Z.mod_pos_bound. lia. Qed.

(** In a fixed-up state every replication index fits the encoding width. *)
Lemma derived_ok_RepIndex_fits s i r :
  derived_ok s → DataContainer s !! i = Some r →
  0 ≤ RepIndex r < 2 ^ RepIndexEncodingBitsNum s.
Proof.
  intros Hd Hr. rewrite (derived_RepIndex _ Hd _ _ Hr), (derived_Bits _ Hd).
  apply lookup_lt_Some in Hr.
  pose proof (Z.log2_up_spec (Z.of_nat (length (DataContainer s)) + 1)) as Hlog.
  lia.
Qed.

(** Filling the cache of one record changes no content. *)
Lemma GetChecksumAt_spec E s Idx r :
  state_wf s → caches_valid E s → DataContainer s !! Idx = Some r →
  ∃ r' s',
    GetChecksumAt E s Idx r
      = (ComputeRecordChecksum E (CustomDataContainer s) r, r', s') ∧
    state_wf s' ∧ ∀ Id, ContentOf s' Id = ContentOf s Id.
Proof.
  intros Hwf Hc Hr. unfold GetChecksumAt.
  destruct (Record_GetChecksum_spec E (CustomDataContainer s) r
              (cache_record _ _ Hc _ _ Hr)) as (r' & -> & Hsame & _).
  eexists _, _. split; [done|].
  assert (Forall2 same_but_checksum (DataContainer s) (<[Idx := r']> (DataContainer s)))
    as HF.
  { apply Forall2_same_length_lookup_2; [by rewrite length_insert|].
    intros j x y Hx Hy. destruct (decide (Idx = j)) as [->|Hne].
    - rewrite list_lookup_insert_eq in Hy by (by eapply lookup_lt_Some).
      congruence.
    - rewrite list_lookup_insert_ne in Hy by done.
      replace y with x by congruence. apply same_but_checksum_refl. }
  assert (state_wf (SetDataContainer (<[Idx := r']> (DataContainer s)) s)) as Hwf'.
  { apply (state_wf_same_but_caches s); try done.
    apply Forall_Forall2_diag, Forall_forall. intros g _. by split_and!. }
  split; [done|]. intros Id.
  apply ContentOf_same; [apply Hwf|apply Hwf'|done|done].
Qed.

(** X21.  An item id sent by [NetSerializeItem] arrives.  Writer and
    reader are well-formed states with valid checksum caches that hold the
    same ids.  Saving leaves the id and the success flag alone and writes
    the replication index in the encoding width of the state, followed by
    32 bits of checksum when network checksums are compiled in.  Loading
    these bits consumes exactly them without an archive error; it yields
    the id that was sent when the writer holds it and the invalid id when
    it does not; it never sets the success flag, and it leaves the flag as
    it was when network checksums are compiled out or the record reads the
    same on both sides.  Neither call changes what a record reads. *)
Theorem NetSerializeItem_roundtrip (E : FEngine) (bWithNetworkChecksum : bool)
    (Writer Reader : FCommonInventoryRegistryState)
    (Id Stale : FPrimaryAssetId) (bW bR : bool) (Rest : list bool) :
  state_wf Writer → state_wf Reader →
  caches_valid E Writer → caches_valid E Reader →
  GetPrimaryAssetId <$> DataContainer Reader
    = GetPrimaryAssetId <$> DataContainer Writer →
  ∃ CtxW Sent Writer' CtxR Reader',
    NetSerializeItem_Save E bWithNetworkChecksum Writer [] Id bW
      = (CtxW, Sent, Writer') ∧
    NetSerializeItem_Load E bWithNetworkChecksum Reader
      (MkBitReader (Sent ++ Rest) false) Stale bR
      = (CtxR, MkBitReader Rest false, Reader') ∧
    Out_PrimaryAssetId CtxW = Id ∧ Out_bOutSuccess CtxW = bW ∧
    length Sent = (Z.to_nat (RepIndexEncodingBitsNum Writer)
                   + if bWithNetworkChecksum then 32 else 0)%nat ∧
    Out_PrimaryAssetId CtxR
      = (if ContainsRecord Writer Id then Id else FPrimaryAssetId_None) ∧
    (Out_bOutSuccess CtxR = true → bR = true) ∧
    (bWithNetworkChecksum = false ∨ ContentOf Reader Id = ContentOf Writer Id →
     Out_bOutSuccess CtxR = bR) ∧
    (∀ Id', ContentOf Writer' Id' = ContentOf Writer Id') ∧
    (∀ Id', ContentOf Reader' Id' = ContentOf Reader Id').
Proof.
  intros HwfW HwfR HcW HcR Hids.
  pose proof (wf_derived _ HwfW) as HdW. pose proof (wf_derived _ HwfR) as HdR.
  assert (length (DataContainer Reader) = length (DataContainer Writer)) as Hlen.
  { by rewrite <- (length_fmap GetPrimaryAssetId), Hids, length_fmap. }
  assert (RepIndexEncodingBitsNum Reader = RepIndexEncodingBitsNum Writer) as Hbits.
  { by rewrite (derived_Bits _ HdW), (derived_Bits _ HdR), Hlen. }
  assert (0 ≤ RepIndexEncodingBitsNum Writer) as Hnonneg.
  { rewrite (derived_Bits _ HdW). apply Z.log2_up_nonneg. }
  unfold NetSerializeItem_Save, NetSerializeItem_Load, ContainsRecord.
  rewrite Hbits.
  destruct (DataMap Writer !! Id) as [Idx|] eqn:HIdx.
  - destruct (derived_ok_DataMap_lookup _ _ _ HdW HIdx) as (r & Hr & Hid).
    rewrite Hr.
    pose proof (derived_ok_RepIndex_fits _ _ _ HdW Hr) as Hfits.
    assert (Idx < length (DataContainer Reader))%nat as HltR
      by (rewrite Hlen; by eapply lookup_lt_Some).
    destruct (lookup_lt_is_Some_2 _ _ HltR) as [rR HrR].
    assert (GetPrimaryAssetId rR = Id) as HidR.
    { assert ((GetPrimaryAssetId <$> DataContainer Reader) !! Idx
              = (GetPrimaryAssetId <$> DataContainer Writer) !! Idx) as Heq
        by by rewrite Hids.
      rewrite !list_lookup_fmap, Hr, HrR in Heq. cbn in Heq. congruence. }
    assert (ReplicationMap Reader !! RepIndex r = Some Idx) as HRM.
    { apply (derived_ReplicationMap _ HdR).
      split; [apply (derived_RepIndex _ HdW _ _ Hr)|done]. }
    assert (ContentOf Writer Id = Some (RecordContent Writer r)) as HcontW.
    { unfold ContentOf, GetRecordPtr. by rewrite HIdx, Hr. }
    assert (ContentOf Reader Id = Some (RecordContent Reader rR)) as HcontR.
    { unfold ContentOf.
      rewrite (proj2 (GetRecordPtr_Some Reader Id rR HdR)); [done|].
      split; [by eapply list_elem_of_lookup_2|done]. }
    rewrite HcontW, HcontR.
    rewrite (bool_decide_eq_true_2 (is_Some (Some Idx))) by eauto.
    destruct bWithNetworkChecksum.
    + destruct (GetChecksumAt_spec E _ _ _ HwfW HcW Hr) as (rW' & W' & -> & _ & HW').
      destruct (GetChecksumAt_spec E _ _ _ HwfR HcR HrR) as (rR' & R' & HgR & _ & HR').
      eexists _, _, _, _, _. split; [reflexivity|].
      unfold Writer_SerializeBits. cbn -[BitsOf Z.to_nat uint32 Z.pow]. rewrite <- !app_assoc.
      rewrite (Reader_SerializeBits_written _ _ _ Hnonneg Hfits).
      rewrite (Reader_SerializeBits_written _ 32 Rest)
        by (first [lia|apply uint32_range]).
      rewrite HRM, HrR. cbn -[BitsOf Z.to_nat uint32 Z.pow]. rewrite HgR.
      split; [reflexivity|]. cbn -[BitsOf Z.to_nat uint32 Z.pow].
      split_and!; try done.
      * rewrite length_app, !length_BitsOf. done.
      * by case_bool_decide; destruct bR.
      * intros [?|Hsame]; [done|].
        assert (RecordContent Reader rR = RecordContent Writer r) as Heq
          by congruence.
        rewrite (ComputeRecordChecksum_content E _ _ _ _ Heq).
        by rewrite bool_decide_eq_true_2.
    + eexists _, _, _, _, _. split; [reflexivity|].
      unfold Writer_SerializeBits. cbn -[BitsOf Z.to_nat uint32 Z.pow].
      rewrite (Reader_SerializeBits_written _ _ _ Hnonneg Hfits).
      rewrite HRM, HrR. cbn -[BitsOf Z.to_nat uint32 Z.pow].
      split; [reflexivity|]. cbn -[BitsOf Z.to_nat uint32 Z.pow].
      split_and!; try done. by rewrite length_BitsOf, Nat.add_0_r.
  - assert (ReplicationMap Reader !! INVALID_REPLICATION_INDEX = None) as HRM.
    { destruct (ReplicationMap Reader !! INVALID_REPLICATION_INDEX) as [i|] eqn:Hi;
        [|done].
      apply (derived_ReplicationMap _ HdR) in Hi as [Hi _].
      unfold INVALID_REPLICATION_INDEX in Hi. lia. }
    assert (0 ≤ INVALID_REPLICATION_INDEX < 2 ^ RepIndexEncodingBitsNum Writer)
      as Hfits.
    { unfold INVALID_REPLICATION_INDEX. split; [done|]. by apply Z.pow_pos_nonneg. }
    rewrite (bool_decide_eq_false_2 (is_Some None)) by (by intros [? ?]).
    eexists _, _, _, _, _. split; [reflexivity|].
    unfold Writer_SerializeBits. cbn -[BitsOf Z.to_nat uint32 Z.pow].
    destruct bWithNetworkChecksum.
    + rewrite <- !app_assoc.
      rewrite (Reader_SerializeBits_written _ _ _ Hnonneg Hfits).
      rewrite (Reader_SerializeBits_written 0 32 Rest) by lia.
      rewrite HRM. cbn -[BitsOf Z.to_nat uint32 Z.pow]. split; [reflexivity|]. cbn -[BitsOf Z.to_nat uint32 Z.pow].
      split_and!; try done. by rewrite length_app, !length_BitsOf.
    + rewrite (Reader_SerializeBits_written _ _ _ Hnonneg Hfits).
      rewrite HRM. cbn -[BitsOf Z.to_nat uint32 Z.pow]. split; [reflexivity|]. cbn -[BitsOf Z.to_nat uint32 Z.pow].
      split_and!; try done. by rewrite length_BitsOf, Nat.add_0_r.
Qed.

Lemma caches_valid_EmptyState (E : FEngine) : caches_valid E EmptyState.
Proof.
  apply caches_valid_zero; [|  |done].
  - intros r Hr. by apply elem_of_nil in Hr.
  - intros g Hg. by apply elem_of_nil in Hg.
Qed.

Lemma NetSerializeItem_roundtrip_witness :
  ∃ CtxW Sent Writer' CtxR Reader',
    NetSerializeItem_Save Sample_Engine true Checked_State []
      (MkPrimaryAssetId "Weapon" "Bow") true = (CtxW, Sent, Writer') ∧
    NetSerializeItem_Load Sample_Engine true Peer_State
      (MkBitReader (Sent ++ [true]) false) FPrimaryAssetId_None true
      = (CtxR, MkBitReader [true] false, Reader') ∧
    length Sent = 34%nat ∧
    Out_PrimaryAssetId CtxR = MkPrimaryAssetId "Weapon" "Bow" ∧
    Out_bOutSuccess CtxR = true.
Proof.
  destruct (CallAll_caches Sample_Engine Checked_Calls EmptyState Checked_State
              state_wf_EmptyState (caches_valid_EmptyState _) Checked_State_run)
    as [HwfW HcW].
  assert (CallAll Sample_Engine Peer_Calls EmptyState = Some Peer_State) as Hpeer
    by (vm_compute; reflexivity).
  destruct (CallAll_caches Sample_Engine Peer_Calls EmptyState Peer_State
              state_wf_EmptyState (caches_valid_EmptyState _) Hpeer)
    as [HwfR HcR].
  assert (GetPrimaryAssetId <$> DataContainer Peer_State
          = GetPrimaryAssetId <$> DataContainer Checked_State) as Hids
    by (vm_compute; reflexivity).
  destruct (NetSerializeItem_roundtrip Sample_Engine true Checked_State Peer_State
              (MkPrimaryAssetId "Weapon" "Bow") FPrimaryAssetId_None true true
              [true] HwfW HwfR HcW HcR Hids)
    as (CtxW & Sent & W' & CtxR & R' & Hsave & Hload & _ & _ & Hlen & Hid & _ & Hok & _).
  exists CtxW, Sent, W', CtxR, R'.
  split; [exact Hsave|]. split; [exact Hload|]. split_and!.
  - rewrite Hlen. vm_compute; reflexivity.
  - rewrite Hid. vm_compute; reflexivity.
  - apply Hok. right. vm_compute; reflexivity.
Defined.
